(** * Address reconciliation: a model of the cleaning scripts

    The development follows the Python sources under [scripts/]:
    [helpers.py] (ProposedChange, SplitEvent, UnionFind),
    [fuzzy_search.py] (Rule 2) and [fuzzy_search_cities.py] (Rule 4), both
    built on a pairwise clustering of spelling variants,
    [fill_missing_zip_codes.py] (Rules 1, 3a and 3b) and [main.py]
    (signature splitter, conflict resolver, entry point).

    Conventions of the embedding.
    - A table cell is either the pandas missing marker [NaN] or a text
      [Str s]; numbers are carried by their text.  Absent cells of an
      object column all hold the one [np.nan] object, so dictionary keys
      compare structurally while the Python operator [==] never equates
      two missing cells.
    - The dtype of a column is not read off its cells; where the code
      depends on it (the ZIP column in Rules 1 and 3a) the view records
      it.
    - Python dictionaries keep insertion order: they are association lists
      updated in place.
    - A Python exception is the result [None], or one of the two errors
      of [raised] where the kind of exception matters.
    - Texts are ASCII texts: a character of a string is a character of
      the Python text, and [len], [strip], [lower], [upper] and the digit
      class of the ZIP pattern are those of Python on the ASCII range.
      Outside that range Python's classes are larger (other decimal
      digits, other blanks, other letters) and the model says nothing.
    - AIDs are integers; the counters that mint new AIDs are numpy
      [int64] values and wrap around at [2^63].
    - Floats, the edit distance of rapidfuzz and the order pandas gives
      the house numbers are parameters. *)

From Stdlib Require Import ZArith String Ascii List Lia Bool QArith.
From stdpp Require Import base tactics option list relations sorting.
From stdpp Require Import strings.

#[local] Set Warnings "-clear-no-such-hyp".

Local Open Scope string_scope.
Local Open Scope list_scope.
Local Open Scope nat_scope.

(* ================================================================== *)
(** * Part I. The programs                                              *)
(* ================================================================== *)

(** ** Cells, Python text helpers and insertion-ordered dictionaries *)

Inductive value : Type :=
| NaN : value
| Str : string → value.

#[global] Instance value_eq_dec : EqDecision value.
Proof. solve_decision. Defined.

(** [pd.isna(v)] *)
Definition isna (v : value) : bool :=
  match v with NaN => true | Str _ => false end.

(** [str(v)]; also what [astype(str)] writes into a cell *)
Definition py_str (v : value) : string :=
  match v with NaN => "nan" | Str s => s end.

(** [a == b] on cells: a missing cell is equal to nothing *)
Definition py_eq (a b : value) : bool :=
  match a, b with
  | Str x, Str y => bool_decide (x = y)
  | _, _ => false
  end.

(** [a != b] *)
Definition py_ne (a b : value) : bool := negb (py_eq a b).

(** [v.fillna("")] followed by [astype(str)] *)
Definition fillna_empty (v : value) : string :=
  match v with NaN => "" | Str s => s end.

(** [c.isspace()] on the ASCII range *)
Definition is_space (c : ascii) : bool :=
  let n := nat_of_ascii c in
  ((9 <=? n) && (n <=? 13)) || ((28 <=? n) && (n <=? 32)).

Fixpoint lstrip_chars (l : list ascii) : list ascii :=
  match l with
  | c :: l' => if is_space c then lstrip_chars l' else l
  | [] => []
  end.

(** [s.strip()] *)
Definition strip (s : string) : string :=
  string_of_list_ascii
    (rev (lstrip_chars (rev (lstrip_chars (list_ascii_of_string s))))).

Definition lower_char (c : ascii) : ascii :=
  let n := nat_of_ascii c in
  if (65 <=? n) && (n <=? 90) then ascii_of_nat (n + 32) else c.

(** [s.lower()] *)
Definition lower (s : string) : string :=
  string_of_list_ascii (map lower_char (list_ascii_of_string s)).

Definition upper_char (c : ascii) : ascii :=
  let n := nat_of_ascii c in
  if (97 <=? n) && (n <=? 122) then ascii_of_nat (n - 32) else c.

(** [s.upper()] *)
Definition upper (s : string) : string :=
  string_of_list_ascii (map upper_char (list_ascii_of_string s)).

(** [sep.join(parts)] *)
Definition join (sep : string) (parts : list string) : string :=
  String.concat sep parts.

Section dict.
Context {K V : Type} `{EqDecision K}.

(** [d.get(k)] *)
Fixpoint dict_get (d : list (K * V)) (k : K) : option V :=
  match d with
  | [] => None
  | (k', v) :: d' => if decide (k = k') then Some v else dict_get d' k
  end.

(** [d[k] = v]: an existing key keeps its position *)
Fixpoint dict_set (d : list (K * V)) (k : K) (v : V) : list (K * V) :=
  match d with
  | [] => [(k, v)]
  | (k', v') :: d' =>
      if decide (k = k') then (k, v) :: d' else (k', v') :: dict_set d' k v
  end.

End dict.

(** [d[k].append(x)] on a [defaultdict(list)] *)
Definition dict_append {K A : Type} `{EqDecision K}
    (d : list (K * list A)) (k : K) (x : A) : list (K * list A) :=
  dict_set d k (default [] (dict_get d k) ++ [x]).

(** [pd.unique]: distinct elements in order of first appearance *)
Fixpoint unique {A : Type} `{EqDecision A} (l : list A) : list A :=
  match l with
  | [] => []
  | x :: l' => x :: filter (λ y, y ≠ x) (unique l')
  end.

(** [max(xs, key=...)] keeps the first element whose key is greatest *)
Definition py_max_from {A : Type} (lt : A → A → bool) (first : A) (rest : list A) : A :=
  fold_left (λ best x, if lt best x then x else best) rest first.

Definition py_max {A : Type} (lt : A → A → bool) (xs : list A) : option A :=
  match xs with
  | [] => None
  | x :: rest => Some (py_max_from lt x rest)
  end.

(** ** 64-bit integers

    The AID columns are [int64] and [df_fa["AID"].max()] is a numpy
    [int64]: adding 1 to it stays in the type and wraps around at
    [2^63]. *)
Definition int64_wrap (n : Z) : Z := ((n + 2 ^ 63) mod 2 ^ 64 - 2 ^ 63)%Z.

(** [n + 1] and [n += 1] on a numpy [int64] *)
Definition int64_succ (n : Z) : Z := int64_wrap (n + 1).

(** ** helpers.py *)

Module helpers.

(** The attribute columns of the address table.  They are the columns a
    proposal may name in [column_to_change]; the key column [AID] is
    addressed by [original_AID]. *)
Inductive column : Type :=
| num1_c | streetName_c | streetSuffix_c | unit_c | zip_c | city_c | state_c.

#[global] Instance column_eq_dec : EqDecision column.
Proof. solve_decision. Defined.

Definition column_name (c : column) : string :=
  match c with
  | num1_c => "num1_c" | streetName_c => "streetName_c"
  | streetSuffix_c => "streetSuffix_c" | unit_c => "unit_c"
  | zip_c => "zip_c" | city_c => "city_c" | state_c => "state_c"
  end.

Record ProposedChange : Type := {
  original_AID : Z;
  EID_context : option string;
  column_to_change : column;
  original_value : value;
  proposed_value : value;
  rule_name : string
}.

Record SplitEvent : Type := {
  old_aid : Z;
  new_aid : Z;
  column_of : column;
  new_value : string
}.

(** class UnionFind: [idx] maps an element to its slot, [par] and [rank]
    are the flat arrays. *)
Record UnionFind : Type := {
  idx : list (string * nat);
  par : list nat;
  rank : list nat
}.

(** [{e: i for i, e in enumerate(elems)}] *)
Definition enumerate_dict (elems : list string) : list (string * nat) :=
  fold_left (λ d ie, dict_set d ie.2 ie.1) (zip (seq 0 (length elems)) elems) [].

Definition UnionFind_init (elems : list string) : UnionFind :=
  {| idx := enumerate_dict elems;
     par := seq 0 (length elems);
     rank := replicate (length elems) 0 |}.

(** [_find] with path compression, on the parent array.  The recursion
    depth is bounded by the number of slots; [None] is an IndexError or an
    exhausted recursion. *)
Fixpoint _find_rec (fuel : nat) (p : list nat) (i : nat) : option (list nat * nat) :=
  match fuel with
  | O => None
  | S fuel' =>
      match p !! i with
      | None => None
      | Some pi =>
          if decide (pi = i) then Some (p, pi)
          else
            match _find_rec fuel' p pi with
            | None => None
            | Some (p', r) => Some (<[i := r]> p', r)
            end
      end
  end.

Definition _find (uf : UnionFind) (i : nat) : option (UnionFind * nat) :=
  match _find_rec (length (par uf)) (par uf) i with
  | None => None
  | Some (p', r) => Some ({| idx := idx uf; par := p'; rank := rank uf |}, r)
  end.

Definition union (uf : UnionFind) (a b : string) : option UnionFind :=
  ia ← dict_get (idx uf) a;
  '(uf1, ra) ← _find uf ia;
  ib ← dict_get (idx uf1) b;
  '(uf2, rb) ← _find uf1 ib;
  if decide (ra = rb) then Some uf2
  else
    ka ← rank uf2 !! ra;
    kb ← rank uf2 !! rb;
    if ka <? kb then
      Some {| idx := idx uf2; par := <[ra := rb]> (par uf2); rank := rank uf2 |}
    else if kb <? ka then
      Some {| idx := idx uf2; par := <[rb := ra]> (par uf2); rank := rank uf2 |}
    else
      Some {| idx := idx uf2; par := <[rb := ra]> (par uf2);
              rank := <[ra := S ka]> (rank uf2) |}.

(** [clusters]: the loop over [idx.items()], threading the array that
    [_find] compresses. *)
Fixpoint clusters_loop (items : list (string * nat)) (uf : UnionFind)
    (out : list (nat * list string)) : option (UnionFind * list (nat * list string)) :=
  match items with
  | [] => Some (uf, out)
  | (e, i) :: items' =>
      '(uf', r) ← _find uf i;
      clusters_loop items' uf' (dict_append out r e)
  end.

Definition clusters (uf : UnionFind) : option (UnionFind * list (nat * list string)) :=
  clusters_loop (idx uf) uf [].

End helpers.

(** ** Arithmetic shared by the two fuzzy rules *)

(** [abs(len1 - len2)] *)
Definition abs_diff (a b : nat) : nat := (a - b) + (b - a).

(** [norms.sort(key=len)]: Python's sort is stable, so the result is the
    one of a stable insertion sort on the length. *)
Fixpoint insert_by_len (s : string) (l : list string) : list string :=
  match l with
  | [] => [s]
  | t :: l' =>
      if String.length s <=? String.length t then s :: t :: l'
      else t :: insert_by_len s l'
  end.

Definition sort_by_len (l : list string) : list string :=
  foldr insert_by_len [] l.

(** ** fuzzy_search.py: the clustering of one (EID_1, num1_c) group *)

Module fuzzy_search.
Import helpers.

Section clustering.
Context {F : Type}.
(** Python floats: [fdiv a b] is the true division [a / b] of two ints with
    [b] non-zero, [fge] and [flt] are [>=] and [<]. *)
Variable fdiv : nat → nat → F.
Variables fge flt : F → F → bool.
(** [rapidfuzz.distance.Levenshtein.distance] *)
Variable _distance : string → string → nat.
Variable threshold : F.

(** [a / b]; a zero divisor raises ZeroDivisionError *)
Definition true_div (a b : nat) : option F :=
  if b =? 0 then None else Some (fdiv a b).

(** [if diff and diff / longer >= threshold and diff > 2: continue] *)
Definition fast_reject (diff longer : nat) : option bool :=
  if diff =? 0 then Some false
  else
    q ← true_div diff longer;
    Some (fge q threshold && (2 <? diff)).

(** [_distance(s1, s2) / longer < threshold] *)
Definition close_enough (s1 s2 : string) (longer : nat) : option bool :=
  q ← true_div (_distance s1 s2) longer;
  Some (flt q threshold).

(** The body of the inner loop for the pair [(s1, s2)]. *)
Definition compare_pair (uf : UnionFind) (s1 s2 : string) : option UnionFind :=
  let len1 := String.length s1 in
  let len2 := String.length s2 in
  let diff := abs_diff len1 len2 in
  let longer := max len1 len2 in
  skip ← fast_reject diff longer;
  if (skip : bool) then Some uf
  else
    near ← close_enough s1 s2 longer;
    if (near : bool) then union uf s1 s2 else Some uf.

(** [for s2 in norms[i + 1:]] *)
Fixpoint inner_loop (s1 : string) (rest : list string) (uf : UnionFind) : option UnionFind :=
  match rest with
  | [] => Some uf
  | s2 :: rest' => uf' ← compare_pair uf s1 s2; inner_loop s1 rest' uf'
  end.

(** [for i, s1 in enumerate(norms)] *)
Fixpoint outer_loop (norms : list string) (uf : UnionFind) : option UnionFind :=
  match norms with
  | [] => Some uf
  | s1 :: rest => uf' ← inner_loop s1 rest uf; outer_loop rest uf'
  end.

(** Lines 55-75 of [propose_street_name_corrections]: from the distinct
    normalised spellings of one group to [uf.clusters()].  A group with
    fewer than two spellings is skipped and yields no cluster. *)
Definition propose_street_name_corrections_clusters (norms : list string)
    : option (list (nat * list string)) :=
  if length norms <? 2 then Some []
  else
    let norms := sort_by_len norms in
    uf ← outer_loop norms (UnionFind_init norms);
    '(_, out) ← clusters uf;
    Some out.

End clustering.
End fuzzy_search.

(** ** fuzzy_search_cities.py: the clustering of one valid-ZIP group *)

Module fuzzy_search_cities.
Import helpers.

Section clustering.
Context {F : Type}.
Variable fdiv : nat → nat → F.
Variables fge flt : F → F → bool.
Variable _dist : string → string → nat.
Variable threshold : F.

Definition true_div (a b : nat) : option F :=
  if b =? 0 then None else Some (fdiv a b).

(** [if abs(len1 - len2) > 2 and abs(len1 - len2) / longer >= threshold] *)
Definition fast_prune (diff longer : nat) : option bool :=
  if 2 <? diff then q ← true_div diff longer; Some (fge q threshold)
  else Some false.

Definition close_enough (s1 s2 : string) (longer : nat) : option bool :=
  q ← true_div (_dist s1 s2) longer;
  Some (flt q threshold).

Definition compare_pair (uf : UnionFind) (s1 s2 : string) : option UnionFind :=
  let len1 := String.length s1 in
  let len2 := String.length s2 in
  let longer := max len1 len2 in
  skip ← fast_prune (abs_diff len1 len2) longer;
  if (skip : bool) then Some uf
  else
    near ← close_enough s1 s2 longer;
    if (near : bool) then union uf s1 s2 else Some uf.

Fixpoint inner_loop (s1 : string) (rest : list string) (uf : UnionFind) : option UnionFind :=
  match rest with
  | [] => Some uf
  | s2 :: rest' => uf' ← compare_pair uf s1 s2; inner_loop s1 rest' uf'
  end.

Fixpoint outer_loop (variants : list string) (uf : UnionFind) : option UnionFind :=
  match variants with
  | [] => Some uf
  | s1 :: rest => uf' ← inner_loop s1 rest uf; outer_loop rest uf'
  end.

(** Lines 56-73 of [propose_correct_city_names_by_zip]. *)
Definition propose_correct_city_names_by_zip_clusters (variants : list string)
    : option (list (nat * list string)) :=
  if length variants <? 2 then Some []
  else
    let variants := sort_by_len variants in
    uf ← outer_loop variants (UnionFind_init variants);
    '(_, out) ← clusters uf;
    Some out.

End clustering.
End fuzzy_search_cities.

(** ** The merged view handed to the rules

    [create_merged_view] left-joins relationships, entities and
    addresses.  A rule first looks for its columns in [view_columns] and
    only then reads the cells.  A relationship without an address row has
    [NaN] in every address column.

    A cell holds a text or is missing; a number is carried by its text.
    What the cells do not tell is the dtype of a column: pandas reads a
    column with a text in it as [object] and a column of empty cells or
    of numbers as a numeric dtype.  Rules 1 and 3a depend on it for
    [zip_c], so the view records it. *)

Record merged_row : Type := {
  v_AID : Z;
  v_EID_1 : string;
  v_num1_c : value;
  v_streetName_c : value;
  v_zip_c : value;
  v_city_c : value;
  v_state_c : value
}.

Record merged_view : Type := {
  view_columns : list string;
  zip_c_object : bool;
  view_rows : list merged_row
}.

(** A call either returns or raises: [ValueError(msg)] is the exception of
    the column checks, [OtherError] any other exception. *)
Inductive raised (A : Type) : Type :=
| Ok : A → raised A
| ValueError : string → raised A
| OtherError : raised A.
Arguments Ok {A} _.
Arguments ValueError {A} _.
Arguments OtherError {A}.

(** [repr] of a list of column names, as an f-string prints it *)
Definition repr_list (l : list string) : string :=
  "[" +:+ join ", " (map (λ c, "'" +:+ c +:+ "'") l) +:+ "]".

(** [[c for c in need if c not in df.columns]] *)
Definition missing_columns (need : list string) (view : merged_view) : list string :=
  filter (λ c, c ∉ view_columns view) need.

(** [if missing := [...]: raise ValueError(f"{prefix}{missing}")] *)
Definition require_columns {A : Type} (prefix : string) (need : list string)
    (view : merged_view) (body : merged_view → A) : raised A :=
  match missing_columns need view with
  | [] => Ok (body view)
  | missing => ValueError (prefix +:+ repr_list missing)
  end.

(** ** fill_missing_zip_codes.py *)

Module fill_missing_zip_codes.

Definition is_digit (c : ascii) : bool :=
  let n := nat_of_ascii c in (48 <=? n) && (n <=? 57).

(** [ZIP_RE = ^_\d{5}$] applied with [str.match] to a stripped string *)
Definition ZIP_RE (z : string) : bool :=
  match list_ascii_of_string z with
  | [m; d1; d2; d3; d4; d5] =>
      bool_decide (m = "_"%char) && forallb is_digit [d1; d2; d3; d4; d5]
  | _ => false
  end.

(** [df["streetName_c"].fillna("").astype("string").str.strip().str.lower()] *)
Definition street_norm (r : merged_row) : string :=
  lower (strip (fillna_empty (v_streetName_c r))).

(** [z = df["zip_c"].fillna("").astype(str).str.strip()] *)
Definition z (r : merged_row) : string := strip (fillna_empty (v_zip_c r)).

Definition _valid (r : merged_row) : bool := ZIP_RE (z r).
Definition _blank (r : merged_row) : bool := bool_decide (z r = "").
(** Rule 3a, line 100: [(~df["_valid"]) & (~df["_blank"])] *)
Definition _invalid (r : merged_row) : bool := negb (_valid r) && negb (_blank r).

(** [grp = ["EID_1", "num1_c", "street_norm"]] *)
Definition grp (r : merged_row) : string * value * string :=
  (v_EID_1 r, v_num1_c r, street_norm r).

(** [groupby] drops the rows whose key has a missing component *)
Definition key_notna (k : string * value * string) : bool := negb (isna k.1.2).

(** [.groupby(grp, sort=False)["zip_c"].agg(list)] *)
Definition agg_list (pairs : list ((string * value * string) * value))
    : list ((string * value * string) * list value) :=
  fold_left (λ d kz, if key_notna kz.1 then dict_append d kz.1 kz.2 else d) pairs [].

(** The frame [canon]: the groups with exactly one distinct valid ZIP and
    that ZIP. *)
Definition canon (rows : list merged_row) : list ((string * value * string) * value) :=
  let valid_pairs := unique (map (λ r, (grp r, v_zip_c r)) (filter (λ r, _valid r = true) rows)) in
  omap (λ kl, match kl.2 with [zip] => Some (kl.1, zip) | _ => None end)
       (agg_list valid_pairs).

(** [df.merge(canon, on=grp, how="left")] then the [targets] selection:
    the blank rows that received a [canon_zip]. *)
Definition targets (rows : list merged_row) : list (merged_row * value) :=
  omap (λ r, match dict_get (canon rows) (grp r) with
             | Some zip => if _blank r && negb (isna zip) then Some (r, zip) else None
             | None => None
             end) rows.

Definition rule1_name : string := "Rule 1: Fill Missing ZIPs (Keep)".

Definition proposal_of_target (t : merged_row * value) : helpers.ProposedChange :=
  {| helpers.original_AID := v_AID t.1;
     helpers.EID_context := Some (v_EID_1 t.1);
     helpers.column_to_change := helpers.zip_c;
     helpers.original_value := v_zip_c t.1;
     helpers.proposed_value := t.2;
     helpers.rule_name := rule1_name |}.

Definition need_rule1 : list string :=
  ["AID"; "EID_1"; "num1_c"; "streetName_c"; "zip_c"].

(** [canon["zip_lst"].str.len()]: when no row is valid the aggregated
    column [zip_lst] is empty and keeps the dtype of [zip_c]; unless that
    is [object] the [.str] accessor raises AttributeError.  With a valid
    row [zip_lst] holds lists and its dtype is [object]. *)
Definition str_accessor_raises (view : merged_view) : bool :=
  negb (zip_c_object view) && forallb (λ r, negb (_valid r)) (view_rows view).

(** The rule after its column check; [None] is the AttributeError. *)
Definition rule1_body (view : merged_view) : option (list helpers.ProposedChange) :=
  if str_accessor_raises view then None
  else Some (map proposal_of_target (targets (view_rows view))).

Definition propose_fill_missing_zips_keep (df_merged_view : merged_view)
    : raised (list helpers.ProposedChange) :=
  match require_columns "Missing cols for Rule 1: " need_rule1 df_merged_view
          rule1_body with
  | Ok (Some proposals) => Ok proposals
  | Ok None => OtherError
  | ValueError msg => ValueError msg
  | OtherError => OtherError
  end.

(** *** Rule 3a: [propose_replace_invalid_zips] *)

(** The frame [canon] is computed as in Rule 1; the [targets] are the rows
    with an invalid, non-blank ZIP that received a [canon_zip]. *)
Definition targets_3a (rows : list merged_row) : list (merged_row * value) :=
  omap (λ r, match dict_get (canon rows) (grp r) with
             | Some zip => if _invalid r && negb (isna zip) then Some (r, zip) else None
             | None => None
             end) rows.

Definition rule3a_name : string := "Rule 3a: Replace Invalid ZIPs".

Definition proposal_of_target_3a (t : merged_row * value) : helpers.ProposedChange :=
  {| helpers.original_AID := v_AID t.1;
     helpers.EID_context := Some (v_EID_1 t.1);
     helpers.column_to_change := helpers.zip_c;
     helpers.original_value := v_zip_c t.1;
     helpers.proposed_value := t.2;
     helpers.rule_name := rule3a_name |}.

(** The rule after its column check; the same [.str.len()] on [canon]
    raises the same AttributeError. *)
Definition rule3a_body (view : merged_view) : option (list helpers.ProposedChange) :=
  if str_accessor_raises view then None
  else Some (map proposal_of_target_3a (targets_3a (view_rows view))).

Definition propose_replace_invalid_zips (df_merged_view : merged_view)
    : raised (list helpers.ProposedChange) :=
  match require_columns "Missing cols for Rule 3a: "
          ["AID"; "EID_1"; "num1_c"; "streetName_c"; "zip_c"] df_merged_view
          rule3a_body with
  | Ok (Some proposals) => Ok proposals
  | Ok None => OtherError
  | ValueError msg => ValueError msg
  | OtherError => OtherError
  end.

(** *** Rule 3b: [propose_fill_missing_zips_by_address] *)

(** [df["state_c"].fillna("").str.strip().str.upper()] *)
Definition state_norm (r : merged_row) : string :=
  upper (strip (fillna_empty (v_state_c r))).

(** [df["city_c"].fillna("").str.strip().str.lower()] *)
Definition city_norm (r : merged_row) : string :=
  lower (strip (fillna_empty (v_city_c r))).

(** [grp = ["state_norm", "city_norm", "street_norm", "num1_c"]] *)
Definition grp_3b (r : merged_row) : string * string * string * value :=
  (state_norm r, city_norm r, street_norm r, v_num1_c r).

Definition key_notna_3b (k : string * string * string * value) : bool :=
  negb (isna k.2).

(** [valid.groupby(grp, sort=False)["zip_c"].nunique()] at the key [k] *)
Definition n_zip (rows : list merged_row) (k : string * string * string * value) : nat :=
  length (unique (map v_zip_c
                    (filter (λ r, _valid r = true ∧ grp_3b r = k) rows))).

(** The frame [canon] of Rule 3b: the valid rows joined with the counts,
    those of a group with one distinct ZIP kept, the first row of each
    group kept by [drop_duplicates(subset=grp)]. *)
Definition canon_3b (rows : list merged_row)
    : list ((string * string * string * value) * value) :=
  fold_left
    (λ d r,
       let k := grp_3b r in
       if key_notna_3b k && (n_zip rows k =? 1)
       then match dict_get d k with
            | Some _ => d
            | None => dict_set d k (v_zip_c r)
            end
       else d)
    (filter (λ r, _valid r = true) rows) [].

Definition targets_3b (rows : list merged_row) : list (merged_row * value) :=
  omap (λ r, match dict_get (canon_3b rows) (grp_3b r) with
             | Some zip => if _blank r && negb (isna zip) then Some (r, zip) else None
             | None => None
             end) rows.

Definition rule3b_name : string := "Rule 3b: Fill Missing ZIPs by Address".

Definition proposal_of_target_3b (t : merged_row * value) : helpers.ProposedChange :=
  {| helpers.original_AID := v_AID t.1;
     helpers.EID_context := None;
     helpers.column_to_change := helpers.zip_c;
     helpers.original_value := v_zip_c t.1;
     helpers.proposed_value := t.2;
     helpers.rule_name := rule3b_name |}.

Definition propose_fill_missing_zips_by_address (df_view : merged_view)
    : raised (list helpers.ProposedChange) :=
  require_columns "Missing cols for 3b: "
    ["AID"; "state_c"; "city_c"; "streetName_c"; "num1_c"; "zip_c"] df_view
    (λ view, map proposal_of_target_3b (targets_3b (view_rows view))).

End fill_missing_zip_codes.

(** ** fuzzy_search_cities.py: Rule 4 around the clustering *)

(** Sorted distinct texts, as the keys of a [groupby] on a text column *)
Fixpoint insert_str (x : string) (l : list string) : list string :=
  match l with
  | [] => [x]
  | y :: l' =>
      if String.ltb x y then x :: y :: l'
      else if String.eqb x y then y :: l'
      else y :: insert_str x l'
  end.

Definition groupby_keys_str (l : list string) : list string := foldr insert_str [] l.

Module rule4.
Import helpers.

Section rule.
Context {F : Type}.
Variable fdiv : nat → nat → F.
Variables fge flt : F → F → bool.
Variable _dist : string → string → nat.
Variable threshold : F.

Definition zip_text (r : merged_row) : string := py_str (v_zip_c r).
Definition city_text (r : merged_row) : string := py_str (v_city_c r).

(** [dropna(subset=["zip_c", "city_c"])] and the mask
    [z.str.match(r"^_\d{5}$")] on the stripped ZIP *)
Definition kept (r : merged_row) : bool :=
  negb (isna (v_zip_c r)) && negb (isna (v_city_c r)) &&
  fill_missing_zip_codes.ZIP_RE (strip (zip_text r)).

(** [freq.get((zip_code, c), 0)] on the sizes of the (zip_c, city_c)
    groups of [df] *)
Definition freq_get (df : list merged_row) (zip_code c : string) : nat :=
  length (filter (λ r, zip_text r = zip_code ∧ city_text r = c) df).

(** [df["city_c"].astype("string").str.strip().str.lower()] *)
Definition city_norm (r : merged_row) : string := lower (strip (city_text r)).

(** The order of the keys [(freq.get((zip_code, c), 0), c)] *)
Definition city_lt (df : list merged_row) (zip_code : string) (c1 c2 : string) : bool :=
  let f1 := freq_get df zip_code c1 in
  let f2 := freq_get df zip_code c2 in
  (f1 <? f2) || ((f1 =? f2) && String.ltb c1 c2).

(** The body of [for cluster in uf.clusters().values()]; [max] of an
    empty list raises. *)
Definition cluster_entries (df sub : list merged_row) (zip_code : string)
    (canon_map : list ((string * string) * string)) (cluster : list string)
    : option (list ((string * string) * string)) :=
  if length cluster =? 1 then Some canon_map
  else
    let sub_rows := filter (λ r, city_norm r ∈ cluster) sub in
    let originals := unique (map city_text sub_rows) in
    best_city ← py_max (city_lt df zip_code) originals;
    Some (fold_left (λ d norm, dict_set d (zip_code, norm) best_city) cluster canon_map).

(** The body of [for zip_code, sub in df.groupby("zip_c")]. *)
Definition group_entries (df : list merged_row)
    (canon_map : list ((string * string) * string)) (zip_code : string)
    : option (list ((string * string) * string)) :=
  let sub := filter (λ r, zip_text r = zip_code) df in
  let variants := unique (map city_norm sub) in
  out ← fuzzy_search_cities.propose_correct_city_names_by_zip_clusters
         fdiv fge flt _dist threshold variants;
  fold_left (λ acc cl, d ← acc; cluster_entries df sub zip_code d cl.2)
            out (Some canon_map).

Definition build_canon_map (df : list merged_row)
    : option (list ((string * string) * string)) :=
  fold_left (λ acc zip_code, d ← acc; group_entries df d zip_code)
            (groupby_keys_str (map zip_text df)) (Some []).

(** [mask = df["canon_city"].notna() & (df["canon_city"] != df["city_c"])] *)
Definition rows_to_fix (df : list merged_row)
    (canon_map : list ((string * string) * string)) : list (merged_row * string) :=
  omap (λ r, match dict_get canon_map (zip_text r, city_norm r) with
             | Some canon_city =>
                 if decide (canon_city = city_text r) then None else Some (r, canon_city)
             | None => None
             end) df.

Definition rule4_name : string := "Rule 4: Fuzzy city by ZIP".

Definition proposal_of_fix (t : merged_row * string) : ProposedChange :=
  {| original_AID := v_AID t.1;
     EID_context := None;
     column_to_change := city_c;
     original_value := v_city_c t.1;
     proposed_value := Str t.2;
     rule_name := rule4_name |}.

(** The rule after its column check; [None] is an exception other than
    the ValueError of the check. *)
Definition rule4_body (view : merged_view) : option (list ProposedChange) :=
  let df := filter (λ r, kept r = true) (view_rows view) in
  match df with
  | [] => Some []
  | _ =>
      canon_map ← build_canon_map df;
      Some (map proposal_of_fix (rows_to_fix df canon_map))
  end.

Definition propose_correct_city_names_by_zip (df_view : merged_view)
    : raised (list ProposedChange) :=
  match require_columns "Missing columns for Rule 4: " ["AID"; "zip_c"; "city_c"]
          df_view rule4_body with
  | Ok (Some proposals) => Ok proposals
  | Ok None => OtherError
  | ValueError msg => ValueError msg
  | OtherError => OtherError
  end.

End rule.
End rule4.

(** ** fuzzy_search.py: Rule 2 around the clustering *)

Module rule2.
Import helpers.

Section rule.
Context {F : Type}.
Variable fdiv : nat → nat → F.
Variables fge flt : F → F → bool.
Variable _distance : string → string → nat.
Variable threshold : F.

Definition street_text (r : merged_row) : string := py_str (v_streetName_c r).

(** [df["streetName_c"].str.strip().str.lower()] *)
Definition street_norm (r : merged_row) : string := lower (strip (street_text r)).

(** [freq.get((eid, num, v), 0)] on the sizes of the
    (EID_1, num1_c, streetName_c) groups of [df] *)
Definition freq_get (df : list merged_row) (eid : string) (num : value) (v : string)
    : nat :=
  length (filter (λ r, v_EID_1 r = eid ∧ v_num1_c r = num ∧ street_text r = v) df).

(** The order of the keys [(freq.get((eid, num, v), 0), v)] *)
Definition street_lt (df : list merged_row) (eid : string) (num : value)
    (v1 v2 : string) : bool :=
  let f1 := freq_get df eid num v1 in
  let f2 := freq_get df eid num v2 in
  (f1 <? f2) || ((f1 =? f2) && String.ltb v1 v2).

Definition rule2_name : string := "Rule 2: Street-name majority vote".

Definition proposal_of_fix (eid : string) (best : string) (r : merged_row)
    : ProposedChange :=
  {| original_AID := v_AID r;
     EID_context := Some eid;
     column_to_change := streetName_c;
     original_value := v_streetName_c r;
     proposed_value := Str best;
     rule_name := rule2_name |}.

(** The body of [for cluster_norms in uf.clusters().values()] *)
Definition cluster_proposals (df g : list merged_row) (eid : string) (num : value)
    (cluster_norms : list string) : list ProposedChange :=
  let rows := filter (λ r, street_norm r ∈ cluster_norms) g in
  match unique (map street_text rows) with
  | [] | [_] => []
  | first :: rest =>
      let best := py_max_from (street_lt df eid num) first rest in
      map (proposal_of_fix eid best) (filter (λ r, street_text r ≠ best) rows)
  end.

(** The body of [for (eid, num), g in df.groupby(["EID_1", "num1_c"])]:
    the proposals of the group [g] of [df], the frame of the rows that
    [.dropna()] keeps. *)
Definition group_proposals (df : list merged_row) (eid : string) (num : value)
    : option (list ProposedChange) :=
  let g := filter (λ r, v_EID_1 r = eid ∧ v_num1_c r = num) df in
  let norms := unique (map street_norm g) in
  out ← fuzzy_search.propose_street_name_corrections_clusters
         fdiv fge flt _distance threshold norms;
  Some (flat_map (λ cl, cluster_proposals df g eid num cl.2) out).

(** [.dropna()] on the columns AID, EID_1, num1_c and streetName_c; the
    first two are never missing in a merged row. *)
Definition kept (r : merged_row) : bool :=
  negb (isna (v_num1_c r)) && negb (isna (v_streetName_c r)).

(** [<] on the cells of [num1_c], as the dtype of the column orders them:
    by value for numbers, by code points for texts. *)
Variable num1_lt : value → value → bool.

(** The order of the keys [(eid, num)] of the groups *)
Definition group_key_lt (k1 k2 : string * value) : bool :=
  String.ltb k1.1 k2.1 || (String.eqb k1.1 k2.1 && num1_lt k1.2 k2.2).

Fixpoint insert_group_key (k : string * value) (l : list (string * value))
    : list (string * value) :=
  match l with
  | [] => [k]
  | k' :: l' => if group_key_lt k k' then k :: l else k' :: insert_group_key k l'
  end.

(** The keys of [df.groupby(["EID_1", "num1_c"], observed=True)]: the
    distinct pairs, sorted. *)
Definition group_keys (df : list merged_row) : list (string * value) :=
  foldr insert_group_key [] (unique (map (λ r, (v_EID_1 r, v_num1_c r)) df)).

Definition need_rule2 : list string := ["AID"; "EID_1"; "num1_c"; "streetName_c"].

(** The rule after its column check; [None] is an exception other than
    the ValueError of the check. *)
Definition rule2_body (view : merged_view) : option (list ProposedChange) :=
  let df := filter (λ r, kept r = true) (view_rows view) in
  match df with
  | [] => Some []
  | _ =>
      per_group ← mapM (λ k, group_proposals df k.1 k.2) (group_keys df);
      Some (concat per_group)
  end.

Definition propose_street_name_corrections (df_merged_view : merged_view)
    : raised (list ProposedChange) :=
  match require_columns "Missing columns for street-name rule: " need_rule2
          df_merged_view rule2_body with
  | Ok (Some proposals) => Ok proposals
  | Ok None => OtherError
  | ValueError msg => ValueError msg
  | OtherError => OtherError
  end.

End rule.
End rule2.

(** ** main.py *)

Module main.
Import helpers.

(** One row of [fa.csv]. *)
Record AddressRecord : Type := {
  AID : Z;
  fa_num1_c : value;
  fa_streetName_c : value;
  fa_streetSuffix_c : value;
  fa_unit_c : value;
  fa_zip_c : value;
  fa_city_c : value;
  fa_state_c : value;
  fa_fullAddress_c : value
}.

(** The frame [df_fa] with the default RangeIndex.  The derived column
    [fullAddress_c] is optional: its cells count only when
    [has_fullAddress_c] holds. *)
Record AddressTable : Type := {
  has_fullAddress_c : bool;
  fa_rows : list AddressRecord
}.

(** One row of [r_fe_fa.csv]. *)
Record Relationship : Type := {
  EID_1 : string;
  AID_2 : Z;
  relationshipType : value;
  number : value
}.

#[global] Instance AddressRecord_eq_dec : EqDecision AddressRecord.
Proof. solve_decision. Defined.
#[global] Instance Relationship_eq_dec : EqDecision Relationship.
Proof. solve_decision. Defined.

(** [row[col]] *)
Definition get_col (a : AddressRecord) (c : column) : value :=
  match c with
  | num1_c => fa_num1_c a | streetName_c => fa_streetName_c a
  | streetSuffix_c => fa_streetSuffix_c a | unit_c => fa_unit_c a
  | zip_c => fa_zip_c a | city_c => fa_city_c a | state_c => fa_state_c a
  end.

(** [row[col] = v] *)
Definition set_col (a : AddressRecord) (c : column) (v : value) : AddressRecord :=
  {| AID := AID a;
     fa_num1_c := if decide (c = num1_c) then v else fa_num1_c a;
     fa_streetName_c := if decide (c = streetName_c) then v else fa_streetName_c a;
     fa_streetSuffix_c := if decide (c = streetSuffix_c) then v else fa_streetSuffix_c a;
     fa_unit_c := if decide (c = unit_c) then v else fa_unit_c a;
     fa_zip_c := if decide (c = zip_c) then v else fa_zip_c a;
     fa_city_c := if decide (c = city_c) then v else fa_city_c a;
     fa_state_c := if decide (c = state_c) then v else fa_state_c a;
     fa_fullAddress_c := fa_fullAddress_c a |}.

(** [row["AID"] = n] *)
Definition set_AID (a : AddressRecord) (n : Z) : AddressRecord :=
  {| AID := n;
     fa_num1_c := fa_num1_c a; fa_streetName_c := fa_streetName_c a;
     fa_streetSuffix_c := fa_streetSuffix_c a; fa_unit_c := fa_unit_c a;
     fa_zip_c := fa_zip_c a; fa_city_c := fa_city_c a;
     fa_state_c := fa_state_c a; fa_fullAddress_c := fa_fullAddress_c a |}.

(** [row["fullAddress_c"] = v] *)
Definition set_fullAddress_c (a : AddressRecord) (v : value) : AddressRecord :=
  {| AID := AID a;
     fa_num1_c := fa_num1_c a; fa_streetName_c := fa_streetName_c a;
     fa_streetSuffix_c := fa_streetSuffix_c a; fa_unit_c := fa_unit_c a;
     fa_zip_c := fa_zip_c a; fa_city_c := fa_city_c a;
     fa_state_c := fa_state_c a; fa_fullAddress_c := v |}.

Definition reconstruct_full_address (row : AddressRecord) : string :=
  let parts :=
    [fa_num1_c row; fa_streetName_c row; fa_city_c row; fa_state_c row; fa_zip_c row] in
  strip (join " " (omap (λ v, match v with
                              | NaN => None
                              | Str s => if decide (s = "") then None else Some s
                              end) parts)).

(** [df_fa["AID"].max()]; the maximum of an empty column is missing *)
Definition AID_max (rows : list AddressRecord) : option Z :=
  match rows with
  | [] => None
  | a :: rows' => Some (fold_left (λ m b, Z.max m (AID b)) rows' (AID a))
  end.

(** *** split_conflicting_addresses *)

Definition signature_cols_default : list column :=
  [num1_c; streetName_c; streetSuffix_c; unit_c; zip_c; city_c; state_c].

(** [df_r.merge(df_fa_sub, left_on="AID_2", right_on="AID", how="left")]:
    a relationship row is paired with every address row of its AID, in
    table order, or once with missing cells. *)
Definition merge_left (df_r : list Relationship) (rows : list AddressRecord)
    : list (Relationship * option AddressRecord) :=
  flat_map (λ r, match filter (λ a, AID a = AID_2 r) rows with
                 | [] => [(r, None)]
                 | matches => map (λ a, (r, Some a)) matches
                 end) df_r.

(** [df_r[["EID_1", *signature_cols]].astype(str).agg("|".join, axis=1)] *)
Definition signature (signature_cols : list column)
    (m : Relationship * option AddressRecord) : string :=
  join "|" (EID_1 m.1 ::
            map (λ c, py_str (match m.2 with Some a => get_col a c | None => NaN end))
                signature_cols).

(** Sorted distinct keys, as the index of a [groupby] result *)
Fixpoint insert_key (x : Z) (l : list Z) : list Z :=
  match l with
  | [] => [x]
  | y :: l' =>
      if (x <? y)%Z then x :: y :: l'
      else if (x =? y)%Z then y :: l'
      else y :: insert_key x l'
  end.

Definition groupby_keys (l : list Z) : list Z := foldr insert_key [] l.

Section splitter.
Variable signature_cols : list column.

(** [df_r.loc[df_r["AID_2"] == aid, "signature"].unique()] *)
Definition sigs_of (merged : list (Relationship * option AddressRecord)) (aid : Z)
    : list string :=
  unique (map (signature signature_cols) (filter (λ m, AID_2 m.1 = aid) merged)).

(** [df_r.groupby("AID_2")["signature"].nunique().loc[lambda s: s.gt(1)].index] *)
Definition bad_aids (merged : list (Relationship * option AddressRecord)) : list Z :=
  filter (λ aid, 1 < length (sigs_of merged aid))
         (groupby_keys (map (λ m, AID_2 m.1) merged)).

(** The two nested loops filling [remap] and advancing [next_aid]. *)
Definition build_remap (merged : list (Relationship * option AddressRecord))
    (bad : list Z) (next_aid : Z) : list ((Z * string) * Z) * Z :=
  fold_left
    (λ acc aid,
       fold_left (λ acc' sig, (dict_set acc'.1 (aid, sig) acc'.2, int64_succ acc'.2))
                 (sigs_of merged aid) acc)
    bad ([], next_aid).

(** [remap.get((r["AID_2"], r["signature"]), r["AID_2"])] and the final
    projection on the four relationship columns *)
Definition repoint (remap : list ((Z * string) * Z))
    (m : Relationship * option AddressRecord) : Relationship :=
  {| EID_1 := EID_1 m.1;
     AID_2 := default (AID_2 m.1) (dict_get remap (AID_2 m.1, signature signature_cols m));
     relationshipType := relationshipType m.1;
     number := number m.1 |}.

(** [df_fa.loc[df_fa["AID"] == old_aid].iloc[0].copy()] with the new AID;
    [iloc[0]] of an empty selection raises IndexError *)
Definition clone_row (rows : list AddressRecord) (entry : (Z * string) * Z)
    : option AddressRecord :=
  base ← head (filter (λ a, AID a = entry.1.1) rows);
  Some (set_AID base entry.2).

(** [None] is an exception.  On a frame without rows [.agg("|".join,
    axis=1)] returns a frame, not a column, and the assignment of
    [df_r["signature"]] raises ValueError. *)
Definition split_conflicting_addresses (df_fa : AddressTable) (df_r : list Relationship)
    : option (AddressTable * list Relationship) :=
  let merged := merge_left df_r (fa_rows df_fa) in
  match merged with
  | [] => None
  | _ =>
      let bad := bad_aids merged in
      match bad with
      | [] => Some (df_fa, map fst merged)
      | _ =>
          top ← AID_max (fa_rows df_fa);
          let remap := (build_remap merged bad (int64_succ top)).1 in
          additions ← mapM (clone_row (fa_rows df_fa)) remap;
          Some ({| has_fullAddress_c := has_fullAddress_c df_fa;
                   fa_rows := fa_rows df_fa ++ additions |},
                map (repoint remap) merged)
      end
  end.

End splitter.

(** *** resolve_and_apply_changes *)

Record resolver_state : Type := {
  df_fa : AddressTable;
  df_r : list Relationship;
  current_max_aid : Z;
  splits : list SplitEvent
}.

(** [bucket[(p["original_AID"], p["column_to_change"])].append(p)] *)
Definition build_bucket (proposals : list ProposedChange)
    : list ((Z * column) * list ProposedChange) :=
  fold_left (λ d p, dict_append d (original_AID p, column_to_change p) p) proposals [].

(** [val2eids]: proposed value to the list of its distinct contexts.  The
    entry of a value is created by its first proposal, which always
    appends. *)
Definition build_val2eids (items : list ProposedChange)
    : list (value * list (option string)) :=
  fold_left
    (λ d p,
       let l := default [] (dict_get d (proposed_value p)) in
       if decide (EID_context p ∈ l) then d
       else dict_set d (proposed_value p) (l ++ [EID_context p]))
    items [].

(** The key [(len(x[1]), str(x[0]))] and the order of Python tuples *)
Definition vote_key (x : value * list (option string)) : nat * string :=
  (length x.2, py_str x.1).

Definition vote_lt (x y : value * list (option string)) : bool :=
  let kx := vote_key x in
  let ky := vote_key y in
  (kx.1 <? ky.1) || ((kx.1 =? ky.1) && String.ltb kx.2 ky.2).

Section resolver.
Variable reconstructor : AddressRecord → string.

(** [df_fa.at[i, col] = v] followed by the optional recomputation of
    [fullAddress_c] on the updated row *)
Definition write_cell (t : AddressTable) (i : nat) (row : AddressRecord)
    (col : column) (v : value) : AddressTable :=
  let row1 := set_col row col v in
  let row2 :=
    if has_fullAddress_c t then set_fullAddress_c row1 (Str (reconstructor row1))
    else row1 in
  {| has_fullAddress_c := has_fullAddress_c t;
     fa_rows := <[i := row2]> (fa_rows t) |}.

(** One turn of the loop over the minority variants.  The counter is the
    numpy [int64] that [main] passes in, so [current_max_aid += 1] wraps
    around. *)
Definition split_variant (aid : Z) (col : column) (i : nat) (majority_val : value)
    (st : resolver_state) (entry : value * list (option string))
    : option resolver_state :=
  let '(variant_val, supporters) := entry in
  if py_eq variant_val majority_val then Some st
  else
    let new_aid := int64_succ (current_max_aid st) in
    base ← fa_rows (df_fa st) !! i;
    let new_row0 := set_col (set_AID base new_aid) col variant_val in
    let new_row :=
      if has_fullAddress_c (df_fa st)
      then set_fullAddress_c new_row0 (Str (reconstructor new_row0))
      else new_row0 in
    Some {| df_fa := {| has_fullAddress_c := has_fullAddress_c (df_fa st);
                        fa_rows := fa_rows (df_fa st) ++ [new_row] |};
            df_r := map (λ r, if decide (AID_2 r = aid ∧ Some (EID_1 r) ∈ supporters)
                              then {| EID_1 := EID_1 r; AID_2 := new_aid;
                                      relationshipType := relationshipType r;
                                      number := number r |}
                              else r) (df_r st);
            current_max_aid := new_aid;
            splits := splits st ++
                      [{| old_aid := aid; new_aid := new_aid; column_of := col;
                          new_value := py_str variant_val |}] |}.

Fixpoint split_variants (aid : Z) (col : column) (i : nat) (majority_val : value)
    (entries : list (value * list (option string))) (st : resolver_state)
    : option resolver_state :=
  match entries with
  | [] => Some st
  | e :: entries' =>
      st' ← split_variant aid col i majority_val st e;
      split_variants aid col i majority_val entries' st'
  end.

(** The body of [for (aid, col), items in bucket.items()]. *)
Definition process_bucket (st : resolver_state)
    (b : (Z * column) * list ProposedChange) : option resolver_state :=
  let '((aid, col), items) := b in
  let val2eids := build_val2eids items in
  match list_find (λ a, AID a = aid) (fa_rows (df_fa st)) with
  | None => Some st
  | Some (i, row) =>
      let cur_val := get_col row col in
      match val2eids with
      | [(new_val, _)] =>
          if (isna cur_val && isna new_val) || py_eq cur_val new_val then Some st
          else Some {| df_fa := write_cell (df_fa st) i row col new_val;
                       df_r := df_r st;
                       current_max_aid := current_max_aid st;
                       splits := splits st |}
      | _ =>
          best ← py_max vote_lt val2eids;
          let majority_val := best.1 in
          let st1 :=
            if py_ne cur_val majority_val
            then {| df_fa := write_cell (df_fa st) i row col majority_val;
                    df_r := df_r st;
                    current_max_aid := current_max_aid st;
                    splits := splits st |}
            else st in
          split_variants aid col i majority_val val2eids st1
      end
  end.

Fixpoint process_buckets (buckets : list ((Z * column) * list ProposedChange))
    (st : resolver_state) : option resolver_state :=
  match buckets with
  | [] => Some st
  | b :: buckets' => st' ← process_bucket st b; process_buckets buckets' st'
  end.

Definition resolve_and_apply_changes (df_fa_in : AddressTable)
    (df_r_in : list Relationship) (proposals : list ProposedChange)
    (current_max_aid : Z) : option resolver_state :=
  process_buckets (build_bucket proposals)
    {| df_fa := df_fa_in; df_r := df_r_in;
       current_max_aid := current_max_aid; splits := [] |}.

End resolver.

(** *** main *)

(** What a run does besides computing: the lines of [_show_samples], the
    call of the resolver and the two [to_csv] writes. *)
Inductive event : Type :=
| ShowSamples : string → nat → event
| Resolving : nat → event
| ToCsv : event.

(** A computation of [main]: a log of events and a result or the message
    of the exception that ended the run. *)
Definition run (A : Type) : Type := list event → list event * raised A.

Definition ret {A : Type} (a : A) : run A := λ log, (log, Ok a).

Definition bind {A B : Type} (m : run A) (k : A → run B) : run B :=
  λ log, match m log with
         | (log', Ok a) => k a log'
         | (log', ValueError msg) => (log', ValueError msg)
         | (log', OtherError) => (log', OtherError)
         end.

Definition emit (e : event) : run () := λ log, (log ++ [e], Ok ()).

Definition lift {A : Type} (r : raised A) : run A := λ log, (log, r).

Notation "'let*' x ':=' m 'in' k" := (bind m (λ x, k))
  (at level 10, x name, m at level 100, k at level 200).

(** [rN = rule(merged); _show_samples(label, rN); proposals += rN] *)
Definition run_rule (label : string)
    (rule : merged_view → raised (list ProposedChange)) (merged : merged_view)
    (proposals : list ProposedChange) : run (list ProposedChange) :=
  let* r := lift (rule merged) in
  let* _ := emit (ShowSamples label (length r)) in
  ret (proposals ++ r).

Section entry_point.
Context {F : Type}.
(** Float division and comparisons, the edit distance of rapidfuzz and
    the order of the house numbers, as in the two fuzzy rules; the two
    thresholds are the floats [0.10]. *)
Variable fdiv : nat → nat → F.
Variables fge flt : F → F → bool.
Variable _distance : string → string → nat.
Variable num1_lt : value → value → bool.
Variables STREET_THRESHOLD CITY_THRESHOLD : F.

Definition need_rule2 : list string := ["AID"; "EID_1"; "num1_c"; "streetName_c"].
Definition need_rule3a : list string :=
  ["AID"; "EID_1"; "num1_c"; "streetName_c"; "zip_c"].
Definition need_rule3b : list string :=
  ["AID"; "state_c"; "city_c"; "streetName_c"; "num1_c"; "zip_c"].
Definition need_rule4 : list string := ["AID"; "zip_c"; "city_c"].

(** The rules in the order [main] calls them, with their labels. *)
Definition rules : list (string * (merged_view → raised (list ProposedChange))) :=
  [("Rule 1  (fill missing ZIPs – keep)",
     fill_missing_zip_codes.propose_fill_missing_zips_keep);
   ("Rule 2  (fuzzy search street-name)",
     rule2.propose_street_name_corrections fdiv fge flt _distance STREET_THRESHOLD
       num1_lt);
   ("Rule 3a (replace invalid ZIPs)",
     fill_missing_zip_codes.propose_replace_invalid_zips);
   ("Rule 3b (fill missing ZIPs by addr)",
     fill_missing_zip_codes.propose_fill_missing_zips_by_address);
   ("Rule 4  (fuzzy city by ZIP)",
     rule4.propose_correct_city_names_by_zip fdiv fge flt _distance CITY_THRESHOLD)].

Fixpoint run_rules (rs : list (string * (merged_view → raised (list ProposedChange))))
    (merged : merged_view) (proposals : list ProposedChange)
    : run (list ProposedChange) :=
  match rs with
  | [] => ret proposals
  | (label, rule) :: rs' =>
      let* proposals' := run_rule label rule merged proposals in
      run_rules rs' merged proposals'
  end.

(** [main] from the loaded frames and their merged view (what
    [create_merged_view] returns on them) to the frames written out.  The
    rules read the view only and the resolver reads the two tables only,
    so the view is an argument of its own: what is proved of [main] for
    every view holds of the view that the join builds.  An empty address
    table has no maximum AID; no split can then happen and the counter is
    never read. *)
Definition main (tables : AddressTable * list Relationship) (merged : merged_view)
    : run resolver_state :=
  let max_aid := default 0%Z (AID_max (fa_rows tables.1)) in
  let* proposals := run_rules rules merged [] in
  let* _ := emit (Resolving (length proposals)) in
  let* out := lift (match resolve_and_apply_changes reconstruct_full_address
                            tables.1 tables.2 proposals max_aid with
                    | Some st => Ok st
                    | None => OtherError
                    end) in
  let* _ := emit ToCsv in
  ret out.

End entry_point.
End main.

(* ================================================================== *)
(** * Part II. Vocabulary of the statements                             *)
(* ================================================================== *)

(** The keys of a dictionary, in insertion order. *)
Definition keys {K V : Type} (d : list (K * V)) : list K := map fst d.

(** A list of characters that does not start with a space. *)
Definition no_leading_space (l : list ascii) : Prop :=
  match l with
  | [] => True
  | c :: _ => is_space c = false
  end.

(** The range of a 64-bit signed integer. *)
Definition in_int64 (n : Z) : Prop := (- 2 ^ 63 ≤ n < 2 ^ 63)%Z.

(** A text of the ASCII range, where the character classes of the model
    (digits, whitespace, letter case) are those of Python. *)
Definition ascii_text (s : string) : Prop :=
  Forall (λ c, nat_of_ascii c < 128) (list_ascii_of_string s).

(** House numbers ordered as texts. *)
Definition text_lt (a b : value) : bool := String.ltb (py_str a) (py_str b).

Module resolver_spec.
Import helpers main.

(** What a split never touches in a relationship row. *)
Definition payload (r : Relationship) : string * value * value :=
  (EID_1 r, relationshipType r, number r).

(** The bucket key of a proposal. *)
Definition target (p : ProposedChange) : Z * column :=
  (original_AID p, column_to_change p).

(** The proposals of one (AID, column) partition. *)
Definition partition (aid : Z) (col : column) (proposals : list ProposedChange)
    : list ProposedChange :=
  filter (λ p, target p = (aid, col)) proposals.

(** [st'] is [st] after some splits: the counter advanced by one 64-bit
    step per new event, the AID column only grew by the new AIDs,
    relationship rows kept everything but their pointer. *)
Definition extends (st st' : resolver_state) : Prop :=
  has_fullAddress_c (df_fa st') = has_fullAddress_c (df_fa st) ∧
  ∃ new : list SplitEvent,
    splits st' = splits st ++ new ∧
    map new_aid new
      = map (λ k, Nat.iter k int64_succ (current_max_aid st)) (seq 1 (length new)) ∧
    current_max_aid st' = Nat.iter (length new) int64_succ (current_max_aid st) ∧
    map AID (fa_rows (df_fa st')) = map AID (fa_rows (df_fa st)) ++ map new_aid new ∧
    map payload (df_r st') = map payload (df_r st).

(** The order of the keys [(len(supporters), str(value))]. *)
Definition vote_le (x y : value * list (option string)) : Prop :=
  length x.2 < length y.2 ∨
  (length x.2 = length y.2 ∧ String.leb (py_str x.1) (py_str y.1) = true).

(** [s] lists, once each, the contexts (a null context included) whose
    proposals in [items] carry the value [v]. *)
Definition supporters_of (items : list ProposedChange) (v : value)
    (s : list (option string)) : Prop :=
  NoDup s ∧
  ∀ c, c ∈ s ↔ ∃ p, p ∈ items ∧ proposed_value p = v ∧ EID_context p = c.

(** The reading of "equal" in the claim on single-value partitions: a
    missing stored cell and an empty proposed text, or the converse, count
    as the same value. *)
Definition blank_equal (cur new : value) : Prop :=
  cur = new ∨ (cur = NaN ∧ new = Str "") ∨ (cur = Str "" ∧ new = NaN).

(** The row [df_fa.at[i, col] = v] leaves at slot [i], with the derived
    column recomputed when the table has it. *)
Definition written_row (reconstructor : AddressRecord → string) (has_full : bool)
    (row : AddressRecord) (col : column) (v : value) : AddressRecord :=
  let row1 := set_col row col v in
  if has_full then set_fullAddress_c row1 (Str (reconstructor row1)) else row1.

(** The clone a split appends: the record under a new AID with the
    minority value in the target column. *)
Definition clone_of (reconstructor : AddressRecord → string) (has_full : bool)
    (base : AddressRecord) (col : column) (n : Z) (v : value) : AddressRecord :=
  written_row reconstructor has_full (set_AID base n) col v.

Definition split_event (aid : Z) (col : column) (n : Z) (v : value) : SplitEvent :=
  {| old_aid := aid; new_aid := n; column_of := col; new_value := py_str v |}.

(** The entries the loop over [val2eids] does not skip. *)
Definition minorities (majority_val : value) (d : list (value * list (option string)))
    : list (value * list (option string)) :=
  filter (λ e, py_eq e.1 majority_val = false) d.

(** Two records agree outside one attribute column, the key and the
    derived column. *)
Definition same_other_columns (col : column) (a b : AddressRecord) : Prop :=
  ∀ c, c ≠ col → get_col a c = get_col b c.

(** One more proposal in the dictionary of proposed values, as the loop
    of the resolver does it. *)
Definition val2eids_step (d : list (value * list (option string))) (p : ProposedChange)
    : list (value * list (option string)) :=
  let l := default [] (dict_get d (proposed_value p)) in
  if decide (EID_context p ∈ l) then d
  else dict_set d (proposed_value p) (l ++ [EID_context p]).

(** The keys of [val2eids] are the proposed values; the list under a value
    holds each context that proposed it once. *)
Definition val2eids_ok (items : list ProposedChange)
    (d : list (value * list (option string))) : Prop :=
  NoDup (keys d) ∧
  (∀ v, v ∈ keys d ↔ ∃ p, p ∈ items ∧ proposed_value p = v) ∧
  (∀ v s, dict_get d v = Some s →
     NoDup s ∧
     ∀ c, c ∈ s ↔ ∃ p, p ∈ items ∧ proposed_value p = v ∧ EID_context p = c).

(** The row left at the slot of the AID by the conflict path. *)
Definition majority_row (reconstructor : AddressRecord → string) (has_full : bool)
    (row : AddressRecord) (col : column) (majority_val : value) : AddressRecord :=
  if py_ne (get_col row col) majority_val
  then written_row reconstructor has_full row col majority_val
  else row.

End resolver_spec.


(** ** Concrete tables used by the examples *)

Module examples.
Import helpers main.
Local Open Scope Z_scope.

(** 12 Main St, ZIP _12345, under AID 100. *)
Definition address_100 : AddressRecord :=
  {| AID := 100; fa_num1_c := Str "12"; fa_streetName_c := Str "Main";
     fa_streetSuffix_c := Str "St"; fa_unit_c := NaN; fa_zip_c := Str "_12345";
     fa_city_c := Str "Trenton"; fa_state_c := Str "NJ";
     fa_fullAddress_c := Str "12 Main Trenton NJ _12345" |}.

(** The same address with no ZIP on file. *)
Definition address_100_no_zip : AddressRecord :=
  {| AID := 100; fa_num1_c := Str "12"; fa_streetName_c := Str "Main";
     fa_streetSuffix_c := Str "St"; fa_unit_c := NaN; fa_zip_c := NaN;
     fa_city_c := Str "Trenton"; fa_state_c := Str "NJ";
     fa_fullAddress_c := Str "12 Main Trenton NJ" |}.

Definition table_100 : AddressTable :=
  {| has_fullAddress_c := true; fa_rows := [address_100] |}.

Definition table_100_no_zip : AddressTable :=
  {| has_fullAddress_c := true; fa_rows := [address_100_no_zip] |}.

Definition link (eid : string) (aid : Z) : Relationship :=
  {| EID_1 := eid; AID_2 := aid; relationshipType := Str "owner"; number := Str "1" |}.

(** AID 100 linked to the entities E1 and E2. *)
Definition links_E1_E2 : list Relationship := [link "E1" 100; link "E2" 100].

Definition links_E1_E2_E3 : list Relationship :=
  [link "E1" 100; link "E2" 100; link "E3" 100].

Definition propose (aid : Z) (eid : option string) (col : column) (v : value)
    : ProposedChange :=
  {| original_AID := aid; EID_context := eid; column_to_change := col;
     original_value := NaN; proposed_value := v; rule_name := "example" |}.

(** "2020" and "2021" for the ZIP of AID 100, one supporter each. *)
Definition tie_2020_2021 : list ProposedChange :=
  [propose 100 (Some "E1") zip_c (Str "2020");
   propose 100 (Some "E2") zip_c (Str "2021")].

(** An empty text proposed for the ZIP of AID 100. *)
Definition empty_zip : list ProposedChange :=
  [propose 100 (Some "E1") zip_c (Str "")].

(** Two entities propose to blank the ZIP of AID 100, one proposes a ZIP. *)
Definition blank_majority : list ProposedChange :=
  [propose 100 (Some "E1") zip_c NaN;
   propose 100 (Some "E2") zip_c NaN;
   propose 100 (Some "E3") zip_c (Str "_12345")].

(** Two entities propose one ZIP, a third proposes another. *)
Definition text_majority : list ProposedChange :=
  [propose 100 (Some "E1") zip_c (Str "_99999");
   propose 100 (Some "E2") zip_c (Str "_99999");
   propose 100 (Some "E3") zip_c (Str "_12345")].

(** The last AID of the 64-bit range, [2^63 - 1], with two entities that
    disagree on its ZIP. *)
Definition top_aid : Z := 9223372036854775807.

Definition address_top : AddressRecord :=
  {| AID := top_aid; fa_num1_c := Str "12"; fa_streetName_c := Str "Main";
     fa_streetSuffix_c := Str "St"; fa_unit_c := NaN; fa_zip_c := Str "_12345";
     fa_city_c := Str "Trenton"; fa_state_c := Str "NJ";
     fa_fullAddress_c := Str "12 Main Trenton NJ _12345" |}.

Definition table_top : AddressTable :=
  {| has_fullAddress_c := true; fa_rows := [address_top] |}.

Definition links_top : list Relationship := [link "E1" top_aid; link "E2" top_aid].

Definition tie_top : list ProposedChange :=
  [propose top_aid (Some "E1") zip_c (Str "2020");
   propose top_aid (Some "E2") zip_c (Str "2021")].

Definition state_of (t : AddressTable) (r : list Relationship) (m : Z) : resolver_state :=
  {| df_fa := t; df_r := r; current_max_aid := m; splits := [] |}.

End examples.

(** One step of the loop that gives the next free AID to a key. *)
Definition remap_step {K : Type} `{EqDecision K} (acc : list (K * Z) * Z) (k : K)
    : list (K * Z) * Z :=
  (dict_set acc.1 k acc.2, int64_succ acc.2).

Module splitter_spec.
Import helpers main.

(** The pairs (conflicting AID, signature) in the order the two loops of
    the splitter visit them. *)
Definition remap_keys (signature_cols : list column)
    (merged : list (Relationship * option AddressRecord)) (bad : list Z)
    : list (Z * string) :=
  flat_map (λ aid, map (pair aid) (sigs_of signature_cols merged aid)) bad.

(** The [n] AIDs that follow [top] in 64-bit steps. *)
Definition fresh_aids (top : Z) (n : nat) : list Z :=
  map (λ k, Nat.iter (S k) int64_succ top) (seq 0 n).

(** Every relationship row points to a record of the address table. *)
Definition links_resolved (rows : list AddressRecord) (df_r : list Relationship) : Prop :=
  ∀ x, x ∈ df_r → AID_2 x ∈ map AID rows.

(** The record of an AID in a keyed table. *)
Definition lookup_row (rows : list AddressRecord) (aid : Z) : option AddressRecord :=
  head (filter (λ a, AID a = aid) rows).

End splitter_spec.

Module splitter_examples.
Import helpers main examples.
Local Open Scope Z_scope.

(** E3 points to AID 101, which has no record yet. *)
Definition links_with_dangling : list Relationship :=
  [link "E1" 100; link "E2" 100; link "E3" 101].

(** The record of AID 100 stored twice. *)
Definition table_100_twice : AddressTable :=
  {| has_fullAddress_c := true; fa_rows := [address_100; address_100] |}.

End splitter_examples.

Module rule1_examples.
Import fill_missing_zip_codes.
Local Open Scope Z_scope.

Definition row_of (aid : Z) (zip : value) : merged_row :=
  {| v_AID := aid; v_EID_1 := "E1"; v_num1_c := Str "12";
     v_streetName_c := Str "Main"; v_zip_c := zip;
     v_city_c := Str "Trenton"; v_state_c := Str "NJ" |}.

(** One (entity, house-number, street) group with the ZIP values
    ["_12345", "_12345", "", ""]. *)
Definition two_valid_two_blank : merged_view :=
  {| view_columns :=
       ["EID_1"; "AID_2"; "relationshipType"; "number"; "EID"; "AID"; "num1_c";
        "streetName_c"; "streetSuffix_c"; "unit_c"; "city_c"; "state_c"; "zip_c"];
     zip_c_object := true;
     view_rows :=
       [row_of 1 (Str "_12345"); row_of 2 (Str "_12345");
        row_of 3 (Str ""); row_of 4 (Str "")] |}.

Definition group_key : string * value * string := ("E1", Str "12", "main").

(** The same group with the ZIP values ["_12345", "_12345 ", ""]: the
    second cell has a space after the ZIP. *)
Definition stored_with_space : merged_view :=
  {| view_columns := view_columns two_valid_two_blank;
     zip_c_object := true;
     view_rows :=
       [row_of 1 (Str "_12345"); row_of 2 (Str "_12345 "); row_of 3 (Str "")] |}.

(** The group with no ZIP on file, read by pandas as a numeric column. *)
Definition no_zip_on_file : merged_view :=
  {| view_columns := view_columns two_valid_two_blank;
     zip_c_object := false;
     view_rows := [row_of 1 NaN; row_of 2 NaN] |}.

End rule1_examples.

Module rule3_examples.
Import fill_missing_zip_codes.
Local Open Scope Z_scope.

Definition all_columns : list string :=
  ["EID_1"; "AID_2"; "relationshipType"; "number"; "EID"; "AID"; "num1_c";
   "streetName_c"; "streetSuffix_c"; "unit_c"; "city_c"; "state_c"; "zip_c"].

Definition row_for (eid : string) (aid : Z) (zip : value) : merged_row :=
  {| v_AID := aid; v_EID_1 := eid; v_num1_c := Str "12";
     v_streetName_c := Str "Main"; v_zip_c := zip;
     v_city_c := Str "Trenton"; v_state_c := Str "nj" |}.

(** 12 Main, Trenton: the entity E1 has a valid, a mistyped and a blank
    ZIP on file, the entity E2 a blank one. *)
Definition mixed_zips : merged_view :=
  {| view_columns := all_columns;
     zip_c_object := true;
     view_rows :=
       [row_for "E1" 1 (Str "_12345"); row_for "E1" 2 (Str "12345");
        row_for "E1" 3 NaN; row_for "E2" 4 (Str " ")] |}.

End rule3_examples.

Module main_spec.
Import helpers main.

(** The column checks in the order [main] reaches them: the label
    [_show_samples] prints for the rule, the head of the error message and
    the columns the rule needs. *)
Definition column_checks : list (string * string * list string) :=
  [("Rule 1  (fill missing ZIPs – keep)", "Missing cols for Rule 1: ",
    fill_missing_zip_codes.need_rule1);
   ("Rule 2  (fuzzy search street-name)", "Missing columns for street-name rule: ",
    need_rule2);
   ("Rule 3a (replace invalid ZIPs)", "Missing cols for Rule 3a: ", need_rule3a);
   ("Rule 3b (fill missing ZIPs by addr)", "Missing cols for 3b: ", need_rule3b);
   ("Rule 4  (fuzzy city by ZIP)", "Missing columns for Rule 4: ", need_rule4)].

(** The event is the report of a rule that ran to its end. *)
Definition is_rule_report (label : string) (e : event) : Prop :=
  ∃ n, e = ShowSamples label n.

(** A merged view with every column but [city_c]. *)
Definition view_without_city : merged_view :=
  {| view_columns :=
       ["EID_1"; "AID_2"; "relationshipType"; "number"; "EID"; "AID"; "num1_c";
        "streetName_c"; "streetSuffix_c"; "unit_c"; "state_c"; "zip_c"];
     zip_c_object := true;
     view_rows := view_rows rule1_examples.two_valid_two_blank |}.

(** The same view when no ZIP is on file: pandas reads the column of
    empty cells with a numeric dtype. *)
Definition view_without_city_no_zip : merged_view :=
  {| view_columns := view_columns view_without_city;
     zip_c_object := false;
     view_rows := view_rows rule1_examples.no_zip_on_file |}.

End main_spec.

(** ** Disjoint sets and clusters *)

Module uf_spec.
Import helpers.

(** [path_to p k i r]: following the parent array [p] from slot [i]
    reaches the root [r] after [k] steps. *)
Inductive path_to (p : list nat) : nat → nat → nat → Prop :=
| path_root r : p !! r = Some r → path_to p 0 r r
| path_step i j r k :
    p !! i = Some j → j ≠ i → path_to p k j r → path_to p (S k) i r.

(** Every slot leads to a root. *)
Definition forest (p : list nat) : Prop :=
  ∀ i, i < length p → ∃ k r, path_to p k i r.

(** Two slots are in the same set when they lead to the same root. *)
Definition same_set (p : list nat) (i j : nat) : Prop :=
  ∃ ki kj r, path_to p ki i r ∧ path_to p kj j r.

(** The roots of [p] are the roots of [p']. *)
Definition roots_kept (p p' : list nat) : Prop :=
  length p' = length p ∧ ∀ x k r, path_to p k x r → ∃ k', path_to p' k' x r.

(** A structure over the elements [elems]: the slot of an element is its
    position, the arrays have one cell per element and the parent array
    is a forest. *)
Definition uf_wf (elems : list string) (uf : UnionFind) : Prop :=
  idx uf = zip elems (seq 0 (length elems)) ∧
  length (par uf) = length elems ∧
  length (rank uf) = length elems ∧
  forest (par uf).

(** Two elements lie in one cluster of the result of [clusters]. *)
Definition same_cluster (out : list (nat * list string)) (a b : string) : Prop :=
  ∃ root members, (root, members) ∈ out ∧ a ∈ members ∧ b ∈ members.

(** The result of [clusters] is a partition of [elems]: its lists are not
    empty, its keys are distinct and each element is in exactly one
    list, once. *)
Definition partition_of (elems : list string) (out : list (nat * list string)) : Prop :=
  NoDup (keys out) ∧
  (∀ root members, (root, members) ∈ out → members ≠ []) ∧
  concat (map snd out) ≡ₚ elems.

(** What the loop of [clusters] has built after the items [done]. *)
Definition clusters_inv (p0 : list nat) (done : list (string * nat))
    (out : list (nat * list string)) : Prop :=
  NoDup (keys out) ∧
  (∀ r members, dict_get out r = Some members →
     members ≠ [] ∧
     ∀ e, e ∈ members ↔ ∃ i k, (e, i) ∈ done ∧ path_to p0 k i r) ∧
  (∀ e i k r, (e, i) ∈ done → path_to p0 k i r → r ∈ keys out) ∧
  concat (map snd out) ≡ₚ map fst done.

(** The sets of the structure are the classes of the relation [R] on the
    elements. *)
Definition sets_are (vs : list string) (uf : UnionFind) (R : relation string) : Prop :=
  ∀ ia ib a b, vs !! ia = Some a → vs !! ib = Some b →
               (same_set (par uf) ia ib ↔ rtsc R a b).

(** Union by rank: along every parent pointer the rank goes up. *)
Definition rank_ordered (uf : UnionFind) : Prop :=
  ∀ i j, par uf !! i = Some j → j ≠ i →
         ∃ ki kj, rank uf !! i = Some ki ∧ rank uf !! j = Some kj ∧ ki < kj.

Section visiting.
(** [link s1 s2]: the test of the inner loop says that the pair is to be
    united; [None] is an exception. *)
Variable link : string → string → option bool.

(** The body of the inner loop, for any such test. *)
Definition compare_with (uf : UnionFind) (s1 s2 : string) : option UnionFind :=
  b ← link s1 s2;
  if (b : bool) then union uf s1 s2 else Some uf.

(** The pairs visited in any given order. *)
Fixpoint visit_pairs (pairs : list (string * string)) (uf : UnionFind)
    : option UnionFind :=
  match pairs with
  | [] => Some uf
  | (s1, s2) :: pairs' => uf' ← compare_with uf s1 s2; visit_pairs pairs' uf'
  end.

(** Clustering of the variants [vs], laid out in this order in the
    structure, with the pairs visited in the order [pairs]. *)
Definition clusters_in_order (vs : list string) (pairs : list (string * string))
    : option (list (nat * list string)) :=
  uf ← visit_pairs pairs (UnionFind_init vs);
  '(_, out) ← clusters uf;
  Some out.

(** The pairs are unordered pairs of distinct variants and every such
    pair is among them, in one orientation or the other, once or more. *)
Definition covers (vs : list string) (pairs : list (string * string)) : Prop :=
  (∀ a b, (a, b) ∈ pairs → a ∈ vs ∧ b ∈ vs ∧ a ≠ b) ∧
  (∀ a b, a ∈ vs → b ∈ vs → a ≠ b → (a, b) ∈ pairs ∨ (b, a) ∈ pairs).

(** Two variants are connected by a chain of united pairs. *)
Definition connected (vs : list string) : relation string :=
  rtsc (λ a b, a ∈ vs ∧ b ∈ vs ∧ a ≠ b ∧ link a b = Some true).

End visiting.

(** The pairs [(norms[i], norms[j])], [i < j], in the order of the two
    nested loops. *)
Fixpoint nested_pairs (norms : list string) : list (string * string) :=
  match norms with
  | [] => []
  | s1 :: rest => map (pair s1) rest ++ nested_pairs rest
  end.

End uf_spec.

(** ** The tests of the two fuzzy rules as relations on spellings *)

Module fuzzy_spec.
Import helpers uf_spec.

Section links.
Context {F : Type}.
Variable fdiv : nat → nat → F.
Variables fge flt : F → F → bool.
Variable distance : string → string → nat.
Variable threshold : F.

(** The street rule unites the pair: it is not rejected on its lengths
    and its distance ratio is under the threshold. *)
Definition street_link (s1 s2 : string) : option bool :=
  let len1 := String.length s1 in
  let len2 := String.length s2 in
  let longer := max len1 len2 in
  skip ← fuzzy_search.fast_reject fdiv fge threshold (abs_diff len1 len2) longer;
  if (skip : bool) then Some false
  else fuzzy_search.close_enough fdiv flt distance threshold s1 s2 longer.

(** The same for the city rule. *)
Definition city_link (s1 s2 : string) : option bool :=
  let len1 := String.length s1 in
  let len2 := String.length s2 in
  let longer := max len1 len2 in
  skip ← fuzzy_search_cities.fast_prune fdiv fge threshold (abs_diff len1 len2) longer;
  if (skip : bool) then Some false
  else fuzzy_search_cities.close_enough fdiv flt distance threshold s1 s2 longer.

(** The edit-distance test alone, with no look at the lengths first.  The
    two rules compute it in the same way. *)
Definition distance_link (s1 s2 : string) : option bool :=
  fuzzy_search.close_enough fdiv flt distance threshold s1 s2
    (max (String.length s1) (String.length s2)).

(** The clustering of one group when the edit-distance test is computed
    on every pair. *)
Definition clusters_testing_every_pair (norms : list string)
    : option (list (nat * list string)) :=
  if length norms <? 2 then Some []
  else
    let norms := sort_by_len norms in
    clusters_in_order distance_link norms (nested_pairs norms).

End links.

(** *** Rule 4: what the dictionary of canonical cities holds *)

Section canonical_city.
Context {F : Type}.
Variable fdiv : nat → nat → F.
Variables fge flt : F → F → bool.
Variable distance : string → string → nat.
Variable threshold : F.

(** The rows of one ZIP, their normalised spellings and the original
    spellings behind a cluster. *)
Definition group_of (df : list merged_row) (zip_code : string) : list merged_row :=
  filter (λ r, rule4.zip_text r = zip_code) df.

Definition variants_of (df : list merged_row) (zip_code : string) : list string :=
  unique (map rule4.city_norm (group_of df zip_code)).

Definition originals_of (df : list merged_row) (zip_code : string)
    (cluster : list string) : list string :=
  unique (map rule4.city_text
            (filter (λ r, rule4.city_norm r ∈ cluster) (group_of df zip_code))).

(** [best] is the canonical city of the cluster of [k.2] among the
    spellings of the ZIP [k.1]: the cluster has several spellings and
    [best] is the maximum of its original spellings. *)
Definition canonical (df : list merged_row) (k : string * string) (best : string)
    : Prop :=
  ∃ out root cluster,
    fuzzy_search_cities.propose_correct_city_names_by_zip_clusters fdiv fge flt distance
      threshold (variants_of df k.1) = Some out ∧
    (root, cluster) ∈ out ∧ k.2 ∈ cluster ∧ length cluster ≠ 1 ∧
    py_max (rule4.city_lt df k.1) (originals_of df k.1 cluster) = Some best.

(** What [canon_map] holds in the middle of the loops: the ZIPs [done]
    are finished and the clusters [cls] of the ZIP [zip_code] are too. *)
Definition canon_map_holds (df : list merged_row) (done : list string)
    (zip_code : string) (cls : list (nat * list string))
    (d : list ((string * string) * string)) : Prop :=
  ∀ k v, dict_get d k = Some v ↔
    (k.1 ∈ done ∧ canonical df k v) ∨
    (k.1 = zip_code ∧
     ∃ cl, cl ∈ cls ∧ k.2 ∈ cl.2 ∧ length cl.2 ≠ 1 ∧
           py_max (rule4.city_lt df zip_code) (originals_of df zip_code cl.2) = Some v).

End canonical_city.

(** *** Rule 2: the spelling a cluster of one group is corrected to *)

(** [best] is on file in the group [g] for a row of the cluster, and no
    spelling of the cluster's rows comes after it in the order of
    (rows with that spelling, spelling). *)
Definition most_frequent_street (df g : list merged_row) (eid : string) (num : value)
    (cluster : list string) (best : string) : Prop :=
  (∃ r, r ∈ g ∧ rule2.street_norm r ∈ cluster ∧ rule2.street_text r = best) ∧
  ∀ r, r ∈ g → rule2.street_norm r ∈ cluster →
    rule2.freq_get df eid num (rule2.street_text r) < rule2.freq_get df eid num best ∨
    (rule2.freq_get df eid num (rule2.street_text r) = rule2.freq_get df eid num best ∧
     String.leb (rule2.street_text r) best = true).

(** *** A model of the assumptions on floats and on the edit distance *)

(** Exact rationals for the quotients and the threshold. *)
Definition qdiv (a b : nat) : Q := Z.of_nat a # Pos.of_nat b.
Definition qge (x t : Q) : bool := Qle_bool t x.
Definition qlt (x t : Q) : bool := negb (Qle_bool t x).

(** The Levenshtein distance with unit costs. *)
Fixpoint lev (a : list ascii) : list ascii → nat :=
  match a with
  | [] => λ b, length b
  | x :: a' =>
      fix lev_a (b : list ascii) : nat :=
        match b with
        | [] => S (length a')
        | y :: b' =>
            Nat.min (Nat.min (S (lev a' b)) (S (lev_a b')))
                    (lev a' b' + (if decide (x = y) then 0 else 1))
        end
  end.

Definition levenshtein (s1 s2 : string) : nat :=
  lev (list_ascii_of_string s1) (list_ascii_of_string s2).

(** Rows of one ZIP whose city is spelled "oak" twice, "Oak " and "oat",
    a far spelling, another ZIP, and two rows the rule leaves out. *)
Definition city_row (aid : Z) (zip city : value) : merged_row :=
  {| v_AID := aid; v_EID_1 := "E1"; v_num1_c := Str "12";
     v_streetName_c := Str "Main"; v_zip_c := zip; v_city_c := city;
     v_state_c := Str "NJ" |}.

Definition city_view : merged_view :=
  {| view_columns := ["AID"; "zip_c"; "city_c"];
     zip_c_object := true;
     view_rows :=
       [city_row 1 (Str "_12345") (Str "oak"); city_row 2 (Str "_12345") (Str "oak");
        city_row 3 (Str "_12345") (Str "Oak "); city_row 4 (Str "_12345") (Str "oat");
        city_row 5 (Str "_12345") (Str "elm street");
        city_row 6 (Str "_99999") (Str "oat"); city_row 7 NaN (Str "oat");
        city_row 8 (Str "12345") (Str "oat")] |}.

(** One (entity, house number) group: "oak" twice, "Oak " and "oat". *)
Definition street_row (aid : Z) (street : value) : merged_row :=
  {| v_AID := aid; v_EID_1 := "E1"; v_num1_c := Str "12";
     v_streetName_c := street; v_zip_c := Str "_12345"; v_city_c := Str "Trenton";
     v_state_c := Str "NJ" |}.

Definition street_rows : list merged_row :=
  [street_row 1 (Str "oak"); street_row 2 (Str "oak"); street_row 3 (Str "Oak ");
   street_row 4 (Str "oat")].

(** Three spellings of one group, and a threshold of one half. *)
Definition three_spellings : list string := ["elm street"; "oak"; "oat"].
Definition one_half : Q := (1 # 2)%Q.

End fuzzy_spec.
(* ================================================================== *)
(** * Part III. Lemmas and theorems                                     *)
(* ================================================================== *)

(** ** Dictionaries *)

Section dict_facts.
Context {K V : Type} `{EqDecision K}.
Implicit Types (d : list (K * V)) (k : K) (v : V).

Lemma dict_get_set_eq d k v : dict_get (dict_set d k v) k = Some v.
Proof.
  induction d as [|[k' v'] d IH]; cbn [dict_get dict_set];
    repeat (case_decide; cbn [dict_get]); by simplify_eq.
Qed.

Lemma dict_get_set_ne d k k' v :
  k ≠ k' → dict_get (dict_set d k v) k' = dict_get d k'.
Proof.
  intros Hne. induction d as [|[k0 v0] d IH]; cbn [dict_get dict_set];
    repeat (case_decide; cbn [dict_get]); by simplify_eq.
Qed.

Lemma keys_dict_set d k v :
  keys (dict_set d k v) = if decide (k ∈ keys d) then keys d else keys d ++ [k].
Proof.
  unfold keys. induction d as [|[k0 v0] d IH]; cbn [dict_set map fst app].
  - rewrite decide_False; [done|]. by intros ?%elem_of_nil.
  - destruct (decide (k = k0)) as [->|Hne]; cbn [map fst].
    + rewrite decide_True; [done|]. by left.
    + rewrite IH. destruct (decide (k ∈ map fst d)) as [Hin|Hnin].
      * rewrite decide_True; [done|]. by right.
      * rewrite decide_False; [done|]. by intros [?|?]%elem_of_cons.
Qed.

Lemma dict_get_None d k : dict_get d k = None ↔ k ∉ keys d.
Proof.
  unfold keys. induction d as [|[k0 v0] d IH]; cbn [dict_get map fst].
  - split; [intros _ ?%elem_of_nil; done|done].
  - destruct (decide (k = k0)) as [->|Hne].
    + split; [done|]. intros []. by left.
    + rewrite IH. split.
      * by intros ? [?|?]%elem_of_cons.
      * intros Hn Hin. apply Hn. by right.
Qed.

Lemma dict_get_Some_elem d k v : dict_get d k = Some v → (k, v) ∈ d.
Proof.
  induction d as [|[k0 v0] d IH]; cbn [dict_get]; [done|].
  destruct (decide (k = k0)) as [->|Hne].
  - intros [= ->]. by left.
  - intros ?. right. by apply IH.
Qed.

Lemma dict_get_elem_NoDup d k v :
  NoDup (keys d) → (k, v) ∈ d → dict_get d k = Some v.
Proof.
  unfold keys. induction d as [|[k0 v0] d IH]; cbn [dict_get map fst].
  - by intros _ ?%elem_of_nil.
  - intros [Hnin Hnd]%NoDup_cons [Heq|Hin]%elem_of_cons.
    + injection Heq as -> ->. by rewrite decide_True.
    + rewrite decide_False; [by apply IH|].
      intros ->. apply Hnin. apply list_elem_of_fmap. by exists (k0, v).
Qed.

Lemma NoDup_keys_dict_set d k v : NoDup (keys d) → NoDup (keys (dict_set d k v)).
Proof.
  intros Hnd. rewrite keys_dict_set. case_decide; [done|].
  apply NoDup_app. split_and!; [done| |apply NoDup_singleton].
  intros x Hx ->%list_elem_of_singleton. done.
Qed.

Lemma dict_set_same d k v : dict_get d k = Some v → dict_set d k v = d.
Proof.
  induction d as [|[k0 v0] d IH]; cbn [dict_get dict_set]; [done|].
  destruct (decide (k = k0)) as [->|Hne].
  - by intros [= ->].
  - intros ?. by rewrite IH.
Qed.

End dict_facts.

(** ** 64-bit steps of the AID counters *)

Section int64_facts.
Local Open Scope Z_scope.

Ltac int64_consts :=
  unfold int64_succ, int64_wrap, in_int64 in *;
  change (2 ^ 64) with 18446744073709551616 in *;
  change (2 ^ 63) with 9223372036854775808 in *.

Lemma int64_wrap_range n : in_int64 (int64_wrap n).
Proof.
  int64_consts.
  pose proof (Z.mod_pos_bound (n + 9223372036854775808) 18446744073709551616). lia.
Qed.

Lemma int64_wrap_id n : in_int64 n → int64_wrap n = n.
Proof. int64_consts. intros H. rewrite Z.mod_small; lia. Qed.

Lemma int64_wrap_add n k : int64_wrap (int64_wrap n + k) = int64_wrap (n + k).
Proof.
  int64_consts. f_equal.
  replace ((n + 9223372036854775808) mod 18446744073709551616 - 9223372036854775808
           + k + 9223372036854775808)
    with ((n + 9223372036854775808) mod 18446744073709551616 + k) by lia.
  rewrite Zplus_mod_idemp_l. f_equal. lia.
Qed.

Lemma iter_int64_succ_S k n :
  Nat.iter (S k) int64_succ n = int64_wrap (n + Z.of_nat (S k)).
Proof.
  induction k as [|k IH]; [done|].
  rewrite Nat.iter_succ, IH. unfold int64_succ at 1. rewrite int64_wrap_add.
  f_equal. lia.
Qed.

(** Below the bound the counter counts as the integers do. *)
Lemma iter_int64_succ_small k n :
  in_int64 n → n + Z.of_nat k < 2 ^ 63 → Nat.iter k int64_succ n = n + Z.of_nat k.
Proof.
  intros Hn Hk. destruct k as [|k]; [cbn; lia|].
  rewrite iter_int64_succ_S. apply int64_wrap_id. int64_consts. lia.
Qed.

Lemma iter_int64_succ_shift k n :
  Nat.iter k int64_succ (int64_succ n) = Nat.iter (S k) int64_succ n.
Proof. by rewrite Nat.iter_succ_r. Qed.

Lemma iter_int64_succ_add j k n :
  Nat.iter j int64_succ (Nat.iter k int64_succ n) = Nat.iter (j + k) int64_succ n.
Proof. by rewrite Nat.iter_add. Qed.

End int64_facts.
(** ** The conflict resolver *)

Lemma map_seq_offset (c : Z) (a s n : nat) :
  map (λ k, Nat.iter k int64_succ (Nat.iter a int64_succ c)) (seq s n)
  = map (λ k, Nat.iter k int64_succ c) (seq (s + a) n).
Proof.
  revert s. induction n as [|n IH]; intros s; simpl; [done|].
  f_equal; [apply iter_int64_succ_add|]. apply (IH (S s)).
Qed.

Section resolver_facts.
Import helpers main resolver_spec.
Variable reconstructor : AddressRecord → string.

Lemma extends_refl st : extends st st.
Proof.
  split; [done|]. exists []. rewrite !app_nil_r. simpl.
  split_and!; done.
Qed.

Lemma extends_trans st1 st2 st3 : extends st1 st2 → extends st2 st3 → extends st1 st3.
Proof.
  intros [Hf1 (n1 & Hs1 & Ha1 & Hm1 & Hr1 & Hp1)] [Hf2 (n2 & Hs2 & Ha2 & Hm2 & Hr2 & Hp2)].
  split; [congruence|]. exists (n1 ++ n2).
  split_and!.
  - by rewrite Hs2, Hs1, app_assoc.
  - rewrite map_app, Ha1, Ha2, length_app, seq_app, map_app. f_equal.
    rewrite Hm1. apply map_seq_offset.
  - rewrite Hm2, Hm1, length_app, iter_int64_succ_add. f_equal. lia.
  - by rewrite Hr2, Hr1, map_app, app_assoc.
  - by rewrite Hp2, Hp1.
Qed.

Lemma map_AID_insert (rows : list AddressRecord) i row row' :
  rows !! i = Some row → AID row' = AID row →
  map AID (<[i := row']> rows) = map AID rows.
Proof.
  intros Hi Ha. change (map AID ?l) with (AID <$> l).
  rewrite list_fmap_insert, Ha. apply list_insert_id.
  by rewrite list_lookup_fmap, Hi.
Qed.

Lemma AID_set_col a c v : AID (set_col a c v) = AID a.
Proof. done. Qed.

Lemma write_cell_AIDs t i row col v :
  fa_rows t !! i = Some row →
  map AID (fa_rows (write_cell reconstructor t i row col v)) = map AID (fa_rows t).
Proof.
  intros Hi. unfold write_cell. cbn [fa_rows].
  apply (map_AID_insert _ _ row); [done|]. by destruct (has_fullAddress_c t).
Qed.

Lemma write_cell_length t i row col v :
  length (fa_rows (write_cell reconstructor t i row col v)) = length (fa_rows t).
Proof. unfold write_cell. cbn [fa_rows]. apply length_insert. Qed.

Lemma write_cell_extends st i row col v :
  fa_rows (df_fa st) !! i = Some row →
  extends st {| df_fa := write_cell reconstructor (df_fa st) i row col v;
                df_r := df_r st; current_max_aid := current_max_aid st;
                splits := splits st |}.
Proof.
  intros Hi. split; [done|]. exists []. cbn [df_fa df_r current_max_aid splits].
  rewrite !app_nil_r, write_cell_AIDs by done. simpl. split_and!; done.
Qed.

Lemma payload_repoint aid n (supporters : list (option string)) (l : list Relationship) :
  map payload
    (map (λ r, if decide (AID_2 r = aid ∧ Some (EID_1 r) ∈ supporters)
               then {| EID_1 := EID_1 r; AID_2 := n;
                       relationshipType := relationshipType r; number := number r |}
               else r) l)
  = map payload l.
Proof. rewrite map_map. apply map_ext. intros r. by case_decide. Qed.

Lemma split_variant_extends aid col i maj st e :
  i < length (fa_rows (df_fa st)) →
  ∃ st', split_variant reconstructor aid col i maj st e = Some st' ∧ extends st st'.
Proof.
  intros Hi. destruct e as [v sup]. unfold split_variant.
  destruct (py_eq v maj); [eexists; split; [done|apply extends_refl]|].
  destruct (lookup_lt_is_Some_2 _ _ Hi) as [base Hb]. rewrite Hb. cbn [mbind option_bind].
  eexists. split; [done|]. split; [done|].
  eexists [_]. cbn [df_fa df_r current_max_aid splits fa_rows].
  split_and!; try done.
  - rewrite map_app. f_equal. simpl. by destruct (has_fullAddress_c (df_fa st)).
  - apply payload_repoint.
Qed.

Lemma extends_length st st' :
  extends st st' → length (fa_rows (df_fa st)) ≤ length (fa_rows (df_fa st')).
Proof.
  intros [_ (new & _ & _ & _ & Hr & _)].
  apply (f_equal length) in Hr. rewrite length_app, !length_map in Hr. lia.
Qed.

Lemma split_variants_extends aid col i maj entries st :
  i < length (fa_rows (df_fa st)) →
  ∃ st', split_variants reconstructor aid col i maj entries st = Some st' ∧ extends st st'.
Proof.
  revert st. induction entries as [|e entries IH]; intros st Hi; cbn [split_variants].
  - eexists. split; [done|apply extends_refl].
  - destruct (split_variant_extends aid col i maj st e Hi) as (st1 & -> & He1).
    cbn [mbind option_bind].
    destruct (IH st1) as (st2 & -> & He2).
    { pose proof (extends_length _ _ He1). lia. }
    eexists. split; [done|]. by eapply extends_trans.
Qed.


(** *** The dictionary of proposed values *)

Lemma build_val2eids_snoc items p :
  build_val2eids (items ++ [p]) = val2eids_step (build_val2eids items) p.
Proof. unfold build_val2eids. by rewrite fold_left_app. Qed.

Lemma build_val2eids_ok items : val2eids_ok items (build_val2eids items).
Proof.
  induction items as [|p items IH] using rev_ind.
  - split_and!; [constructor| |done].
    intros v. split; [by intros ?%elem_of_nil|]. by intros (p & ?%elem_of_nil & _).
  - rewrite build_val2eids_snoc. destruct IH as (Hnd & Hk & Hs).
    unfold val2eids_step, val2eids_ok.
    setoid_rewrite elem_of_app. setoid_rewrite list_elem_of_singleton.
    destruct (dict_get (build_val2eids items) (proposed_value p)) as [l|] eqn:Hget;
      cbn [default].
    + destruct (Hs _ _ Hget) as [Hndl Hl].
      assert (proposed_value p ∈ keys (build_val2eids items)) as Hin.
      { destruct (decide (proposed_value p ∈ keys (build_val2eids items))) as [|n];
          [done|]. apply dict_get_None in n. congruence. }
      case_decide as Hc.
      * split_and!; [done| |].
        -- intros v. rewrite Hk. naive_solver.
        -- intros v s Hv. destruct (Hs _ _ Hv) as [? Hvs]. split; [done|].
           intros c. rewrite Hvs. split; [naive_solver|].
           intros (q & [Hq| ->] & <- & <-); [naive_solver|].
           apply Hvs. rewrite Hget in Hv. injection Hv as <-. done.
      * split_and!.
        -- by apply NoDup_keys_dict_set.
        -- intros v. rewrite keys_dict_set, decide_True by done. rewrite Hk.
           naive_solver.
        -- intros v s. destruct (decide (proposed_value p = v)) as [<-|Hne].
           ++ rewrite dict_get_set_eq. intros [= <-]. split.
              ** apply NoDup_app. split_and!; [done| |apply NoDup_singleton].
                 by intros x Hx ->%list_elem_of_singleton.
              ** intros c. rewrite elem_of_app, Hl, list_elem_of_singleton.
                 naive_solver.
           ++ rewrite dict_get_set_ne by done. intros Hv.
              destruct (Hs _ _ Hv) as [? Hvs]. split; [done|].
              intros c. rewrite Hvs. naive_solver.
    + assert (proposed_value p ∉ keys (build_val2eids items)) as Hnin
        by by apply dict_get_None.
      rewrite decide_False by by intros ?%elem_of_nil.
      split_and!.
      * by apply NoDup_keys_dict_set.
      * intros v. rewrite keys_dict_set, decide_False by done.
        rewrite elem_of_app, Hk, list_elem_of_singleton. naive_solver.
      * intros v s. destruct (decide (proposed_value p = v)) as [<-|Hne].
        -- rewrite dict_get_set_eq. intros [= <-]. split; [apply NoDup_singleton|].
           intros c. cbn [app]. rewrite list_elem_of_singleton. split; [naive_solver|].
           intros (q & [Hq| ->] & Hv & <-); [|done].
           exfalso. apply Hnin. apply Hk. by exists q.
        -- rewrite dict_get_set_ne by done. intros Hv.
           destruct (Hs _ _ Hv) as [? Hvs]. split; [done|].
           intros c. rewrite Hvs. naive_solver.
Qed.

Lemma build_val2eids_nonempty items : items ≠ [] → build_val2eids items ≠ [].
Proof.
  intros Hne Hd. destruct items as [|p items]; [done|].
  destruct (build_val2eids_ok (p :: items)) as (_ & Hk & _).
  rewrite Hd in Hk. specialize (Hk (proposed_value p)).
  destruct Hk as [_ Hk]. eapply elem_of_nil, Hk. exists p. split; [by left|done].
Qed.

End resolver_facts.

(** ** Python's [max] and the order of the vote keys *)

Lemma string_compare_lt_trans a b c :
  String.compare a b = Lt → String.compare b c = Lt → String.compare a c = Lt.
Proof.
  revert b c. induction a as [|x a IH]; intros [|y b] [|z c]; simpl; try done.
  unfold Ascii.compare.
  destruct (N.compare_spec (N_of_ascii x) (N_of_ascii y)) as [Hxy|Hxy|Hxy]; try done;
    destruct (N.compare_spec (N_of_ascii y) (N_of_ascii z)) as [Hyz|Hyz|Hyz]; try done;
    destruct (N.compare_spec (N_of_ascii x) (N_of_ascii z)) as [Hxz|Hxz|Hxz];
    try done; try lia; eauto.
Qed.

Lemma string_compare_refl a : String.compare a a = Eq.
Proof.
  induction a as [|x a IH]; simpl; [done|].
  unfold Ascii.compare. by rewrite N.compare_refl.
Qed.

Lemma string_ltb_trans a b c :
  String.ltb a b = true → String.ltb b c = true → String.ltb a c = true.
Proof.
  unfold String.ltb. intros Hab Hbc.
  destruct (String.compare a b) eqn:E1; try done.
  destruct (String.compare b c) eqn:E2; try done.
  by rewrite (string_compare_lt_trans _ _ _ E1 E2).
Qed.

Lemma string_ltb_irrefl a : String.ltb a a = false.
Proof. unfold String.ltb. by rewrite string_compare_refl. Qed.

Lemma string_ltb_false_leb a b : String.ltb a b = false → String.leb b a = true.
Proof.
  unfold String.ltb, String.leb. rewrite (String.compare_antisym b a).
  by destruct (String.compare a b).
Qed.

Lemma string_ltb_neq a b : String.ltb a b = true → a ≠ b.
Proof. intros H ->. by rewrite string_ltb_irrefl in H. Qed.

Section py_max_facts.
Context {A : Type} (lt : A → A → bool).
Hypothesis lt_irrefl : ∀ x, lt x x = false.
Hypothesis lt_trans : ∀ x y z, lt x y = true → lt y z = true → lt x z = true.

Lemma py_max_from_spec first rest :
  let best := py_max_from lt first rest in
  best ∈ first :: rest ∧ ∀ x, x ∈ first :: rest → lt best x = false.
Proof.
  revert first. induction rest as [|y rest IH] using rev_ind; intros first.
  - simpl. split; [by left|]. by intros x ->%list_elem_of_singleton.
  - unfold py_max_from. rewrite fold_left_app. cbn [fold_left].
    fold (py_max_from lt first rest).
    destruct (IH first) as [Hin Hmax].
    destruct (lt (py_max_from lt first rest) y) eqn:Hlt.
    + split.
      * rewrite app_comm_cons, elem_of_app, list_elem_of_singleton. by right.
      * intros x. rewrite app_comm_cons, elem_of_app, list_elem_of_singleton.
        intros [Hx| ->]; [|done].
        destruct (lt y x) eqn:Hyx; [|done].
        rewrite <- (Hmax x Hx). symmetry. by eapply lt_trans.
    + split.
      * rewrite app_comm_cons, elem_of_app. by left.
      * intros x. rewrite app_comm_cons, elem_of_app, list_elem_of_singleton.
        intros [Hx| ->]; [by apply Hmax|done].
Qed.

Lemma py_max_spec xs :
  xs ≠ [] →
  ∃ best, py_max lt xs = Some best ∧ best ∈ xs ∧ ∀ x, x ∈ xs → lt best x = false.
Proof.
  destruct xs as [|x xs]; [done|]. intros _. eexists. split; [done|].
  apply py_max_from_spec.
Qed.

End py_max_facts.

Section vote_facts.
Import helpers main resolver_spec.

Lemma vote_lt_irrefl x : vote_lt x x = false.
Proof.
  unfold vote_lt, vote_key. cbn [fst snd].
  by rewrite Nat.ltb_irrefl, Nat.eqb_refl, string_ltb_irrefl.
Qed.

Lemma vote_lt_trans x y z :
  vote_lt x y = true → vote_lt y z = true → vote_lt x z = true.
Proof.
  unfold vote_lt, vote_key. cbn [fst snd].
  rewrite !orb_true_iff, !andb_true_iff, !Nat.ltb_lt, !Nat.eqb_eq.
  intros [?|[? ?]] [?|[? ?]]; try (left; lia).
  right. split; [lia|]. by eapply string_ltb_trans.
Qed.

Lemma vote_lt_false_le x y : vote_lt x y = false → vote_le y x.
Proof.
  unfold vote_lt, vote_le, vote_key. cbn [fst snd].
  rewrite orb_false_iff, andb_false_iff, Nat.ltb_ge, Nat.eqb_neq.
  intros [Hle [Hne|Hs]].
  - left. lia.
  - destruct (decide (length y.2 = length x.2)); [|left; lia].
    right. split; [done|]. by apply string_ltb_false_leb.
Qed.

End vote_facts.

Section resolver_run.
Import helpers main resolver_spec.
Variable reconstructor : AddressRecord → string.

Lemma build_bucket_snoc ps p :
  build_bucket (ps ++ [p]) = dict_append (build_bucket ps) (target p) p.
Proof. unfold build_bucket. by rewrite fold_left_app. Qed.

Lemma build_bucket_NoDup ps : NoDup (keys (build_bucket ps)).
Proof.
  induction ps as [|p ps IH] using rev_ind; [constructor|].
  rewrite build_bucket_snoc. by apply NoDup_keys_dict_set.
Qed.

Lemma build_bucket_get ps aid col :
  dict_get (build_bucket ps) (aid, col)
  = match partition aid col ps with [] => None | items => Some items end.
Proof.
  unfold partition. induction ps as [|p ps IH] using rev_ind; [done|].
  rewrite build_bucket_snoc, filter_app. unfold dict_append.
  destruct (decide (target p = (aid, col))) as [Heq|Hne].
  - rewrite Heq, dict_get_set_eq, IH.
    rewrite (filter_cons_True _ p) by done. rewrite filter_nil.
    by destruct (filter _ ps).
  - rewrite dict_get_set_ne, IH by done.
    rewrite (filter_cons_False _ p) by done. by rewrite filter_nil, app_nil_r.
Qed.

Lemma build_bucket_elem ps aid col items :
  ((aid, col), items) ∈ build_bucket ps → items = partition aid col ps ∧ items ≠ [].
Proof.
  intros Hin. apply dict_get_elem_NoDup in Hin; [|apply build_bucket_NoDup].
  rewrite build_bucket_get in Hin. destruct (partition aid col ps); [done|].
  by injection Hin as <-.
Qed.

Lemma build_bucket_keys ps aid col :
  (aid, col) ∈ keys (build_bucket ps) ↔ partition aid col ps ≠ [].
Proof.
  destruct (dict_get (build_bucket ps) (aid, col)) as [l|] eqn:Hget.
  - split.
    + intros _. rewrite build_bucket_get in Hget. by destruct (partition aid col ps).
    + intros _. apply dict_get_Some_elem in Hget.
      apply list_elem_of_fmap. by exists ((aid, col), l).
  - pose proof Hget as Hnone. apply dict_get_None in Hget.
    rewrite build_bucket_get in Hnone. split; [done|].
    by destruct (partition aid col ps).
Qed.

Lemma process_bucket_extends st aid col items :
  items ≠ [] →
  ∃ st', process_bucket reconstructor st ((aid, col), items) = Some st' ∧ extends st st'.
Proof.
  intros Hne. unfold process_bucket.
  destruct (list_find _ _) as [[i row]|] eqn:Hfind;
    [|eexists; split; [done|apply extends_refl]].
  apply list_find_Some in Hfind as (Hi & Haid & _).
  pose proof (build_val2eids_nonempty _ Hne) as Hd.
  assert (∃ st', (best ← py_max vote_lt (build_val2eids items);
             split_variants reconstructor aid col i best.1 (build_val2eids items)
               (if py_ne (get_col row col) best.1
                then {| df_fa := write_cell reconstructor (df_fa st) i row col best.1;
                        df_r := df_r st; current_max_aid := current_max_aid st;
                        splits := splits st |}
                else st)) = Some st' ∧ extends st st') as Hconflict.
  { destruct (py_max_spec vote_lt vote_lt_irrefl vote_lt_trans _ Hd) as (best & -> & _).
    cbn [mbind option_bind].
    destruct (py_ne (get_col row col) best.1).
    - edestruct (split_variants_extends reconstructor aid col i best.1
                   (build_val2eids items)) as (st' & -> & He).
      2:{ eexists. split; [done|]. eapply extends_trans; [|exact He].
          by apply write_cell_extends. }
      cbn [df_fa]. rewrite write_cell_length. by eapply lookup_lt_Some.
    - apply split_variants_extends. by eapply lookup_lt_Some. }
  destruct (build_val2eids items) as [|[v s] [|e d]]; [done| |exact Hconflict].
  destruct (_ || _).
  - eexists. split; [done|apply extends_refl].
  - eexists. split; [done|]. by apply write_cell_extends.
Qed.

Lemma process_buckets_extends buckets st :
  (∀ b, b ∈ buckets → b.2 ≠ []) →
  ∃ st', process_buckets reconstructor buckets st = Some st' ∧ extends st st'.
Proof.
  revert st. induction buckets as [|[[aid col] items] buckets IH]; intros st Hne.
  - eexists. split; [done|apply extends_refl].
  - cbn [process_buckets].
    destruct (process_bucket_extends st aid col items) as (st1 & -> & H1).
    { apply (Hne (aid, col, items)). by left. }
    cbn [mbind option_bind].
    destruct (IH st1) as (st2 & -> & H2).
    { intros b Hb. apply Hne. by right. }
    eexists. split; [done|]. by eapply extends_trans.
Qed.

Lemma resolve_extends fa r proposals m :
  ∃ st, resolve_and_apply_changes reconstructor fa r proposals m = Some st ∧
        extends {| df_fa := fa; df_r := r; current_max_aid := m; splits := [] |} st.
Proof.
  apply process_buckets_extends. intros [[aid col] items] Hb.
  by apply build_bucket_elem in Hb as [_ ?].
Qed.

(** C7, amended.  The resolver always returns.  Its counter is a 64-bit
    integer: the [i]-th event carries the AID reached from the input
    counter by [i] increments, each wrapping around at [2^63], and the
    returned counter is the input counter after one increment per event.
    When the input counter is a 64-bit value and the counter plus the
    number of events stays below [2^63], these are [current_max_aid + 1],
    [current_max_aid + 2], ... in emission order and the returned counter
    is the input counter plus the number of events.  The AID column of
    the output is the AID column of the input followed by the new AIDs,
    so every input row keeps its place and its AID and only clones are
    appended.  The relationship rows stay in place, one for one, with
    their entity, type and number; only the AID pointer may differ. *)
Theorem C7_new_aids_increasing_rows_only_appended fa r proposals m :
  ∃ st, resolve_and_apply_changes reconstructor fa r proposals m = Some st ∧
    map new_aid (splits st)
      = map (λ i, Nat.iter i int64_succ m) (seq 1 (length (splits st))) ∧
    current_max_aid st = Nat.iter (length (splits st)) int64_succ m ∧
    (in_int64 m → (m + Z.of_nat (length (splits st)) < 2 ^ 63)%Z →
       map new_aid (splits st)
         = map (λ i, (m + Z.of_nat i)%Z) (seq 1 (length (splits st))) ∧
       current_max_aid st = (m + Z.of_nat (length (splits st)))%Z) ∧
    map AID (fa_rows (df_fa st)) = map AID (fa_rows fa) ++ map new_aid (splits st) ∧
    (∀ i a, fa_rows fa !! i = Some a →
       ∃ a', fa_rows (df_fa st) !! i = Some a' ∧ AID a' = AID a) ∧
    length (df_r st) = length r ∧
    (∀ i x, r !! i = Some x →
       ∃ x', df_r st !! i = Some x' ∧ EID_1 x' = EID_1 x ∧
             relationshipType x' = relationshipType x ∧ number x' = number x).
Proof.
  destruct (resolve_extends fa r proposals m) as (st & Hrun & _ & new & Hs & Ha & Hm & Hr & Hp).
  cbn [df_fa df_r current_max_aid splits app] in *. subst new.
  exists st. split_and!; try done.
  - intros Hm64 Hsmall. split.
    + rewrite Ha. apply map_ext_in. intros i [_ Hi]%in_seq.
      apply iter_int64_succ_small; [done|lia].
    + rewrite Hm. by apply iter_int64_succ_small.
  - intros i a Hi.
    assert ((AID <$> fa_rows (df_fa st)) !! i = Some (AID a)) as Hl.
    { change (AID <$> ?l) with (map AID l). rewrite Hr.
      apply lookup_app_l_Some. change (map AID ?l) with (AID <$> l).
      by rewrite list_lookup_fmap, Hi. }
    rewrite list_lookup_fmap in Hl.
    destruct (fa_rows (df_fa st) !! i) as [a'|]; [|done].
    exists a'. split; [done|]. by injection Hl.
  - apply (f_equal length) in Hp. by rewrite !length_map in Hp.
  - intros i x Hi.
    assert ((payload <$> df_r st) !! i = Some (payload x)) as Hl.
    { change (payload <$> ?l) with (map payload l). rewrite Hp.
      change (map payload ?l) with (payload <$> l).
      by rewrite list_lookup_fmap, Hi. }
    rewrite list_lookup_fmap in Hl.
    destruct (df_r st !! i) as [x'|]; [|done].
    exists x'. split; [done|]. unfold payload in Hl. cbn in Hl. by simplify_eq.
Qed.

End resolver_run.

Section resolver_run_examples.
Import helpers main resolver_spec.

(** C7 as stated fails at the end of the 64-bit range: with the counter
    at [2^63 - 1] the tie between "2020" and "2021" gives one event, and
    its new AID is [-2^63], not the counter plus one; the returned counter
    is below the input counter. *)
Lemma C7_counterexample :
  ∃ st e,
    resolve_and_apply_changes reconstruct_full_address examples.table_top
      examples.links_top examples.tie_top examples.top_aid = Some st ∧
    splits st = [e] ∧
    new_aid e = (- 9223372036854775808)%Z ∧
    new_aid e ≠ (examples.top_aid + 1)%Z ∧
    (current_max_aid st < examples.top_aid)%Z.
Proof.
  eexists _, _. split; [vm_compute; reflexivity|]. split; [reflexivity|].
  split; [reflexivity|]. split; [by vm_compute|]. by vm_compute.
Qed.

End resolver_run_examples.

(** ** The effect of one bucket on the tables *)

Section bucket_shape.
Import helpers main resolver_spec.
Variable reconstructor : AddressRecord → string.

Lemma get_set_col_eq a c v : get_col (set_col a c v) c = v.
Proof. by destruct c. Qed.

Lemma get_set_col_ne a c c' v : c' ≠ c → get_col (set_col a c v) c' = get_col a c'.
Proof. by destruct c, c'. Qed.

Lemma get_col_set_fullAddress a c v : get_col (set_fullAddress_c a v) c = get_col a c.
Proof. by destruct c. Qed.

Lemma get_col_set_AID a c n : get_col (set_AID a n) c = get_col a c.
Proof. by destruct c. Qed.

Lemma written_row_AID has row col v : AID (written_row reconstructor has row col v) = AID row.
Proof. unfold written_row. by destruct has. Qed.

Lemma written_row_col has row col v :
  get_col (written_row reconstructor has row col v) col = v.
Proof.
  unfold written_row. destruct has; [rewrite get_col_set_fullAddress|];
    apply get_set_col_eq.
Qed.

Lemma written_row_other has row col v c :
  c ≠ col → get_col (written_row reconstructor has row col v) c = get_col row c.
Proof.
  intros Hne. unfold written_row. destruct has; [rewrite get_col_set_fullAddress|];
    by apply get_set_col_ne.
Qed.

Lemma write_cell_rows t i row col v :
  fa_rows (write_cell reconstructor t i row col v)
  = <[i := written_row reconstructor (has_fullAddress_c t) row col v]> (fa_rows t).
Proof. done. Qed.

Lemma py_eq_true a b : py_eq a b = true ↔ ∃ s, a = Str s ∧ b = Str s.
Proof.
  destruct a as [|x], b as [|y]; cbn [py_eq]; try (split; [done|by intros (? & ? & ?)]).
  rewrite bool_decide_eq_true. split; [intros ->; by eexists|].
  by intros (s & [= ->] & [= ->]).
Qed.

(** The comparison of the single-value path is the equality of cells. *)
Lemma same_cell_iff cur new :
  (isna cur && isna new) || py_eq cur new = true ↔ cur = new.
Proof.
  rewrite orb_true_iff, andb_true_iff, py_eq_true.
  destruct cur, new; cbn [isna]; split; try naive_solver.
Qed.

(** The first row of an AID keeps its slot when the AID column only
    grows. *)
Lemma list_find_AID_stable (rows rows' : list AddressRecord) extra aid i row row' :
  list_find (λ a, AID a = aid) rows = Some (i, row) →
  map AID rows' = map AID rows ++ extra →
  rows' !! i = Some row' →
  list_find (λ a, AID a = aid) rows' = Some (i, row').
Proof.
  intros (Hi & Ha & Hleast)%list_find_Some Hmap Hi'.
  assert (∀ j y, j ≤ i → rows' !! j = Some y →
                 ∃ x, rows !! j = Some x ∧ AID y = AID x) as Hsame.
  { intros j y Hj Hy.
    destruct (rows !! j) as [x|] eqn:Hx.
    2:{ apply lookup_ge_None in Hx. apply lookup_lt_Some in Hi. lia. }
    exists x. split; [done|].
    assert ((AID <$> rows') !! j = Some (AID x)) as Hl.
    { change (AID <$> ?l) with (map AID l). rewrite Hmap.
      apply lookup_app_l_Some. change (map AID ?l) with (AID <$> l).
      by rewrite list_lookup_fmap, Hx. }
    rewrite list_lookup_fmap, Hy in Hl. by injection Hl. }
  apply list_find_Some. split_and!; [done| |].
  - destruct (Hsame i row') as (x & Hx & ->); [lia|done|]. congruence.
  - intros j y Hy Hj. destruct (Hsame j y) as (x & Hx & ->); [lia|done|].
    by eapply Hleast.
Qed.

Lemma imap_shift_Z {A B : Type} (f : Z → A → B) (c : Z) (l : list A) :
  imap ((λ k e, f (Nat.iter (S k) int64_succ c) e) ∘ S) l
  = imap (λ k e, f (Nat.iter (S k) int64_succ (int64_succ c)) e) l.
Proof.
  apply imap_ext. intros k x _. unfold compose. f_equal.
  symmetry. apply iter_int64_succ_shift.
Qed.

(** The loop over the variants appends one clone and one event per
    minority entry, numbered from the counter. *)
Lemma split_variants_spec aid col i maj entries st base :
  fa_rows (df_fa st) !! i = Some base →
  ∃ st', split_variants reconstructor aid col i maj entries st = Some st' ∧
    has_fullAddress_c (df_fa st') = has_fullAddress_c (df_fa st) ∧
    fa_rows (df_fa st')
      = fa_rows (df_fa st) ++
        imap (λ k e, clone_of reconstructor (has_fullAddress_c (df_fa st)) base col
                       (Nat.iter (S k) int64_succ (current_max_aid st)) e.1)
             (minorities maj entries) ∧
    splits st'
      = splits st ++
        imap (λ k e, split_event aid col (Nat.iter (S k) int64_succ (current_max_aid st)) e.1)
             (minorities maj entries) ∧
    current_max_aid st'
      = Nat.iter (length (minorities maj entries)) int64_succ (current_max_aid st).
Proof.
  revert st. induction entries as [|[v sup] entries IH]; intros st Hb.
  - exists st. cbn. rewrite !app_nil_r. split_and!; done.
  - cbn [split_variants split_variant]. unfold minorities.
    destruct (py_eq v maj) eqn:Heq.
    + cbn [mbind option_bind]. rewrite filter_cons_False by (cbn; congruence).
      by apply IH.
    + rewrite Hb. cbn [mbind option_bind].
      rewrite filter_cons_True by done.
      match goal with
      | |- context [split_variants _ _ _ _ _ _ ?s] =>
          destruct (IH s) as (st' & -> & Hh & Hr & Hs & Hm)
      end.
      { cbn [df_fa fa_rows]. by apply lookup_app_l_Some. }
      cbn [df_fa df_r current_max_aid splits fa_rows has_fullAddress_c] in *.
      exists st'. split; [done|]. fold (minorities maj entries) in *.
      split_and!.
      * done.
      * rewrite Hr, <- app_assoc. f_equal. cbn [app]. rewrite imap_cons. f_equal.
        by rewrite <- (imap_shift_Z (λ n e, clone_of reconstructor _ base col n e.1)).
      * rewrite Hs, <- app_assoc. f_equal. cbn [app]. rewrite imap_cons. f_equal.
        by rewrite <- (imap_shift_Z (λ n e, split_event aid col n e.1)).
      * rewrite Hm. cbn [length]. apply iter_int64_succ_shift.
Qed.

End bucket_shape.

Section bucket_cases.
Import helpers main resolver_spec.
Variable reconstructor : AddressRecord → string.

(** A partition with one proposed value: nothing happens when the stored
    cell equals it, else the cell is overwritten. *)
Lemma process_bucket_single st aid col items i row new sup :
  list_find (λ a, AID a = aid) (fa_rows (df_fa st)) = Some (i, row) →
  build_val2eids items = [(new, sup)] →
  process_bucket reconstructor st ((aid, col), items)
  = Some (if decide (get_col row col = new) then st
          else {| df_fa := write_cell reconstructor (df_fa st) i row col new;
                  df_r := df_r st; current_max_aid := current_max_aid st;
                  splits := splits st |}).
Proof.
  intros Hfind Hd. unfold process_bucket. rewrite Hfind, Hd.
  destruct (_ || _) eqn:Hsame.
  - apply same_cell_iff in Hsame. by rewrite decide_True.
  - rewrite decide_False; [done|]. intros Heq%same_cell_iff. congruence.
Qed.

Lemma majority_row_col has row col maj : get_col (majority_row reconstructor has row col maj) col = maj.
Proof.
  unfold majority_row, py_ne. destruct (py_eq (get_col row col) maj) eqn:Heq; cbn [negb].
  - apply py_eq_true in Heq as (s & -> & ->). done.
  - apply written_row_col.
Qed.

Lemma majority_row_AID has row col maj : AID (majority_row reconstructor has row col maj) = AID row.
Proof. unfold majority_row. destruct (py_ne _ _); [apply written_row_AID|done]. Qed.

Lemma majority_row_other has row col maj c :
  c ≠ col → get_col (majority_row reconstructor has row col maj) c = get_col row c.
Proof.
  intros. unfold majority_row. destruct (py_ne _ _); [by apply written_row_other|done].
Qed.

(** A partition with two or more proposed values. *)
Lemma process_bucket_conflict st aid col items i row best :
  list_find (λ a, AID a = aid) (fa_rows (df_fa st)) = Some (i, row) →
  2 ≤ length (build_val2eids items) →
  py_max vote_lt (build_val2eids items) = Some best →
  let has := has_fullAddress_c (df_fa st) in
  let base := majority_row reconstructor has row col best.1 in
  let minors := minorities best.1 (build_val2eids items) in
  ∃ st', process_bucket reconstructor st ((aid, col), items) = Some st' ∧
    has_fullAddress_c (df_fa st') = has ∧
    fa_rows (df_fa st')
      = <[i := base]> (fa_rows (df_fa st)) ++
        imap (λ k e, clone_of reconstructor has base col
                       (Nat.iter (S k) int64_succ (current_max_aid st)) e.1) minors ∧
    splits st'
      = splits st ++
        imap (λ k e, split_event aid col (Nat.iter (S k) int64_succ (current_max_aid st)) e.1)
             minors ∧
    current_max_aid st' = Nat.iter (length minors) int64_succ (current_max_aid st).
Proof.
  intros Hfind Hlen Hmax has base minors. unfold process_bucket. rewrite Hfind.
  pose proof Hfind as (Hi & Ha & _)%list_find_Some.
  destruct (build_val2eids items) as [|e1 [|e2 d]] eqn:Hd; [cbn in Hlen; lia..|].
  rewrite Hmax. cbn [mbind option_bind]. destruct e1 as [v1 s1].
  match goal with
  | |- context [split_variants _ _ _ _ _ _ ?s] =>
      destruct (split_variants_spec reconstructor aid col i best.1 ((v1, s1) :: e2 :: d)
                  s base) as (st' & -> & Hh & Hr & Hs & Hm)
  end.
  { subst base. unfold majority_row. destruct (py_ne _ _); [|done].
    cbn [df_fa]. rewrite write_cell_rows. apply list_lookup_insert_eq.
    by eapply lookup_lt_Some. }
  exists st'. split; [done|].
  assert (fa_rows (df_fa (if py_ne (get_col row col) best.1
            then {| df_fa := write_cell reconstructor (df_fa st) i row col best.1;
                    df_r := df_r st; current_max_aid := current_max_aid st;
                    splits := splits st |}
            else st)) = <[i := base]> (fa_rows (df_fa st))) as Hrows.
  { subst base. unfold majority_row. destruct (py_ne _ _); [done|].
    symmetry. by apply list_insert_id. }
  rewrite Hrows in Hr.
  destruct (py_ne (get_col row col) best.1);
    cbn [df_fa df_r current_max_aid splits has_fullAddress_c write_cell] in *;
    by split_and!.
Qed.

(** What any bucket does to the address rows: at most one cell write at
    the first row of its AID, then clones at the end. *)
Lemma process_bucket_rows st aid col items st' :
  process_bucket reconstructor st ((aid, col), items) = Some st' →
  has_fullAddress_c (df_fa st') = has_fullAddress_c (df_fa st) ∧
  ∃ clones,
    fa_rows (df_fa st') = fa_rows (df_fa st) ++ clones ∨
    ∃ i row v,
      list_find (λ a, AID a = aid) (fa_rows (df_fa st)) = Some (i, row) ∧
      fa_rows (df_fa st')
        = <[i := written_row reconstructor (has_fullAddress_c (df_fa st)) row col v]>
            (fa_rows (df_fa st)) ++ clones.
Proof.
  intros Hrun.
  destruct (list_find (λ a, AID a = aid) (fa_rows (df_fa st))) as [[i row]|] eqn:Hfind.
  2:{ unfold process_bucket in Hrun. rewrite Hfind in Hrun. injection Hrun as <-.
      split; [done|]. exists []. left. by rewrite app_nil_r. }
  destruct (build_val2eids items) as [|[v s] [|e2 d]] eqn:Hd.
  - unfold process_bucket in Hrun. rewrite Hfind, Hd in Hrun. done.
  - rewrite (process_bucket_single _ _ _ _ _ _ _ _ Hfind Hd) in Hrun.
    injection Hrun as <-. case_decide.
    + split; [done|]. exists []. left. by rewrite app_nil_r.
    + split; [done|]. exists []. right. exists i, row, v. split; [done|].
      cbn [df_fa]. by rewrite write_cell_rows, app_nil_r.
  - destruct (py_max_spec vote_lt vote_lt_irrefl vote_lt_trans (build_val2eids items))
      as (best & Hmax & _); [by rewrite Hd|].
    destruct (process_bucket_conflict st aid col items i row best Hfind)
      as (st2 & Hrun2 & Hh & Hr & _); [rewrite Hd; cbn; lia|done|].
    rewrite Hrun in Hrun2. injection Hrun2 as <-. split; [done|].
    rewrite Hr. unfold majority_row. destruct (py_ne _ _); eexists.
    + right. by exists i, row, best.1.
    + left. f_equal. apply list_insert_id. by apply list_find_Some in Hfind as (? & _).
Qed.

(** A bucket of another (AID, column) pair leaves the cell alone. *)
Lemma process_bucket_other st aid' col' items st' aid col i row :
  process_bucket reconstructor st ((aid', col'), items) = Some st' →
  (aid', col') ≠ (aid, col) →
  list_find (λ a, AID a = aid) (fa_rows (df_fa st)) = Some (i, row) →
  ∃ row', list_find (λ a, AID a = aid) (fa_rows (df_fa st')) = Some (i, row') ∧
          get_col row' col = get_col row col.
Proof.
  intros Hrun Hne Hfind.
  pose proof Hfind as (Hi & Ha & _)%list_find_Some.
  destruct (process_bucket_rows _ _ _ _ _ Hrun) as (_ & clones & [Hr|Hr]).
  - exists row. split; [|done].
    eapply list_find_AID_stable; [done| |].
    + by rewrite Hr, map_app.
    + rewrite Hr. by apply lookup_app_l_Some.
  - destruct Hr as (i' & row0 & v & Hfind' & Hr).
    pose proof Hfind' as (Hi' & Ha' & _)%list_find_Some.
    destruct (decide (i' = i)) as [->|Hii].
    + assert (row0 = row) as -> by congruence.
      assert (col ≠ col') as Hcol by (intros ->; apply Hne; congruence).
      eexists. split.
      * eapply list_find_AID_stable; [done| |].
        -- rewrite Hr, map_app. f_equal. eapply map_AID_insert; [done|].
           apply written_row_AID.
        -- rewrite Hr. apply lookup_app_l_Some. apply list_lookup_insert_eq.
           by eapply lookup_lt_Some.
      * by apply written_row_other.
    + exists row. split; [|done].
      eapply list_find_AID_stable; [done| |].
      * rewrite Hr, map_app. f_equal. eapply map_AID_insert; [done|].
        apply written_row_AID.
      * rewrite Hr. apply lookup_app_l_Some. by rewrite list_lookup_insert_ne.
Qed.

Lemma process_buckets_other buckets st st' aid col i row :
  process_buckets reconstructor buckets st = Some st' →
  (aid, col) ∉ keys buckets →
  list_find (λ a, AID a = aid) (fa_rows (df_fa st)) = Some (i, row) →
  ∃ row', list_find (λ a, AID a = aid) (fa_rows (df_fa st')) = Some (i, row') ∧
          get_col row' col = get_col row col.
Proof.
  revert st row. induction buckets as [|[[aid' col'] items] buckets IH];
    intros st row Hrun Hnin Hfind.
  - injection Hrun as <-. by exists row.
  - cbn [process_buckets] in Hrun.
    destruct (process_bucket reconstructor st (aid', col', items)) as [st1|] eqn:H1;
      [|done].
    cbn [mbind option_bind] in Hrun.
    destruct (process_bucket_other _ _ _ _ _ aid col i row H1) as (row1 & Hf1 & Hc1);
      [|done|].
    { intros Heq. apply Hnin. unfold keys. cbn. rewrite Heq. by left. }
    destruct (IH st1 row1 Hrun) as (row2 & Hf2 & Hc2); [|done|].
    { intros Hin. apply Hnin. unfold keys in *. cbn. by right. }
    exists row2. split; [done|]. congruence.
Qed.

End bucket_cases.

Section majority.
Import helpers main resolver_spec.
Variable reconstructor : AddressRecord → string.

Lemma process_buckets_app b1 b2 st :
  process_buckets reconstructor (b1 ++ b2) st
  = st1 ← process_buckets reconstructor b1 st; process_buckets reconstructor b2 st1.
Proof.
  revert st. induction b1 as [|b b1 IH]; intros st; cbn [app process_buckets]; [done|].
  destruct (process_bucket reconstructor st b); cbn [mbind option_bind]; [apply IH|done].
Qed.

Lemma supporters_of_length items v s s' :
  supporters_of items v s → supporters_of items v s' → length s = length s'.
Proof.
  intros [Hnd Hs] [Hnd' Hs']. apply Permutation_length, NoDup_Permutation; [done..|].
  intros c. by rewrite Hs, Hs'.
Qed.

Lemma val2eids_supporters items v s :
  (v, s) ∈ build_val2eids items → supporters_of items v s.
Proof.
  destruct (build_val2eids_ok items) as (Hnd & _ & Hs).
  intros Hin. apply Hs. by apply dict_get_elem_NoDup.
Qed.

(** C3. In a run of the resolver, take an (AID, column) partition whose
    AID is in the table and that proposes two or more distinct values.
    The dictionary [val2eids] of the partition holds each proposed value
    once with the list of its distinct contexts, a null context counted
    once.  The majority value is the entry with the greatest number of
    contexts and, among equals, the greatest text in the lexicographic
    order; after the run the first row of the AID carries it in the
    column.  When the proposed values are "2020" and "2021" with the same
    number of distinct contexts, the value is "2021", whatever the order
    of the proposals and whatever the other partitions are. *)
Theorem C3_majority_by_supporters_then_literal fa r proposals m aid col i row :
  list_find (λ a, AID a = aid) (fa_rows fa) = Some (i, row) →
  let items := partition aid col proposals in
  let d := build_val2eids items in
  2 ≤ length d →
  ∃ st best row',
    resolve_and_apply_changes reconstructor fa r proposals m = Some st ∧
    py_max vote_lt d = Some best ∧ best ∈ d ∧
    NoDup (keys d) ∧
    (∀ v, v ∈ keys d ↔ ∃ p, p ∈ items ∧ proposed_value p = v) ∧
    (∀ v s, (v, s) ∈ d → supporters_of items v s) ∧
    (∀ e, e ∈ d → vote_le e best) ∧
    list_find (λ a, AID a = aid) (fa_rows (df_fa st)) = Some (i, row') ∧
    get_col row' col = best.1 ∧
    (∀ s1 s2,
       supporters_of items (Str "2020") s1 → supporters_of items (Str "2021") s2 →
       s1 ≠ [] → s2 ≠ [] → length s1 = length s2 →
       (∀ p, p ∈ items → proposed_value p = Str "2020" ∨ proposed_value p = Str "2021") →
       best.1 = Str "2021").
Proof.
  intros Hfind items d Hlen.
  destruct (build_val2eids_ok items) as (Hnd & Hk & Hs).
  assert (items ≠ []) as Hitems.
  { intros Hnil. subst d. rewrite Hnil in Hlen. cbn in Hlen. lia. }
  destruct (py_max_spec vote_lt vote_lt_irrefl vote_lt_trans d)
    as (best & Hmax & Hbest & Hgreatest).
  { intros Hnil. rewrite Hnil in Hlen. cbn in Hlen. lia. }
  (* the bucket of the partition inside the dictionary of buckets *)
  assert (((aid, col), items) ∈ build_bucket proposals) as Hin.
  { apply dict_get_Some_elem. rewrite build_bucket_get. fold items.
    by destruct items. }
  apply list_elem_of_split in Hin as (pre & post & Hsplit).
  pose proof (build_bucket_NoDup proposals) as Hndb. rewrite Hsplit in Hndb.
  unfold keys in Hndb. rewrite map_app in Hndb. cbn [map fst] in Hndb.
  apply NoDup_app in Hndb as (_ & Hpre & [Hpost _]%NoDup_cons).
  destruct (resolve_extends reconstructor fa r proposals m) as (st & Hrun & _).
  pose proof Hrun as Hrun'. unfold resolve_and_apply_changes in Hrun'.
  rewrite Hsplit, process_buckets_app in Hrun'.
  destruct (process_buckets reconstructor pre _) as [st1|] eqn:Hrun1; [|done].
  cbn [mbind option_bind process_buckets] in Hrun'.
  destruct (process_buckets_other reconstructor _ _ _ aid col i row Hrun1)
    as (row1 & Hfind1 & _); [|done|].
  { intros Hin. apply (Hpre _ Hin). by left. }
  destruct (process_bucket_conflict reconstructor st1 aid col items i row1 best
              Hfind1 Hlen Hmax) as (st2 & Hrun2 & Hh2 & Hr2 & _).
  rewrite Hrun2 in Hrun'. cbn [mbind option_bind] in Hrun'.
  pose proof Hfind1 as (Hi1 & Ha1 & _)%list_find_Some.
  assert (list_find (λ a, AID a = aid) (fa_rows (df_fa st2))
          = Some (i, majority_row reconstructor (has_fullAddress_c (df_fa st1))
                       row1 col best.1)) as Hfind2.
  { eapply list_find_AID_stable; [exact Hfind1| |].
    - rewrite Hr2, map_app. f_equal. eapply map_AID_insert; [done|].
      apply majority_row_AID.
    - rewrite Hr2. apply lookup_app_l_Some, list_lookup_insert_eq.
      by eapply lookup_lt_Some. }
  destruct (process_buckets_other reconstructor _ _ _ aid col i _ Hrun' Hpost Hfind2)
    as (row3 & Hfind3 & Hcol3).
  exists st, best, row3. split_and!; try done.
  - intros v s Hvs. by apply val2eids_supporters.
  - intros e He. apply vote_lt_false_le. by apply Hgreatest.
  - rewrite Hcol3. apply majority_row_col.
  - intros s1 s2 H1 H2 Hne1 Hne2 Hsame Hvals.
    assert (best.1 ∈ keys d) as Hbk.
    { apply list_elem_of_fmap. by exists best. }
    apply Hk in Hbk as (p & Hp & Hpv).
    destruct (Hvals p Hp) as [Hv|Hv]; [|congruence].
    exfalso.
    (* the entry of "2021" beats the entry of "2020" *)
    assert (Str "2021" ∈ keys d) as (e2 & He2 & Hin2)%list_elem_of_fmap.
    { apply Hk. destruct s2 as [|c s2]; [done|].
      destruct H2 as [_ H2]. destruct (proj1 (H2 c)) as (q & ? & ? & _); [by left|].
      by exists q. }
    destruct e2 as [v2 s2']. cbn in He2. subst v2.
    destruct best as [vb sb]. cbn in Hpv. subst vb. rewrite Hv in *.
    pose proof (Hgreatest _ Hin2) as Hlt.
    pose proof (supporters_of_length _ _ _ _ (val2eids_supporters _ _ _ Hbest) H1) as L1.
    pose proof (supporters_of_length _ _ _ _ (val2eids_supporters _ _ _ Hin2) H2) as L2.
    unfold vote_lt, vote_key in Hlt. cbn [fst snd py_str] in Hlt.
    rewrite L1, L2, Hsame, Nat.eqb_refl in Hlt.
    rewrite orb_false_iff in Hlt. destruct Hlt as [_ Hlt]. done.
Qed.

End majority.

Section resolver_claims.
Import helpers main resolver_spec.

(** The hypotheses of C3 hold for the tie between "2020" and "2021" on
    AID 100, and the run writes "2021". *)
Lemma C3_witness :
  list_find (λ a, AID a = 100%Z) (fa_rows examples.table_100)
    = Some (0, examples.address_100) ∧
  2 ≤ length (build_val2eids (partition 100 zip_c examples.tie_2020_2021)) ∧
  ∃ st row',
    resolve_and_apply_changes reconstruct_full_address examples.table_100
      examples.links_E1_E2 examples.tie_2020_2021 100 = Some st ∧
    list_find (λ a, AID a = 100%Z) (fa_rows (df_fa st)) = Some (0, row') ∧
    get_col row' zip_c = Str "2021".
Proof.
  split; [reflexivity|]. split; [vm_compute; lia|].
  destruct (C3_majority_by_supporters_then_literal reconstruct_full_address
              examples.table_100 examples.links_E1_E2 examples.tie_2020_2021
              100 100 zip_c 0 examples.address_100)
    as (st & best & row' & Hrun & Hmax & _ & _ & _ & _ & _ & Hfind & Hcol & _);
    [reflexivity|vm_compute; lia|].
  exists st, row'. split; [exact Hrun|]. split; [exact Hfind|].
  rewrite Hcol. vm_compute in Hmax. injection Hmax as <-. reflexivity.
Defined.

Variable reconstructor : AddressRecord → string.

(** C4, amended.  For a partition with one proposed value whose AID is in
    the table, the resolver compares the stored cell and the proposed
    value with [(isna(cur) and isna(new)) or cur == new], which holds
    exactly when the two cells are the same: two missing cells are equal,
    a missing cell and the empty text are different.  When the two are
    the same the whole state is returned unchanged; otherwise the cell is
    overwritten by the proposed value (and the derived column recomputed)
    while relationships, counter and split log are untouched. *)
Theorem C4_single_value_written_iff_different st aid col items i row new sup :
  list_find (λ a, AID a = aid) (fa_rows (df_fa st)) = Some (i, row) →
  build_val2eids items = [(new, sup)] →
  ∃ st',
    process_bucket reconstructor st ((aid, col), items) = Some st' ∧
    ((isna (get_col row col) && isna new) || py_eq (get_col row col) new = true
       ↔ get_col row col = new) ∧
    (get_col row col = new → st' = st) ∧
    (get_col row col ≠ new →
       fa_rows (df_fa st')
         = <[i := written_row reconstructor (has_fullAddress_c (df_fa st)) row col new]>
             (fa_rows (df_fa st)) ∧
       get_col (written_row reconstructor (has_fullAddress_c (df_fa st)) row col new) col
         = new) ∧
    df_r st' = df_r st ∧ current_max_aid st' = current_max_aid st ∧
    splits st' = splits st.
Proof.
  intros Hfind Hd. eexists. split; [by eapply process_bucket_single|].
  split; [apply same_cell_iff|].
  case_decide; split_and!; try done.
  intros _. split; [done|]. apply written_row_col.
Qed.

End resolver_claims.

Section resolver_claims_closed.
Import helpers main resolver_spec.

Lemma C4_witness :
  list_find (λ a, AID a = 100%Z) (fa_rows (df_fa (examples.state_of examples.table_100
      examples.links_E1_E2 100))) = Some (0, examples.address_100) ∧
  build_val2eids examples.empty_zip = [(Str "", [Some "E1"])] ∧
  ∃ st',
    process_bucket reconstruct_full_address
      (examples.state_of examples.table_100 examples.links_E1_E2 100)
      ((100%Z, zip_c), examples.empty_zip) = Some st' ∧
    splits st' = [].
Proof.
  split; [reflexivity|]. split; [reflexivity|].
  destruct (C4_single_value_written_iff_different reconstruct_full_address
              (examples.state_of examples.table_100 examples.links_E1_E2 100)
              100 zip_c examples.empty_zip 0 examples.address_100 (Str "")
              [Some "E1"])
    as (st' & Hrun & _ & _ & _ & _ & _ & Hs); [reflexivity|reflexivity|].
  exists st'. split; [exact Hrun|exact Hs].
Defined.

(** C4 as stated fails: the stored ZIP of AID 100 is missing and the one
    proposal of the partition carries the empty text.  The two count as
    the same value in the claim, yet the resolver overwrites the missing
    cell with the empty text and recomputes the full address. *)
Lemma C4_counterexample :
  let st := examples.state_of examples.table_100_no_zip examples.links_E1_E2 100 in
  list_find (λ a, AID a = 100%Z) (fa_rows (df_fa st))
    = Some (0, examples.address_100_no_zip) ∧
  build_val2eids examples.empty_zip = [(Str "", [Some "E1"])] ∧
  blank_equal (get_col examples.address_100_no_zip zip_c) (Str "") ∧
  process_bucket reconstruct_full_address st ((100%Z, zip_c), examples.empty_zip) ≠ Some st ∧
  ∃ st', process_bucket reconstruct_full_address st ((100%Z, zip_c), examples.empty_zip)
           = Some st' ∧
         fa_zip_c <$> fa_rows (df_fa st') = [Str ""].
Proof.
  cbv zeta. split_and!.
  - reflexivity.
  - reflexivity.
  - right. left. done.
  - vm_compute. discriminate.
  - eexists. split; [vm_compute; reflexivity|reflexivity].
Qed.

End resolver_claims_closed.

Section partition_splits.
Import helpers main resolver_spec.
Variable reconstructor : AddressRecord → string.

Lemma minorities_text d s :
  minorities (Str s) d = filter (λ e, e.1 ≠ Str s) d.
Proof.
  unfold minorities. apply list_filter_iff. intros [v sup]. cbn [fst].
  destruct (py_eq v (Str s)) eqn:Heq.
  - apply py_eq_true in Heq as (s' & -> & [= ->]). split; [done|]. by intros [].
  - split; [|done]. intros _ ->. cbn in Heq. by rewrite bool_decide_eq_false in Heq.
Qed.

(** A missing majority value is equal to no key, itself included. *)
Lemma minorities_NaN d : minorities NaN d = d.
Proof.
  unfold minorities. induction d as [|[v sup] d IH]; [done|].
  rewrite filter_cons_True by by destruct v. by rewrite IH.
Qed.

Lemma filter_other_keys_length {V : Type} (d : list (value * V)) k :
  NoDup (keys d) → k ∈ keys d → S (length (filter (λ e, e.1 ≠ k) d)) = length d.
Proof.
  unfold keys. induction d as [|[v x] d IH]; cbn [map fst].
  - by intros _ ?%elem_of_nil.
  - intros [Hnin Hnd]%NoDup_cons Hin.
    destruct (decide (v = k)) as [->|Hne].
    + rewrite filter_cons_False by (cbn; by intros []).
      cbn [length]. f_equal. clear IH Hin Hnd.
      induction d as [|[v' x'] d IH]; [done|].
      rewrite filter_cons_True.
      * cbn [length]. f_equal. apply IH. intros Hin. apply Hnin. by right.
      * cbn. intros ->. apply Hnin. by left.
    + rewrite filter_cons_True by done. cbn [length]. f_equal. apply IH; [done|].
      by apply elem_of_cons in Hin as [?|?].
Qed.

Lemma clone_of_spec has base col n v :
  AID (clone_of reconstructor has base col n v) = n ∧
  get_col (clone_of reconstructor has base col n v) col = v ∧
  same_other_columns col (clone_of reconstructor has base col n v) base.
Proof.
  unfold clone_of. split_and!.
  - by rewrite written_row_AID.
  - apply written_row_col.
  - intros c Hc. rewrite written_row_other by done. apply get_col_set_AID.
Qed.

(** The two halves of the claim on splits, for a majority value that is a
    text.  A partition with one proposed value appends no row and no
    event.  A partition with [k >= 2] proposed values whose majority
    value is a text leaves that value in the record and appends [k - 1]
    clones, one per other value in dictionary order, under the AIDs
    [current_max_aid + 1, ...]; a clone differs from the record before
    the bucket in the key, the target column and the derived column only,
    and its event names the old AID, the new AID, the column and the
    value.  With pairwise distinct supporter counts the majority value is
    the one with the greatest count. *)
Lemma partition_splits_all_but_text_majority st aid col items i row :
  list_find (λ a, AID a = aid) (fa_rows (df_fa st)) = Some (i, row) →
  let d := build_val2eids items in
  let has := has_fullAddress_c (df_fa st) in
  (length d = 1 →
     ∃ st', process_bucket reconstructor st ((aid, col), items) = Some st' ∧
       splits st' = splits st ∧ current_max_aid st' = current_max_aid st ∧
       length (fa_rows (df_fa st')) = length (fa_rows (df_fa st))) ∧
  (2 ≤ length d →
     ∀ best, py_max vote_lt d = Some best → best.1 ≠ NaN →
     let minors := filter (λ e, e.1 ≠ best.1) d in
     ∃ st' base,
       process_bucket reconstructor st ((aid, col), items) = Some st' ∧
       S (length minors) = length d ∧
       (∀ e, e ∈ d → vote_le e best) ∧
       ((∀ e1 e2, e1 ∈ d → e2 ∈ d → length e1.2 = length e2.2 → e1 = e2) →
          ∀ e, e ∈ d → e ≠ best → length e.2 < length best.2) ∧
       AID base = aid ∧ get_col base col = best.1 ∧ same_other_columns col base row ∧
       fa_rows (df_fa st')
         = <[i := base]> (fa_rows (df_fa st)) ++
           imap (λ k e, clone_of reconstructor has base col
                          (Nat.iter (S k) int64_succ (current_max_aid st)) e.1) minors ∧
       splits st'
         = splits st ++
           imap (λ k e, split_event aid col (Nat.iter (S k) int64_succ (current_max_aid st)) e.1)
                minors ∧
       current_max_aid st' = Nat.iter (length minors) int64_succ (current_max_aid st) ∧
       (∀ k e, minors !! k = Some e →
          let c := clone_of reconstructor has base col
                     (Nat.iter (S k) int64_succ (current_max_aid st)) e.1 in
          AID c = (Nat.iter (S k) int64_succ (current_max_aid st)) ∧
          get_col c col = e.1 ∧ same_other_columns col c row)).
Proof.
  intros Hfind d has. pose proof Hfind as (Hi & Ha & _)%list_find_Some. split.
  - intros Hlen. destruct d as [|[v s] [|? ?]] eqn:Hd; try (cbn in Hlen; lia).
    eexists. split; [by eapply process_bucket_single|].
    case_decide; [done|]. cbn [df_fa splits current_max_aid].
    by rewrite write_cell_length.
  - intros Hlen best Hmax Hbest minors.
    destruct (build_val2eids_ok items) as (Hnd & Hk & _). fold d in Hnd, Hk.
    destruct (py_max_spec vote_lt vote_lt_irrefl vote_lt_trans d)
      as (best' & Hmax' & Hin & Hgreatest).
    { intros Hnil. rewrite Hnil in Hlen. cbn in Hlen. lia. }
    assert (best' = best) as -> by congruence.
    destruct (process_bucket_conflict reconstructor st aid col items i row best
                Hfind Hlen Hmax) as (st' & Hrun & Hh & Hr & Hs & Hm).
    assert (minorities best.1 (build_val2eids items) = minors) as Hminors.
    { destruct best as [[|s] sup]; [done|]. apply minorities_text. }
    rewrite Hminors in Hr, Hs, Hm.
    exists st', (majority_row reconstructor has row col best.1).
    split_and!; try done.
    + apply filter_other_keys_length; [done|].
      apply list_elem_of_fmap. by exists best.
    + intros e He. apply vote_lt_false_le. by apply Hgreatest.
    + intros Hdistinct e He Hne.
      destruct (vote_lt_false_le _ _ (Hgreatest e He)) as [?|[Heq _]]; [done|].
      destruct Hne. by apply Hdistinct.
    + by rewrite majority_row_AID.
    + apply majority_row_col.
    + intros c Hc. by apply majority_row_other.
    + intros k e Hke c.
      destruct (clone_of_spec has (majority_row reconstructor has row col best.1) col
                  (Nat.iter (S k) int64_succ (current_max_aid st)) e.1) as (H1 & H2 & H3).
      split_and!; [done..|].
      intros c' Hc'. subst c. etrans; [exact (H3 c' Hc')|].
      by apply majority_row_other.
Qed.

End partition_splits.

Section C2_failing_input.
Import helpers main resolver_spec.

(** C2 at an input where the code departs from it.  The partition for the
    ZIP of AID 100 proposes two distinct values: the missing value with
    the two supporters E1 and E2, and "_12345" with the supporter E3.  The
    supporter counts are 2 > 1, so one split is due.  The resolver picks
    the missing value as majority, but [variant_val == majority_val] is
    false for a missing value, so the loop splits for the majority too:
    two events and two clones come out, under the AIDs 101 and 102, and
    the three relationship rows all leave AID 100. *)
Theorem C2_missing_majority_is_split_too :
  let st := examples.state_of examples.table_100 examples.links_E1_E2_E3 100 in
  build_val2eids examples.blank_majority
    = [(NaN, [Some "E1"; Some "E2"]); (Str "_12345", [Some "E3"])] ∧
  py_max vote_lt (build_val2eids examples.blank_majority)
    = Some (NaN, [Some "E1"; Some "E2"]) ∧
  ∃ st',
    process_bucket reconstruct_full_address st ((100%Z, zip_c), examples.blank_majority)
      = Some st' ∧
    splits st'
      = [split_event 100 zip_c 101 NaN; split_event 100 zip_c 102 (Str "_12345")] ∧
    map AID (fa_rows (df_fa st')) = [100; 101; 102]%Z ∧
    map fa_zip_c (fa_rows (df_fa st')) = [NaN; NaN; Str "_12345"] ∧
    map AID_2 (df_r st') = [101; 101; 102]%Z ∧
    current_max_aid st' = 102%Z.
Proof.
  cbv zeta. split; [reflexivity|]. split; [reflexivity|].
  eexists. split; [vm_compute; reflexivity|]. by split_and!.
Qed.

End C2_failing_input.

(** ** Lists: [unique], sorted keys, folds *)

Lemma filter_none {A : Type} (P : A → Prop) `{∀ x, Decision (P x)} (l : list A) :
  (∀ x, x ∈ l → ¬ P x) → filter P l = [].
Proof.
  induction l as [|y l IH]; intros Hall; [done|].
  rewrite filter_cons_False by (apply Hall; by left).
  apply IH. intros x Hx. apply Hall. by right.
Qed.

Lemma filter_all {A : Type} (P : A → Prop) `{∀ x, Decision (P x)} (l : list A) :
  (∀ x, x ∈ l → P x) → filter P l = l.
Proof.
  induction l as [|y l IH]; intros Hall; [done|].
  rewrite filter_cons_True by (apply Hall; by left).
  f_equal. apply IH. intros x Hx. apply Hall. by right.
Qed.

Section unique_facts.
Context {A : Type} `{EqDecision A}.

Lemma elem_of_unique (l : list A) x : x ∈ unique l ↔ x ∈ l.
Proof.
  induction l as [|y l IH]; cbn [unique]; [done|].
  rewrite !elem_of_cons, list_elem_of_filter, IH.
  destruct (decide (x = y)); naive_solver.
Qed.

Lemma NoDup_unique (l : list A) : NoDup (unique l).
Proof.
  induction l as [|y l IH]; cbn [unique]; [constructor|].
  apply NoDup_cons. split.
  - rewrite list_elem_of_filter. naive_solver.
  - by apply NoDup_filter.
Qed.

(** A list whose elements are all equal has at most one distinct
    element. *)
Lemma unique_constant (l : list A) x :
  (∀ y, y ∈ l → y = x) → length (unique l) ≤ 1.
Proof.
  intros Hall. destruct l as [|y l]; cbn [unique length]; [lia|].
  assert (filter (λ z, z ≠ y) (unique l) = []) as ->; [|cbn; lia].
  apply filter_none. intros z Hz Hne. apply Hne. apply (proj1 (elem_of_unique _ _)) in Hz.
  transitivity x; [|symmetry]; apply Hall; [right|left]; done.
Qed.

(** Two distinct elements give two distinct entries. *)
Lemma unique_two (l : list A) x y :
  x ∈ l → y ∈ l → x ≠ y → 1 < length (unique l).
Proof.
  intros Hx Hy Hne.
  destruct (unique l) as [|a [|b u]] eqn:Hu; cbn [length]; [..|lia].
  - apply elem_of_unique in Hx. rewrite Hu in Hx. by apply elem_of_nil in Hx.
  - apply elem_of_unique in Hx, Hy. rewrite Hu in Hx, Hy.
    apply list_elem_of_singleton in Hx, Hy. congruence.
Qed.

End unique_facts.

Lemma elem_of_insert_key x y l : x ∈ main.insert_key y l ↔ x = y ∨ x ∈ l.
Proof.
  induction l as [|z l IH]; cbn [main.insert_key].
  - rewrite list_elem_of_singleton. split; [by left|]. by intros [?|?%elem_of_nil].
  - destruct (Z.ltb_spec y z); [|destruct (Z.eqb_spec y z)].
    + rewrite !elem_of_cons. naive_solver.
    + subst. rewrite !elem_of_cons. naive_solver.
    + rewrite !elem_of_cons, IH. naive_solver.
Qed.

Lemma insert_key_sorted y l :
  StronglySorted Z.lt l → StronglySorted Z.lt (main.insert_key y l).
Proof.
  induction 1 as [|z l Hs IH Hall]; cbn [main.insert_key].
  - repeat constructor.
  - destruct (Z.ltb_spec y z); [|destruct (Z.eqb_spec y z)].
    + constructor; [by constructor|]. constructor; [done|].
      eapply Forall_impl; [exact Hall|]. intros; cbn in *; lia.
    + by constructor.
    + constructor; [done|]. apply Forall_forall. intros x Hx.
      apply elem_of_insert_key in Hx as [->|Hx]; [lia|].
      rewrite Forall_forall in Hall. by apply Hall.
Qed.

Lemma elem_of_groupby_keys x l : x ∈ main.groupby_keys l ↔ x ∈ l.
Proof.
  unfold main.groupby_keys. induction l as [|y l IH]; cbn [foldr]; [done|].
  rewrite elem_of_insert_key, IH, elem_of_cons. done.
Qed.

Lemma groupby_keys_sorted l : StronglySorted Z.lt (main.groupby_keys l).
Proof.
  unfold main.groupby_keys. induction l as [|y l IH]; cbn [foldr]; [constructor|].
  by apply insert_key_sorted.
Qed.

Lemma StronglySorted_filter_Z (P : Z → Prop) `{∀ x, Decision (P x)} (l : list Z) :
  StronglySorted Z.lt l → StronglySorted Z.lt (filter P l).
Proof.
  induction 1 as [|z l Hs IH Hall]; [constructor|].
  destruct (decide (P z)); [rewrite filter_cons_True by done|by rewrite filter_cons_False].
  constructor; [done|]. rewrite Forall_forall in *.
  intros x [_ Hx]%list_elem_of_filter. by apply Hall.
Qed.

Lemma StronglySorted_lt_NoDup (l : list Z) : StronglySorted Z.lt l → NoDup l.
Proof.
  induction 1 as [|z l Hs IH Hall]; [constructor|].
  apply NoDup_cons. split; [|done].
  intros Hin. rewrite Forall_forall in Hall.
  apply Hall in Hin. lia.
Qed.

Lemma elem_of_flat_map {A B : Type} (f : A → list B) (l : list A) y :
  y ∈ flat_map f l ↔ ∃ x, x ∈ l ∧ y ∈ f x.
Proof.
  rewrite list_elem_of_In, in_flat_map. by setoid_rewrite list_elem_of_In.
Qed.

Lemma fold_left_flat_map {A B C : Type} (f : C → B → C) (g : A → list B) l c :
  fold_left f (flat_map g l) c = fold_left (λ acc x, fold_left f (g x) acc) l c.
Proof.
  revert c. induction l as [|x l IH]; intros c; cbn [flat_map fold_left]; [done|].
  by rewrite fold_left_app, IH.
Qed.

Lemma fold_left_map {A B C : Type} (f : C → B → C) (g : A → B) l c :
  fold_left f (map g l) c = fold_left (λ acc x, f acc (g x)) l c.
Proof. revert c. induction l as [|x l IH]; intros c; cbn; [done|]. apply IH. Qed.

(** ** Text: cancelling a common tail *)

Lemma list_ascii_of_string_app a b :
  list_ascii_of_string (a +:+ b) = list_ascii_of_string a ++ list_ascii_of_string b.
Proof.
  induction a as [|c a IH]; [done|].
  change (list_ascii_of_string (String c a +:+ b))
    with (c :: list_ascii_of_string (a +:+ b)).
  by rewrite IH.
Qed.

Lemma string_app_inv_tail a b t : a +:+ t = b +:+ t → a = b.
Proof.
  intros H. apply (f_equal list_ascii_of_string) in H.
  rewrite !list_ascii_of_string_app in H. apply app_inv_tail in H.
  apply (f_equal string_of_list_ascii) in H.
  by rewrite !string_of_list_ascii_of_string in H.
Qed.

Lemma join_cons_inv sep a b rest : join sep (a :: rest) = join sep (b :: rest) → a = b.
Proof.
  unfold join. destruct rest as [|r rest]; cbn [String.concat]; [done|].
  apply string_app_inv_tail.
Qed.

(** ** The signature splitter *)

Section remap_facts.
Context {K : Type} `{EqDecision K}.

Lemma dict_set_fresh {V : Type} (d : list (K * V)) k v :
  k ∉ keys d → dict_set d k v = d ++ [(k, v)].
Proof.
  unfold keys. induction d as [|[k0 v0] d IH]; cbn [dict_set map fst app]; [done|].
  intros Hnin. rewrite decide_False.
  - f_equal. apply IH. intros Hin. apply Hnin. by right.
  - intros ->. apply Hnin. by left.
Qed.

Lemma remap_fold (P : list K) (d0 : list (K * Z)) (n0 : Z) :
  NoDup P → (∀ k, k ∈ P → k ∉ keys d0) →
  fold_left remap_step P (d0, n0)
  = (d0 ++ zip P (map (λ j, Nat.iter j int64_succ n0) (seq 0 (length P))),
     Nat.iter (length P) int64_succ n0).
Proof.
  revert d0 n0. induction P as [|k P IH]; intros d0 n0 Hnd Hfresh.
  - cbn. by rewrite app_nil_r.
  - apply NoDup_cons in Hnd as [Hk Hnd]. cbn [fold_left]. unfold remap_step at 2.
    cbn [fst snd]. rewrite dict_set_fresh by (apply Hfresh; by left).
    rewrite IH; [|done|].
    + cbn [length seq map zip zip_with]. rewrite <- app_assoc. cbn [app].
      f_equal; [|apply iter_int64_succ_shift]. f_equal. f_equal. f_equal.
      rewrite <- seq_shift, map_map. apply map_ext. intros j.
      apply iter_int64_succ_shift.
    + intros k' Hk'. unfold keys. rewrite map_app, elem_of_app. cbn.
      intros [Hin|Hin%list_elem_of_singleton].
      * eapply Hfresh; [by right|done].
      * subst. done.
Qed.

Lemma NoDup_flat_map_pair {A B : Type} (g : A → list B) (l : list A) :
  NoDup l → (∀ x, NoDup (g x)) →
  NoDup (flat_map (λ x, map (pair x) (g x)) l).
Proof.
  intros Hnd Hg. induction Hnd as [|x l Hx Hnd IH]; cbn [flat_map]; [constructor|].
  apply NoDup_app. split_and!; [|  |done].
  - apply NoDup_fmap_2; [|apply Hg]. by intros ?? [=].
  - intros [a b] [b' [[= -> ->] _]]%list_elem_of_fmap Hin.
    apply elem_of_flat_map in Hin as (x' & Hx' & Hin).
    apply list_elem_of_fmap in Hin as (b'' & [= -> ->] & _). done.
Qed.

Lemma keys_zip {V : Type} (P : list K) (vs : list V) :
  length P = length vs → keys (zip P vs) = P.
Proof. intros. unfold keys. change (map fst ?l) with (fst <$> l). by apply fst_zip; lia. Qed.

Lemma snd_zip_eq {V : Type} (P : list K) (vs : list V) :
  length P = length vs → map snd (zip P vs) = vs.
Proof. intros. change (map snd ?l) with (snd <$> l). by apply snd_zip; lia. Qed.

End remap_facts.

Section splitter_facts.
Import helpers main splitter_spec.
Variable signature_cols : list column.

Lemma build_remap_as_fold merged bad acc :
  fold_left
    (λ acc aid,
       fold_left (λ acc' sig, (dict_set acc'.1 (aid, sig) acc'.2, int64_succ acc'.2))
                 (sigs_of signature_cols merged aid) acc)
    bad acc
  = fold_left remap_step (remap_keys signature_cols merged bad) acc.
Proof.
  revert acc. induction bad as [|aid bad IH]; intros acc; [done|].
  unfold remap_keys. cbn [fold_left flat_map]. rewrite fold_left_app, fold_left_map.
  apply IH.
Qed.

Lemma bad_aids_NoDup merged : NoDup (bad_aids signature_cols merged).
Proof.
  unfold bad_aids. apply NoDup_filter, StronglySorted_lt_NoDup, groupby_keys_sorted.
Qed.

Lemma bad_aids_sorted merged : StronglySorted Z.lt (bad_aids signature_cols merged).
Proof.
  unfold bad_aids. apply StronglySorted_filter_Z, groupby_keys_sorted.
Qed.

Lemma remap_keys_NoDup merged bad :
  NoDup bad → NoDup (remap_keys signature_cols merged bad).
Proof. intros. apply NoDup_flat_map_pair; [done|]. intros. apply NoDup_unique. Qed.

Lemma fresh_aids_length top n : length (fresh_aids top n) = n.
Proof. unfold fresh_aids. by rewrite length_map, length_seq. Qed.

Lemma build_remap_eq merged bad top :
  NoDup bad →
  (build_remap signature_cols merged bad (int64_succ top)).1
  = zip (remap_keys signature_cols merged bad)
        (fresh_aids top (length (remap_keys signature_cols merged bad))).
Proof.
  intros Hnd. unfold build_remap. rewrite build_remap_as_fold.
  rewrite remap_fold; [|by apply remap_keys_NoDup|].
  - cbn [fst app]. f_equal. unfold fresh_aids. apply map_ext. intros j.
    apply iter_int64_succ_shift.
  - intros k _ ?%elem_of_nil. done.
Qed.

(** Below the bound the new AIDs are the integers after [top]. *)
Lemma fresh_aids_small top n :
  in_int64 top → (top + Z.of_nat n < 2 ^ 63)%Z →
  fresh_aids top n = map (λ k, (top + 1 + Z.of_nat k)%Z) (seq 0 n).
Proof.
  intros Htop Hn. unfold fresh_aids. apply map_ext_in. intros k [_ Hk]%in_seq.
  rewrite iter_int64_succ_small; [lia|done|lia].
Qed.

Lemma elem_of_fresh_aids top n x :
  in_int64 top → (top + Z.of_nat n < 2 ^ 63)%Z →
  x ∈ fresh_aids top n → (top < x)%Z.
Proof.
  intros Htop Hn. rewrite fresh_aids_small by done.
  intros (k & -> & _)%list_elem_of_fmap. lia.
Qed.

Lemma fresh_aids_NoDup top n :
  in_int64 top → (top + Z.of_nat n < 2 ^ 63)%Z → NoDup (fresh_aids top n).
Proof.
  intros Htop Hn. rewrite fresh_aids_small by done.
  apply NoDup_fmap_2; [|apply NoDup_seq]. intros ???. lia.
Qed.

Lemma AID_max_upper rows top a :
  AID_max rows = Some top → a ∈ rows → (AID a ≤ top)%Z.
Proof.
  destruct rows as [|a0 rows]; [done|]. cbn [AID_max]. intros [= <-].
  assert (∀ l m, (m ≤ fold_left (λ m b, Z.max m (AID b)) l m)%Z ∧
                 ∀ b, b ∈ l → (AID b ≤ fold_left (λ m b, Z.max m (AID b)) l m)%Z) as H.
  { induction l as [|b l IH]; intros m; cbn [fold_left].
    - split; [lia|]. by intros ? ?%elem_of_nil.
    - destruct (IH (Z.max m (AID b))) as [H1 H2]. split; [lia|].
      intros b' [->|Hb']%elem_of_cons; [lia|by apply H2]. }
  destruct (H rows (AID a0)) as [H1 H2].
  intros [->|Ha]%elem_of_cons; [done|by apply H2].
Qed.

Lemma AID_max_Some rows : rows ≠ [] → is_Some (AID_max rows).
Proof. destruct rows; [done|]. by eexists. Qed.

(** A row of the merged frame carries one of the signatures listed for
    its AID. *)
Lemma signature_listed merged m :
  m ∈ merged →
  signature signature_cols m ∈ sigs_of signature_cols merged (AID_2 m.1).
Proof.
  intros Hm. unfold sigs_of. apply elem_of_unique, list_elem_of_fmap.
  exists m. split; [done|]. by apply list_elem_of_filter.
Qed.

Lemma remap_key_of_row merged bad m :
  m ∈ merged → AID_2 m.1 ∈ bad →
  (AID_2 m.1, signature signature_cols m) ∈ remap_keys signature_cols merged bad.
Proof.
  intros Hm Hbad. apply elem_of_flat_map. exists (AID_2 m.1). split; [done|].
  apply list_elem_of_fmap. eexists. split; [done|]. by apply signature_listed.
Qed.

Lemma remap_keys_bad merged bad aid s :
  (aid, s) ∈ remap_keys signature_cols merged bad → aid ∈ bad.
Proof.
  intros (x & Hx & Hin)%elem_of_flat_map.
  by apply list_elem_of_fmap in Hin as (? & [= -> ->] & _).
Qed.

Lemma split_conflicting_addresses_unfold df_fa df_r :
  bad_aids signature_cols (merge_left df_r (fa_rows df_fa)) ≠ [] →
  split_conflicting_addresses signature_cols df_fa df_r
  = (top ← AID_max (fa_rows df_fa);
     additions ← mapM (clone_row (fa_rows df_fa))
                   (build_remap signature_cols (merge_left df_r (fa_rows df_fa))
                      (bad_aids signature_cols (merge_left df_r (fa_rows df_fa)))
                      (int64_succ top)).1;
     Some ({| has_fullAddress_c := has_fullAddress_c df_fa;
              fa_rows := fa_rows df_fa ++ additions |},
           map (repoint signature_cols
                  (build_remap signature_cols (merge_left df_r (fa_rows df_fa))
                     (bad_aids signature_cols (merge_left df_r (fa_rows df_fa)))
                     (int64_succ top)).1)
               (merge_left df_r (fa_rows df_fa)))).
Proof.
  intros Hbad. unfold split_conflicting_addresses.
  destruct (merge_left df_r (fa_rows df_fa)) as [|m merged] eqn:Hm; [done|].
  by destruct (bad_aids signature_cols (m :: merged)).
Qed.

(** What the splitter returns when some AID carries several signatures. *)
Lemma split_conflicting_addresses_bad df_fa df_r :
  let merged := merge_left df_r (fa_rows df_fa) in
  let bad := bad_aids signature_cols merged in
  let P := remap_keys signature_cols merged bad in
  bad ≠ [] →
  (∀ aid, aid ∈ bad → aid ∈ map AID (fa_rows df_fa)) →
  ∃ top additions,
    let remap := zip P (fresh_aids top (length P)) in
    AID_max (fa_rows df_fa) = Some top ∧
    split_conflicting_addresses signature_cols df_fa df_r
      = Some ({| has_fullAddress_c := has_fullAddress_c df_fa;
                 fa_rows := fa_rows df_fa ++ additions |},
              map (repoint signature_cols remap) merged) ∧
    Forall2 (λ entry clone,
               ∃ base, head (filter (λ a, AID a = entry.1.1) (fa_rows df_fa)) = Some base ∧
                       clone = set_AID base entry.2) remap additions.
Proof.
  intros merged bad P Hbad Hrows.
  assert (fa_rows df_fa ≠ []) as Hne.
  { destruct bad as [|aid bad'] eqn:Hb; [done|].
    specialize (Hrows aid ltac:(by left)). intros Hnil. rewrite Hnil in Hrows.
    by apply elem_of_nil in Hrows. }
  destruct (AID_max_Some _ Hne) as [top Htop]. exists top.
  assert (∃ additions,
            mapM (clone_row (fa_rows df_fa)) (zip P (fresh_aids top (length P)))
            = Some additions) as [additions Hadd].
  { apply mapM_is_Some. apply Forall_forall. intros [[aid s] n] Hin.
    assert (aid ∈ bad) as Haid.
    { apply elem_of_zip_with in Hin as (k & n' & [= <- <-] & Hk & _).
      by eapply remap_keys_bad. }
    apply Hrows, list_elem_of_fmap in Haid as (a & -> & Ha).
    unfold compose, clone_row. cbn [fst snd].
    destruct (filter (λ a0, AID a0 = AID a) (fa_rows df_fa)) as [|b l] eqn:Hf.
    - exfalso. by eapply (filter_nil_not_elem_of _ _ a Hf).
    - cbn. by eexists. }
  exists additions. cbv zeta. split; [done|]. split.
  - rewrite split_conflicting_addresses_unfold by done.
    rewrite Htop. cbn [mbind option_bind].
    rewrite build_remap_eq by apply bad_aids_NoDup.
    fold merged bad P. rewrite Hadd. done.
  - apply mapM_Some_1 in Hadd. eapply Forall2_impl; [exact Hadd|].
    intros [[aid s] n] clone. unfold clone_row. cbn [fst snd].
    destruct (head _) as [base|]; [|done]. cbn. intros [= <-]. by exists base.
Qed.

End splitter_facts.

Section splitter_theorem.
Import helpers main splitter_spec.
Variable signature_cols : list column.

Lemma dict_get_zip {K V : Type} `{EqDecision K} (P : list K) (vals : list V) k key v :
  NoDup P → length P = length vals →
  P !! k = Some key → vals !! k = Some v → dict_get (zip P vals) key = Some v.
Proof.
  intros Hnd Hlen Hk Hv. apply dict_get_elem_NoDup.
  - by rewrite keys_zip.
  - by apply (elem_of_lookup_zip_with_2 pair P vals key v (key, v) k).
Qed.

Lemma fresh_aids_lookup top n k :
  k < n → fresh_aids top n !! k = Some (Nat.iter (S k) int64_succ top).
Proof.
  intros Hk. unfold fresh_aids. change (map ?f ?l) with (f <$> l).
  by rewrite list_lookup_fmap, lookup_seq_lt.
Qed.

(** C1, amended.  When some AID carries more than one signature and every
    such AID has a record in the address table, the splitter returns.  It
    visits the conflicting AIDs in ascending order and the signatures of
    each in order of first appearance, and gives every one of these
    (AID, signature) pairs, the first-encountered signature included, the
    next AID after the greatest AID [top] of the table: the [k]-th pair
    (from 0) gets the AID reached from [top] by [k + 1] increments of the
    64-bit counter, which is [top + 1 + k] as long as [top] plus the
    number of pairs stays below [2^63].  For each pair it
    appends a copy of the first record of the old AID in which only the
    AID is replaced.  A relationship row of a conflicting AID is repointed
    to the new AID of its own (AID, signature) pair, so two rows share a
    new AID exactly when they share the pair; the rows of the other AIDs
    keep their AID.  Entity, type and number are never changed. *)
Theorem C1_every_signature_moves_to_a_new_aid df_fa df_r :
  let merged := merge_left df_r (fa_rows df_fa) in
  let bad := bad_aids signature_cols merged in
  let P := remap_keys signature_cols merged bad in
  bad ≠ [] →
  (∀ aid, aid ∈ bad → aid ∈ map AID (fa_rows df_fa)) →
  ∃ top additions df_r_out,
    AID_max (fa_rows df_fa) = Some top ∧
    split_conflicting_addresses signature_cols df_fa df_r
      = Some ({| has_fullAddress_c := has_fullAddress_c df_fa;
                 fa_rows := fa_rows df_fa ++ additions |}, df_r_out) ∧
    StronglySorted Z.lt bad ∧ NoDup P ∧
    length additions = length P ∧
    (∀ k aid s, P !! k = Some (aid, s) →
       ∃ base, head (filter (λ a, AID a = aid) (fa_rows df_fa)) = Some base ∧
               additions !! k = Some (set_AID base (Nat.iter (S k) int64_succ top))) ∧
    (in_int64 top → (top + Z.of_nat (length P) < 2 ^ 63)%Z →
       ∀ k, k < length P → Nat.iter (S k) int64_succ top = (top + 1 + Z.of_nat k)%Z) ∧
    length df_r_out = length merged ∧
    (∀ j m, merged !! j = Some m →
       ∃ x, df_r_out !! j = Some x ∧
         EID_1 x = EID_1 m.1 ∧ relationshipType x = relationshipType m.1 ∧
         number x = number m.1 ∧
         (AID_2 m.1 ∈ bad →
            ∃ k, P !! k = Some (AID_2 m.1, signature signature_cols m) ∧
                 AID_2 x = Nat.iter (S k) int64_succ top) ∧
         (AID_2 m.1 ∉ bad → AID_2 x = AID_2 m.1)).
Proof.
  intros merged bad P Hbad Hrows.
  destruct (split_conflicting_addresses_bad signature_cols df_fa df_r Hbad Hrows)
    as (top & additions & Htop & Hrun & Hclones).
  fold merged bad P in Hrun, Hclones.
  assert (NoDup P) as HP by apply remap_keys_NoDup, bad_aids_NoDup.
  pose proof (fresh_aids_length top (length P)) as Hfl.
  assert (length (zip P (fresh_aids top (length P))) = length P) as Hzl.
  { rewrite length_zip_with. lia. }
  exists top, additions, (map (repoint signature_cols (zip P (fresh_aids top (length P)))) merged).
  split_and!; try done.
  - apply bad_aids_sorted.
  - apply Forall2_length in Hclones. lia.
  - intros k aid s Hk.
    assert (zip P (fresh_aids top (length P)) !! k
            = Some ((aid, s), Nat.iter (S k) int64_succ top)) as Hzk.
    { rewrite (lookup_zip_with pair P), Hk. cbn.
      rewrite fresh_aids_lookup by by eapply lookup_lt_Some. done. }
    destruct (Forall2_lookup_l _ _ _ _ _ Hclones Hzk) as (clone & Hc & base & Hb & ->).
    by exists base.
  - intros Htop64 Hsmall k Hk. rewrite iter_int64_succ_small; [lia|done|lia].
  - by rewrite length_map.
  - intros j m Hj. eexists. split.
    { change (map ?f ?l) with (f <$> l). by rewrite list_lookup_fmap, Hj. }
    cbn [repoint EID_1 AID_2 relationshipType number]. split_and!; try done.
    + intros Hm.
      pose proof (remap_key_of_row signature_cols merged bad m
                    (list_elem_of_lookup_2 _ _ _ Hj) Hm) as Hin.
      fold P in Hin. apply list_elem_of_lookup_1 in Hin as [k Hk]. exists k.
      split; [done|].
      erewrite dict_get_zip; [done|done|lia|exact Hk|].
      apply fresh_aids_lookup. by eapply lookup_lt_Some.
    + intros Hm.
      assert (dict_get (zip P (fresh_aids top (length P)))
                (AID_2 m.1, signature signature_cols m) = None) as ->; [|done].
      apply dict_get_None. rewrite keys_zip by lia.
      intros Hin. apply Hm. by eapply remap_keys_bad.
Qed.

End splitter_theorem.

Section splitter_examples.
Import helpers main splitter_spec.

(** The hypotheses of C1 hold for AID 100 linked to E1 and E2, and the
    run moves the row of E1 to AID 101 and the row of E2 to AID 102. *)
Lemma C1_witness :
  bad_aids signature_cols_default
    (merge_left examples.links_E1_E2 (fa_rows examples.table_100)) ≠ [] ∧
  (∀ aid, aid ∈ bad_aids signature_cols_default
                   (merge_left examples.links_E1_E2 (fa_rows examples.table_100)) →
          aid ∈ map AID (fa_rows examples.table_100)) ∧
  ∃ additions df_r_out,
    split_conflicting_addresses signature_cols_default examples.table_100
      examples.links_E1_E2
    = Some ({| has_fullAddress_c := true;
               fa_rows := fa_rows examples.table_100 ++ additions |}, df_r_out) ∧
    length additions = 2.
Proof.
  split; [vm_compute; discriminate|]. split.
  { vm_compute. intros aid Hin. exact Hin. }
  destruct (C1_every_signature_moves_to_a_new_aid signature_cols_default
              examples.table_100 examples.links_E1_E2)
    as (top & additions & out & _ & Hrun & _ & _ & Hlen & _).
  - vm_compute. discriminate.
  - vm_compute. intros aid Hin. exact Hin.
  - exists additions, out. split; [exact Hrun|exact Hlen].
Defined.

(** C1 as stated fails.  AID 100 is linked to E1 and E2, hence carries the
    two signatures "E1|12|Main|St|nan|_12345|Trenton|NJ" and
    "E2|12|Main|St|nan|_12345|Trenton|NJ".  The first-encountered one is
    the signature of E1, yet the row of E1 does not stay on AID 100: it
    moves to the new AID 101, and the row of E2 moves to 102. *)
Lemma C1_counterexample :
  sigs_of signature_cols_default
    (merge_left examples.links_E1_E2 (fa_rows examples.table_100)) 100
    = ["E1|12|Main|St|nan|_12345|Trenton|NJ"; "E2|12|Main|St|nan|_12345|Trenton|NJ"] ∧
  ∃ fa_out,
    split_conflicting_addresses signature_cols_default examples.table_100
      examples.links_E1_E2
    = Some (fa_out, [examples.link "E1" 101; examples.link "E2" 102]) ∧
    map AID (fa_rows fa_out) = [100; 101; 102]%Z ∧
    examples.link "E1" 101 ≠ examples.link "E1" 100.
Proof.
  split; [reflexivity|]. eexists. split; [vm_compute; reflexivity|].
  split; [reflexivity|discriminate].
Qed.

End splitter_examples.

Section splitter_idempotent.
Import helpers main splitter_spec.
Variable signature_cols : list column.

Lemma filter_AID_NoDup rows aid :
  NoDup (map AID rows) → length (filter (λ a, AID a = aid) rows) ≤ 1.
Proof.
  induction rows as [|a rows IH]; cbn [map]; [cbn; lia|].
  intros [Hnin Hnd]%NoDup_cons. destruct (decide (AID a = aid)) as [Ha|Ha].
  - rewrite filter_cons_True by done. cbn [length].
    rewrite filter_none; [cbn; lia|].
    intros b Hb Hba. apply Hnin. apply list_elem_of_fmap. exists b. split; [congruence|done].
  - rewrite filter_cons_False by done. by apply IH.
Qed.

Lemma merge_left_keyed df_r rows :
  NoDup (map AID rows) →
  merge_left df_r rows = map (λ x, (x, lookup_row rows (AID_2 x))) df_r.
Proof.
  intros Hnd. induction df_r as [|x df_r IH]; [done|].
  change (merge_left (x :: df_r) rows)
    with (match filter (λ a, AID a = AID_2 x) rows with
          | [] => [(x, None)]
          | matches => map (λ a, (x, Some a)) matches
          end ++ merge_left df_r rows).
  rewrite IH. cbn [map]. unfold lookup_row.
  pose proof (filter_AID_NoDup rows (AID_2 x) Hnd) as Hlen.
  destruct (filter (λ a, AID a = AID_2 x) rows) as [|a [|b l]]; cbn in Hlen |- *;
    [done|done|lia].
Qed.

Lemma merge_left_fst df_r rows :
  NoDup (map AID rows) → map fst (merge_left df_r rows) = df_r.
Proof.
  intros Hnd. rewrite merge_left_keyed by done. rewrite map_map. cbn. apply map_id.
Qed.

Lemma signature_same_record (m1 m2 : Relationship * option AddressRecord) :
  m1.2 = m2.2 →
  signature signature_cols m1 = signature signature_cols m2 ↔ EID_1 m1.1 = EID_1 m2.1.
Proof.
  intros H2. unfold signature. rewrite H2. split.
  - apply join_cons_inv.
  - by intros ->.
Qed.

Lemma lookup_row_app_l rows extra aid :
  aid ∈ map AID rows → lookup_row (rows ++ extra) aid = lookup_row rows aid.
Proof.
  intros (a & -> & Ha)%list_elem_of_fmap. unfold lookup_row. rewrite filter_app.
  destruct (filter (λ b, AID b = AID a) rows) as [|b l] eqn:Hf; [|done].
  exfalso. by eapply (filter_nil_not_elem_of _ _ a Hf).
Qed.

(** The merged frame has a row for every relationship row. *)
Lemma merge_left_nil df_r rows : merge_left df_r rows = [] → df_r = [].
Proof.
  destruct df_r as [|x df_r]; [done|]. unfold merge_left. cbn [flat_map].
  by destruct (filter _ rows).
Qed.

(** On an empty relationship table the splitter raises. *)
Lemma split_empty df_fa : split_conflicting_addresses signature_cols df_fa [] = None.
Proof. done. Qed.

(** Without a conflicting AID the splitter returns its inputs. *)
Lemma split_no_conflict df_fa df_r :
  NoDup (map AID (fa_rows df_fa)) →
  df_r ≠ [] →
  bad_aids signature_cols (merge_left df_r (fa_rows df_fa)) = [] →
  split_conflicting_addresses signature_cols df_fa df_r = Some (df_fa, df_r).
Proof.
  intros Hnd Hne Hbad. unfold split_conflicting_addresses.
  destruct (merge_left df_r (fa_rows df_fa)) as [|m merged] eqn:Hm.
  { by apply merge_left_nil in Hm. }
  rewrite Hbad, <- Hm. by rewrite merge_left_fst.
Qed.

(** At most one new AID per row of the merged frame. *)
Lemma length_unique {A : Type} `{EqDecision A} (l : list A) : length (unique l) ≤ length l.
Proof.
  induction l as [|x l IH]; cbn [unique length]; [lia|].
  pose proof (length_filter (λ y, y ≠ x) (unique l)). lia.
Qed.

Lemma length_filter_disjoint {A : Type} (P Q R : A → Prop)
    `{∀ x, Decision (P x)} `{∀ x, Decision (Q x)} `{∀ x, Decision (R x)} (l : list A) :
  (∀ x, P x → Q x → False) → (∀ x, P x → R x) → (∀ x, Q x → R x) →
  length (filter P l) + length (filter Q l) ≤ length (filter R l).
Proof.
  intros Hdis HPR HQR. induction l as [|x l IH]; [cbn; lia|].
  destruct (decide (P x)) as [HP|HP], (decide (Q x)) as [HQ|HQ].
  - by destruct (Hdis x).
  - rewrite (filter_cons_True P), (filter_cons_False Q), (filter_cons_True R) by auto.
    cbn [length]. lia.
  - rewrite (filter_cons_False P), (filter_cons_True Q), (filter_cons_True R) by auto.
    cbn [length]. lia.
  - rewrite (filter_cons_False P), (filter_cons_False Q) by auto.
    destruct (decide (R x)).
    + rewrite (filter_cons_True R) by done. cbn [length]. lia.
    + by rewrite (filter_cons_False R) by done.
Qed.

Lemma remap_keys_length merged bad :
  NoDup bad →
  length (remap_keys signature_cols merged bad)
  ≤ length (filter (λ m : Relationship * option AddressRecord, AID_2 m.1 ∈ bad) merged).
Proof.
  induction 1 as [|aid bad Hnin Hnd IH]; [cbn; lia|].
  unfold remap_keys in *. cbn [flat_map]. rewrite length_app, length_map.
  pose proof (length_unique
                (map (signature signature_cols)
                   (filter (λ m : Relationship * option AddressRecord, AID_2 m.1 = aid)
                      merged))) as Hu.
  rewrite length_map in Hu. fold (sigs_of signature_cols merged aid) in Hu.
  pose proof (length_filter_disjoint
                (λ m : Relationship * option AddressRecord, AID_2 m.1 = aid)
                (λ m : Relationship * option AddressRecord, AID_2 m.1 ∈ bad)
                (λ m : Relationship * option AddressRecord, AID_2 m.1 ∈ aid :: bad)
                merged) as Hd.
  cbn beta in Hd.
  assert (length (filter (λ m : Relationship * option AddressRecord, AID_2 m.1 = aid)
                    merged)
          + length (filter (λ m : Relationship * option AddressRecord, AID_2 m.1 ∈ bad)
                      merged)
          ≤ length (filter (λ m : Relationship * option AddressRecord,
                              AID_2 m.1 ∈ aid :: bad) merged)) as Hd'.
  { apply Hd.
    - intros m Hm Hin. apply Hnin. by rewrite <- Hm.
    - intros m Hm. rewrite Hm. by left.
    - intros m Hm. by right. }
  lia.
Qed.

Lemma remap_keys_length_le merged bad :
  NoDup bad → length (remap_keys signature_cols merged bad) ≤ length merged.
Proof.
  intros Hnd. pose proof (remap_keys_length merged bad Hnd).
  pose proof (length_filter (λ m : Relationship * option AddressRecord, AID_2 m.1 ∈ bad)
                merged). lia.
Qed.

Lemma AID_max_elem rows top : AID_max rows = Some top → top ∈ map AID rows.
Proof.
  destruct rows as [|a0 rows]; [done|]. cbn [AID_max]. intros [= <-].
  assert (∀ l m, fold_left (λ m b, Z.max m (AID b)) l m = m ∨
                 fold_left (λ m b, Z.max m (AID b)) l m ∈ map AID l) as H.
  { induction l as [|b l IH]; intros m; cbn [fold_left]; [by left|].
    destruct (IH (Z.max m (AID b))) as [->|Hin]; [|right; by right].
    destruct (Z.max_spec m (AID b)) as [[_ ->]|[_ ->]]; [right; by left|by left]. }
  cbn [map]. destruct (H rows (AID a0)) as [->|Hin]; [by left|by right].
Qed.

(** No AID is conflicting when the rows of every AID agree on the
    entity. *)
Lemma bad_aids_nil df_r rows :
  NoDup (map AID rows) →
  (∀ x y, x ∈ df_r → y ∈ df_r → AID_2 x = AID_2 y → EID_1 x = EID_1 y) →
  bad_aids signature_cols (merge_left df_r rows) = [].
Proof.
  intros Hnd Hsame. unfold bad_aids. apply filter_none. intros aid _ Hlt.
  assert (length (sigs_of signature_cols (merge_left df_r rows) aid) ≤ 1); [|lia].
  unfold sigs_of. rewrite merge_left_keyed by done.
  destruct (filter (λ m : Relationship * option AddressRecord, AID_2 m.1 = aid)
              (map (λ x, (x, lookup_row rows (AID_2 x))) df_r)) as [|m0 l] eqn:Hf;
    [cbn; lia|].
  apply (unique_constant _ (signature signature_cols m0)).
  intros s (m & -> & Hm)%list_elem_of_fmap.
  assert (∀ m', m' ∈ m0 :: l →
                ∃ x, x ∈ df_r ∧ AID_2 x = aid ∧ m' = (x, lookup_row rows aid)) as Hshape.
  { intros m'. rewrite <- Hf. intros [Ha Hin]%list_elem_of_filter.
    apply list_elem_of_fmap in Hin as (x & -> & Hx). cbn in Ha. exists x.
    by rewrite Ha. }
  destruct (Hshape m Hm) as (x & Hx & Hxa & ->).
  destruct (Hshape m0 ltac:(by left)) as (x0 & Hx0 & Hx0a & ->).
  apply signature_same_record; [done|]. cbn. apply Hsame; [done..|congruence].
Qed.

(** Rows of one AID with one signature belong to one entity. *)
Lemma one_signature_one_entity df_r rows aid x y :
  NoDup (map AID rows) →
  length (sigs_of signature_cols (merge_left df_r rows) aid) ≤ 1 →
  x ∈ df_r → y ∈ df_r → AID_2 x = aid → AID_2 y = aid → EID_1 x = EID_1 y.
Proof.
  intros Hnd Hlen Hx Hy Hxa Hya.
  destruct (decide (EID_1 x = EID_1 y)) as [|Hne]; [done|]. exfalso.
  rewrite merge_left_keyed in Hlen by done.
  set (mx := (x, lookup_row rows (AID_2 x))).
  set (my := (y, lookup_row rows (AID_2 y))).
  assert (signature signature_cols mx ≠ signature signature_cols my) as Hsig.
  { intros Heq. apply Hne. apply (signature_same_record mx my); [|done].
    subst mx my. cbn. congruence. }
  unfold sigs_of in Hlen.
  pose proof (unique_two
    (map (signature signature_cols)
       (filter (λ m : Relationship * option AddressRecord, AID_2 m.1 = aid)
          (map (λ x, (x, lookup_row rows (AID_2 x))) df_r)))
    (signature signature_cols mx) (signature signature_cols my)) as Htwo.
  assert (∀ z, z ∈ df_r → AID_2 z = aid →
            signature signature_cols (z, lookup_row rows (AID_2 z))
            ∈ map (signature signature_cols)
                (filter (λ m : Relationship * option AddressRecord, AID_2 m.1 = aid)
                   (map (λ x, (x, lookup_row rows (AID_2 x))) df_r))) as Hin.
  { intros z Hz Hza. apply list_elem_of_fmap. eexists. split; [done|].
    apply list_elem_of_filter. split; [done|]. apply list_elem_of_fmap. by exists z. }
  specialize (Htwo (Hin x Hx Hxa) (Hin y Hy Hya) Hsig). lia.
Qed.

End splitter_idempotent.

Section splitter_idempotent_theorem.
Import helpers main splitter_spec.
Variable signature_cols : list column.

Lemma repoint_spec merged bad top m :
  let P := remap_keys signature_cols merged bad in
  let remap := zip P (fresh_aids top (length P)) in
  NoDup bad → m ∈ merged →
  (AID_2 m.1 ∈ bad →
     ∃ k, P !! k = Some (AID_2 m.1, signature signature_cols m) ∧
          AID_2 (repoint signature_cols remap m) = Nat.iter (S k) int64_succ top) ∧
  (AID_2 m.1 ∉ bad → AID_2 (repoint signature_cols remap m) = AID_2 m.1).
Proof.
  intros P remap Hnd Hm. subst remap.
  assert (NoDup P) as HP by by apply remap_keys_NoDup.
  pose proof (fresh_aids_length top (length P)) as Hfl.
  cbn [repoint AID_2]. split.
  - intros Hbad.
    pose proof (remap_key_of_row signature_cols merged bad m Hm Hbad) as Hin.
    fold P in Hin. apply list_elem_of_lookup_1 in Hin as [k Hk]. exists k.
    split; [done|].
    erewrite dict_get_zip; [done|done|lia|exact Hk|].
    apply fresh_aids_lookup. by eapply lookup_lt_Some.
  - intros Hbad.
    assert (dict_get (zip P (fresh_aids top (length P)))
              (AID_2 m.1, signature signature_cols m) = None) as ->; [|done].
    apply dict_get_None. rewrite keys_zip by lia.
    intros Hin. apply Hbad. by eapply remap_keys_bad.
Qed.

Lemma clones_AIDs (rows : list AddressRecord) (remap : list ((Z * string) * Z)) additions :
  Forall2 (λ entry clone,
             ∃ base, head (filter (λ a, AID a = entry.1.1) rows) = Some base ∧
                     clone = set_AID base entry.2) remap additions →
  map AID additions = map snd remap.
Proof.
  induction 1 as [|e c remap additions (base & _ & ->) _ IH]; [done|].
  cbn [map]. by rewrite IH.
Qed.

(** C8, amended.  Take an address table in which every AID occurs once
    and a relationship table with at least one row whose rows all point
    to a record of the address table, the AIDs being 64-bit values far
    enough from the end of the range: every AID plus the number of
    relationship rows stays below [2^63], so the 64-bit counter of new
    AIDs does not wrap around.  Then the splitter returns, and running it
    again on its own output returns that output unchanged: no AID is
    minted and no row moves.  The output again has unique AIDs and
    resolved links.  (On a relationship table without rows the splitter
    raises.) *)
Theorem C8_splitter_idempotent_on_keyed_tables df_fa df_r :
  NoDup (map AID (fa_rows df_fa)) →
  links_resolved (fa_rows df_fa) df_r →
  df_r ≠ [] →
  (∀ a, a ∈ fa_rows df_fa →
        in_int64 (AID a) ∧ (AID a + Z.of_nat (length df_r) < 2 ^ 63)%Z) →
  ∃ fa_out r_out,
    split_conflicting_addresses signature_cols df_fa df_r = Some (fa_out, r_out) ∧
    split_conflicting_addresses signature_cols fa_out r_out = Some (fa_out, r_out) ∧
    NoDup (map AID (fa_rows fa_out)) ∧
    links_resolved (fa_rows fa_out) r_out.
Proof.
  intros Hnd Hres Hne H64.
  set (merged := merge_left df_r (fa_rows df_fa)).
  set (bad := bad_aids signature_cols merged).
  destruct (decide (bad = [])) as [Hbad|Hbad].
  { exists df_fa, df_r. by rewrite split_no_conflict. }
  assert (∀ aid, aid ∈ bad → aid ∈ map AID (fa_rows df_fa)) as Hrows.
  { intros aid [_ Hin]%list_elem_of_filter.
    apply elem_of_groupby_keys, list_elem_of_fmap in Hin as (m & -> & Hm).
    subst merged. rewrite merge_left_keyed in Hm by done.
    apply list_elem_of_fmap in Hm as (x & -> & Hx). by apply Hres. }
  destruct (split_conflicting_addresses_bad signature_cols df_fa df_r Hbad Hrows)
    as (top & additions & Htop & Hrun & Hclones).
  fold merged bad in Hrun, Hclones.
  set (P := remap_keys signature_cols merged bad) in *.
  set (remap := zip P (fresh_aids top (length P))) in *.
  pose proof (fresh_aids_length top (length P)) as Hfl.
  assert (length merged = length df_r) as Hlen.
  { subst merged. rewrite merge_left_keyed by done. apply length_map. }
  assert (in_int64 top ∧ (top + Z.of_nat (length P) < 2 ^ 63)%Z) as [Htop64 Hsmall].
  { apply AID_max_elem, list_elem_of_fmap in Htop as Hin.
    destruct Hin as (a & -> & Ha). destruct (H64 a Ha) as [? ?]. split; [done|].
    pose proof (remap_keys_length_le signature_cols merged bad
                  (bad_aids_NoDup signature_cols merged)) as HPl.
    fold P in HPl. lia. }
  assert (∀ k, k < length P →
               Nat.iter (S k) int64_succ top = (top + 1 + Z.of_nat k)%Z) as Hiter.
  { intros k Hk. rewrite iter_int64_succ_small; [lia|done|lia]. }
  assert (map AID additions = fresh_aids top (length P)) as Hadd.
  { rewrite (clones_AIDs _ _ _ Hclones). subst remap. by rewrite snd_zip_eq by lia. }
  assert (NoDup (map AID (fa_rows df_fa ++ additions))) as Hnd'.
  { rewrite map_app. apply NoDup_app. split_and!; [done| |].
    - intros a (b & -> & Hb)%list_elem_of_fmap. rewrite Hadd.
      intros Hin. apply elem_of_fresh_aids in Hin; [|done..].
      pose proof (AID_max_upper _ _ _ Htop Hb). lia.
    - rewrite Hadd. by apply fresh_aids_NoDup. }
  (* the rows of the merged frame *)
  assert (∀ m, m ∈ merged ↔ ∃ x, x ∈ df_r ∧ m = (x, lookup_row (fa_rows df_fa) (AID_2 x)))
    as Hmerged.
  { intros m. subst merged. rewrite merge_left_keyed by done.
    rewrite list_elem_of_fmap. naive_solver. }
  assert (NoDup bad) as Hndb by apply bad_aids_NoDup.
  (* where a row of the output points *)
  assert (∀ x', x' ∈ map (repoint signature_cols remap) merged →
            ∃ x, x ∈ df_r ∧ EID_1 x' = EID_1 x ∧
              ((AID_2 x ∈ bad ∧ (top < AID_2 x')%Z ∧
                ∃ k, P !! k = Some (AID_2 x, signature signature_cols
                                       (x, lookup_row (fa_rows df_fa) (AID_2 x))) ∧
                     AID_2 x' = (top + 1 + Z.of_nat k)%Z) ∨
               ((AID_2 x ∉ bad) ∧ AID_2 x' = AID_2 x ∧ (AID_2 x' ≤ top)%Z))) as Hout.
  { intros x' (m & -> & Hm)%list_elem_of_fmap.
    pose proof Hm as (x & Hx & ->)%Hmerged. exists x. split; [done|]. split; [done|].
    destruct (repoint_spec merged bad top _ Hndb Hm) as [Hb Hnb]. cbn [fst] in *.
    destruct (decide (AID_2 x ∈ bad)) as [Hin|Hnin].
    - left. destruct (Hb Hin) as (k & Hk & Hx').
      fold P remap in Hx'. rewrite Hiter in Hx' by by eapply lookup_lt_Some.
      split; [done|]. split; [|by exists k]. rewrite Hx'. lia.
    - right. fold P remap in Hnb. rewrite (Hnb Hnin). split; [done|]. split; [done|].
      apply Hres, list_elem_of_fmap in Hx as (a & -> & Ha).
      by eapply AID_max_upper. }
  eexists _, _. split; [exact Hrun|]. split_and!; [|done|].
  - apply split_no_conflict; [done| |].
    { intros Hnil. apply (f_equal length) in Hnil. rewrite length_map in Hnil.
      destruct df_r; [done|]. cbn [length] in *. lia. }
    cbn [fa_rows]. apply bad_aids_nil; [done|].
    intros x' y' Hx' Hy' Hsame.
    destruct (Hout x' Hx') as (x & Hx & -> & Hcx).
    destruct (Hout y' Hy') as (y & Hy & -> & Hcy).
    destruct Hcx as [(Hxb & Hxt & kx & Hkx & Hxa)|(Hxb & Hxa & Hxt)];
      destruct Hcy as [(Hyb & Hyt & ky & Hky & Hya)|(Hyb & Hya & Hyt)]; try lia.
    + assert (kx = ky) as -> by lia. rewrite Hkx in Hky. injection Hky as Haid Hsig.
      apply (signature_same_record signature_cols
               (x, lookup_row (fa_rows df_fa) (AID_2 x))
               (y, lookup_row (fa_rows df_fa) (AID_2 y))) in Hsig; [done|].
      cbn. by rewrite Haid.
    + eapply (one_signature_one_entity signature_cols df_r (fa_rows df_fa) (AID_2 x));
        [done| |done|done|done|congruence].
      fold merged. destruct (decide (1 < length (sigs_of signature_cols merged (AID_2 x))))
        as [Hlt|]; [|lia].
      exfalso. apply Hxb. apply list_elem_of_filter. split; [done|].
      apply elem_of_groupby_keys, list_elem_of_fmap.
      exists (x, lookup_row (fa_rows df_fa) (AID_2 x)). split; [done|].
      apply Hmerged. by exists x.
  - intros x' Hx'. cbn [fa_rows]. rewrite map_app, elem_of_app.
    destruct (Hout x' Hx') as (x & Hx & _ & [(_ & _ & k & Hk & ->)|(_ & -> & _)]).
    + right. rewrite Hadd. rewrite fresh_aids_small by done.
      apply list_elem_of_fmap. exists k.
      split; [done|]. apply elem_of_seq. apply lookup_lt_Some in Hk. lia.
    + left. by apply Hres.
Qed.

End splitter_idempotent_theorem.

Section splitter_idempotent_examples.
Import helpers main splitter_spec.

Lemma C8_witness :
  NoDup (map AID (fa_rows examples.table_100)) ∧
  links_resolved (fa_rows examples.table_100) examples.links_E1_E2 ∧
  examples.links_E1_E2 ≠ [] ∧
  (∀ a, a ∈ fa_rows examples.table_100 →
        in_int64 (AID a) ∧
        (AID a + Z.of_nat (length examples.links_E1_E2) < 2 ^ 63)%Z) ∧
  ∃ fa_out r_out,
    split_conflicting_addresses signature_cols_default examples.table_100
      examples.links_E1_E2 = Some (fa_out, r_out) ∧
    split_conflicting_addresses signature_cols_default fa_out r_out
      = Some (fa_out, r_out).
Proof.
  assert (NoDup (map AID (fa_rows examples.table_100))) as Hnd.
  { apply NoDup_singleton. }
  assert (links_resolved (fa_rows examples.table_100) examples.links_E1_E2) as Hres.
  { intros x Hx. unfold examples.links_E1_E2 in Hx.
    apply elem_of_cons in Hx as [->|Hx]; [by left|].
    apply list_elem_of_singleton in Hx as ->. by left. }
  assert (∀ a, a ∈ fa_rows examples.table_100 →
               in_int64 (AID a) ∧
               (AID a + Z.of_nat (length examples.links_E1_E2) < 2 ^ 63)%Z) as H64.
  { intros a Ha. apply list_elem_of_singleton in Ha as ->. by vm_compute. }
  split; [exact Hnd|]. split; [exact Hres|]. split; [discriminate|].
  split; [exact H64|].
  destruct (C8_splitter_idempotent_on_keyed_tables signature_cols_default
              examples.table_100 examples.links_E1_E2 Hnd Hres ltac:(discriminate) H64)
    as (fa_out & r_out & H1 & H2 & _).
  exists fa_out, r_out. split; [exact H1|exact H2].
Defined.

(** C8 as stated fails on tables that are not keyed.  First input: E3
    points to AID 101, which has no record.  The first run moves E1 to the
    new AID 101 and E2 to 102; AID 101 now carries the signatures of E1
    and E3, so the second run mints 103 and 104 and moves both rows
    again.  Second input: the record of AID 100 is stored twice and one
    relationship points to it; every run returns each relationship row
    once per matching record, so the relationship table doubles. *)
Lemma C8_counterexample :
  (∃ fa1 r1 fa2 r2,
     split_conflicting_addresses signature_cols_default examples.table_100
       splitter_examples.links_with_dangling = Some (fa1, r1) ∧
     split_conflicting_addresses signature_cols_default fa1 r1 = Some (fa2, r2) ∧
     map AID_2 r1 = [101; 102; 101]%Z ∧ map AID_2 r2 = [103; 102; 104]%Z ∧
     map AID (fa_rows fa1) = [100; 101; 102]%Z ∧
     map AID (fa_rows fa2) = [100; 101; 102; 103; 104]%Z ∧
     (fa2, r2) ≠ (fa1, r1)) ∧
  (∃ fa1 r1 fa2 r2,
     split_conflicting_addresses signature_cols_default
       splitter_examples.table_100_twice [examples.link "E1" 100] = Some (fa1, r1) ∧
     split_conflicting_addresses signature_cols_default fa1 r1 = Some (fa2, r2) ∧
     length r1 = 2 ∧ length r2 = 4 ∧ (fa2, r2) ≠ (fa1, r1)).
Proof.
  split.
  - eexists _, _, _, _. split; [vm_compute; reflexivity|].
    split; [vm_compute; reflexivity|]. split_and!; try reflexivity. discriminate.
  - eexists _, _, _, _. split; [vm_compute; reflexivity|].
    split; [vm_compute; reflexivity|]. split_and!; try reflexivity. discriminate.
Qed.

End splitter_idempotent_examples.

(** ** Rule 1: blank ZIPs filled from the unique valid ZIP of the group *)

Section dict_omap.
Context {K V W : Type} `{EqDecision K}.

Lemma dict_get_omap (f : K * V → option (K * W)) (d : list (K * V)) k :
  (∀ k' v k'' w, f (k', v) = Some (k'', w) → k'' = k') →
  NoDup (keys d) →
  dict_get (omap f d) k = v ← dict_get d k; snd <$> f (k, v).
Proof.
  intros Hf. unfold keys. induction d as [|[k0 v0] d IH]; cbn [map fst]; [done|].
  intros [Hnin Hnd]%NoDup_cons. cbn [omap list_omap dict_get].
  destruct (decide (k = k0)) as [->|Hne].
  - cbn [mbind option_bind]. destruct (f (k0, v0)) as [[k1 w]|] eqn:Hfk.
    + apply Hf in Hfk as Hk. subst k1. cbn [dict_get]. by rewrite decide_True.
    + cbn. fold (omap f d). rewrite IH by done.
      assert (dict_get d k0 = None) as ->; [|done].
      by apply dict_get_None.
  - destruct (f (k0, v0)) as [[k1 w]|] eqn:Hfk.
    + apply Hf in Hfk as Hk. subst k1. cbn [dict_get]. rewrite decide_False by done.
      by apply IH.
    + by apply IH.
Qed.

End dict_omap.

Section rule1.
Import fill_missing_zip_codes.

Lemma agg_list_snoc pairs kz :
  agg_list (pairs ++ [kz])
  = if key_notna kz.1 then dict_append (agg_list pairs) kz.1 kz.2 else agg_list pairs.
Proof. unfold agg_list. by rewrite fold_left_app. Qed.

Lemma agg_list_NoDup pairs : NoDup (keys (agg_list pairs)).
Proof.
  induction pairs as [|kz pairs IH] using rev_ind; [constructor|].
  rewrite agg_list_snoc. destruct (key_notna kz.1); [|done].
  by apply NoDup_keys_dict_set.
Qed.

Lemma agg_list_get pairs k :
  key_notna k = true →
  dict_get (agg_list pairs) k
  = match filter (λ kz, kz.1 = k) pairs with
    | [] => None
    | l => Some (map snd l)
    end.
Proof.
  intros Hk. induction pairs as [|kz pairs IH] using rev_ind; [done|].
  rewrite agg_list_snoc, filter_app. unfold dict_append.
  destruct (decide (kz.1 = k)) as [Heq|Hne].
  - rewrite Heq, Hk, dict_get_set_eq, IH.
    rewrite (filter_cons_True _ kz) by done. rewrite filter_nil.
    destruct (filter _ pairs); cbn [default app map]; [done|].
    by rewrite map_app.
  - rewrite (filter_cons_False _ kz) by done. rewrite filter_nil, app_nil_r.
    destruct (key_notna kz.1); [|done]. by rewrite dict_get_set_ne.
Qed.

(** A valid ZIP is a text. *)
Lemma valid_zip_is_text r : _valid r = true → ∃ s, v_zip_c r = Str s.
Proof.
  unfold _valid, z. destruct (v_zip_c r) as [|s]; [|by eexists].
  intros H. by vm_compute in H.
Qed.

(** The three states of a ZIP exclude one another and cover every row. *)
Lemma zip_states_exclusive r :
  (_valid r = true ∧ _invalid r = false ∧ _blank r = false) ∨
  (_valid r = false ∧ _invalid r = true ∧ _blank r = false) ∨
  (_valid r = false ∧ _invalid r = false ∧ _blank r = true).
Proof.
  unfold _invalid, _valid, _blank.
  destruct (bool_decide (z r = "")) eqn:Hb.
  - apply bool_decide_eq_true in Hb. rewrite Hb. right. right. done.
  - destruct (ZIP_RE (z r)); [left|right; left]; done.
Qed.

(** The frame [canon] at a group with exactly one distinct valid ZIP. *)
Lemma canon_unique_valid rows k zip :
  key_notna k = true →
  (∃ r, r ∈ rows ∧ grp r = k ∧ _valid r = true ∧ v_zip_c r = zip) →
  (∀ r, r ∈ rows → grp r = k → _valid r = true → v_zip_c r = zip) →
  dict_get (canon rows) k = Some zip.
Proof.
  intros Hk (r0 & Hr0 & Hg0 & Hv0 & Hz0) Hall. unfold canon.
  rewrite dict_get_omap; [|intros k' v k'' w|apply agg_list_NoDup].
  2:{ cbn. destruct v as [|? [|? ?]]; [done| |done]. by intros [= -> _]. }
  rewrite agg_list_get by done.
  set (pairs := unique _).
  assert (filter (λ kz : (string * value * string) * value, kz.1 = k) pairs = [(k, zip)])
    as ->; [|done].
  assert (NoDup (filter (λ kz : (string * value * string) * value, kz.1 = k) pairs)) as Hnd.
  { apply NoDup_filter, NoDup_unique. }
  assert (∀ kz, kz ∈ filter (λ kz : (string * value * string) * value, kz.1 = k) pairs
                ↔ kz = (k, zip)) as Hin.
  { intros [k' z']. rewrite list_elem_of_filter. subst pairs.
    rewrite elem_of_unique, list_elem_of_fmap. cbn [fst]. split.
    - intros [-> (r & [= -> ->] & [Hv Hr]%list_elem_of_filter)].
      by rewrite (Hall r).
    - intros [= -> ->]. split; [done|]. exists r0. split; [by rewrite Hg0, Hz0|].
      by apply list_elem_of_filter. }
  destruct (filter _ pairs) as [|a [|b l]].
  - exfalso. eapply elem_of_nil, Hin. done.
  - f_equal. apply Hin. by left.
  - exfalso. apply NoDup_cons in Hnd as [Hab _]. apply Hab.
    rewrite (proj1 (Hin a)) by by left.
    rewrite (proj1 (Hin b)) by (right; by left). by left.
Qed.

Lemma targets_of_group rows k zip :
  dict_get (canon rows) k = Some zip → isna zip = false →
  filter (λ t, grp t.1 = k) (targets rows)
  = map (λ r, (r, zip)) (filter (λ r, grp r = k ∧ _blank r = true) rows).
Proof.
  intros Hcn Hzip. unfold targets. revert Hcn. generalize (canon rows). intros cn Hcn.
  induction rows as [|r rows IH]; [done|].
  change (omap ?f (r :: rows)) with (match f r with
                                      | Some y => y :: omap f rows
                                      | None => omap f rows
                                      end).
  destruct (decide (grp r = k)) as [Hg|Hg].
  - rewrite Hg at 1. rewrite Hcn, Hzip, andb_true_r. destruct (_blank r) eqn:Hb.
    + rewrite (filter_cons_True _ (r, zip)) by exact Hg.
      rewrite (filter_cons_True _ r) by (split; [exact Hg|exact Hb]).
      cbn [map]. f_equal. apply IH.
    + rewrite (filter_cons_False _ r) by (intros [_ ?]; congruence). apply IH.
  - rewrite (filter_cons_False _ r) by (intros [? _]; done).
    destruct (dict_get cn (grp r)) as [z'|]; [|apply IH].
    destruct (_ && _); [|apply IH].
    rewrite (filter_cons_False _ (r, z')) by exact Hg. apply IH.
Qed.

(** The [.str] accessor of Rules 1 and 3a is safe as soon as the ZIP
    column holds text or some row has a valid ZIP. *)
Lemma str_accessor_safe view :
  zip_c_object view = true ∨ (∃ r, r ∈ view_rows view ∧ _valid r = true) →
  str_accessor_raises view = false.
Proof.
  unfold str_accessor_raises. intros [->|(r & Hr & Hv)]; [done|].
  apply andb_false_iff. right. apply not_true_is_false. intros Hall.
  rewrite forallb_forall in Hall. specialize (Hall r).
  rewrite <- list_elem_of_In in Hall. specialize (Hall Hr). by rewrite Hv in Hall.
Qed.

Lemma str_accessor_raises_iff view :
  str_accessor_raises view = true ↔
  zip_c_object view = false ∧ ∀ r, r ∈ view_rows view → _valid r = false.
Proof.
  unfold str_accessor_raises. rewrite andb_true_iff, negb_true_iff, forallb_forall.
  split; intros [? Hall]; (split; [done|]); intros r Hr.
  - apply list_elem_of_In, Hall in Hr. by apply negb_true_iff.
  - apply negb_true_iff, Hall. by apply list_elem_of_In.
Qed.

Lemma propose_fill_missing_zips_keep_run view :
  (∀ c, c ∈ need_rule1 → c ∈ view_columns view) →
  propose_fill_missing_zips_keep view
  = if str_accessor_raises view then OtherError
    else Ok (map proposal_of_target (targets (view_rows view))).
Proof.
  intros Hcols.
  unfold propose_fill_missing_zips_keep, require_columns, missing_columns.
  rewrite filter_none by (intros c Hc Hn; by apply Hn, Hcols).
  unfold rule1_body. by destruct (str_accessor_raises view).
Qed.

(** What [ZIP_RE] accepts. *)
Lemma ZIP_RE_spec s :
  ZIP_RE s = true ↔
  ∃ d1 d2 d3 d4 d5, s = string_of_list_ascii ["_"%char; d1; d2; d3; d4; d5] ∧
    forallb is_digit [d1; d2; d3; d4; d5] = true.
Proof.
  unfold ZIP_RE. split.
  - destruct (list_ascii_of_string s) as [|m [|d1 [|d2 [|d3 [|d4 [|d5 [|? ?]]]]]]] eqn:Hs;
      try done.
    intros [Hm Hd]%andb_true_iff. apply bool_decide_eq_true in Hm as ->.
    exists d1, d2, d3, d4, d5. split; [|done].
    by rewrite <- Hs, string_of_list_ascii_of_string.
  - intros (d1 & d2 & d3 & d4 & d5 & -> & Hd).
    rewrite list_ascii_of_string_of_list_ascii. by rewrite Hd.
Qed.

(** C9, amended.  Take a merged view that has the columns of Rule 1 and a
    group (entity, house number, normalised street) with a present house
    number (pandas leaves rows with a missing house number out of every
    group) whose valid rows all store one same ZIP cell [zip], the cells
    compared as they are stored, with the whitespace around them.  The
    rule returns one proposal per selected row, in row order, and the
    rows it selects in the group are exactly the rows of the group whose
    ZIP is blank, each paired with [zip]: the proposal of such a row
    names the AID and the entity of the row, the column zip_c and the
    value [zip].  A row is in exactly one of the three states valid,
    invalid, blank; on ASCII text its ZIP is valid when the stripped cell
    is the marker "_" followed by five digits 0-9 and blank when the
    stripped cell is empty. *)
Theorem C9_blank_rows_get_the_unique_valid_zip (view : merged_view) k zip :
  (∀ c, c ∈ need_rule1 → c ∈ view_columns view) →
  key_notna k = true →
  (∃ r, r ∈ view_rows view ∧ grp r = k ∧ _valid r = true ∧ v_zip_c r = zip) →
  (∀ r, r ∈ view_rows view → grp r = k → _valid r = true → v_zip_c r = zip) →
  propose_fill_missing_zips_keep view
    = Ok (map proposal_of_target (targets (view_rows view))) ∧
  filter (λ t, grp t.1 = k) (targets (view_rows view))
    = map (λ r, (r, zip)) (filter (λ r, grp r = k ∧ _blank r = true) (view_rows view)) ∧
  (∀ r, helpers.original_AID (proposal_of_target (r, zip)) = v_AID r ∧
        helpers.EID_context (proposal_of_target (r, zip)) = Some (v_EID_1 r) ∧
        helpers.column_to_change (proposal_of_target (r, zip)) = helpers.zip_c ∧
        helpers.proposed_value (proposal_of_target (r, zip)) = zip) ∧
  (∀ r, (_valid r = true ∧ _invalid r = false ∧ _blank r = false) ∨
        (_valid r = false ∧ _invalid r = true ∧ _blank r = false) ∨
        (_valid r = false ∧ _invalid r = false ∧ _blank r = true)) ∧
  (∀ r, ascii_text (fillna_empty (v_zip_c r)) →
        (_valid r = true ↔
         ∃ d1 d2 d3 d4 d5,
           strip (fillna_empty (v_zip_c r))
             = string_of_list_ascii ["_"%char; d1; d2; d3; d4; d5] ∧
           forallb is_digit [d1; d2; d3; d4; d5] = true) ∧
        (_blank r = true ↔ strip (fillna_empty (v_zip_c r)) = "")).
Proof.
  intros Hcols Hk Hex Hall. split_and!.
  - rewrite propose_fill_missing_zips_keep_run by done.
    rewrite str_accessor_safe; [done|]. right.
    destruct Hex as (r & Hr & _ & Hv & _). by exists r.
  - pose proof (canon_unique_valid _ _ _ Hk Hex Hall) as Hcanon.
    assert (isna zip = false) as Hzip.
    { destruct Hex as (r0 & _ & _ & Hv & <-).
      by destruct (valid_zip_is_text _ Hv) as [s ->]. }
    by apply targets_of_group.
  - done.
  - apply zip_states_exclusive.
  - intros r _. split; [apply ZIP_RE_spec|]. unfold _blank, z.
    apply bool_decide_eq_true.
Qed.

(** The hypotheses of C9 hold for the group with the ZIP values
    ["_12345", "_12345", "", ""], and the rule proposes "_12345" for the
    two blank rows and for no other row. *)
Lemma C9_witness :
  (∀ c, c ∈ need_rule1 → c ∈ view_columns rule1_examples.two_valid_two_blank) ∧
  key_notna rule1_examples.group_key = true ∧
  (∃ r, r ∈ view_rows rule1_examples.two_valid_two_blank ∧
        grp r = rule1_examples.group_key ∧ _valid r = true ∧
        v_zip_c r = Str "_12345") ∧
  (∀ r, r ∈ view_rows rule1_examples.two_valid_two_blank →
        grp r = rule1_examples.group_key → _valid r = true →
        v_zip_c r = Str "_12345") ∧
  propose_fill_missing_zips_keep rule1_examples.two_valid_two_blank
    = Ok [proposal_of_target (rule1_examples.row_of 3 (Str ""), Str "_12345");
          proposal_of_target (rule1_examples.row_of 4 (Str ""), Str "_12345")].
Proof.
  assert (∀ c, c ∈ need_rule1 → c ∈ view_columns rule1_examples.two_valid_two_blank)
    as H1.
  { intros c Hc. unfold need_rule1 in Hc. cbn [view_columns rule1_examples.two_valid_two_blank].
    repeat (apply elem_of_cons in Hc as [->|Hc]; [set_solver|]).
    by apply elem_of_nil in Hc. }
  assert (∃ r, r ∈ view_rows rule1_examples.two_valid_two_blank ∧
               grp r = rule1_examples.group_key ∧ _valid r = true ∧
               v_zip_c r = Str "_12345") as H3.
  { exists (rule1_examples.row_of 1 (Str "_12345")). split; [by left|]. by split_and!. }
  assert (∀ r, r ∈ view_rows rule1_examples.two_valid_two_blank →
               grp r = rule1_examples.group_key → _valid r = true →
               v_zip_c r = Str "_12345") as H4.
  { intros r Hr _ Hv. cbn [view_rows rule1_examples.two_valid_two_blank] in Hr.
    repeat (apply elem_of_cons in Hr as [->|Hr]; [try done|]).
    by apply elem_of_nil in Hr. }
  split; [exact H1|]. split; [reflexivity|]. split; [exact H3|]. split; [exact H4|].
  destruct (C9_blank_rows_get_the_unique_valid_zip rule1_examples.two_valid_two_blank
              rule1_examples.group_key (Str "_12345") H1 eq_refl H3 H4) as (Hrun & _).
  rewrite Hrun. reflexivity.
Defined.

(** C9 as stated fails.  In the group with the ZIP cells "_12345",
    "_12345 " and "" one distinct valid ZIP occurs, whether a cell counts
    as valid as it stands or after stripping, and one row is blank; the
    two stored cells differ by a space, the group has no canonical ZIP
    and the rule proposes nothing. *)
Lemma C9_counterexample :
  let rows := view_rows rule1_examples.stored_with_space in
  (∀ r, r ∈ rows → grp r = rule1_examples.group_key) ∧
  unique (filter (λ s, ZIP_RE s = true) (map (λ r, fillna_empty (v_zip_c r)) rows))
    = ["_12345"] ∧
  unique (map z (filter (λ r, _valid r = true) rows)) = ["_12345"] ∧
  filter (λ r, _blank r = true) rows = [rule1_examples.row_of 3 (Str "")] ∧
  propose_fill_missing_zips_keep rule1_examples.stored_with_space = Ok [].
Proof.
  cbv zeta. split_and!; try (vm_compute; reflexivity).
  intros r Hr. cbn [view_rows rule1_examples.stored_with_space] in Hr.
  repeat (apply elem_of_cons in Hr as [->|Hr]; [reflexivity|]).
  by apply elem_of_nil in Hr.
Qed.

End rule1.

(** ** Disjoint sets: paths, [_find], [union], [clusters] *)

Section uf_paths.
Import helpers uf_spec.
Implicit Types (p : list nat) (i j k r : nat).

Lemma path_to_det p k k' i r r' :
  path_to p k i r → path_to p k' i r' → k = k' ∧ r = r'.
Proof.
  intros H. revert k' r'. induction H as [r Hr|i j r k Hi Hne H IH]; intros k' r' H'.
  - inversion H' as [? Hr'|? j' ? ? Hi' Hne' H'']; subst; [done|]. congruence.
  - inversion H' as [? Hr'|? j' ? k'' Hi' Hne' H'']; subst; [congruence|].
    assert (j' = j) as -> by congruence.
    destruct (IH _ _ H'') as [-> ->]. done.
Qed.

Lemma path_to_is_root p k i r : path_to p k i r → p !! r = Some r.
Proof. induction 1; done. Qed.

Lemma path_to_lt p k i r : path_to p k i r → i < length p ∧ r < length p.
Proof.
  induction 1 as [r Hr|i j r k Hi Hne H [_ IH]].
  - apply lookup_lt_Some in Hr. done.
  - split; [by eapply lookup_lt_Some|done].
Qed.

(** The slots on a path are distinct, hence a path is shorter than the
    array. *)
Lemma path_to_nodes p k i r :
  path_to p k i r →
  ∃ l : list nat, length l = S k ∧ NoDup l ∧
    ∀ x, x ∈ l → x < length p ∧ ∃ kx, kx ≤ k ∧ path_to p kx x r.
Proof.
  induction 1 as [r Hr|i j r k Hi Hne H (l & Hlen & Hnd & Hl)].
  - exists [r]. split; [done|]. split; [apply NoDup_singleton|].
    intros x ->%list_elem_of_singleton. split; [by eapply lookup_lt_Some|].
    exists 0. split; [done|]. by constructor.
  - exists (i :: l). split; [cbn; lia|]. split.
    + apply NoDup_cons. split; [|done]. intros Hin.
      destruct (Hl i Hin) as (_ & ki & Hki & Hpi).
      destruct (path_to_det _ _ _ _ _ _ Hpi (path_step _ _ _ _ _ Hi Hne H)). lia.
    + intros x [->|Hx]%elem_of_cons.
      * split; [by eapply lookup_lt_Some|]. exists (S k). split; [done|].
        by econstructor.
      * destruct (Hl x Hx) as (? & kx & ? & ?). split; [done|]. exists kx.
        split; [lia|done].
Qed.

Lemma path_to_bound p k i r : path_to p k i r → k < length p.
Proof.
  intros (l & Hlen & Hnd & Hl)%path_to_nodes.
  assert (length l ≤ length (seq 0 (length p))) as Hle.
  { apply submseteq_length, NoDup_submseteq; [done|].
    intros x Hx. apply elem_of_seq. destruct (Hl x Hx). lia. }
  rewrite length_seq in Hle. lia.
Qed.

Lemma same_set_refl p i : forest p → i < length p → same_set p i i.
Proof. intros Hf Hi. destruct (Hf i Hi) as (k & r & H). by exists k, k, r. Qed.

Lemma same_set_sym p i j : same_set p i j → same_set p j i.
Proof. intros (ki & kj & r & ? & ?). by exists kj, ki, r. Qed.

Lemma same_set_trans p i j l : same_set p i j → same_set p j l → same_set p i l.
Proof.
  intros (ki & kj & r & Hi & Hj) (kj' & kl & r' & Hj' & Hl).
  destruct (path_to_det _ _ _ _ _ _ Hj Hj') as [-> ->]. by exists ki, kl, r'.
Qed.

Lemma same_set_lt p i j : same_set p i j → i < length p ∧ j < length p.
Proof.
  intros (ki & kj & r & Hi & Hj).
  apply path_to_lt in Hi as [? _]. apply path_to_lt in Hj as [? _]. done.
Qed.

Lemma roots_kept_refl p : roots_kept p p.
Proof. split; [done|]. intros x k r H. by exists k. Qed.

Lemma roots_kept_trans p1 p2 p3 : roots_kept p1 p2 → roots_kept p2 p3 → roots_kept p1 p3.
Proof.
  intros [L1 H1] [L2 H2]. split; [congruence|].
  intros x k r H. destruct (H1 _ _ _ H) as [k' H']. by apply H2 in H'.
Qed.

Lemma roots_kept_forest p p' : forest p → roots_kept p p' → forest p'.
Proof.
  intros Hf [Hlen Hk] i Hi. rewrite Hlen in Hi.
  destruct (Hf i Hi) as (k & r & H). destruct (Hk _ _ _ H) as [k' H'].
  by exists k', r.
Qed.

Lemma roots_kept_back p p' x k r :
  forest p → roots_kept p p' → path_to p' k x r → ∃ k', path_to p k' x r.
Proof.
  intros Hf [Hlen Hk] H'.
  destruct (Hf x) as (k0 & r0 & H0).
  { rewrite <- Hlen. by apply path_to_lt in H' as [? _]. }
  destruct (Hk _ _ _ H0) as [k1 H1].
  destruct (path_to_det _ _ _ _ _ _ H' H1) as [_ ->]. by exists k0.
Qed.

Lemma roots_kept_same_set p p' i j :
  forest p → roots_kept p p' → same_set p' i j ↔ same_set p i j.
Proof.
  intros Hf Hk. split.
  - intros (ki & kj & r & Hi & Hj).
    destruct (roots_kept_back _ _ _ _ _ Hf Hk Hi) as [ki' Hi'].
    destruct (roots_kept_back _ _ _ _ _ Hf Hk Hj) as [kj' Hj'].
    by exists ki', kj', r.
  - intros (ki & kj & r & Hi & Hj). destruct Hk as [_ Hk].
    destruct (Hk _ _ _ Hi) as [ki' Hi']. destruct (Hk _ _ _ Hj) as [kj' Hj'].
    by exists ki', kj', r.
Qed.

(** Pointing a slot straight at its root keeps every root. *)
Lemma repoint_to_root p ki i r :
  path_to p ki i r → i ≠ r → roots_kept p (<[i := r]> p).
Proof.
  intros Hi Hne. split; [apply length_insert|].
  assert (p !! r = Some r) as Hr by by eapply path_to_is_root.
  assert (i < length p) as Hlt by by apply path_to_lt in Hi as [? _].
  intros x k rx H. induction H as [rx Hrx|x y rx k Hx Hxy H [k' IH]].
  - exists 0. constructor. rewrite list_lookup_insert_ne; [done|].
    intros ->. destruct (path_to_det _ _ _ _ _ _ Hi (path_root _ _ Hrx)). done.
  - destruct (decide (x = i)) as [->|Hxi].
    + destruct (path_to_det _ _ _ _ _ _ Hi (path_step _ _ _ _ _ Hx Hxy H)) as [_ <-].
      exists 1. econstructor; [by apply list_lookup_insert_eq|done|].
      constructor. by rewrite list_lookup_insert_ne.
    + exists (S k'). econstructor; [|done|done]. by rewrite list_lookup_insert_ne.
Qed.

(** [_find] returns the root and keeps every root. *)
Lemma _find_rec_spec p k i r fuel :
  path_to p k i r → k < fuel →
  ∃ p', _find_rec fuel p i = Some (p', r) ∧ roots_kept p p'.
Proof.
  intros H. revert fuel. induction H as [r Hr|i j r k Hi Hne H IH]; intros fuel Hfuel.
  - destruct fuel as [|fuel]; [lia|]. cbn [_find_rec]. rewrite Hr, decide_True by done.
    exists p. split; [done|apply roots_kept_refl].
  - destruct fuel as [|fuel]; [lia|]. cbn [_find_rec]. rewrite Hi, decide_False by done.
    destruct (IH fuel) as (p1 & -> & Hk1); [lia|].
    eexists. split; [done|]. eapply roots_kept_trans; [exact Hk1|].
    destruct Hk1 as [_ Hk1].
    destruct (Hk1 _ _ _ (path_step _ _ _ _ _ Hi Hne H)) as [k1 Hi1].
    eapply repoint_to_root; [exact Hi1|].
    intros ->. apply path_to_is_root in H. congruence.
Qed.

Lemma _find_spec uf i k r :
  path_to (par uf) k i r →
  ∃ p', _find uf i = Some ({| idx := idx uf; par := p'; rank := rank uf |}, r) ∧
        roots_kept (par uf) p'.
Proof.
  intros H. unfold _find.
  destruct (_find_rec_spec _ _ _ _ (length (par uf)) H) as (p' & -> & Hk).
  { by eapply path_to_bound. }
  by exists p'.
Qed.

(** Hanging a root under another root moves its whole set there. *)
Lemma link_roots p ra rb :
  p !! ra = Some ra → p !! rb = Some rb → ra ≠ rb →
  length (<[ra := rb]> p) = length p ∧
  ∀ x k r, path_to p k x r →
    ∃ k', path_to (<[ra := rb]> p) k' x (if decide (r = ra) then rb else r).
Proof.
  intros Ha Hb Hne. split; [apply length_insert|].
  intros x k r H. induction H as [r Hr|x y r k Hx Hxy H [k' IH]].
  - case_decide as Hra.
    + subst r. exists 1. econstructor.
      * apply list_lookup_insert_eq. by eapply lookup_lt_Some.
      * done.
      * constructor. by rewrite list_lookup_insert_ne.
    + exists 0. constructor. by rewrite list_lookup_insert_ne.
  - exists (S k'). econstructor; [|done|exact IH].
    rewrite list_lookup_insert_ne; [done|]. intros ->. congruence.
Qed.

End uf_paths.

Section uf_union.
Import helpers uf_spec.
Implicit Types (p : list nat) (i j k r : nat).

Lemma forest_link p ra rb :
  forest p → p !! ra = Some ra → p !! rb = Some rb → ra ≠ rb →
  forest (<[ra := rb]> p).
Proof.
  intros Hf Ha Hb Hne i Hi. rewrite length_insert in Hi.
  destruct (Hf i Hi) as (k & r & H).
  destruct (link_roots p ra rb Ha Hb Hne) as [_ Hl].
  destruct (Hl _ _ _ H) as [k' H']. by eexists _, _.
Qed.

(** After the link the sets of [a] and [b] are one set and the other sets
    are as before. *)
Lemma link_same_set p ka kb a b ra rb :
  forest p → path_to p ka a ra → path_to p kb b rb → ra ≠ rb →
  ∀ x y, same_set (<[ra := rb]> p) x y ↔
         same_set p x y ∨ (same_set p x a ∧ same_set p y b) ∨
         (same_set p x b ∧ same_set p y a).
Proof.
  intros Hf Ha Hb Hne x y.
  pose proof (path_to_is_root _ _ _ _ Ha) as Hra.
  pose proof (path_to_is_root _ _ _ _ Hb) as Hrb.
  destruct (link_roots p ra rb Hra Hrb Hne) as [Hlen Hl].
  split.
  - intros (kx & ky & r & Hx & Hy).
    destruct (Hf x) as (kx0 & rx & Hx0).
    { rewrite <- Hlen. by apply path_to_lt in Hx as [? _]. }
    destruct (Hf y) as (ky0 & ry & Hy0).
    { rewrite <- Hlen. by apply path_to_lt in Hy as [? _]. }
    destruct (Hl _ _ _ Hx0) as [kx1 Hx1]. destruct (Hl _ _ _ Hy0) as [ky1 Hy1].
    destruct (path_to_det _ _ _ _ _ _ Hx Hx1) as [_ Hrx].
    destruct (path_to_det _ _ _ _ _ _ Hy Hy1) as [_ Hry].
    destruct (decide (rx = ra)) as [->|Hxa]; destruct (decide (ry = ra)) as [->|Hya].
    + left. by eexists _, _, _.
    + subst r. right. left. split; [by eexists _, _, _|].
      rewrite <- Hry in Hy0. by eexists _, _, _.
    + subst r. right. right. split; [|by eexists _, _, _].
      rewrite Hry in Hx0. by eexists _, _, _.
    + left. subst r. subst ry. by eexists _, _, _.
  - intros [(kx & ky & r & Hx & Hy)|[[Hxa Hyb]|[Hxb Hya]]].
    + destruct (Hl _ _ _ Hx) as [kx1 Hx1]. destruct (Hl _ _ _ Hy) as [ky1 Hy1].
      by eexists _, _, _.
    + destruct Hxa as (kx & ka' & r & Hx & Ha').
      destruct (path_to_det _ _ _ _ _ _ Ha Ha') as [_ <-].
      destruct Hyb as (ky & kb' & r' & Hy & Hb').
      destruct (path_to_det _ _ _ _ _ _ Hb Hb') as [_ <-].
      destruct (Hl _ _ _ Hx) as [kx1 Hx1]. destruct (Hl _ _ _ Hy) as [ky1 Hy1].
      rewrite decide_True in Hx1 by done. rewrite decide_False in Hy1 by done.
      by eexists _, _, _.
    + destruct Hxb as (kx & kb' & r & Hx & Hb').
      destruct (path_to_det _ _ _ _ _ _ Hb Hb') as [_ <-].
      destruct Hya as (ky & ka' & r' & Hy & Ha').
      destruct (path_to_det _ _ _ _ _ _ Ha Ha') as [_ <-].
      destruct (Hl _ _ _ Hx) as [kx1 Hx1]. destruct (Hl _ _ _ Hy) as [ky1 Hy1].
      rewrite decide_False in Hx1 by done. rewrite decide_True in Hy1 by done.
      by eexists _, _, _.
Qed.

Lemma enumerate_dict_NoDup (elems : list string) :
  NoDup elems → enumerate_dict elems = zip elems (seq 0 (length elems)).
Proof.
  unfold enumerate_dict. induction elems as [|e elems IH] using rev_ind; [done|].
  intros [Hnd [Hdisj _]]%NoDup_app.
  rewrite length_app. cbn [length]. rewrite seq_app. cbn [seq].
  rewrite !zip_with_app by by rewrite length_seq.
  rewrite fold_left_app. cbn [zip_with fold_left fst snd]. rewrite IH by done.
  rewrite Nat.add_0_l. apply dict_set_fresh.
  rewrite keys_zip by by rewrite length_seq.
  intros Hin. eapply Hdisj; [done|]. by left.
Qed.

Lemma idx_lookup (elems : list string) e i :
  NoDup elems →
  elems !! i = Some e → dict_get (zip elems (seq 0 (length elems))) e = Some i.
Proof.
  intros Hnd Hi. eapply dict_get_zip; [done|by rewrite length_seq|done|].
  apply lookup_seq_lt. by eapply lookup_lt_Some.
Qed.

(** [union] never fails on two elements of the structure; it merges their
    two sets and leaves the others as they are. *)
Lemma union_spec elems uf a b ia ib :
  NoDup elems → uf_wf elems uf →
  elems !! ia = Some a → elems !! ib = Some b →
  ∃ uf', union uf a b = Some uf' ∧ uf_wf elems uf' ∧
    ∀ x y, same_set (par uf') x y ↔
           same_set (par uf) x y ∨
           (same_set (par uf) x ia ∧ same_set (par uf) y ib) ∨
           (same_set (par uf) x ib ∧ same_set (par uf) y ia).
Proof.
  intros Hnd (Hidx & Hlp & Hlr & Hf) Ha Hb.
  assert (ia < length (par uf)) as Hia by (rewrite Hlp; by eapply lookup_lt_Some).
  assert (ib < length (par uf)) as Hib by (rewrite Hlp; by eapply lookup_lt_Some).
  assert (dict_get (idx uf) a = Some ia) as Hga by (rewrite Hidx; by apply idx_lookup).
  assert (dict_get (idx uf) b = Some ib) as Hgb by (rewrite Hidx; by apply idx_lookup).
  unfold union. rewrite Hga. cbn [mbind option_bind].
  destruct (Hf ia Hia) as (ka & ra & Hpa).
  destruct (_find_spec uf ia ka ra Hpa) as (p1 & -> & Hk1).
  cbn [mbind option_bind idx].
  rewrite Hgb. cbn [mbind option_bind].
  pose proof (roots_kept_forest _ _ Hf Hk1) as Hf1.
  destruct (Hf1 ib) as (kb & rb & Hpb); [destruct Hk1 as [-> _]; done|].
  destruct (_find_spec {| idx := idx uf; par := p1; rank := rank uf |} ib kb rb Hpb)
    as (p2 & -> & Hk2). cbn [mbind option_bind idx par rank] in *.
  pose proof (roots_kept_forest _ _ Hf1 Hk2) as Hf2.
  pose proof (roots_kept_trans _ _ _ Hk1 Hk2) as Hk12.
  assert (length p2 = length elems) as Hlp2 by (destruct Hk12 as [-> _]; done).
  (* the roots of the two elements in the last array *)
  destruct Hk12 as [_ Hk12']. destruct (Hk12' _ _ _ Hpa) as [ka2 Hpa2].
  destruct Hk2 as [Hl2 Hk2']. destruct (Hk2' _ _ _ Hpb) as [kb2 Hpb2].
  pose proof (roots_kept_trans _ _ _ Hk1 (conj Hl2 Hk2')) as Hk12.
  assert (∀ x y, same_set p2 x y ↔ same_set (par uf) x y) as Hsame
    by (intros; by apply roots_kept_same_set).
  destruct (decide (ra = rb)) as [Heq|Hne].
  - eexists. split; [done|]. split; [done|]. cbn [par].
    intros x y. rewrite Hsame. split; [by left|].
    intros [H|[[Hx Hy]|[Hx Hy]]]; [done| |].
    + subst rb. apply Hsame in Hx, Hy. apply Hsame.
      eapply same_set_trans; [exact Hx|]. eapply same_set_trans; [|by apply same_set_sym].
      by eexists _, _, _.
    + subst rb. apply Hsame in Hx, Hy. apply Hsame.
      eapply same_set_trans; [exact Hx|]. eapply same_set_trans; [|by apply same_set_sym].
      by eexists _, _, _.
  - assert (ra < length (rank uf) ∧ rb < length (rank uf)) as [Hra Hrb].
    { rewrite Hlr, <- Hlp2. apply path_to_lt in Hpa2 as [_ ?].
      apply path_to_lt in Hpb2 as [_ ?]. done. }
    destruct (lookup_lt_is_Some_2 _ _ Hra) as [ka' ->].
    destruct (lookup_lt_is_Some_2 _ _ Hrb) as [kb' ->]. cbn [mbind option_bind].
    pose proof (path_to_is_root _ _ _ _ Hpa2) as Hroot_a.
    pose proof (path_to_is_root _ _ _ _ Hpb2) as Hroot_b.
    assert (∀ x y, same_set (<[ra := rb]> p2) x y ↔
              same_set (par uf) x y ∨
              (same_set (par uf) x ia ∧ same_set (par uf) y ib) ∨
              (same_set (par uf) x ib ∧ same_set (par uf) y ia)) as Hab.
    { intros x y. rewrite (link_same_set p2 ka2 kb2 ia ib ra rb) by done.
      by rewrite !Hsame. }
    assert (∀ x y, same_set (<[rb := ra]> p2) x y ↔
              same_set (par uf) x y ∨
              (same_set (par uf) x ia ∧ same_set (par uf) y ib) ∨
              (same_set (par uf) x ib ∧ same_set (par uf) y ia)) as Hba.
    { intros x y. rewrite (link_same_set p2 kb2 ka2 ib ia rb ra) by done.
      rewrite !Hsame. tauto. }
    destruct (ka' <? kb'); [|destruct (kb' <? ka')].
    + eexists. split; [done|]. split; [|exact Hab].
      split_and!; cbn [idx par rank]; [done|by rewrite length_insert|done|].
      by apply forest_link.
    + eexists. split; [done|]. split; [|exact Hba].
      split_and!; cbn [idx par rank]; [done|by rewrite length_insert|done|].
      by apply forest_link.
    + eexists. split; [done|]. split; [|exact Hba].
      split_and!; cbn [idx par rank];
        [done|by rewrite length_insert|by rewrite length_insert|].
      by apply forest_link.
Qed.

Lemma UnionFind_init_wf elems : NoDup elems → uf_wf elems (UnionFind_init elems).
Proof.
  intros Hnd. unfold UnionFind_init. split_and!; cbn [idx par rank].
  - by apply enumerate_dict_NoDup.
  - by rewrite length_seq.
  - by rewrite length_replicate.
  - intros i Hi. rewrite length_seq in Hi. exists 0, i. constructor.
    by apply lookup_seq_lt.
Qed.

Lemma UnionFind_init_same_set elems x y :
  same_set (par (UnionFind_init elems)) x y ↔ x = y ∧ x < length elems.
Proof.
  cbn [UnionFind_init par].
  assert (∀ k i r, path_to (seq 0 (length elems)) k i r → i = r ∧ i < length elems) as H.
  { intros k i r Hp. destruct Hp as [r Hr|i j r k Hi Hne _].
    - apply lookup_seq in Hr as [_ ?]. done.
    - apply lookup_seq in Hi as [? _]. lia. }
  split.
  - intros (kx & ky & r & Hx & Hy). destruct (H _ _ _ Hx) as [-> ?].
    destruct (H _ _ _ Hy) as [-> ?]. done.
  - intros [-> Hlt]. exists 0, 0, y. split; constructor; by apply lookup_seq_lt.
Qed.

End uf_union.

Section closure_facts.
Context {A : Type}.

Lemma rtsc_mono (R R' : relation A) x y :
  (∀ x y, R x y → R' x y) → rtsc R x y → rtsc R' x y.
Proof. intros H. by apply (rtsc_congruence id R'). Qed.

Lemma rtsc_iff (R R' : relation A) x y :
  (∀ x y, R x y ↔ R' x y) → rtsc R x y ↔ rtsc R' x y.
Proof. intros H. split; apply rtsc_mono; intros ??; by apply H. Qed.

(** One more edge [(u, v)] joins the classes of [u] and [v]. *)
Lemma rtsc_extend (R : relation A) u v a b :
  rtsc (λ x y, R x y ∨ (x = u ∧ y = v)) a b ↔
  rtsc R a b ∨ (rtsc R a u ∧ rtsc R v b) ∨ (rtsc R a v ∧ rtsc R u b).
Proof.
  split.
  - intros H. unfold rtsc at 1 in H.
    induction H as [a|a c b Hac Hcb IH]; [by left|].
    assert (rtsc R a c ∨ (a = u ∧ c = v) ∨ (a = v ∧ c = u)) as Hstep.
    { destruct Hac as [[?|[-> ->]]|[?|[-> ->]]].
      - left. by apply rtsc_lr.
      - right. by left.
      - left. by apply rtsc_rl.
      - right. by right. }
    destruct Hstep as [Hs|[[-> ->]|[-> ->]]].
    + destruct IH as [?|[[? ?]|[? ?]]].
      * left. by etrans.
      * right. left. split; [by etrans|done].
      * right. right. split; [by etrans|done].
    + destruct IH as [?|[[? ?]|[? ?]]].
      * right. left. done.
      * left. etrans; [|done]. by symmetry.
      * left. done.
    + destruct IH as [?|[[? ?]|[? ?]]].
      * right. right. done.
      * left. done.
      * left. etrans; [|done]. by symmetry.
  - assert (∀ x y, rtsc R x y → rtsc (λ x y, R x y ∨ (x = u ∧ y = v)) x y) as Hsub.
    { intros x y. apply rtsc_mono. by left. }
    assert (rtsc (λ x y, R x y ∨ (x = u ∧ y = v)) u v) as Huv.
    { apply rtsc_lr. by right. }
    intros [?|[[? ?]|[? ?]]].
    + by apply Hsub.
    + etrans; [by apply Hsub|]. etrans; [exact Huv|by apply Hsub].
    + etrans; [by apply Hsub|]. etrans; [symmetry; exact Huv|by apply Hsub].
Qed.

End closure_facts.

Section dict_more.
Context {K V : Type} `{EqDecision K}.

Lemma dict_set_split (d : list (K * V)) k old new :
  dict_get d k = Some old →
  ∃ l1 l2, d = l1 ++ (k, old) :: l2 ∧ dict_set d k new = l1 ++ (k, new) :: l2.
Proof.
  induction d as [|[k0 v0] d IH]; cbn [dict_get dict_set]; [done|].
  destruct (decide (k = k0)) as [->|Hne].
  - intros [= ->]. by exists [], d.
  - intros Hget. destruct (IH Hget) as (l1 & l2 & -> & ->).
    by exists ((k0, v0) :: l1), l2.
Qed.

End dict_more.

Lemma concat_dict_append {K A : Type} `{EqDecision K} (d : list (K * list A)) k x :
  concat (map snd (dict_append d k x)) ≡ₚ x :: concat (map snd d).
Proof.
  unfold dict_append. destruct (dict_get d k) as [old|] eqn:Hget;
    cbn [default from_option id].
  - destruct (dict_set_split d k old (old ++ [x]) Hget) as (l1 & l2 & Hd & Hset).
    rewrite Hset, Hd. clear Hd Hset Hget.
    rewrite !map_app. cbn [map snd]. rewrite !concat_app. cbn [concat].
    rewrite <- (app_assoc old [x]). cbn [app].
    rewrite (Permutation_middle (concat (map snd l1)) _ x).
    apply Permutation_app_head. symmetry. apply Permutation_middle.
  - rewrite dict_set_fresh by by apply dict_get_None.
    rewrite map_app, concat_app. cbn [map snd concat app].
    rewrite ?app_nil_r. symmetry. apply Permutation_cons_append.
Qed.

Section uf_clusters.
Import helpers uf_spec.

Lemma clusters_loop_spec p0 items done uf out :
  forest p0 → roots_kept p0 (par uf) →
  (∀ e i, (e, i) ∈ items → i < length p0) →
  clusters_inv p0 done out →
  ∃ uf' out', clusters_loop items uf out = Some (uf', out') ∧
              clusters_inv p0 (done ++ items) out'.
Proof.
  intros Hf0. revert done uf out.
  induction items as [|[e i] items IH]; intros done uf out Hk Hlt Hinv.
  - exists uf, out. by rewrite app_nil_r.
  - cbn [clusters_loop].
    destruct (Hf0 i) as (k0 & r & Hp0); [apply (Hlt e); by left|].
    pose proof Hk as [_ Hk']. destruct (Hk' _ _ _ Hp0) as [k1 Hp1].
    destruct (_find_spec uf i k1 r Hp1) as (p' & -> & Hk1).
    cbn [mbind option_bind].
    replace (done ++ (e, i) :: items) with ((done ++ [(e, i)]) ++ items)
      by by rewrite <- app_assoc.
    apply IH.
    + cbn [par]. by eapply roots_kept_trans.
    + intros e' i' Hin. apply (Hlt e'). by right.
    + destruct Hinv as (Hnd & Hmem & Hcov & Hperm). split_and!.
      * by apply NoDup_keys_dict_set.
      * intros r' members'. unfold dict_append.
        destruct (decide (r = r')) as [<-|Hne].
        -- rewrite dict_get_set_eq. intros [= <-]. split; [by destruct (default _ _)|].
           intros e'. rewrite elem_of_app, list_elem_of_singleton.
           setoid_rewrite elem_of_app. setoid_rewrite list_elem_of_singleton.
           destruct (dict_get out r) as [old|] eqn:Hget; cbn [default from_option id].
           ++ destruct (Hmem _ _ Hget) as [_ Hold]. rewrite Hold. split.
              ** intros [(i' & k' & ? & ?)| ->]; [by eexists _, _; eauto|].
                 exists i, k0. eauto.
              ** intros (i' & k' & [?|[= -> ->]] & ?); [left; by eexists _, _|by right].
           ++ split.
              ** intros [?%elem_of_nil| ->]; [done|]. exists i, k0. eauto.
              ** intros (i' & k' & [Hd|[= -> ->]] & Hp); [|by right].
                 exfalso. apply dict_get_None in Hget. apply Hget. by eapply Hcov.
        -- rewrite dict_get_set_ne by done. intros Hget.
           destruct (Hmem _ _ Hget) as [Hne' Hold]. split; [done|].
           intros e'. rewrite Hold.
           setoid_rewrite elem_of_app. setoid_rewrite list_elem_of_singleton.
           split; [naive_solver|].
           intros (i' & k' & [?|[= -> ->]] & Hp); [by eexists _, _|].
           destruct (path_to_det _ _ _ _ _ _ Hp Hp0) as [_ ?]. congruence.
      * intros e' i' k' r' Hd Hp. unfold dict_append. rewrite keys_dict_set.
        assert (r' ∈ keys out ∨ r' = r) as Hr'.
        { apply elem_of_app in Hd as [Hd|Hd%list_elem_of_singleton].
          - left. by eapply Hcov.
          - right. injection Hd as -> ->.
            by destruct (path_to_det _ _ _ _ _ _ Hp Hp0) as [_ ->]. }
        case_decide; destruct Hr' as [?| ->]; try done.
        -- apply elem_of_app. by left.
        -- apply elem_of_app. right. by apply list_elem_of_singleton.
      * rewrite concat_dict_append, map_app, Hperm. cbn [map fst].
        apply Permutation_cons_append.
Qed.

Lemma elem_of_zip_seq (elems : list string) e i :
  (e, i) ∈ zip elems (seq 0 (length elems)) ↔ elems !! i = Some e.
Proof.
  rewrite (elem_of_lookup_zip_with pair). split.
  - intros (j & x & y & [= -> ->] & Hx & Hy). apply lookup_seq in Hy as [-> _]. done.
  - intros Hi. exists i, e, i. split_and!; [done..|].
    apply lookup_seq_lt. by eapply lookup_lt_Some.
Qed.

(** [clusters] never fails on a well-formed structure.  Its result is a
    partition of the elements, and two elements share a list exactly
    when their slots are in the same set. *)
Lemma clusters_spec elems uf :
  NoDup elems → uf_wf elems uf →
  ∃ uf' out, clusters uf = Some (uf', out) ∧
    partition_of elems out ∧
    ∀ a b, same_cluster out a b ↔
           ∃ ia ib, elems !! ia = Some a ∧ elems !! ib = Some b ∧
                    same_set (par uf) ia ib.
Proof.
  intros Hnd (Hidx & Hlp & Hlr & Hf). unfold clusters.
  destruct (clusters_loop_spec (par uf) (idx uf) [] uf []) as (uf' & out & -> & Hinv).
  - done.
  - apply roots_kept_refl.
  - intros e i. rewrite Hidx, elem_of_zip_seq. intros Hi%lookup_lt_Some. lia.
  - split_and!; [constructor|done| |done].
    intros ???? ?%elem_of_nil. done.
  - exists uf', out. split; [done|]. cbn [app] in Hinv.
    destruct Hinv as (Hndk & Hmem & Hcov & Hperm). split.
    + split_and!; [done| |].
      * intros r members Hin. by apply (Hmem r), dict_get_elem_NoDup.
      * rewrite Hperm, Hidx. change (map fst ?l) with (fst <$> l).
        by rewrite fst_zip by (rewrite length_seq; lia).
    + intros a b. split.
      * intros (r & members & Hin & Ha & Hb).
        apply dict_get_elem_NoDup in Hin; [|done].
        destruct (Hmem _ _ Hin) as [_ Hm].
        apply Hm in Ha as (ia & ka & Hia & Hpa). apply Hm in Hb as (ib & kb & Hib & Hpb).
        rewrite Hidx, elem_of_zip_seq in Hia, Hib.
        exists ia, ib. split_and!; [done..|]. by exists ka, kb, r.
      * intros (ia & ib & Hia & Hib & ka & kb & r & Hpa & Hpb).
        assert ((a, ia) ∈ idx uf) as Ha by (rewrite Hidx; by apply elem_of_zip_seq).
        assert ((b, ib) ∈ idx uf) as Hb by (rewrite Hidx; by apply elem_of_zip_seq).
        pose proof (Hcov _ _ _ _ Ha Hpa) as Hr.
        destruct (dict_get out r) as [members|] eqn:Hget.
        2:{ by apply dict_get_None in Hget. }
        exists r, members. split; [by apply dict_get_Some_elem|].
        destruct (Hmem _ _ Hget) as [_ Hm]. split; apply Hm; by eexists _, _.
Qed.

End uf_clusters.

Section uf_visit.
Import helpers uf_spec.
Variable link : string → string → option bool.

Lemma rtsc_closed {A : Type} (R R' : relation A) x y :
  (∀ x y, R x y → rtsc R' x y) → rtsc R x y → rtsc R' x y.
Proof.
  intros H Hxy. unfold rtsc at 1 in Hxy.
  induction Hxy as [x|x z y [Hxz|Hzx] _ IH]; [done| |].
  - etrans; [by apply H|done].
  - etrans; [symmetry; by apply H|done].
Qed.

Lemma visit_pairs_spec vs pairs uf R :
  NoDup vs →
  (∀ a b, (a, b) ∈ pairs → a ∈ vs ∧ b ∈ vs ∧ is_Some (link a b)) →
  uf_wf vs uf → sets_are vs uf R →
  ∃ uf', visit_pairs link pairs uf = Some uf' ∧ uf_wf vs uf' ∧
         sets_are vs uf' (λ x y, R x y ∨ ((x, y) ∈ pairs ∧ link x y = Some true)).
Proof.
  intros Hnd. revert uf R.
  induction pairs as [|[s1 s2] pairs IH]; intros uf R Hpairs Hwf Hsets.
  - exists uf. split; [done|]. split; [done|].
    intros ia ib a b Ha Hb. rewrite (Hsets _ _ _ _ Ha Hb). apply rtsc_iff.
    intros x y. split; [by left|]. intros [?|[?%elem_of_nil _]]; done.
  - destruct (Hpairs s1 s2) as (H1 & H2 & [t Ht]); [by left|].
    cbn [visit_pairs]. unfold compare_with. rewrite Ht. cbn [mbind option_bind].
    assert (∀ a b, (a, b) ∈ pairs → a ∈ vs ∧ b ∈ vs ∧ is_Some (link a b)) as Hpairs'.
    { intros a b Hin. apply Hpairs. by right. }
    destruct t.
    + apply list_elem_of_lookup_1 in H1 as [i1 Hi1].
      apply list_elem_of_lookup_1 in H2 as [i2 Hi2].
      cbv iota.
      destruct (union_spec vs uf s1 s2 i1 i2 Hnd Hwf Hi1 Hi2) as (uf1 & -> & Hwf1 & Hu).
      cbn [mbind option_bind].
      destruct (IH uf1 (λ x y, R x y ∨ (x = s1 ∧ y = s2)) Hpairs' Hwf1)
        as (uf' & -> & Hwf' & Hsets').
      { intros ia ib a b Ha Hb. rewrite Hu, rtsc_extend.
        rewrite (Hsets _ _ _ _ Ha Hb), (Hsets _ _ _ _ Ha Hi1), (Hsets _ _ _ _ Hb Hi2),
          (Hsets _ _ _ _ Ha Hi2), (Hsets _ _ _ _ Hb Hi1).
        split; (intros [?|[[? ?]|[? ?]]]; [by left|right; left|right; right]);
          (split; [done|by symmetry]). }
      exists uf'. split; [done|]. split; [done|].
      intros ia ib a b Ha Hb. rewrite (Hsets' _ _ _ _ Ha Hb). apply rtsc_iff.
      intros x y. rewrite elem_of_cons. split.
      * intros [[?|[-> ->]]|[? ?]]; [by left|right|right]; (split; [|done]);
          [by left|by right].
      * intros [?|[[[= -> ->]|?] ?]]; [left; by left|left; by right|by right].
    + cbv iota. cbn [mbind option_bind].
      destruct (IH uf R Hpairs' Hwf Hsets) as (uf' & -> & Hwf' & Hsets').
      exists uf'. split; [done|]. split; [done|].
      intros ia ib a b Ha Hb. rewrite (Hsets' _ _ _ _ Ha Hb). apply rtsc_iff.
      intros x y. rewrite elem_of_cons. split.
      * intros [?|[? ?]]; [by left|right]. split; [by right|done].
      * intros [?|[[[= -> ->]|?] ?]]; [by left|congruence|by right].
Qed.

(** Whatever the order of the pairs, the clusters are the connected
    components of the united pairs. *)
Lemma clusters_in_order_spec vs pairs :
  NoDup vs → covers vs pairs →
  (∀ a b, a ∈ vs → b ∈ vs → a ≠ b → is_Some (link a b)) →
  (∀ a b, a ∈ vs → b ∈ vs → a ≠ b → link a b = link b a) →
  ∃ out, clusters_in_order link vs pairs = Some out ∧
    partition_of vs out ∧
    ∀ a b, same_cluster out a b ↔ a ∈ vs ∧ b ∈ vs ∧ connected link vs a b.
Proof.
  intros Hnd [Hin Hall] Hdef Hsym. unfold clusters_in_order.
  destruct (visit_pairs_spec vs pairs (UnionFind_init vs) (λ _ _, False) Hnd)
    as (uf & -> & Hwf & Hsets).
  { intros a b Hab. destruct (Hin a b Hab) as (? & ? & ?). split_and!; [done..|].
    by apply Hdef. }
  { by apply UnionFind_init_wf. }
  { intros ia ib a b Ha Hb. rewrite UnionFind_init_same_set. split.
    - intros [-> _]. assert (a = b) as -> by congruence. done.
    - intros H. assert (a = b) as ->.
      { unfold rtsc in H. induction H as [|x y z [[]|[]] _ _]; done. }
      split; [by eapply NoDup_lookup|by eapply lookup_lt_Some]. }
  cbn [mbind option_bind].
  destruct (clusters_spec vs uf Hnd Hwf) as (uf' & out & -> & Hpart & Hsame).
  exists out. split; [done|]. split; [done|].
  intros a b. rewrite Hsame. split.
  - intros (ia & ib & Ha & Hb & Hs). split; [by eapply list_elem_of_lookup_2|].
    split; [by eapply list_elem_of_lookup_2|].
    apply (Hsets _ _ _ _ Ha Hb) in Hs. eapply rtsc_mono; [|exact Hs].
    intros x y [[]|[Hxy Hl]]. destruct (Hin x y Hxy) as (? & ? & ?). done.
  - intros (Ha & Hb & Hc).
    apply list_elem_of_lookup_1 in Ha as [ia Ha].
    apply list_elem_of_lookup_1 in Hb as [ib Hb].
    exists ia, ib. split; [done|]. split; [done|].
    apply (Hsets _ _ _ _ Ha Hb). eapply rtsc_closed; [|exact Hc].
    intros x y (Hx & Hy & Hne & Hl).
    destruct (Hall x y Hx Hy Hne) as [Hp|Hp].
    + apply rtsc_lr. right. done.
    + apply rtsc_rl. right. split; [done|]. by rewrite <- Hsym.
Qed.

End uf_visit.

(** ** The two fuzzy rules *)

Section sorting_facts.

Lemma insert_by_len_perm s l : insert_by_len s l ≡ₚ s :: l.
Proof.
  induction l as [|t l IH]; cbn [insert_by_len]; [done|].
  destruct (String.length s <=? String.length t); [done|].
  rewrite IH. apply Permutation_swap.
Qed.

Lemma sort_by_len_perm l : sort_by_len l ≡ₚ l.
Proof.
  unfold sort_by_len. induction l as [|s l IH]; cbn [foldr]; [done|].
  by rewrite insert_by_len_perm, IH.
Qed.

Lemma sort_by_len_length l : length (sort_by_len l) = length l.
Proof. apply Permutation_length, sort_by_len_perm. Qed.

End sorting_facts.

Section pairs_facts.
Import helpers uf_spec.

Lemma elem_of_nested_pairs l a b :
  (a, b) ∈ nested_pairs l → a ∈ l ∧ b ∈ l.
Proof.
  induction l as [|s l IH]; cbn [nested_pairs]; [by intros ?%elem_of_nil|].
  intros [Hin|Hin]%elem_of_app.
  - apply list_elem_of_fmap in Hin as (y & [= -> ->] & Hy). split; [by left|by right].
  - destruct (IH Hin). split; by right.
Qed.

Lemma nested_pairs_covers l : NoDup l → covers l (nested_pairs l).
Proof.
  intros Hnd. split.
  - induction Hnd as [|s l Hs Hnd IH]; cbn [nested_pairs]; [by intros ?? ?%elem_of_nil|].
    intros a b [Hin|Hin]%elem_of_app.
    + apply list_elem_of_fmap in Hin as (y & [= -> ->] & Hy).
      split; [by left|]. split; [by right|]. by intros ->.
    + destruct (IH a b Hin) as (? & ? & ?). split; [by right|]. split; [by right|done].
  - induction l as [|s l IH]; [by intros ?? ?%elem_of_nil|].
    apply NoDup_cons in Hnd as [Hs Hnd]. cbn [nested_pairs].
    intros a b [->|Ha]%elem_of_cons [->|Hb]%elem_of_cons Hne; try done.
    + left. apply elem_of_app. left. apply list_elem_of_fmap. by exists b.
    + right. apply elem_of_app. left. apply list_elem_of_fmap. by exists a.
    + destruct (IH Hnd a b Ha Hb Hne); [left|right]; apply elem_of_app; by right.
Qed.

Lemma visit_pairs_app link p1 p2 uf :
  visit_pairs link (p1 ++ p2) uf
  = uf' ← visit_pairs link p1 uf; visit_pairs link p2 uf'.
Proof.
  revert uf. induction p1 as [|[s1 s2] p1 IH]; intros uf; cbn [app visit_pairs]; [done|].
  destruct (compare_with link uf s1 s2); cbn [mbind option_bind]; [apply IH|done].
Qed.

Lemma covers_perm (vs vs' : list string) pairs :
  vs ≡ₚ vs' → covers vs pairs → covers vs' pairs.
Proof.
  intros Hp [H1 H2]. split.
  - intros a b Hab. destruct (H1 a b Hab) as (? & ? & ?). by rewrite <- !Hp.
  - intros a b Ha Hb. rewrite <- Hp in Ha, Hb. by apply H2.
Qed.

Lemma connected_perm (link : string → string → option bool) vs vs' a b :
  vs ≡ₚ vs' → connected link vs a b ↔ connected link vs' a b.
Proof.
  intros Hp. apply rtsc_iff. intros x y. by rewrite !Hp.
Qed.

End pairs_facts.

Section link_facts.
Import helpers uf_spec fuzzy_spec.
Context {F : Type}.
Variable fdiv : nat → nat → F.
Variables fge flt : F → F → bool.
Variable distance : string → string → nat.
Variable threshold : F.

Local Abbreviation street := (street_link fdiv fge flt distance threshold).
Local Abbreviation city := (city_link fdiv fge flt distance threshold).

Lemma abs_diff_comm a b : abs_diff a b = abs_diff b a.
Proof. unfold abs_diff. lia. Qed.

Lemma length_zero_empty s : String.length s = 0 → s = "".
Proof. by destruct s. Qed.

Lemma longer_nonzero s1 s2 :
  s1 ≠ s2 → Nat.max (String.length s1) (String.length s2) ≠ 0.
Proof.
  intros Hne H0. apply Hne.
  rewrite (length_zero_empty s1), (length_zero_empty s2); [done|lia..].
Qed.

Lemma street_compare_pair uf s1 s2 :
  fuzzy_search.compare_pair fdiv fge flt distance threshold uf s1 s2
  = compare_with street uf s1 s2.
Proof.
  unfold fuzzy_search.compare_pair, compare_with, street_link.
  destruct (fuzzy_search.fast_reject _ _ _ _ _) as [[|]|]; cbn [mbind option_bind];
    try done.
Qed.

Lemma city_compare_pair uf s1 s2 :
  fuzzy_search_cities.compare_pair fdiv fge flt distance threshold uf s1 s2
  = compare_with city uf s1 s2.
Proof.
  unfold fuzzy_search_cities.compare_pair, compare_with, city_link.
  destruct (fuzzy_search_cities.fast_prune _ _ _ _ _) as [[|]|]; cbn [mbind option_bind];
    try done.
Qed.

Lemma street_outer_loop norms uf :
  fuzzy_search.outer_loop fdiv fge flt distance threshold norms uf
  = visit_pairs street (nested_pairs norms) uf.
Proof.
  assert (∀ s1 rest uf,
            fuzzy_search.inner_loop fdiv fge flt distance threshold s1 rest uf
            = visit_pairs street (map (pair s1) rest) uf) as Hinner.
  { intros s1 rest. induction rest as [|s2 rest IH]; intros uf'; [done|].
    cbn [fuzzy_search.inner_loop map visit_pairs]. rewrite street_compare_pair.
    destruct (compare_with _ _ _ _); cbn [mbind option_bind]; [apply IH|done]. }
  revert uf. induction norms as [|s1 rest IH]; intros uf; [done|].
  cbn [fuzzy_search.outer_loop nested_pairs]. rewrite visit_pairs_app, Hinner.
  destruct (visit_pairs _ _ _); cbn [mbind option_bind]; [apply IH|done].
Qed.

Lemma city_outer_loop variants uf :
  fuzzy_search_cities.outer_loop fdiv fge flt distance threshold variants uf
  = visit_pairs city (nested_pairs variants) uf.
Proof.
  assert (∀ s1 rest uf,
            fuzzy_search_cities.inner_loop fdiv fge flt distance threshold s1 rest uf
            = visit_pairs city (map (pair s1) rest) uf) as Hinner.
  { intros s1 rest. induction rest as [|s2 rest IH]; intros uf'; [done|].
    cbn [fuzzy_search_cities.inner_loop map visit_pairs]. rewrite city_compare_pair.
    destruct (compare_with _ _ _ _); cbn [mbind option_bind]; [apply IH|done]. }
  revert uf. induction variants as [|s1 rest IH]; intros uf; [done|].
  cbn [fuzzy_search_cities.outer_loop nested_pairs]. rewrite visit_pairs_app, Hinner.
  destruct (visit_pairs _ _ _); cbn [mbind option_bind]; [apply IH|done].
Qed.

Lemma street_clusters_as_visit norms :
  fuzzy_search.propose_street_name_corrections_clusters fdiv fge flt distance threshold
    norms
  = if length norms <? 2 then Some []
    else clusters_in_order street (sort_by_len norms) (nested_pairs (sort_by_len norms)).
Proof.
  unfold fuzzy_search.propose_street_name_corrections_clusters, clusters_in_order.
  destruct (length norms <? 2); [done|]. by rewrite street_outer_loop.
Qed.

Lemma city_clusters_as_visit variants :
  fuzzy_search_cities.propose_correct_city_names_by_zip_clusters fdiv fge flt distance
    threshold variants
  = if length variants <? 2 then Some []
    else clusters_in_order city (sort_by_len variants)
           (nested_pairs (sort_by_len variants)).
Proof.
  unfold fuzzy_search_cities.propose_correct_city_names_by_zip_clusters, clusters_in_order.
  destruct (length variants <? 2); [done|]. by rewrite city_outer_loop.
Qed.

(** No division by zero on two distinct spellings. *)
Lemma street_link_defined s1 s2 : s1 ≠ s2 → is_Some (street s1 s2).
Proof.
  intros Hne%longer_nonzero. unfold street_link, fuzzy_search.fast_reject,
    fuzzy_search.close_enough, fuzzy_search.true_div.
  apply Nat.eqb_neq in Hne. rewrite Hne.
  destruct (abs_diff _ _ =? 0); cbn [mbind option_bind]; [by eexists|].
  destruct (_ && _); by eexists.
Qed.

Section symmetric_distance.
Hypothesis distance_sym : ∀ a b, distance a b = distance b a.

Lemma street_link_sym s1 s2 : street s1 s2 = street s2 s1.
Proof.
  unfold street_link, fuzzy_search.close_enough.
  by rewrite (abs_diff_comm (String.length s1)), (Nat.max_comm (String.length s1)),
    (distance_sym s1).
Qed.

End symmetric_distance.
End link_facts.

(** *** The rationals and the unit-cost edit distance satisfy the assumptions *)

Section model_facts.
Import fuzzy_spec.

Lemma lev_nil_r a : lev a [] = length a.
Proof. by destruct a. Qed.

Lemma lev_cons x a y b :
  lev (x :: a) (y :: b)
  = Nat.min (Nat.min (S (lev a (y :: b))) (S (lev (x :: a) b)))
            (lev a b + (if decide (x = y) then 0 else 1)).
Proof. done. Qed.

Lemma lev_sym a b : lev a b = lev b a.
Proof.
  revert b. induction a as [|x a IHa]; intros b.
  - by rewrite lev_nil_r.
  - induction b as [|y b IHb]; [done|].
    rewrite !lev_cons, IHb, (IHa (y :: b)), (IHa b).
    rewrite (Nat.min_comm (S (lev (y :: b) a))).
    destruct (decide (x = y)) as [->|Hne].
    + by rewrite decide_True.
    + by rewrite decide_False by congruence.
Qed.

Lemma lev_lower_bound a b : abs_diff (length a) (length b) ≤ lev a b.
Proof.
  unfold abs_diff. revert b. induction a as [|x a IHa]; intros b.
  - cbn [lev length]. lia.
  - induction b as [|y b IHb].
    + cbn [lev length]. lia.
    + rewrite lev_cons. specialize (IHa (y :: b)) as H1. specialize (IHa b) as H2.
      cbn [length] in *. destruct (decide (x = y)); lia.
Qed.

Lemma length_list_ascii_of_string s :
  length (list_ascii_of_string s) = String.length s.
Proof. induction s as [|c s IH]; cbn; [done|by rewrite IH]. Qed.

Lemma levenshtein_sym s1 s2 : levenshtein s1 s2 = levenshtein s2 s1.
Proof. apply lev_sym. Qed.

Lemma levenshtein_lower_bound s1 s2 :
  abs_diff (String.length s1) (String.length s2) ≤ levenshtein s1 s2.
Proof. rewrite <- !length_list_ascii_of_string. apply lev_lower_bound. Qed.

Lemma qdiv_monotone (t : Q) a b n :
  a ≤ b → n ≠ 0 → qge (qdiv a n) t = true → qge (qdiv b n) t = true.
Proof.
  unfold qge, qdiv. intros Hab Hn Hge.
  apply Qle_bool_iff. apply Qle_bool_iff in Hge.
  eapply Qle_trans; [exact Hge|].
  unfold Qle. cbn [Qnum Qden]. apply Z.mul_le_mono_nonneg_r; lia.
Qed.

Lemma qge_not_qlt (t x : Q) : qge x t = true → qlt x t = false.
Proof. unfold qge, qlt. by intros ->. Qed.

End model_facts.

Section clustering_theorems.
Import helpers uf_spec fuzzy_spec.

Lemma partition_of_perm vs vs' out :
  vs ≡ₚ vs' → partition_of vs out → partition_of vs' out.
Proof. intros Hp (? & ? & Hc). split; [done|]. split; [done|]. by rewrite Hc. Qed.

Lemma street_link_skips_only_far_pairs {F : Type} (fdiv : nat → nat → F)
    (fge flt : F → F → bool) (distance : string → string → nat) (threshold : F) :
  (∀ s1 s2, abs_diff (String.length s1) (String.length s2) ≤ distance s1 s2) →
  (∀ a b n, a ≤ b → n ≠ 0 →
            fge (fdiv a n) threshold = true → flt (fdiv b n) threshold = false) →
  ∀ s1 s2, street_link fdiv fge flt distance threshold s1 s2
           = distance_link fdiv flt distance threshold s1 s2.
Proof.
  intros Hlow Hmono s1 s2.
  unfold street_link, distance_link, fuzzy_search.fast_reject, fuzzy_search.close_enough,
    fuzzy_search.true_div.
  set (len1 := String.length s1). set (len2 := String.length s2).
  destruct (abs_diff len1 len2 =? 0) eqn:Hd; [done|].
  apply Nat.eqb_neq in Hd.
  assert (Nat.max len1 len2 ≠ 0) as Hl by (unfold abs_diff in Hd; lia).
  destruct (Nat.max len1 len2 =? 0) eqn:Hl'; [by apply Nat.eqb_eq in Hl'|].
  cbn [mbind option_bind].
  destruct (fge _ _ && _) eqn:Hskip; [|done].
  apply andb_true_iff in Hskip as [Hge _]. cbn [mbind option_bind].
  by rewrite (Hmono _ (distance s1 s2) _ (Hlow s1 s2) Hl Hge).
Qed.

Lemma city_link_skips_only_far_pairs {F : Type} (fdiv : nat → nat → F)
    (fge flt : F → F → bool) (distance : string → string → nat) (threshold : F) :
  (∀ s1 s2, abs_diff (String.length s1) (String.length s2) ≤ distance s1 s2) →
  (∀ a b n, a ≤ b → n ≠ 0 →
            fge (fdiv a n) threshold = true → flt (fdiv b n) threshold = false) →
  ∀ s1 s2, city_link fdiv fge flt distance threshold s1 s2
           = distance_link fdiv flt distance threshold s1 s2.
Proof.
  intros Hlow Hmono s1 s2.
  unfold city_link, distance_link, fuzzy_search_cities.fast_prune,
    fuzzy_search_cities.close_enough, fuzzy_search.close_enough,
    fuzzy_search_cities.true_div, fuzzy_search.true_div.
  set (len1 := String.length s1). set (len2 := String.length s2).
  destruct (2 <? abs_diff len1 len2) eqn:Hd; [|done].
  apply Nat.ltb_lt in Hd.
  assert (Nat.max len1 len2 ≠ 0) as Hl by (unfold abs_diff in Hd; lia).
  destruct (Nat.max len1 len2 =? 0) eqn:Hl'; [by apply Nat.eqb_eq in Hl'|].
  cbn [mbind option_bind].
  destruct (fge _ _) eqn:Hge; [|done]. cbn [mbind option_bind].
  by rewrite (Hmono _ (distance s1 s2) _ (Hlow s1 s2) Hl Hge).
Qed.

Lemma visit_pairs_ext link link' pairs uf :
  (∀ s1 s2, link s1 s2 = link' s1 s2) →
  visit_pairs link pairs uf = visit_pairs link' pairs uf.
Proof.
  intros Heq. revert uf. induction pairs as [|[s1 s2] pairs IH]; intros uf; [done|].
  cbn [visit_pairs]. unfold compare_with. rewrite Heq.
  destruct (link' s1 s2) as [[|]|]; cbn [mbind option_bind]; try done.
  destruct (union uf s1 s2); cbn [mbind option_bind]; [apply IH|done].
Qed.

End clustering_theorems.

(** C6.  The clusters of the street rule do not depend on the order of the
    variants nor on the order in which the pairs are visited.  For distinct
    variants [vs], a rearrangement [vs'] of them and a symmetric edit
    distance: the code returns on [vs] and on [vs'], and so does a run
    that visits the pairs of [vs'] in any order [pairs'] that covers every
    unordered pair; the three results put the same variants together.
    With two variants or more each result is a partition of the variants
    and two variants are together exactly when a chain of pairs that pass
    the test (not rejected on their lengths, distance ratio under the
    threshold) joins them.  (A group of fewer than two variants is skipped
    by the code and yields no cluster.) *)
Theorem C6_clusters_do_not_depend_on_order {F : Type} (fdiv : nat → nat → F)
    (fge flt : F → F → bool) (distance : string → string → nat) (threshold : F)
    (vs vs' : list string) (pairs' : list (string * string)) :
  (∀ a b, distance a b = distance b a) →
  NoDup vs → vs ≡ₚ vs' → uf_spec.covers vs' pairs' →
  ∃ out out' out'',
    fuzzy_search.propose_street_name_corrections_clusters fdiv fge flt distance threshold vs
      = Some out ∧
    fuzzy_search.propose_street_name_corrections_clusters fdiv fge flt distance threshold vs'
      = Some out' ∧
    uf_spec.clusters_in_order (fuzzy_spec.street_link fdiv fge flt distance threshold)
      vs' pairs' = Some out'' ∧
    (∀ a b, uf_spec.same_cluster out a b ↔ uf_spec.same_cluster out' a b) ∧
    (2 ≤ length vs →
       uf_spec.partition_of vs out ∧ uf_spec.partition_of vs out' ∧
       uf_spec.partition_of vs out'' ∧
       ∀ a b,
         (uf_spec.same_cluster out a b ↔ uf_spec.same_cluster out'' a b) ∧
         (uf_spec.same_cluster out a b ↔
            a ∈ vs ∧ b ∈ vs ∧
            uf_spec.connected (fuzzy_spec.street_link fdiv fge flt distance threshold)
              vs a b)).
Proof.
  intros Hsym Hnd Hp Hcov.
  set (link := fuzzy_spec.street_link fdiv fge flt distance threshold).
  assert (∀ l : list string, ∀ a b, a ∈ l → b ∈ l → a ≠ b → is_Some (link a b)) as Hdef.
  { intros l a b _ _. apply street_link_defined. }
  assert (∀ l : list string, ∀ a b, a ∈ l → b ∈ l → a ≠ b → link a b = link b a) as Hlsym.
  { intros l a b _ _ _. by apply street_link_sym. }
  assert (NoDup vs') as Hnd' by by rewrite <- Hp.
  destruct (clusters_in_order_spec link vs' pairs' Hnd' Hcov (Hdef _) (Hlsym _))
    as (out'' & Hrun'' & Hpart'' & Hchar'').
  rewrite !street_clusters_as_visit. rewrite <- (Permutation_length Hp).
  destruct (length vs <? 2) eqn:Hlen.
  { exists [], [], out''. split; [done|]. split; [done|]. split; [done|].
    split; [done|]. apply Nat.ltb_lt in Hlen. lia. }
  assert (NoDup (sort_by_len vs)) as Hs by by rewrite sort_by_len_perm.
  assert (NoDup (sort_by_len vs')) as Hs' by by rewrite sort_by_len_perm.
  destruct (clusters_in_order_spec link _ _ Hs (nested_pairs_covers _ Hs)
              (Hdef _) (Hlsym _)) as (out & Hrun & Hpart & Hchar).
  destruct (clusters_in_order_spec link _ _ Hs' (nested_pairs_covers _ Hs')
              (Hdef _) (Hlsym _)) as (out' & Hrun' & Hpart' & Hchar').
  assert (∀ a b, uf_spec.same_cluster out a b ↔
                 a ∈ vs ∧ b ∈ vs ∧ uf_spec.connected link vs a b) as Hc.
  { intros a b. rewrite Hchar, (connected_perm link _ vs a b (sort_by_len_perm vs)).
    by rewrite !sort_by_len_perm. }
  assert (∀ a b, uf_spec.same_cluster out' a b ↔
                 a ∈ vs ∧ b ∈ vs ∧ uf_spec.connected link vs a b) as Hc'.
  { intros a b. rewrite Hchar'.
    rewrite (connected_perm link _ vs a b); [|by rewrite sort_by_len_perm].
    by rewrite !sort_by_len_perm, <- !Hp. }
  assert (∀ a b, uf_spec.same_cluster out'' a b ↔
                 a ∈ vs ∧ b ∈ vs ∧ uf_spec.connected link vs a b) as Hc''.
  { intros a b. rewrite Hchar'', (connected_perm link vs' vs a b); [|done].
    by rewrite <- !Hp. }
  exists out, out', out''. split; [done|]. split; [done|]. split; [done|].
  split; [intros a b; by rewrite Hc, Hc'|].
  intros _. split; [by apply (partition_of_perm (sort_by_len vs)), Hpart; apply sort_by_len_perm|].
  split.
  { apply (partition_of_perm (sort_by_len vs')); [|done]. by rewrite sort_by_len_perm. }
  split; [by apply (partition_of_perm vs')|].
  intros a b. split; [by rewrite Hc, Hc''|apply Hc].
Qed.

(** The three spellings with exact rationals, the unit-cost edit distance
    and a threshold of one half, in the reverse order and with the pairs
    visited in another order. *)
Lemma C6_witness :
  ∃ out out' out'',
    fuzzy_search.propose_street_name_corrections_clusters fuzzy_spec.qdiv fuzzy_spec.qge
      fuzzy_spec.qlt fuzzy_spec.levenshtein fuzzy_spec.one_half fuzzy_spec.three_spellings
      = Some out ∧
    fuzzy_search.propose_street_name_corrections_clusters fuzzy_spec.qdiv fuzzy_spec.qge
      fuzzy_spec.qlt fuzzy_spec.levenshtein fuzzy_spec.one_half (reverse fuzzy_spec.three_spellings)
      = Some out' ∧
    uf_spec.clusters_in_order
      (fuzzy_spec.street_link fuzzy_spec.qdiv fuzzy_spec.qge fuzzy_spec.qlt
         fuzzy_spec.levenshtein fuzzy_spec.one_half)
      (reverse fuzzy_spec.three_spellings)
      [("elm street", "oat"); ("oak", "elm street"); ("oat", "oak")]
      = Some out'' ∧
    (∀ a b, uf_spec.same_cluster out a b ↔ uf_spec.same_cluster out' a b) ∧
    (2 ≤ length fuzzy_spec.three_spellings →
       uf_spec.partition_of fuzzy_spec.three_spellings out ∧
       uf_spec.partition_of fuzzy_spec.three_spellings out' ∧
       uf_spec.partition_of fuzzy_spec.three_spellings out'' ∧
       ∀ a b,
         (uf_spec.same_cluster out a b ↔ uf_spec.same_cluster out'' a b) ∧
         (uf_spec.same_cluster out a b ↔
            a ∈ fuzzy_spec.three_spellings ∧ b ∈ fuzzy_spec.three_spellings ∧
            uf_spec.connected
              (fuzzy_spec.street_link fuzzy_spec.qdiv fuzzy_spec.qge fuzzy_spec.qlt
                 fuzzy_spec.levenshtein fuzzy_spec.one_half)
              fuzzy_spec.three_spellings a b)).
Proof.
  apply (C6_clusters_do_not_depend_on_order fuzzy_spec.qdiv fuzzy_spec.qge fuzzy_spec.qlt
           fuzzy_spec.levenshtein fuzzy_spec.one_half fuzzy_spec.three_spellings
           (reverse fuzzy_spec.three_spellings)).
  - apply levenshtein_sym.
  - unfold fuzzy_spec.three_spellings. repeat (apply NoDup_cons; split; [set_solver|]).
    apply NoDup_nil_2.
  - symmetry. apply reverse_Permutation.
  - split.
    + intros a b Hab. unfold fuzzy_spec.three_spellings.
      repeat (apply elem_of_cons in Hab as [[= -> ->]|Hab];
              [split; [set_solver|split; [set_solver|done]]|]).
      by apply elem_of_nil in Hab.
    + intros a b Ha Hb Hne. unfold fuzzy_spec.three_spellings in *.
      cbn in Ha, Hb.
      repeat (apply elem_of_cons in Ha as [->|Ha]);
        [| | |by apply elem_of_nil in Ha];
        (repeat (apply elem_of_cons in Hb as [->|Hb]);
           [| | |by apply elem_of_nil in Hb]); try done; set_solver.
Defined.

(** On the three spellings the code puts "oak" and "oat" together (one edit
    on three characters) and leaves "elm street" alone, in both orders. *)
Lemma three_spellings_clusters :
  fuzzy_search.propose_street_name_corrections_clusters fuzzy_spec.qdiv fuzzy_spec.qge
    fuzzy_spec.qlt fuzzy_spec.levenshtein fuzzy_spec.one_half fuzzy_spec.three_spellings
  = Some [(0, ["oak"; "oat"]); (2, ["elm street"])] ∧
  fuzzy_search.propose_street_name_corrections_clusters fuzzy_spec.qdiv fuzzy_spec.qge
    fuzzy_spec.qlt fuzzy_spec.levenshtein fuzzy_spec.one_half
    (reverse fuzzy_spec.three_spellings)
  = Some [(0, ["oat"; "oak"]); (2, ["elm street"])].
Proof. split; vm_compute; reflexivity. Qed.

(** C10.  The look at the lengths never changes the clusters.  With an
    edit distance that is at least the difference of the lengths, a
    division that is monotone in its numerator against the threshold and
    comparisons that exclude each other (a quotient that is at least the
    threshold is not under it): for a pair that the street rule rejects, or
    that the city rule prunes, the distance divided by the longer length
    is at least the threshold too and the distance test fails; hence both
    rules return exactly what the same loops return when the distance test
    is computed on every pair. *)
Theorem C10_fast_reject_never_changes_the_clusters {F : Type} (fdiv : nat → nat → F)
    (fge flt : F → F → bool) (distance : string → string → nat) (threshold : F) :
  (∀ s1 s2, abs_diff (String.length s1) (String.length s2) ≤ distance s1 s2) →
  (∀ a b n, a ≤ b → n ≠ 0 →
            fge (fdiv a n) threshold = true → fge (fdiv b n) threshold = true) →
  (∀ x, fge x threshold = true → flt x threshold = false) →
  (∀ s1 s2,
     let diff := abs_diff (String.length s1) (String.length s2) in
     let longer := Nat.max (String.length s1) (String.length s2) in
     fuzzy_search.fast_reject fdiv fge threshold diff longer = Some true ∨
     fuzzy_search_cities.fast_prune fdiv fge threshold diff longer = Some true →
     2 < diff ∧
     fge (fdiv diff longer) threshold = true ∧
     fge (fdiv (distance s1 s2) longer) threshold = true ∧
     fuzzy_search.close_enough fdiv flt distance threshold s1 s2 longer = Some false ∧
     fuzzy_search_cities.close_enough fdiv flt distance threshold s1 s2 longer
       = Some false) ∧
  (∀ norms,
     fuzzy_search.propose_street_name_corrections_clusters fdiv fge flt distance threshold
       norms
     = fuzzy_spec.clusters_testing_every_pair fdiv flt distance threshold norms) ∧
  (∀ variants,
     fuzzy_search_cities.propose_correct_city_names_by_zip_clusters fdiv fge flt distance
       threshold variants
     = fuzzy_spec.clusters_testing_every_pair fdiv flt distance threshold variants).
Proof.
  intros Hlow Hdiv Hcmp.
  assert (∀ a b n, a ≤ b → n ≠ 0 →
            fge (fdiv a n) threshold = true → flt (fdiv b n) threshold = false) as Hmono.
  { intros a b n Hab Hn Hge. by apply Hcmp, (Hdiv a b n). }
  split; [|split].
  - intros s1 s2 diff longer Hskip.
    assert (2 < diff ∧ longer ≠ 0 ∧ fge (fdiv diff longer) threshold = true)
      as (Hd & Hl & Hge).
    { unfold fuzzy_search.fast_reject, fuzzy_search_cities.fast_prune,
        fuzzy_search.true_div, fuzzy_search_cities.true_div in Hskip.
      assert (diff ≤ longer) as Hle by (unfold diff, longer, abs_diff; lia).
      destruct Hskip as [Hskip|Hskip].
      - destruct (diff =? 0) eqn:Hd0; [done|]. apply Nat.eqb_neq in Hd0.
        destruct (longer =? 0) eqn:Hl0; [apply Nat.eqb_eq in Hl0; lia|].
        cbn [mbind option_bind] in Hskip. injection Hskip as Hskip.
        apply andb_true_iff in Hskip as [Hge Hd%Nat.ltb_lt]. split; [done|].
        split; [lia|done].
      - destruct (2 <? diff) eqn:Hd; [|done]. apply Nat.ltb_lt in Hd.
        destruct (longer =? 0) eqn:Hl0; [apply Nat.eqb_eq in Hl0; lia|].
        cbn [mbind option_bind] in Hskip. injection Hskip as Hge. split; [done|].
        split; [lia|done]. }
    pose proof (Hdiv diff (distance s1 s2) longer (Hlow s1 s2) Hl Hge) as Hfar.
    split; [done|]. split; [done|]. split; [done|].
    unfold fuzzy_search.close_enough, fuzzy_search_cities.close_enough,
      fuzzy_search.true_div, fuzzy_search_cities.true_div.
    apply Nat.eqb_neq in Hl. rewrite Hl. cbn [mbind option_bind].
    by rewrite (Hcmp _ Hfar).
  - intros norms. rewrite street_clusters_as_visit.
    unfold fuzzy_spec.clusters_testing_every_pair, uf_spec.clusters_in_order.
    destruct (length norms <? 2); [done|].
    by rewrite (visit_pairs_ext _ _ _ _
                  (street_link_skips_only_far_pairs fdiv fge flt distance threshold
                     Hlow Hmono)).
  - intros variants. rewrite city_clusters_as_visit.
    unfold fuzzy_spec.clusters_testing_every_pair, uf_spec.clusters_in_order.
    destruct (length variants <? 2); [done|].
    by rewrite (visit_pairs_ext _ _ _ _
                  (city_link_skips_only_far_pairs fdiv fge flt distance threshold
                     Hlow Hmono)).
Qed.

(** The rationals and the unit-cost edit distance meet the three
    assumptions; here with a threshold of one half. *)
Lemma C10_witness :
  (∀ s1 s2,
     let diff := abs_diff (String.length s1) (String.length s2) in
     let longer := Nat.max (String.length s1) (String.length s2) in
     fuzzy_search.fast_reject fuzzy_spec.qdiv fuzzy_spec.qge fuzzy_spec.one_half
       diff longer = Some true ∨
     fuzzy_search_cities.fast_prune fuzzy_spec.qdiv fuzzy_spec.qge fuzzy_spec.one_half
       diff longer = Some true →
     2 < diff ∧
     fuzzy_spec.qge (fuzzy_spec.qdiv diff longer) fuzzy_spec.one_half = true ∧
     fuzzy_spec.qge (fuzzy_spec.qdiv (fuzzy_spec.levenshtein s1 s2) longer)
       fuzzy_spec.one_half = true ∧
     fuzzy_search.close_enough fuzzy_spec.qdiv fuzzy_spec.qlt fuzzy_spec.levenshtein
       fuzzy_spec.one_half s1 s2 longer = Some false ∧
     fuzzy_search_cities.close_enough fuzzy_spec.qdiv fuzzy_spec.qlt
       fuzzy_spec.levenshtein fuzzy_spec.one_half s1 s2 longer = Some false) ∧
  (∀ norms,
     fuzzy_search.propose_street_name_corrections_clusters fuzzy_spec.qdiv fuzzy_spec.qge
       fuzzy_spec.qlt fuzzy_spec.levenshtein fuzzy_spec.one_half norms
     = fuzzy_spec.clusters_testing_every_pair fuzzy_spec.qdiv fuzzy_spec.qlt
         fuzzy_spec.levenshtein fuzzy_spec.one_half norms) ∧
  (∀ variants,
     fuzzy_search_cities.propose_correct_city_names_by_zip_clusters fuzzy_spec.qdiv
       fuzzy_spec.qge fuzzy_spec.qlt fuzzy_spec.levenshtein fuzzy_spec.one_half variants
     = fuzzy_spec.clusters_testing_every_pair fuzzy_spec.qdiv fuzzy_spec.qlt
         fuzzy_spec.levenshtein fuzzy_spec.one_half variants).
Proof.
  apply (C10_fast_reject_never_changes_the_clusters fuzzy_spec.qdiv fuzzy_spec.qge
           fuzzy_spec.qlt fuzzy_spec.levenshtein fuzzy_spec.one_half).
  - apply levenshtein_lower_bound.
  - apply qdiv_monotone.
  - apply qge_not_qlt.
Defined.

(** A pair the street rule rejects on its lengths: "oak" against
    "elm street", seven characters of difference out of ten. *)
Lemma far_pair_is_rejected :
  fuzzy_search.fast_reject fuzzy_spec.qdiv fuzzy_spec.qge fuzzy_spec.one_half
    (abs_diff (String.length "oak") (String.length "elm street"))
    (Nat.max (String.length "oak") (String.length "elm street")) = Some true ∧
  fuzzy_spec.street_link fuzzy_spec.qdiv fuzzy_spec.qge fuzzy_spec.qlt
    fuzzy_spec.levenshtein fuzzy_spec.one_half "oak" "elm street" = Some false.
Proof. split; vm_compute; reflexivity. Qed.

(** ** Rule 2 never raises after its column check *)

Lemma elem_of_concat {A : Type} (ls : list (list A)) n :
  n ∈ concat ls ↔ ∃ l, l ∈ ls ∧ n ∈ l.
Proof.
  induction ls as [|l ls IH]; cbn [concat].
  - split; [by intros ?%elem_of_nil|]. by intros (l & ?%elem_of_nil & _).
  - rewrite elem_of_app, IH. split.
    + intros [?|(l' & ? & ?)]; [exists l; split; [by left|done]|].
      exists l'. split; [by right|done].
    + intros (l' & [->|?]%elem_of_cons & ?); [by left|]. right. by exists l'.
Qed.


Section rule2_runs.
Import helpers uf_spec fuzzy_spec.
Context {F : Type}.
Variable fdiv : nat → nat → F.
Variables fge flt : F → F → bool.
Variable distance : string → string → nat.
Variable threshold : F.
Variable num1_lt : value → value → bool.

(** The clustering returns whenever the test is defined on the pairs it
    visits, and what it returns is a partition. *)
Lemma clusters_in_order_defined link (vs : list string) pairs :
  NoDup vs →
  (∀ a b, (a, b) ∈ pairs → a ∈ vs ∧ b ∈ vs ∧ is_Some (link a b)) →
  ∃ out, clusters_in_order link vs pairs = Some out ∧ partition_of vs out.
Proof.
  intros Hnd Hpairs. unfold clusters_in_order.
  destruct (visit_pairs_spec link vs pairs (UnionFind_init vs) (λ _ _, False) Hnd Hpairs)
    as (uf & -> & Hwf & _).
  { by apply UnionFind_init_wf. }
  { intros ia ib a b Ha Hb. rewrite UnionFind_init_same_set. split.
    - intros [-> _]. assert (a = b) as -> by congruence. done.
    - intros H. assert (a = b) as ->.
      { unfold rtsc in H. induction H as [|x y z [[]|[]] _ _]; done. }
      split; [by eapply NoDup_lookup|by eapply lookup_lt_Some]. }
  cbn [mbind option_bind].
  destruct (clusters_spec vs uf Hnd Hwf) as (uf' & out & -> & Hpart & _).
  by exists out.
Qed.

Lemma street_clusters_defined (vs : list string) :
  NoDup vs →
  ∃ out,
    fuzzy_search.propose_street_name_corrections_clusters fdiv fge flt distance
      threshold vs = Some out ∧
    NoDup (concat (map snd out)) ∧
    (length vs < 2 → out = []) ∧
    ∀ cl, cl ∈ out → cl.2 ≠ [] ∧ ∀ n, n ∈ cl.2 → n ∈ vs.
Proof.
  intros Hnd. rewrite street_clusters_as_visit.
  destruct (length vs <? 2) eqn:Hlen.
  { exists []. split; [done|]. split; [constructor|]. split; [done|].
    by intros cl ?%elem_of_nil. }
  apply Nat.ltb_ge in Hlen.
  assert (NoDup (sort_by_len vs)) as Hs by by rewrite sort_by_len_perm.
  destruct (clusters_in_order_defined
              (street_link fdiv fge flt distance threshold) _
              (nested_pairs (sort_by_len vs)) Hs) as (out & Hrun & Hk & Hne & Hperm).
  { intros a b Hab. destruct (nested_pairs_covers _ Hs) as [Hin _].
    destruct (Hin a b Hab) as (? & ? & ?). split_and!; [done..|].
    by apply street_link_defined. }
  exists out. split; [done|]. split; [by rewrite Hperm|]. split; [lia|].
  intros [root members] Hcl. split; [by eapply Hne|].
  intros n Hn. cbn [snd] in Hn.
  assert (n ∈ concat (map snd out)) as Hin.
  { apply elem_of_concat. exists members. split; [|done].
    apply list_elem_of_fmap. by exists (root, members). }
  rewrite Hperm, sort_by_len_perm in Hin. done.
Qed.

Lemma rule2_group_defined df eid num :
  is_Some (rule2.group_proposals fdiv fge flt distance threshold df eid num).
Proof.
  unfold rule2.group_proposals. cbv zeta.
  destruct (street_clusters_defined
              (unique (map rule2.street_norm
                         (filter (λ r, v_EID_1 r = eid ∧ v_num1_c r = num) df))))
    as (out & -> & _); [apply NoDup_unique|].
  by eexists.
Qed.

Lemma rule2_body_defined view :
  is_Some (rule2.rule2_body fdiv fge flt distance threshold num1_lt view).
Proof.
  unfold rule2.rule2_body. cbv zeta.
  destruct (filter (λ r, rule2.kept r = true) (view_rows view)) as [|r0 df0] eqn:Hdf;
    [by eexists|].
  destruct (mapM (λ k, rule2.group_proposals fdiv fge flt distance threshold
                         (r0 :: df0) k.1 k.2)
              (rule2.group_keys num1_lt (r0 :: df0))) as [per|] eqn:Hm;
    [by eexists|].
  exfalso. apply eq_None_not_Some in Hm. apply Hm, mapM_is_Some, Forall_forall.
  intros k _. apply rule2_group_defined.
Qed.

(** With its columns in the view the rule returns. *)
Lemma propose_street_name_corrections_runs view :
  missing_columns rule2.need_rule2 view = [] →
  ∃ r2, rule2.propose_street_name_corrections fdiv fge flt distance threshold num1_lt
          view = Ok r2.
Proof.
  intros Hcols. unfold rule2.propose_street_name_corrections, require_columns.
  rewrite Hcols. destruct (rule2_body_defined view) as [r2 ->]. by exists r2.
Qed.

End rule2_runs.
(** ** The entry point: where a missing column stops the run *)

Section column_checks.

Lemma require_columns_ok {A : Type} prefix need view (body : merged_view → A) :
  missing_columns need view = [] → require_columns prefix need view body = Ok (body view).
Proof. intros H. unfold require_columns. by rewrite H. Qed.

Lemma require_columns_error {A : Type} prefix need view (body : merged_view → A) :
  missing_columns need view ≠ [] →
  require_columns prefix need view body
  = ValueError (prefix +:+ repr_list (missing_columns need view)).
Proof. intros H. unfold require_columns. by destruct (missing_columns need view). Qed.

Lemma missing_columns_nil need view :
  (∀ c, c ∈ need → c ∈ view_columns view) ↔ missing_columns need view = [].
Proof.
  unfold missing_columns. split.
  - intros H. apply filter_none. intros c Hc Hn. by apply Hn, H.
  - intros Hf c Hc. destruct (decide (c ∈ view_columns view)) as [|Hn]; [done|].
    exfalso. by eapply (filter_nil_not_elem_of _ _ c Hf).
Qed.

Lemma missing_columns_subset need need' view :
  (∀ c, c ∈ need' → c ∈ need) →
  missing_columns need view = [] → missing_columns need' view = [].
Proof.
  intros Hsub Hm. apply missing_columns_nil. intros c Hc.
  by apply (proj2 (missing_columns_nil need view) Hm), Hsub.
Qed.

End column_checks.

Section entry_point_facts.
Import helpers main main_spec.
Context {F : Type}.
Variable fdiv : nat → nat → F.
Variables fge flt : F → F → bool.
Variable distance : string → string → nat.
Variable num1_lt : value → value → bool.
Variables STREET_THRESHOLD CITY_THRESHOLD : F.

Local Abbreviation run_main :=
  (main fdiv fge flt distance num1_lt STREET_THRESHOLD CITY_THRESHOLD).

Lemma propose_replace_invalid_zips_run view :
  missing_columns need_rule3a view = [] →
  fill_missing_zip_codes.propose_replace_invalid_zips view
  = if fill_missing_zip_codes.str_accessor_raises view then OtherError
    else Ok (map fill_missing_zip_codes.proposal_of_target_3a
               (fill_missing_zip_codes.targets_3a (view_rows view))).
Proof.
  intros Hcols. unfold fill_missing_zip_codes.propose_replace_invalid_zips.
  rewrite require_columns_ok by exact Hcols.
  unfold fill_missing_zip_codes.rule3a_body.
  by destruct (fill_missing_zip_codes.str_accessor_raises view).
Qed.

Lemma propose_fill_missing_zips_keep_error view :
  missing_columns fill_missing_zip_codes.need_rule1 view ≠ [] →
  fill_missing_zip_codes.propose_fill_missing_zips_keep view
  = ValueError ("Missing cols for Rule 1: "
                +:+ repr_list (missing_columns fill_missing_zip_codes.need_rule1 view)).
Proof.
  intros H. unfold fill_missing_zip_codes.propose_fill_missing_zips_keep.
  by rewrite (require_columns_error _ _ _ _ H).
Qed.

Lemma propose_fill_missing_zips_by_address_error view :
  missing_columns need_rule3b view ≠ [] →
  fill_missing_zip_codes.propose_fill_missing_zips_by_address view
  = ValueError ("Missing cols for 3b: " +:+ repr_list (missing_columns need_rule3b view)).
Proof.
  intros H. unfold fill_missing_zip_codes.propose_fill_missing_zips_by_address.
  by rewrite (require_columns_error _ _ _ _ H).
Qed.

(** The only checks that can be the first to fail are those of Rule 1 and
    of Rule 3b: Rule 2 and Rule 3a need no column that Rule 1 does not
    need, and Rule 4 none that Rule 3b does not need. *)
Lemma first_failing_check merged :
  (∃ j check, column_checks !! j = Some check ∧ missing_columns check.2 merged ≠ []) →
  missing_columns fill_missing_zip_codes.need_rule1 merged ≠ [] ∨
  (missing_columns fill_missing_zip_codes.need_rule1 merged = [] ∧
   missing_columns need_rule2 merged = [] ∧
   missing_columns need_rule3a merged = [] ∧
   missing_columns need_rule3b merged ≠ []).
Proof.
  intros (j & check & Hj & Hmiss).
  destruct (decide (missing_columns fill_missing_zip_codes.need_rule1 merged = []))
    as [H1|H1]; [right|by left].
  assert (missing_columns need_rule2 merged = []) as H2.
  { eapply missing_columns_subset; [|exact H1].
    unfold need_rule2, fill_missing_zip_codes.need_rule1. set_solver. }
  split; [done|]. split; [done|]. split; [exact H1|]. intros H4.
  assert (missing_columns need_rule4 merged = []) as H5.
  { eapply missing_columns_subset; [|exact H4]. unfold need_rule4, need_rule3b. set_solver. }
  apply Hmiss.
  destruct j as [|[|[|[|[|?]]]]]; cbn in Hj; try done; by injection Hj as <-.
Qed.

(** C5, amended.  Each rule checks its own columns when it is called, and
    the rules are called one after the other.  When some rule lacks a
    column, let the [k]-th check (from 0) be the first that fails.  The
    run never reaches the resolver and writes nothing, so no proposal is
    applied and no table is changed.  It ends at that check with the
    single ValueError whose message is the head of that rule followed by
    the list of its missing columns, after the [k] rules before it have
    run to their end and reported their proposals; unless a rule ran
    before ([k > 0]) and the ZIP column holds no text and no valid ZIP:
    then Rule 1, called first, raises another error (the AttributeError
    of its [.str] accessor) and no rule has reported. *)
Theorem C5_abort_at_first_rule_with_missing_column
    (tables : AddressTable * list Relationship) (merged : merged_view) :
  (∃ j check, column_checks !! j = Some check ∧ missing_columns check.2 merged ≠ []) →
  ∃ k label prefix need log outcome,
    column_checks !! k = Some (label, prefix, need) ∧
    missing_columns need merged ≠ [] ∧
    (∀ j check, j < k → column_checks !! j = Some check →
                missing_columns check.2 merged = []) ∧
    run_main tables merged [] = (log, outcome) ∧
    (∀ n, Resolving n ∉ log) ∧ ToCsv ∉ log ∧
    (if (0 <? k) && fill_missing_zip_codes.str_accessor_raises merged
     then log = [] ∧ outcome = OtherError
     else outcome = ValueError (prefix +:+ repr_list (missing_columns need merged)) ∧
          Forall2 (λ check e, is_rule_report check.1.1 e) (take k column_checks) log).
Proof.
  intros Hmiss.
  assert (∀ (log : list event), Forall (λ e, ∃ l n, e = ShowSamples l n) log →
            (∀ n, Resolving n ∉ log) ∧ ToCsv ∉ log) as Hlog.
  { intros log. rewrite Forall_forall. intros H.
    split; [intros n Hn|intros Hn]; apply H in Hn as (? & ? & ?); done. }
  destruct (first_failing_check merged Hmiss) as [H1|(H1 & H2 & H3 & H4)].
  - exists 0. eexists _, _, _, [], _. split; [done|]. split; [exact H1|].
    split; [intros; lia|]. split.
    { unfold main, rules. cbn [run_rules]. unfold run_rule, bind, lift.
      by rewrite (propose_fill_missing_zips_keep_error merged H1). }
    split; [by intros n ?%elem_of_nil|]. split; [by intros ?%elem_of_nil|].
    cbn. split; [done|constructor].
  - exists 3.
    assert (∀ j check, j < 3 → column_checks !! j = Some check →
                       missing_columns check.2 merged = []) as Hearlier.
    { intros j c Hlt Hc.
      repeat (destruct j as [|j]; [cbn in Hc; injection Hc as <-; assumption|]). lia. }
    pose proof (propose_fill_missing_zips_keep_run merged
                  (proj2 (missing_columns_nil _ _) H1)) as Hr1.
    pose proof (propose_replace_invalid_zips_run merged H3) as Hr3.
    destruct (propose_street_name_corrections_runs fdiv fge flt distance
                STREET_THRESHOLD num1_lt merged H2) as [r2 Hr2].
    pose proof (propose_fill_missing_zips_by_address_error merged H4) as Hr4.
    destruct (fill_missing_zip_codes.str_accessor_raises merged) eqn:Hraise.
    + eexists _, _, _, [], OtherError. split; [done|]. split; [exact H4|].
      split; [exact Hearlier|]. split.
      { unfold main, rules. cbn [run_rules]. unfold run_rule, bind, lift.
        by rewrite Hr1. }
      split; [by intros n ?%elem_of_nil|]. split; [by intros ?%elem_of_nil|]. done.
    + eexists _, _, _, _, _. split; [done|]. split; [exact H4|].
      split; [exact Hearlier|]. split.
      { unfold main, rules. cbn [run_rules]. unfold run_rule, bind, lift, emit, ret.
        rewrite Hr1, Hr2, Hr3, Hr4. cbn [app]. reflexivity. }
      split; [intros n; apply Hlog; repeat constructor; by eexists _, _|].
      split; [apply Hlog; repeat constructor; by eexists _, _|].
      change ((0 <? 3) && false) with false. cbv iota. split; [done|].
      cbn [take column_checks fst]. repeat constructor; by eexists.
Qed.

End entry_point_facts.

Section entry_point_examples.
Import helpers main main_spec.

Local Abbreviation run_main_Q :=
  (main fuzzy_spec.qdiv fuzzy_spec.qge fuzzy_spec.qlt fuzzy_spec.levenshtein text_lt
     fuzzy_spec.one_half fuzzy_spec.one_half).

(** The hypothesis of C5 holds for a view without [city_c], and the run
    ends with the error of Rule 3b. *)
Lemma C5_witness :
  (∃ j check, column_checks !! j = Some check ∧
              missing_columns check.2 view_without_city ≠ []) ∧
  ∃ log,
    run_main_Q (examples.table_100, examples.links_E1_E2) view_without_city []
    = (log, ValueError "Missing cols for 3b: ['city_c']").
Proof.
  assert (∃ j check, column_checks !! j = Some check ∧
                     missing_columns check.2 view_without_city ≠ []) as H.
  { exists 3, ("Rule 3b (fill missing ZIPs by addr)", "Missing cols for 3b: ", need_rule3b).
    split; [reflexivity|]. vm_compute. discriminate. }
  split; [exact H|].
  destruct (C5_abort_at_first_rule_with_missing_column fuzzy_spec.qdiv fuzzy_spec.qge
              fuzzy_spec.qlt fuzzy_spec.levenshtein text_lt fuzzy_spec.one_half
              fuzzy_spec.one_half (examples.table_100, examples.links_E1_E2)
              view_without_city H)
    as (k & label & prefix & need & log & outcome & Hk & Hmiss & Hfirst & Hrun & _).
  exists log. rewrite Hrun. vm_compute in Hrun. injection Hrun as _ Hout.
  by rewrite Hout.
Defined.

(** C5 as stated fails: on a view that lacks only [city_c] the checks of
    Rule 1, Rule 2 and Rule 3a pass and the three rules run before the
    check of Rule 3b raises.  The failure does not come before any rule
    executes.  When moreover no ZIP is on file, the run ends in Rule 1
    with an error that names no column. *)
Lemma C5_counterexample :
  run_main_Q (examples.table_100, examples.links_E1_E2) view_without_city []
  = ([ShowSamples "Rule 1  (fill missing ZIPs – keep)" 2;
      ShowSamples "Rule 2  (fuzzy search street-name)" 0;
      ShowSamples "Rule 3a (replace invalid ZIPs)" 0],
     ValueError "Missing cols for 3b: ['city_c']") ∧
  run_main_Q (examples.table_100, examples.links_E1_E2) view_without_city_no_zip []
  = ([], OtherError).
Proof. split; vm_compute; reflexivity. Qed.

End entry_point_examples.

(** ** More on the disjoint sets of [helpers.py] *)

Section uf_more.
Import helpers uf_spec.

Lemma keys_imap_singletons (l : list string) (k : nat) :
  keys (imap (λ i e, (k + i, [e])) l) = seq k (length l).
Proof.
  unfold keys. revert k. induction l as [|e l IH]; intros k; [done|].
  cbn [imap map fst length seq]. rewrite Nat.add_0_r. f_equal.
  rewrite <- (IH (S k)). f_equal. apply imap_ext. intros i x _. cbn. f_equal. lia.
Qed.

Lemma keys_singletons (l : list string) :
  keys (imap (λ i e, (i, [e])) l) = seq 0 (length l).
Proof. exact (keys_imap_singletons l 0). Qed.

Lemma _find_root uf i :
  par uf !! i = Some i →
  _find uf i = Some ({| idx := idx uf; par := par uf; rank := rank uf |}, i).
Proof.
  intros Hi. unfold _find.
  destruct (length (par uf)) as [|n] eqn:Hn.
  { apply lookup_lt_Some in Hi. lia. }
  cbn [_find_rec]. rewrite Hi. by rewrite decide_True.
Qed.

Lemma fresh_clusters_loop (elems pre suf : list string) :
  elems = pre ++ suf →
  clusters_loop (zip suf (seq (length pre) (length suf))) (UnionFind_init elems)
    (imap (λ i e, (i, [e])) pre)
  = Some (UnionFind_init elems, imap (λ i e, (i, [e])) elems).
Proof.
  revert pre. induction suf as [|e suf IH]; intros pre Helems.
  { rewrite app_nil_r in Helems. by subst. }
  cbn [length seq zip_with clusters_loop].
  rewrite _find_root.
  2:{ cbn [UnionFind_init par]. apply lookup_seq_lt. subst elems.
      rewrite length_app. cbn [length]. lia. }
  cbn [mbind option_bind UnionFind_init idx par rank].
  unfold dict_append.
  assert (dict_get (imap (λ i e0, (i, [e0])) pre) (length pre) = None) as Hnone.
  { apply dict_get_None. rewrite keys_singletons, elem_of_seq. lia. }
  rewrite Hnone. cbn [default from_option app].
  rewrite dict_set_fresh.
  2:{ rewrite keys_singletons, elem_of_seq. lia. }
  specialize (IH (pre ++ [e])). rewrite length_app in IH. cbn [length] in IH.
  rewrite Nat.add_1_r in IH. rewrite imap_app in IH. cbn [imap] in IH.
  rewrite Nat.add_0_r in IH. apply IH. by rewrite <- app_assoc.
Qed.

End uf_more.

(** X1.  A structure just built over distinct elements has every element
    in a cluster of its own: [clusters] returns the one-element lists in
    the order of the input, each under the position of its element, and
    leaves the arrays as they are. *)
Theorem UnionFind_fresh_clusters (elems : list string) :
  NoDup elems →
  helpers.clusters (helpers.UnionFind_init elems)
  = Some (helpers.UnionFind_init elems, imap (λ i e, (i, [e])) elems).
Proof.
  intros Hnd. unfold helpers.clusters.
  change (helpers.idx (helpers.UnionFind_init elems)) with (helpers.enumerate_dict elems).
  rewrite enumerate_dict_NoDup by done.
  exact (fresh_clusters_loop elems [] elems eq_refl).
Qed.

Lemma UnionFind_fresh_clusters_witness :
  helpers.clusters (helpers.UnionFind_init ["oak"; "elm"; "ash"])
  = Some (helpers.UnionFind_init ["oak"; "elm"; "ash"],
          [(0, ["oak"]); (1, ["elm"]); (2, ["ash"])]).
Proof.
  apply (UnionFind_fresh_clusters ["oak"; "elm"; "ash"]).
  repeat (apply NoDup_cons; split; [set_solver|]). apply NoDup_nil_2.
Defined.

Section uf_more_union.
Import helpers uf_spec.

Lemma idx_known (elems : list string) a ia :
  dict_get (zip elems (seq 0 (length elems))) a = Some ia → elems !! ia = Some a.
Proof. intros H%dict_get_Some_elem. by apply elem_of_zip_seq. Qed.

Lemma _find_keeps_idx uf i uf1 r : _find uf i = Some (uf1, r) → idx uf1 = idx uf.
Proof.
  unfold _find. destruct (_find_rec _ _ _) as [[p' r']|]; [|done].
  by intros [= <- _].
Qed.

Lemma same_cluster_same_set (elems : list string) uf out :
  NoDup elems →
  (∀ a b, same_cluster out a b ↔
          ∃ ia ib, elems !! ia = Some a ∧ elems !! ib = Some b ∧
                   same_set (par uf) ia ib) →
  ∀ a b ia ib, elems !! ia = Some a → elems !! ib = Some b →
    (same_cluster out a b ↔ same_set (par uf) ia ib).
Proof.
  intros Hnd Hchar a b ia ib Ha Hb. rewrite Hchar. split.
  - intros (ia' & ib' & Ha' & Hb' & Hs).
    by rewrite (NoDup_lookup _ _ _ _ Hnd Ha Ha'), (NoDup_lookup _ _ _ _ Hnd Hb Hb').
  - intros Hs. by exists ia, ib.
Qed.

End uf_more_union.

(** X2.  [union] on two elements of a structure over distinct elements
    never fails and merges exactly their two clusters: afterwards two
    elements are listed together by [clusters] when they were together
    before, or when one was with [a] and the other with [b].  The result
    is again a partition of the elements. *)
Theorem union_merges_two_clusters (elems : list string) (uf : helpers.UnionFind)
    (a b : string) :
  NoDup elems → uf_spec.uf_wf elems uf → a ∈ elems → b ∈ elems →
  ∃ uf' u1 out u2 out',
    helpers.union uf a b = Some uf' ∧ uf_spec.uf_wf elems uf' ∧
    helpers.clusters uf = Some (u1, out) ∧ helpers.clusters uf' = Some (u2, out') ∧
    uf_spec.partition_of elems out' ∧
    ∀ x y, uf_spec.same_cluster out' x y ↔
           uf_spec.same_cluster out x y ∨
           (uf_spec.same_cluster out x a ∧ uf_spec.same_cluster out y b) ∨
           (uf_spec.same_cluster out x b ∧ uf_spec.same_cluster out y a).
Proof.
  intros Hnd Hwf [ia Ha]%list_elem_of_lookup [ib Hb]%list_elem_of_lookup.
  destruct (union_spec elems uf a b ia ib Hnd Hwf Ha Hb) as (uf' & Hun & Hwf' & Hsets).
  destruct (clusters_spec elems uf Hnd Hwf) as (u1 & out & Hc & _ & Hchar).
  destruct (clusters_spec elems uf' Hnd Hwf') as (u2 & out' & Hc' & Hpart' & Hchar').
  exists uf', u1, out, u2, out'. split_and!; try done.
  pose proof (same_cluster_same_set elems uf out Hnd Hchar) as Hold.
  intros x y. split.
  - intros Hxy. pose proof Hxy as (ix & iy & Hx & Hy & _)%Hchar'.
    apply (same_cluster_same_set elems uf' out' Hnd Hchar' x y ix iy Hx Hy) in Hxy.
    apply Hsets in Hxy as [H|[[H1 H2]|[H1 H2]]].
    + left. by apply (Hold x y ix iy).
    + right. left. split; [by apply (Hold x a ix ia)|by apply (Hold y b iy ib)].
    + right. right. split; [by apply (Hold x b ix ib)|by apply (Hold y a iy ia)].
  - intros H.
    assert (∃ ix iy, elems !! ix = Some x ∧ elems !! iy = Some y) as (ix & iy & Hx & Hy).
    { destruct H as [H|[[H1 H2]|[H1 H2]]].
      - apply Hchar in H as (ix & iy & ? & ? & _). by exists ix, iy.
      - apply Hchar in H1 as (ix & _ & ? & _ & _).
        apply Hchar in H2 as (iy & _ & ? & _ & _). by exists ix, iy.
      - apply Hchar in H1 as (ix & _ & ? & _ & _).
        apply Hchar in H2 as (iy & _ & ? & _ & _). by exists ix, iy. }
    apply (same_cluster_same_set elems uf' out' Hnd Hchar' x y ix iy Hx Hy).
    apply Hsets. destruct H as [H|[[H1 H2]|[H1 H2]]].
    + left. by apply (Hold x y ix iy).
    + right. left. split; [by apply (Hold x a ix ia)|by apply (Hold y b iy ib)].
    + right. right. split; [by apply (Hold x b ix ib)|by apply (Hold y a iy ia)].
Qed.

Lemma union_merges_two_clusters_witness :
  ∃ uf' u1 out u2 out',
    helpers.union (helpers.UnionFind_init ["oak"; "elm"; "ash"]) "oak" "ash" = Some uf' ∧
    uf_spec.uf_wf ["oak"; "elm"; "ash"] uf' ∧
    helpers.clusters (helpers.UnionFind_init ["oak"; "elm"; "ash"]) = Some (u1, out) ∧
    helpers.clusters uf' = Some (u2, out') ∧
    uf_spec.partition_of ["oak"; "elm"; "ash"] out' ∧
    ∀ x y, uf_spec.same_cluster out' x y ↔
           uf_spec.same_cluster out x y ∨
           (uf_spec.same_cluster out x "oak" ∧ uf_spec.same_cluster out y "ash") ∨
           (uf_spec.same_cluster out x "ash" ∧ uf_spec.same_cluster out y "oak").
Proof.
  assert (NoDup ["oak"; "elm"; "ash"]) as Hnd.
  { repeat (apply NoDup_cons; split; [set_solver|]). apply NoDup_nil_2. }
  apply (union_merges_two_clusters ["oak"; "elm"; "ash"]
           (helpers.UnionFind_init ["oak"; "elm"; "ash"]) "oak" "ash" Hnd).
  - by apply UnionFind_init_wf.
  - set_solver.
  - set_solver.
Defined.

(** X3.  On a structure over distinct elements [union] raises (a KeyError
    of [self.idx]) exactly when one of its two arguments is not an element
    of the structure. *)
Theorem union_fails_only_on_unknown_elements (elems : list string)
    (uf : helpers.UnionFind) (a b : string) :
  NoDup elems → uf_spec.uf_wf elems uf →
  (helpers.union uf a b = None ↔ a ∉ elems ∨ b ∉ elems).
Proof.
  intros Hnd Hwf. split.
  - intros Hnone.
    destruct (decide (a ∈ elems)) as [Ha|Ha]; [|by left].
    destruct (decide (b ∈ elems)) as [Hb|Hb]; [|by right].
    apply list_elem_of_lookup in Ha as [ia Ha]. apply list_elem_of_lookup in Hb as [ib Hb].
    destruct (union_spec elems uf a b ia ib Hnd Hwf Ha Hb) as (uf' & Hun & _).
    congruence.
  - intros Hor. destruct (helpers.union uf a b) as [uf'|] eqn:Hun; [|done].
    exfalso. destruct Hwf as (Hidx & _). unfold helpers.union in Hun.
    destruct (dict_get (helpers.idx uf) a) as [ia|] eqn:Hga; [|done].
    cbn [mbind option_bind] in Hun.
    destruct (helpers._find uf ia) as [[uf1 ra]|] eqn:Hf1; [|done].
    cbn [mbind option_bind] in Hun.
    destruct (dict_get (helpers.idx uf1) b) as [ib|] eqn:Hgb; [|done].
    rewrite (_find_keeps_idx _ _ _ _ Hf1), Hidx in Hgb. rewrite Hidx in Hga.
    apply idx_known in Hga, Hgb.
    destruct Hor as [Hn|Hn]; apply Hn; by eapply list_elem_of_lookup_2.
Qed.

Lemma union_fails_only_on_unknown_elements_witness :
  helpers.union (helpers.UnionFind_init ["oak"; "elm"; "ash"]) "oak" "fir" = None
  ↔ "oak" ∉ ["oak"; "elm"; "ash"] ∨ "fir" ∉ ["oak"; "elm"; "ash"].
Proof.
  apply (union_fails_only_on_unknown_elements ["oak"; "elm"; "ash"]).
  - repeat (apply NoDup_cons; split; [set_solver|]). apply NoDup_nil_2.
  - apply UnionFind_init_wf.
    repeat (apply NoDup_cons; split; [set_solver|]). apply NoDup_nil_2.
Defined.

Section uf_more_find.
Import helpers uf_spec.

Lemma _find_rec_points_to_root p k i r fuel :
  path_to p k i r → k < fuel →
  ∃ p', _find_rec fuel p i = Some (p', r) ∧ roots_kept p p' ∧
        p' !! i = Some r ∧ p' !! r = Some r.
Proof.
  intros Hpath Hk.
  destruct (_find_rec_spec p k i r fuel Hpath Hk) as (p' & Hrun & Hkept).
  exists p'. split; [done|]. split; [done|].
  assert (p' !! r = Some r) as Hroot.
  { destruct Hkept as [_ Hk']. pose proof (path_to_is_root _ _ _ _ Hpath) as Hr.
    destruct (Hk' r 0 r) as (k' & Hp'); [by constructor|].
    by eapply path_to_is_root. }
  split; [|done].
  destruct fuel as [|fuel]; [lia|]. cbn [_find_rec] in Hrun.
  inversion Hpath as [? Hr|? j ? k' Hi Hne Hrest]; subst.
  - rewrite Hr in Hrun. rewrite decide_True in Hrun by done.
    injection Hrun as <-. done.
  - rewrite Hi in Hrun. rewrite decide_False in Hrun by done.
    destruct (_find_rec_spec p k' j r fuel Hrest) as (p'' & Hrun' & [Hlen _]); [lia|].
    rewrite Hrun' in Hrun. injection Hrun as <-.
    apply list_lookup_insert_eq. rewrite Hlen. by eapply lookup_lt_Some.
Qed.

Lemma _find_rec_compressed p i r fuel :
  p !! i = Some r → p !! r = Some r → 1 < fuel ∨ (i = r ∧ 0 < fuel) →
  _find_rec fuel p i = Some (p, r).
Proof.
  intros Hi Hr Hfuel. destruct fuel as [|fuel]; [lia|]. cbn [_find_rec]. rewrite Hi.
  destruct (decide (r = i)) as [->|Hne]; [done|].
  destruct fuel as [|fuel]; [lia|]. cbn [_find_rec]. rewrite Hr.
  rewrite decide_True by done. by rewrite list_insert_id.
Qed.

End uf_more_find.

(** X4.  [_find] on a slot of a forest returns the root of the slot, hangs
    the slot directly under that root, and changes neither the sets nor
    the other fields; a second call returns the same root and changes
    nothing at all. *)
Theorem _find_compresses_and_is_idempotent (uf : helpers.UnionFind) (i : nat) :
  uf_spec.forest (helpers.par uf) → i < length (helpers.par uf) →
  ∃ uf1 r k,
    helpers._find uf i = Some (uf1, r) ∧
    uf_spec.path_to (helpers.par uf) k i r ∧
    helpers.idx uf1 = helpers.idx uf ∧ helpers.rank uf1 = helpers.rank uf ∧
    length (helpers.par uf1) = length (helpers.par uf) ∧
    helpers.par uf1 !! i = Some r ∧ helpers.par uf1 !! r = Some r ∧
    (∀ x y, uf_spec.same_set (helpers.par uf1) x y ↔
            uf_spec.same_set (helpers.par uf) x y) ∧
    helpers._find uf1 i = Some (uf1, r).
Proof.
  intros Hf Hi. destruct (Hf i Hi) as (k & r & Hpath).
  destruct (_find_rec_points_to_root _ k i r (length (helpers.par uf)) Hpath)
    as (p' & Hrun & Hkept & Hpi & Hpr); [by eapply path_to_bound|].
  exists {| helpers.idx := helpers.idx uf; helpers.par := p';
            helpers.rank := helpers.rank uf |}, r, k.
  unfold helpers._find. rewrite Hrun. cbn [helpers.idx helpers.par helpers.rank].
  split_and!; try done.
  - apply Hkept.
  - intros x y. by apply roots_kept_same_set.
  - rewrite _find_rec_compressed with (r := r); [done..|].
    destruct (decide (i = r)) as [->|Hne].
    + right. split; [done|]. apply lookup_lt_Some in Hpi. lia.
    + left. apply lookup_lt_Some in Hpi. apply lookup_lt_Some in Hpr. lia.
Qed.

(** A chain of three slots: the first call hangs slot 0 under the root 2. *)
Lemma _find_compresses_and_is_idempotent_witness :
  ∃ uf1 r k,
    helpers._find {| helpers.idx := []; helpers.par := [1; 2; 2];
                     helpers.rank := [0; 0; 0] |} 0 = Some (uf1, r) ∧
    uf_spec.path_to [1; 2; 2] k 0 r ∧
    helpers.idx uf1 = [] ∧ helpers.rank uf1 = [0; 0; 0] ∧
    length (helpers.par uf1) = 3 ∧
    helpers.par uf1 !! 0 = Some r ∧ helpers.par uf1 !! r = Some r ∧
    (∀ x y, uf_spec.same_set (helpers.par uf1) x y ↔ uf_spec.same_set [1; 2; 2] x y) ∧
    helpers._find uf1 0 = Some (uf1, r).
Proof.
  apply (_find_compresses_and_is_idempotent
           {| helpers.idx := []; helpers.par := [1; 2; 2]; helpers.rank := [0; 0; 0] |} 0).
  - intros i Hi. cbn in Hi.
    assert (uf_spec.path_to [1; 2; 2] 0 2 2) as H2 by by constructor.
    assert (uf_spec.path_to [1; 2; 2] 1 1 2) as H1 by by econstructor.
    destruct i as [|[|[|i]]]; [| | |lia].
    + exists 2, 2. by econstructor.
    + by exists 1, 2.
    + by exists 0, 2.
  - cbn. lia.
Defined.

(** *** Union by rank *)

Section uf_rank.
Import helpers uf_spec.

(** What [_find] returns is the root of the slot. *)
Lemma _find_rec_path fuel p i p' r :
  _find_rec fuel p i = Some (p', r) → ∃ k, path_to p k i r.
Proof.
  revert i p' r. induction fuel as [|fuel IH]; intros i p' r Hrun; [done|].
  cbn [_find_rec] in Hrun. destruct (p !! i) as [pi|] eqn:Hi; [|done].
  destruct (decide (pi = i)) as [->|Hne].
  - injection Hrun as <- <-. exists 0. by constructor.
  - destruct (_find_rec fuel p pi) as [[p'' r'']|] eqn:Hrec; [|done].
    injection Hrun as <- <-. destruct (IH _ _ _ Hrec) as [k Hk].
    exists (S k). by econstructor.
Qed.

(** A slot that [_find] rewrites hangs under the root it led to. *)
Lemma _find_rec_edges fuel p i p' r x y :
  _find_rec fuel p i = Some (p', r) →
  p' !! x = Some y → y ≠ x →
  p !! x = Some y ∨ ∃ k, path_to p (S k) x y.
Proof.
  revert i p' r. induction fuel as [|fuel IH]; intros i p' r Hrun Hx Hne; [done|].
  cbn [_find_rec] in Hrun. destruct (p !! i) as [pi|] eqn:Hi; [|done].
  destruct (decide (pi = i)) as [->|Hpi].
  - injection Hrun as <- <-. by left.
  - destruct (_find_rec fuel p pi) as [[p'' r'']|] eqn:Hrec; [|done].
    injection Hrun as <- <-.
    destruct (decide (x = i)) as [->|Hxi].
    + destruct (_find_rec_path _ _ _ _ _ Hrec) as [k Hk].
      destruct (_find_rec_spec p k pi r'' (S k) Hk) as (p3 & _ & [Hlen _]); [lia|].
      assert (length p'' = length p) as Hlen''.
      { destruct (_find_rec_spec p k pi r'' fuel Hk) as (p4 & Hrun4 & [Hl4 _]).
        - destruct fuel as [|fuel']; [done|].
          pose proof (path_to_bound _ _ _ _ Hk).
          destruct (decide (k < S fuel')); [done|].
          exfalso. clear IH Hx Hlen p3.
          assert (∀ f q a, _find_rec f p a = Some q → ∀ k', path_to p k' a q.2 → k' < f)
            as Hdepth.
          { induction f as [|f IHf]; intros q a Hq k' Hk'; [done|].
            cbn [_find_rec] in Hq. destruct (p !! a) as [pa|] eqn:Ha; [|done].
            destruct (decide (pa = a)) as [->|Hpa].
            - injection Hq as <-. cbn [snd] in Hk'.
              inversion Hk' as [|? j ? ? Hj Hjne]; subst; [lia|]. congruence.
            - destruct (_find_rec f p pa) as [[q1 q2]|] eqn:Hq1; [|done].
              injection Hq as <-. cbn [snd] in Hk'.
              inversion Hk' as [? Hroot|? j ? k'' Hj Hjne Hrest]; subst.
              + congruence.
              + assert (j = pa) as -> by congruence.
                pose proof (IHf _ _ Hq1 k'' Hrest). lia. }
          pose proof (Hdepth _ _ _ Hrec k Hk). lia.
        - rewrite Hrec in Hrun4. injection Hrun4 as <-. done. }
      rewrite list_lookup_insert_eq in Hx by (rewrite Hlen''; by eapply lookup_lt_Some).
      injection Hx as <-. right. exists k. by econstructor.
    + rewrite list_lookup_insert_ne in Hx by done. by eapply IH.
Qed.

End uf_rank.

Section uf_rank_invariant.
Import helpers uf_spec.

Lemma _find_inv uf i uf1 r :
  _find uf i = Some (uf1, r) →
  ∃ p1 k, _find_rec (length (par uf)) (par uf) i = Some (p1, r) ∧
          uf1 = {| idx := idx uf; par := p1; rank := rank uf |} ∧
          path_to (par uf) k i r ∧ roots_kept (par uf) p1 ∧ p1 !! r = Some r.
Proof.
  unfold _find. destruct (_find_rec _ _ _) as [[p1 r1]|] eqn:Hrun; [|done].
  intros [= <- <-]. destruct (_find_rec_path _ _ _ _ _ Hrun) as [k Hk].
  destruct (_find_rec_points_to_root _ k i r1 (length (par uf)) Hk)
    as (p' & Hrun' & Hkept & _ & Hroot); [by eapply path_to_bound|].
  rewrite Hrun in Hrun'. injection Hrun' as <-. by exists p1, k.
Qed.

Lemma rank_along_path uf k i r :
  rank_ordered uf → length (rank uf) = length (par uf) →
  path_to (par uf) k i r →
  ∃ ki kr, rank uf !! i = Some ki ∧ rank uf !! r = Some kr ∧ ki + k ≤ kr.
Proof.
  intros Hord Hlen Hpath. induction Hpath as [r Hr|i j r k Hi Hne Hpath IH].
  - destruct (lookup_lt_is_Some_2 (rank uf) r) as [kr Hkr].
    { rewrite Hlen. by eapply lookup_lt_Some. }
    exists kr, kr. split; [done|]. split; [done|lia].
  - destruct (Hord i j Hi Hne) as (ki & kj & Hki & Hkj & Hlt).
    destruct IH as (kj' & kr & Hkj' & Hkr & Hle).
    exists ki, kr. split; [done|]. split; [done|].
    assert (kj' = kj) by congruence. lia.
Qed.

Lemma _find_keeps_rank_ordered uf i uf1 r :
  rank_ordered uf → length (rank uf) = length (par uf) →
  _find uf i = Some (uf1, r) → rank_ordered uf1.
Proof.
  intros Hord Hlen Hf. apply _find_inv in Hf as (p1 & k & Hrun & -> & _).
  intros x y Hx Hne. cbn [par rank] in *.
  destruct (_find_rec_edges _ _ _ _ _ _ _ Hrun Hx Hne) as [Hold|[k' Hpath]].
  - by apply Hord.
  - destruct (rank_along_path uf (S k') x y Hord Hlen Hpath) as (kx & ky & ? & ? & ?).
    exists kx, ky. split; [done|]. split; [done|lia].
Qed.

Lemma union_keeps_rank_ordered uf a b uf' :
  length (rank uf) = length (par uf) → rank_ordered uf →
  union uf a b = Some uf' → rank_ordered uf'.
Proof.
  intros Hlen Hord Hun. unfold union in Hun.
  destruct (dict_get (idx uf) a) as [ia|]; [|done]. cbn [mbind option_bind] in Hun.
  destruct (_find uf ia) as [[uf1 ra]|] eqn:Hf1; [|done].
  cbn [mbind option_bind] in Hun.
  destruct (dict_get (idx uf1) b) as [ib|]; [|done]. cbn [mbind option_bind] in Hun.
  destruct (_find uf1 ib) as [[uf2 rb]|] eqn:Hf2; [|done].
  cbn [mbind option_bind] in Hun.
  pose proof (_find_keeps_rank_ordered _ _ _ _ Hord Hlen Hf1) as Hord1.
  destruct (_find_inv _ _ _ _ Hf1) as (p1 & k1 & _ & Huf1 & _ & [Hlen1 _] & Hra1).
  assert (length (rank uf1) = length (par uf1)) as Hlen1'.
  { subst uf1. cbn [rank par]. congruence. }
  pose proof (_find_keeps_rank_ordered _ _ _ _ Hord1 Hlen1' Hf2) as Hord2.
  destruct (_find_inv _ _ _ _ Hf2) as (p2 & k2 & _ & Huf2 & _ & Hkept2 & Hrb2).
  assert (par uf2 !! ra = Some ra) as Hra2.
  { subst uf2 uf1. cbn [par] in *. destruct Hkept2 as [_ Hk].
    destruct (Hk ra 0 ra) as (k' & Hp); [by constructor|]. by eapply path_to_is_root. }
  assert (par uf2 !! rb = Some rb) as Hrb2' by (subst uf2; done).
  clear Hf1 Hf2 Huf1 Huf2 Hord Hord1.
  destruct (decide (ra = rb)) as [|Hne]; [by injection Hun as <-|].
  destruct (rank uf2 !! ra) as [ka|] eqn:Hka; [|done]. cbn [mbind option_bind] in Hun.
  destruct (rank uf2 !! rb) as [kb|] eqn:Hkb; [|done]. cbn [mbind option_bind] in Hun.
  pose proof (lookup_lt_Some _ _ _ Hra2) as Hlta.
  pose proof (lookup_lt_Some _ _ _ Hrb2') as Hltb.
  destruct (ka <? kb) eqn:Hab; [|destruct (kb <? ka) eqn:Hba];
    injection Hun as <-; intros x y Hx Hxy; cbn [par rank] in *.
  - apply Nat.ltb_lt in Hab. destruct (decide (x = ra)) as [->|Hxa].
    + rewrite list_lookup_insert_eq in Hx by done. injection Hx as <-.
      by exists ka, kb.
    + rewrite list_lookup_insert_ne in Hx by done. by apply Hord2.
  - apply Nat.ltb_lt in Hba. destruct (decide (x = rb)) as [->|Hxb].
    + rewrite list_lookup_insert_eq in Hx by done. injection Hx as <-.
      by exists kb, ka.
    + rewrite list_lookup_insert_ne in Hx by done. by apply Hord2.
  - apply Nat.ltb_ge in Hab. apply Nat.ltb_ge in Hba.
    assert (ra < length (rank uf2)) as Hlra by by eapply lookup_lt_Some.
    destruct (decide (x = rb)) as [->|Hxb].
    + rewrite list_lookup_insert_eq in Hx by done. injection Hx as <-.
      exists kb, (S ka). rewrite list_lookup_insert_ne by done.
      rewrite list_lookup_insert_eq by done. split; [done|]. split; [done|lia].
    + rewrite list_lookup_insert_ne in Hx by done.
      destruct (Hord2 x y Hx Hxy) as (kx & ky & Hkx & Hky & Hlt).
      assert (x ≠ ra) as Hxa by (intros ->; congruence).
      rewrite list_lookup_insert_ne by done.
      destruct (decide (y = ra)) as [->|Hya].
      * rewrite list_lookup_insert_eq by done. exists kx, (S ka).
        split; [done|]. split; [done|]. assert (ky = ka) by congruence. lia.
      * rewrite list_lookup_insert_ne by done. by exists kx, ky.
Qed.

End uf_rank_invariant.

(** X16.  Union by rank keeps the trees shallow.  In a structure just
    built, and after every [union] that returns, the rank goes up along
    every parent pointer; [union] also keeps the structure well formed.
    Hence the path from a slot to its root, which is as deep as the
    recursion of [_find] goes, is never longer than the rank of that
    root minus the rank of the slot. *)
Theorem union_by_rank_keeps_trees_shallow (elems : list string) :
  NoDup elems →
  uf_spec.rank_ordered (helpers.UnionFind_init elems) ∧
  (∀ uf a b uf',
     uf_spec.uf_wf elems uf → uf_spec.rank_ordered uf →
     helpers.union uf a b = Some uf' →
     uf_spec.uf_wf elems uf' ∧ uf_spec.rank_ordered uf') ∧
  (∀ uf k i r,
     uf_spec.uf_wf elems uf → uf_spec.rank_ordered uf →
     uf_spec.path_to (helpers.par uf) k i r →
     ∃ ki kr, helpers.rank uf !! i = Some ki ∧ helpers.rank uf !! r = Some kr ∧
              ki + k ≤ kr).
Proof.
  intros Hnd. split_and!.
  - intros i j Hi Hne. cbn [helpers.UnionFind_init helpers.par] in Hi.
    apply lookup_seq in Hi as [-> _]. done.
  - intros uf a b uf' Hwf Hord Hun. split.
    + destruct (decide (a ∈ elems)) as [Ha|Ha];
        [destruct (decide (b ∈ elems)) as [Hb|Hb]|].
      * apply list_elem_of_lookup in Ha as [ia Ha].
        apply list_elem_of_lookup in Hb as [ib Hb].
        destruct (union_spec elems uf a b ia ib Hnd Hwf Ha Hb) as (uf'' & Hun' & ? & _).
        congruence.
      * exfalso. destruct Hwf as (Hidx & _). unfold helpers.union in Hun.
        destruct (dict_get (helpers.idx uf) a) as [ia|]; [|done].
        cbn [mbind option_bind] in Hun.
        destruct (helpers._find uf ia) as [[uf1 ra]|] eqn:Hf1; [|done].
        cbn [mbind option_bind] in Hun.
        destruct (dict_get (helpers.idx uf1) b) as [ib|] eqn:Hgb; [|done].
        rewrite (_find_keeps_idx _ _ _ _ Hf1), Hidx in Hgb.
        apply idx_known in Hgb. apply Hb. by eapply list_elem_of_lookup_2.
      * exfalso. destruct Hwf as (Hidx & _). unfold helpers.union in Hun.
        destruct (dict_get (helpers.idx uf) a) as [ia|] eqn:Hga; [|done].
        rewrite Hidx in Hga. apply idx_known in Hga.
        apply Ha. by eapply list_elem_of_lookup_2.
    + destruct Hwf as (_ & Hlp & Hlr & _).
      eapply union_keeps_rank_ordered; [|done..]. congruence.
  - intros uf k i r (_ & Hlp & Hlr & _) Hord Hpath.
    apply rank_along_path; [done|congruence|done].
Qed.

(** After "oak" and "ash" are united, "oak" is a root of rank 1 with "ash"
    under it. *)
Lemma union_by_rank_keeps_trees_shallow_witness :
  uf_spec.rank_ordered (helpers.UnionFind_init ["oak"; "elm"; "ash"]) ∧
  (∀ uf a b uf',
     uf_spec.uf_wf ["oak"; "elm"; "ash"] uf → uf_spec.rank_ordered uf →
     helpers.union uf a b = Some uf' →
     uf_spec.uf_wf ["oak"; "elm"; "ash"] uf' ∧ uf_spec.rank_ordered uf') ∧
  (∀ uf k i r,
     uf_spec.uf_wf ["oak"; "elm"; "ash"] uf → uf_spec.rank_ordered uf →
     uf_spec.path_to (helpers.par uf) k i r →
     ∃ ki kr, helpers.rank uf !! i = Some ki ∧ helpers.rank uf !! r = Some kr ∧
              ki + k ≤ kr).
Proof.
  apply (union_by_rank_keeps_trees_shallow ["oak"; "elm"; "ash"]).
  repeat (apply NoDup_cons; split; [set_solver|]). apply NoDup_nil_2.
Defined.

Lemma union_by_rank_example :
  helpers.union (helpers.UnionFind_init ["oak"; "elm"; "ash"]) "oak" "ash"
  = Some {| helpers.idx := [("oak", 0); ("elm", 1); ("ash", 2)];
            helpers.par := [0; 1; 0]; helpers.rank := [1; 0; 0] |}.
Proof. reflexivity. Qed.

(** ** More on the conflict resolver of [main.py] *)

Section resolver_more.
Import helpers main resolver_spec.
Variable reconstructor : AddressRecord → string.

Lemma process_bucket_absent st aid col items :
  list_find (λ a, AID a = aid) (fa_rows (df_fa st)) = None →
  process_bucket reconstructor st ((aid, col), items) = Some st.
Proof. intros H. unfold process_bucket. by rewrite H. Qed.

Lemma process_buckets_fixed buckets st :
  (∀ b, b ∈ buckets → process_bucket reconstructor st b = Some st) →
  process_buckets reconstructor buckets st = Some st.
Proof.
  induction buckets as [|b buckets IH]; intros Hall; [done|].
  cbn [process_buckets]. rewrite Hall by by left. cbn [mbind option_bind].
  apply IH. intros b' Hb'. apply Hall. by right.
Qed.

Lemma bucket_has_proposal ps aid col items :
  ((aid, col), items) ∈ build_bucket ps →
  items = partition aid col ps ∧ ∃ p, p ∈ ps ∧ target p = (aid, col).
Proof.
  intros [-> Hne]%build_bucket_elem. split; [done|].
  destruct (partition aid col ps) as [|p items] eqn:Hp; [done|].
  assert (p ∈ partition aid col ps) as Hin by (rewrite Hp; by left).
  apply list_elem_of_filter in Hin as [? ?]. by exists p.
Qed.

Lemma process_bucket_keeps_cell st aid' col' items st' i row col :
  process_bucket reconstructor st ((aid', col'), items) = Some st' →
  fa_rows (df_fa st) !! i = Some row →
  (aid', col') ≠ (AID row, col) →
  ∃ row', fa_rows (df_fa st') !! i = Some row' ∧ AID row' = AID row ∧
          get_col row' col = get_col row col.
Proof.
  intros Hrun Hi Hne.
  destruct (process_bucket_rows reconstructor _ _ _ _ _ Hrun) as (_ & clones & Hshape).
  destruct Hshape as [->|(j & rowj & v & Hfind & ->)].
  { exists row. split; [by apply lookup_app_l_Some|done]. }
  apply list_find_Some in Hfind as (Hj & Haid & _).
  destruct (decide (i = j)) as [->|Hij].
  - assert (rowj = row) as -> by congruence.
    eexists. split; [apply lookup_app_l_Some, list_lookup_insert_eq;
                     by eapply lookup_lt_Some|].
    split; [apply written_row_AID|]. apply written_row_other. congruence.
  - exists row. split; [|done].
    apply lookup_app_l_Some. by rewrite list_lookup_insert_ne.
Qed.

Lemma process_buckets_keep_cell buckets st st' i row col :
  process_buckets reconstructor buckets st = Some st' →
  fa_rows (df_fa st) !! i = Some row →
  (AID row, col) ∉ keys buckets →
  ∃ row', fa_rows (df_fa st') !! i = Some row' ∧ AID row' = AID row ∧
          get_col row' col = get_col row col.
Proof.
  revert st row. induction buckets as [|[[aid' col'] items] buckets IH];
    intros st row Hrun Hi Hnin.
  { injection Hrun as <-. by exists row. }
  cbn [process_buckets] in Hrun.
  destruct (process_bucket reconstructor st _) as [st1|] eqn:Hb; [|done].
  cbn [mbind option_bind] in Hrun.
  destruct (process_bucket_keeps_cell _ _ _ _ _ i row col Hb Hi) as (row1 & Hi1 & Ha1 & Hc1).
  { intros Heq. apply Hnin. rewrite <- Heq. by left. }
  destruct (IH st1 row1 Hrun Hi1) as (row' & Hi' & Ha' & Hc').
  { rewrite Ha1. intros Hin. apply Hnin. by right. }
  exists row'. split; [done|]. split; congruence.
Qed.

Lemma split_variant_keeps_link aid col i maj st e st' j x :
  split_variant reconstructor aid col i maj st e = Some st' →
  df_r st !! j = Some x →
  ¬ (AID_2 x = aid ∧ Some (EID_1 x) ∈ e.2) →
  df_r st' !! j = Some x.
Proof.
  destruct e as [v sup]. unfold split_variant. intros Hrun Hj Hno.
  destruct (py_eq v maj); [by injection Hrun as <-|].
  destruct (fa_rows (df_fa st) !! i) as [base|]; [|done].
  cbn [mbind option_bind] in Hrun. injection Hrun as <-. cbn [df_r].
  rewrite list_lookup_fmap, Hj. cbn [fmap option_fmap option_map].
  by rewrite decide_False.
Qed.

Lemma split_variants_keep_link aid col i maj entries st st' j x :
  split_variants reconstructor aid col i maj entries st = Some st' →
  df_r st !! j = Some x →
  (∀ e, e ∈ entries → ¬ (AID_2 x = aid ∧ Some (EID_1 x) ∈ e.2)) →
  df_r st' !! j = Some x.
Proof.
  revert st. induction entries as [|e entries IH]; intros st Hrun Hj Hno.
  { by injection Hrun as <-. }
  cbn [split_variants] in Hrun.
  destruct (split_variant reconstructor aid col i maj st e) as [st1|] eqn:H1; [|done].
  cbn [mbind option_bind] in Hrun.
  apply (IH st1 Hrun).
  - eapply split_variant_keeps_link; [exact H1|done|]. apply Hno. by left.
  - intros e' He'. apply Hno. by right.
Qed.

Lemma process_bucket_keeps_link st aid col items st' j x :
  process_bucket reconstructor st ((aid, col), items) = Some st' →
  df_r st !! j = Some x →
  (∀ p, p ∈ items → ¬ (aid = AID_2 x ∧ EID_context p = Some (EID_1 x))) →
  df_r st' !! j = Some x.
Proof.
  intros Hrun Hj Hno. unfold process_bucket in Hrun.
  destruct (list_find _ _) as [[i row]|]; [|by injection Hrun as <-].
  assert (∀ e, e ∈ build_val2eids items →
               ¬ (AID_2 x = aid ∧ Some (EID_1 x) ∈ e.2)) as Hentries.
  { intros [v s] He [Ha Hin]. apply val2eids_supporters in He as [_ Hs].
    apply Hs in Hin as (p & Hp & _ & Hc). by apply (Hno p Hp). }
  destruct (build_val2eids items) as [|[v s] [|e2 rest]] eqn:Hd.
  - done.
  - destruct (_ || _); injection Hrun as <-; done.
  - destruct (py_max vote_lt _) as [best|]; [|done]. cbn [mbind option_bind] in Hrun.
    eapply split_variants_keep_link; [exact Hrun| |exact Hentries].
    by destruct (py_ne _ _).
Qed.

End resolver_more.

Section resolver_more_theorems.
Import helpers main resolver_spec.
Variable reconstructor : AddressRecord → string.

(** X5.  Proposals whose AID is not in the address table are dropped
    without an error: when no proposal names an AID of the table the
    resolver returns the two tables and the counter as they came, with an
    empty split log. *)
Theorem proposals_for_absent_AIDs_are_dropped fa r proposals m :
  (∀ p, p ∈ proposals → original_AID p ∉ map AID (fa_rows fa)) →
  resolve_and_apply_changes reconstructor fa r proposals m
  = Some {| df_fa := fa; df_r := r; current_max_aid := m; splits := [] |}.
Proof.
  intros Habsent. unfold resolve_and_apply_changes.
  apply process_buckets_fixed. intros [[aid col] items] Hb.
  apply bucket_has_proposal in Hb as (_ & p & Hp & Ht).
  apply process_bucket_absent. cbn [df_fa]. apply list_find_None, Forall_forall.
  intros a Ha Haid. apply (Habsent p Hp).
  injection Ht as -> _. subst aid. by apply list_elem_of_fmap_2.
Qed.

(** X6.  The resolver writes only the cells that a proposal names: for
    every row of the input table and every attribute column, when no
    proposal targets that (AID, column) pair the row at the same position
    of the output still has its AID and that cell. *)
Theorem cells_without_proposal_are_kept fa r proposals m i row col :
  fa_rows fa !! i = Some row →
  (∀ p, p ∈ proposals → target p ≠ (AID row, col)) →
  ∃ st row',
    resolve_and_apply_changes reconstructor fa r proposals m = Some st ∧
    fa_rows (df_fa st) !! i = Some row' ∧ AID row' = AID row ∧
    get_col row' col = get_col row col.
Proof.
  intros Hi Hno.
  destruct (resolve_extends reconstructor fa r proposals m) as (st & Hrun & _).
  pose proof Hrun as Hrun'. unfold resolve_and_apply_changes in Hrun'.
  destruct (process_buckets_keep_cell reconstructor _ _ _ i row col Hrun' Hi)
    as (row' & ? & ? & ?).
  { intros Hin. apply build_bucket_keys in Hin.
    destruct (partition (AID row) col proposals) as [|p items] eqn:Hp; [done|].
    assert (p ∈ partition (AID row) col proposals) as Hpin by (rewrite Hp; by left).
    apply list_elem_of_filter in Hpin as [Ht Hpin]. by apply (Hno p Hpin). }
  by exists st, row'.
Qed.

(** X7.  A relationship row moves only on a proposal of its own entity for
    the AID it points to: when no proposal carries both that AID and that
    entity as context, the row is in the output unchanged, at the same
    position.  In particular proposals without a context (Rules 3b and 4)
    never repoint a relationship, even when they lead to a split. *)
Theorem links_without_own_proposal_are_kept fa r proposals m j x :
  r !! j = Some x →
  (∀ p, p ∈ proposals →
        ¬ (original_AID p = AID_2 x ∧ EID_context p = Some (EID_1 x))) →
  ∃ st, resolve_and_apply_changes reconstructor fa r proposals m = Some st ∧
        df_r st !! j = Some x.
Proof.
  intros Hj Hno.
  destruct (resolve_extends reconstructor fa r proposals m) as (st & Hrun & _).
  exists st. split; [done|]. unfold resolve_and_apply_changes in Hrun.
  assert (∀ b, b ∈ build_bucket proposals →
               ∀ p, p ∈ b.2 → ¬ (b.1.1 = AID_2 x ∧ EID_context p = Some (EID_1 x)))
    as Hbuckets.
  { intros [[aid col] items] Hb p Hp [Ha Hc]. cbn [fst snd] in *.
    apply bucket_has_proposal in Hb as (-> & _).
    apply list_elem_of_filter in Hp as [Ht Hp]. apply (Hno p Hp).
    injection Ht as Ht _. split; congruence. }
  revert Hrun Hbuckets.
  generalize (build_bucket proposals) as buckets.
  assert (df_r {| df_fa := fa; df_r := r; current_max_aid := m; splits := [] |} !! j
          = Some x) as Hstart by done.
  revert Hstart.
  generalize {| df_fa := fa; df_r := r; current_max_aid := m; splits := [] |} as st0.
  intros st0 Hstart buckets. revert st0 Hstart.
  induction buckets as [|[[aid col] items] buckets IH]; intros st0 Hstart Hrun Hbuckets.
  { by injection Hrun as <-. }
  cbn [process_buckets] in Hrun.
  destruct (process_bucket reconstructor st0 _) as [st1|] eqn:Hb; [|done].
  cbn [mbind option_bind] in Hrun.
  apply (IH st1); [|done|].
  - eapply process_bucket_keeps_link; [exact Hb|done|].
    intros p Hp. apply (Hbuckets ((aid, col), items)); [by left|done].
  - intros b Hbin. apply Hbuckets. by right.
Qed.

End resolver_more_theorems.

Section resolver_more_witnesses.
Import helpers main resolver_spec.

Lemma proposals_for_absent_AIDs_are_dropped_witness :
  resolve_and_apply_changes reconstruct_full_address examples.table_100
    examples.links_E1_E2 [examples.propose 999 (Some "E1") zip_c (Str "_54321")] 100
  = Some (examples.state_of examples.table_100 examples.links_E1_E2 100).
Proof.
  apply (proposals_for_absent_AIDs_are_dropped reconstruct_full_address
           examples.table_100 examples.links_E1_E2
           [examples.propose 999 (Some "E1") zip_c (Str "_54321")] 100).
  intros p ->%list_elem_of_singleton. cbn. intros [=]%list_elem_of_singleton.
Defined.

(** The tie on the ZIP of AID 100 leaves its city alone. *)
Lemma cells_without_proposal_are_kept_witness :
  ∃ st row',
    resolve_and_apply_changes reconstruct_full_address examples.table_100
      examples.links_E1_E2 examples.tie_2020_2021 100 = Some st ∧
    fa_rows (df_fa st) !! 0 = Some row' ∧ AID row' = 100%Z ∧
    get_col row' city_c = Str "Trenton".
Proof.
  apply (cells_without_proposal_are_kept reconstruct_full_address examples.table_100
           examples.links_E1_E2 examples.tie_2020_2021 100 0 examples.address_100 city_c).
  - reflexivity.
  - intros p Hp. unfold examples.tie_2020_2021 in Hp.
    apply elem_of_cons in Hp as [->|Hp]; [done|].
    apply list_elem_of_singleton in Hp as ->. done.
Defined.

(** E3 has no proposal of its own: its row stays on AID 100 while the tie
    between E1 and E2 splits the record. *)
Lemma links_without_own_proposal_are_kept_witness :
  ∃ st, resolve_and_apply_changes reconstruct_full_address examples.table_100
          examples.links_E1_E2_E3 examples.tie_2020_2021 100 = Some st ∧
        df_r st !! 2 = Some (examples.link "E3" 100).
Proof.
  apply (links_without_own_proposal_are_kept reconstruct_full_address examples.table_100
           examples.links_E1_E2_E3 examples.tie_2020_2021 100 2 (examples.link "E3" 100)).
  - reflexivity.
  - intros p Hp [_ Hc]. unfold examples.tie_2020_2021 in Hp.
    apply elem_of_cons in Hp as [->|Hp]; [done|].
    apply list_elem_of_singleton in Hp as ->. done.
Defined.

End resolver_more_witnesses.

Section resolver_keyed.
Import helpers main resolver_spec splitter_spec.
Variable reconstructor : AddressRecord → string.

Lemma split_variant_links_resolved aid col i maj st e st' :
  split_variant reconstructor aid col i maj st e = Some st' →
  links_resolved (fa_rows (df_fa st)) (df_r st) →
  links_resolved (fa_rows (df_fa st')) (df_r st').
Proof.
  destruct e as [v sup]. unfold split_variant. intros Hrun Hres.
  destruct (py_eq v maj); [by injection Hrun as <-|].
  destruct (fa_rows (df_fa st) !! i) as [base|]; [|done].
  cbn [mbind option_bind] in Hrun. injection Hrun as <-. cbn [df_fa df_r fa_rows].
  intros x' (x & -> & Hx)%list_elem_of_fmap. rewrite map_app, elem_of_app.
  case_decide.
  - right. cbn [AID_2 map]. apply list_elem_of_singleton.
    by destruct (has_fullAddress_c (df_fa st)).
  - left. by apply Hres.
Qed.

Lemma split_variants_links_resolved aid col i maj entries st st' :
  split_variants reconstructor aid col i maj entries st = Some st' →
  links_resolved (fa_rows (df_fa st)) (df_r st) →
  links_resolved (fa_rows (df_fa st')) (df_r st').
Proof.
  revert st. induction entries as [|e entries IH]; intros st Hrun Hres.
  { by injection Hrun as <-. }
  cbn [split_variants] in Hrun.
  destruct (split_variant reconstructor aid col i maj st e) as [st1|] eqn:H1; [|done].
  cbn [mbind option_bind] in Hrun. apply (IH st1 Hrun).
  by eapply split_variant_links_resolved.
Qed.

Lemma process_bucket_links_resolved st b st' :
  process_bucket reconstructor st b = Some st' →
  links_resolved (fa_rows (df_fa st)) (df_r st) →
  links_resolved (fa_rows (df_fa st')) (df_r st').
Proof.
  destruct b as [[aid col] items]. intros Hrun Hres. unfold process_bucket in Hrun.
  destruct (list_find _ _) as [[i row]|] eqn:Hfind; [|by injection Hrun as <-].
  apply list_find_Some in Hfind as (Hi & _ & _).
  assert (∀ v, links_resolved
                 (fa_rows (write_cell reconstructor (df_fa st) i row col v)) (df_r st))
    as Hwrite.
  { intros v x Hx. rewrite write_cell_AIDs by done. by apply Hres. }
  destruct (build_val2eids items) as [|[v s] [|e2 rest]] eqn:Hd.
  - done.
  - destruct (_ || _); injection Hrun as <-; [done|apply Hwrite].
  - destruct (py_max vote_lt _) as [best|]; [|done]. cbn [mbind option_bind] in Hrun.
    eapply split_variants_links_resolved; [exact Hrun|].
    destruct (py_ne _ _); [apply Hwrite|done].
Qed.

Lemma process_buckets_links_resolved buckets st st' :
  process_buckets reconstructor buckets st = Some st' →
  links_resolved (fa_rows (df_fa st)) (df_r st) →
  links_resolved (fa_rows (df_fa st')) (df_r st').
Proof.
  revert st. induction buckets as [|b buckets IH]; intros st Hrun Hres.
  { by injection Hrun as <-. }
  cbn [process_buckets] in Hrun.
  destruct (process_bucket reconstructor st b) as [st1|] eqn:H1; [|done].
  cbn [mbind option_bind] in Hrun. apply (IH st1 Hrun).
  by eapply process_bucket_links_resolved.
Qed.

(** At most one event per proposal. *)
Lemma dict_set_length_le {K V : Type} `{EqDecision K} (d : list (K * V)) k v :
  length (dict_set d k v) ≤ S (length d).
Proof.
  induction d as [|[k0 v0] d IH]; cbn [dict_set length]; [lia|].
  destruct (decide (k = k0)); cbn [length]; lia.
Qed.

Lemma build_val2eids_length items : length (build_val2eids items) ≤ length items.
Proof.
  induction items as [|p items IH] using rev_ind; [done|].
  rewrite build_val2eids_snoc, length_app. cbn [length]. unfold val2eids_step.
  destruct (decide _); [lia|].
  pose proof (dict_set_length_le (build_val2eids items) (proposed_value p)
                (default [] (dict_get (build_val2eids items) (proposed_value p))
                 ++ [EID_context p])). lia.
Qed.

Lemma process_bucket_events_bound st aid col items st' :
  process_bucket reconstructor st ((aid, col), items) = Some st' →
  length (splits st') ≤ length (splits st) + length items.
Proof.
  intros Hrun.
  destruct (list_find (λ a, AID a = aid) (fa_rows (df_fa st))) as [[i row]|] eqn:Hfind.
  2:{ rewrite process_bucket_absent in Hrun by done. injection Hrun as <-. lia. }
  destruct (build_val2eids items) as [|[v s] [|e2 d]] eqn:Hd.
  - unfold process_bucket in Hrun. rewrite Hfind, Hd in Hrun. done.
  - rewrite (process_bucket_single reconstructor _ _ _ _ _ _ _ _ Hfind Hd) in Hrun.
    injection Hrun as <-. case_decide; cbn [splits]; lia.
  - assert (2 ≤ length (build_val2eids items)) as Hlen by (rewrite Hd; cbn; lia).
    destruct (py_max_spec vote_lt vote_lt_irrefl vote_lt_trans (build_val2eids items))
      as (best & Hmax & _); [by rewrite Hd|].
    destruct (process_bucket_conflict reconstructor st aid col items i row best Hfind
                Hlen Hmax) as (st2 & Hrun2 & _ & _ & Hs & _).
    rewrite Hrun in Hrun2. injection Hrun2 as <-.
    rewrite Hs, length_app, length_imap. unfold minorities.
    pose proof (length_filter (λ e : value * list (option string),
                                 py_eq e.1 best.1 = false) (build_val2eids items)).
    pose proof (build_val2eids_length items). lia.
Qed.

Lemma process_buckets_events_bound buckets st st' :
  process_buckets reconstructor buckets st = Some st' →
  length (splits st') ≤ length (splits st) + length (concat (map snd buckets)).
Proof.
  revert st. induction buckets as [|[[aid col] items] buckets IH]; intros st Hrun.
  { injection Hrun as <-. cbn. lia. }
  cbn [process_buckets] in Hrun.
  destruct (process_bucket reconstructor st _) as [st1|] eqn:Hb; [|done].
  cbn [mbind option_bind] in Hrun.
  pose proof (process_bucket_events_bound _ _ _ _ _ Hb).
  pose proof (IH st1 Hrun). cbn [map snd concat]. rewrite length_app. lia.
Qed.

Lemma build_bucket_total ps : length (concat (map snd (build_bucket ps))) = length ps.
Proof.
  induction ps as [|p ps IH] using rev_ind; [done|].
  rewrite build_bucket_snoc, concat_dict_append, length_app. cbn [length]. lia.
Qed.

Lemma resolve_events_bound fa r proposals m st :
  resolve_and_apply_changes reconstructor fa r proposals m = Some st →
  length (splits st) ≤ length proposals.
Proof.
  intros Hrun. apply process_buckets_events_bound in Hrun.
  rewrite build_bucket_total in Hrun. cbn [splits length] in Hrun. lia.
Qed.

(** X8.  Keyed tables stay keyed.  Take an address table whose AIDs are
    distinct and a counter that is a 64-bit value, bounds every AID and
    stays below [2^63] when the number of proposals is added to it (the
    counter does not wrap around), with every relationship row pointing
    to a record.  The same holds of the output: the minted AIDs are new,
    the counter returned bounds every AID, and every relationship row,
    repointed or not, points to a record of the output table. *)
Theorem keyed_tables_stay_keyed fa r proposals m :
  NoDup (map AID (fa_rows fa)) →
  (∀ a, a ∈ fa_rows fa → (AID a ≤ m)%Z) →
  in_int64 m → (m + Z.of_nat (length proposals) < 2 ^ 63)%Z →
  links_resolved (fa_rows fa) r →
  ∃ st, resolve_and_apply_changes reconstructor fa r proposals m = Some st ∧
        NoDup (map AID (fa_rows (df_fa st))) ∧
        (∀ a, a ∈ fa_rows (df_fa st) → (AID a ≤ current_max_aid st)%Z) ∧
        links_resolved (fa_rows (df_fa st)) (df_r st).
Proof.
  intros Hnd Hmax Hm64 Hsmall Hres.
  destruct (resolve_extends reconstructor fa r proposals m)
    as (st & Hrun & _ & new & Hsp & Hnew & Hcount & Haids & _).
  cbn [current_max_aid df_fa splits app] in Hsp, Hnew, Hcount, Haids.
  pose proof (resolve_events_bound _ _ _ _ _ Hrun) as Hbound. rewrite Hsp in Hbound.
  assert (map new_aid new = map (λ k, (m + Z.of_nat k)%Z) (seq 1 (length new))) as Hnew'.
  { rewrite Hnew. apply map_ext_in. intros k [_ Hk]%in_seq.
    apply iter_int64_succ_small; [done|lia]. }
  assert (current_max_aid st = (m + Z.of_nat (length new))%Z) as Hcount'.
  { rewrite Hcount. apply iter_int64_succ_small; [done|lia]. }
  clear Hnew Hcount. rename Hnew' into Hnew. rename Hcount' into Hcount.
  exists st. split; [done|]. split_and!.
  - rewrite Haids, Hnew. apply NoDup_app. split; [done|]. split.
    + intros n (a & -> & Ha)%list_elem_of_fmap (k & Hk & Hin)%list_elem_of_fmap.
      apply Hmax in Ha. apply elem_of_seq in Hin. lia.
    + apply NoDup_fmap_2; [|apply NoDup_seq]. intros k1 k2. lia.
  - intros a Ha. apply (list_elem_of_fmap_2 AID) in Ha.
    change (AID <$> fa_rows (df_fa st)) with (map AID (fa_rows (df_fa st))) in Ha.
    rewrite Haids, Hnew, elem_of_app in Ha. rewrite Hcount.
    destruct Ha as [(a0 & -> & Ha0)%list_elem_of_fmap|(k & -> & Hk)%list_elem_of_fmap].
    + apply Hmax in Ha0. lia.
    + apply elem_of_seq in Hk. lia.
  - unfold resolve_and_apply_changes in Hrun.
    by apply (process_buckets_links_resolved _ _ _ Hrun).
Qed.

End resolver_keyed.

Section resolver_keyed_witness.
Import helpers main resolver_spec splitter_spec.

Lemma keyed_tables_stay_keyed_witness :
  ∃ st, resolve_and_apply_changes reconstruct_full_address examples.table_100
          examples.links_E1_E2 examples.tie_2020_2021 100 = Some st ∧
        NoDup (map AID (fa_rows (df_fa st))) ∧
        (∀ a, a ∈ fa_rows (df_fa st) → (AID a ≤ current_max_aid st)%Z) ∧
        links_resolved (fa_rows (df_fa st)) (df_r st).
Proof.
  apply (keyed_tables_stay_keyed reconstruct_full_address examples.table_100
           examples.links_E1_E2 examples.tie_2020_2021 100).
  - apply NoDup_singleton.
  - intros a ->%list_elem_of_singleton. cbn. lia.
  - by vm_compute.
  - by vm_compute.
  - intros x Hx. unfold examples.links_E1_E2 in Hx.
    apply elem_of_cons in Hx as [->|Hx]; [by left|].
    apply list_elem_of_singleton in Hx as ->. by left.
Defined.

End resolver_keyed_witness.

Section resolver_uncontested.
Import helpers main resolver_spec.
Variable reconstructor : AddressRecord → string.

Lemma NoDup_constant {A : Type} (l : list A) (v : A) :
  NoDup l → (∀ x, x ∈ l → x = v) → v ∈ l → l = [v].
Proof.
  intros Hnd Hall Hv. destruct l as [|x [|y l]].
  - by apply elem_of_nil in Hv.
  - by rewrite (Hall x) by by left.
  - exfalso. apply NoDup_cons in Hnd as [Hx _]. apply Hx.
    rewrite (Hall x) by by left. rewrite <- (Hall y) by (right; by left). by left.
Qed.

Lemma uncontested_bucket ps aid col items :
  (∀ p q, p ∈ ps → q ∈ ps → target p = target q →
          proposed_value p = proposed_value q) →
  ((aid, col), items) ∈ build_bucket ps →
  ∃ v s, build_val2eids items = [(v, s)] ∧
         ∀ p, p ∈ ps → target p = (aid, col) → proposed_value p = v.
Proof.
  intros Hunc Hb. apply bucket_has_proposal in Hb as (-> & p0 & Hp0 & Ht0).
  set (items := partition aid col ps).
  destruct (build_val2eids_ok items) as (Hnd & Hkeys & _).
  assert (keys (build_val2eids items) = [proposed_value p0]) as Hk.
  { apply NoDup_constant; [done| |].
    - intros v (p & Hp & <-)%Hkeys. apply list_elem_of_filter in Hp as [Ht Hp].
      apply Hunc; [done..|congruence].
    - apply Hkeys. exists p0. split; [|done]. by apply list_elem_of_filter. }
  destruct (build_val2eids items) as [|[v s] [|e d]]; try done.
  cbn in Hk. injection Hk as Hv0. exists v, s. split; [done|].
  intros p Hp Ht. rewrite Hv0. apply Hunc; [done..|congruence].
Qed.

Lemma list_find_AID_None (rows rows' : list AddressRecord) aid :
  map AID rows' = map AID rows →
  list_find (λ a, AID a = aid) rows = None →
  list_find (λ a, AID a = aid) rows' = None.
Proof.
  intros Hmap Hnone. apply list_find_None, Forall_forall. intros a Ha Haid.
  apply list_find_None in Hnone. rewrite Forall_forall in Hnone.
  apply (list_elem_of_fmap_2 AID) in Ha.
  change (AID <$> rows') with (map AID rows') in Ha. rewrite Hmap in Ha.
  apply list_elem_of_fmap in Ha as (a0 & Ha0 & Hin). apply (Hnone a0 Hin). congruence.
Qed.

Lemma process_buckets_single buckets st :
  (∀ b, b ∈ buckets → ∃ v s, build_val2eids b.2 = [(v, s)]) →
  ∃ st', process_buckets reconstructor buckets st = Some st' ∧
         df_r st' = df_r st ∧ current_max_aid st' = current_max_aid st ∧
         splits st' = splits st ∧
         map AID (fa_rows (df_fa st')) = map AID (fa_rows (df_fa st)).
Proof.
  revert st. induction buckets as [|[[aid col] items] buckets IH]; intros st Hall.
  { by exists st. }
  destruct (Hall ((aid, col), items)) as (v & s & Hd); [by left|]. cbn [snd] in Hd.
  assert (∃ st1, process_bucket reconstructor st ((aid, col), items) = Some st1 ∧
                 df_r st1 = df_r st ∧ current_max_aid st1 = current_max_aid st ∧
                 splits st1 = splits st ∧
                 map AID (fa_rows (df_fa st1)) = map AID (fa_rows (df_fa st)))
    as (st1 & Hrun1 & H1 & H2 & H3 & H4).
  { destruct (list_find (λ a, AID a = aid) (fa_rows (df_fa st))) as [[i row]|] eqn:Hfind.
    - rewrite (process_bucket_single reconstructor st aid col items i row v s Hfind Hd).
      case_decide; eexists; (split; [done|]); split_and!; try done.
      cbn [df_fa]. apply write_cell_AIDs. by apply list_find_Some in Hfind as (? & _).
    - rewrite process_bucket_absent by done. by exists st. }
  destruct (IH st1) as (st' & Hrun & H1' & H2' & H3' & H4').
  { intros b Hb. apply Hall. by right. }
  exists st'. cbn [process_buckets]. rewrite Hrun1. cbn [mbind option_bind].
  split; [done|]. split_and!; congruence.
Qed.

(** X9.  Proposals that do not contradict one another (any two for the
    same AID and column carry the same value) are all applied and nothing
    is split: relationships, counter and split log come back as they
    were, the AID column is unchanged, the cell named by each proposal (on
    the first record of its AID) holds the proposed value, and running
    the resolver again on its output with the same proposals returns that
    output unchanged. *)
Theorem uncontested_proposals_are_applied_once fa r proposals m :
  (∀ p q, p ∈ proposals → q ∈ proposals → target p = target q →
          proposed_value p = proposed_value q) →
  ∃ st,
    resolve_and_apply_changes reconstructor fa r proposals m = Some st ∧
    df_r st = r ∧ current_max_aid st = m ∧ splits st = [] ∧
    map AID (fa_rows (df_fa st)) = map AID (fa_rows fa) ∧
    (∀ p i row, p ∈ proposals →
       list_find (λ a, AID a = original_AID p) (fa_rows fa) = Some (i, row) →
       ∃ row', list_find (λ a, AID a = original_AID p) (fa_rows (df_fa st))
                 = Some (i, row') ∧
               get_col row' (column_to_change p) = proposed_value p) ∧
    resolve_and_apply_changes reconstructor (df_fa st) r proposals m = Some st.
Proof.
  intros Hunc. unfold resolve_and_apply_changes.
  set (st0 := {| df_fa := fa; df_r := r; current_max_aid := m; splits := [] |}).
  destruct (process_buckets_single (build_bucket proposals) st0)
    as (st & Hrun & Hr & Hm & Hs & Haids).
  { intros [[aid col] items] Hb.
    destruct (uncontested_bucket proposals aid col items Hunc Hb) as (v & s & ? & _).
    by exists v, s. }
  cbn [df_r current_max_aid splits df_fa st0] in Hr, Hm, Hs, Haids.
  assert (∀ aid col items i row,
            ((aid, col), items) ∈ build_bucket proposals →
            list_find (λ a, AID a = aid) (fa_rows fa) = Some (i, row) →
            ∃ v s row', build_val2eids items = [(v, s)] ∧
              (∀ p, p ∈ proposals → target p = (aid, col) → proposed_value p = v) ∧
              list_find (λ a, AID a = aid) (fa_rows (df_fa st)) = Some (i, row') ∧
              get_col row' col = v) as Hcell.
  { intros aid col items i row Hb Hfind.
    destruct (uncontested_bucket proposals aid col items Hunc Hb) as (v & s & Hd & Hv).
    pose proof Hb as (pre & post & Hsplit)%list_elem_of_split.
    pose proof (build_bucket_NoDup proposals) as Hndb. rewrite Hsplit in Hndb.
    unfold keys in Hndb. rewrite map_app in Hndb. cbn [map fst] in Hndb.
    apply NoDup_app in Hndb as (_ & Hpre & [Hpost _]%NoDup_cons).
    pose proof Hrun as Hrun'. rewrite Hsplit, process_buckets_app in Hrun'.
    destruct (process_buckets reconstructor pre st0) as [st1|] eqn:Hrun1; [|done].
    cbn [mbind option_bind process_buckets] in Hrun'.
    destruct (process_buckets_other reconstructor _ _ _ aid col i row Hrun1)
      as (row1 & Hfind1 & _); [|done|].
    { intros Hin. apply (Hpre _ Hin). by left. }
    rewrite (process_bucket_single reconstructor st1 aid col items i row1 v s Hfind1 Hd)
      in Hrun'.
    cbn [mbind option_bind] in Hrun'.
    pose proof Hfind1 as (Hi1 & Ha1 & _)%list_find_Some.
    set (st2 := if decide (get_col row1 col = v) then st1
                else {| df_fa := write_cell reconstructor (df_fa st1) i row1 col v;
                        df_r := df_r st1; current_max_aid := current_max_aid st1;
                        splits := splits st1 |}) in *.
    assert (∃ row2, list_find (λ a, AID a = aid) (fa_rows (df_fa st2)) = Some (i, row2) ∧
                    get_col row2 col = v) as (row2 & Hfind2 & Hcol2).
    { subst st2. case_decide; [by exists row1|].
      exists (written_row reconstructor (has_fullAddress_c (df_fa st1)) row1 col v).
      split; [|apply written_row_col].
      eapply list_find_AID_stable with (extra := []); [exact Hfind1| |].
      - cbn [df_fa]. rewrite app_nil_r. by apply write_cell_AIDs.
      - cbn [df_fa]. rewrite write_cell_rows. apply list_lookup_insert_eq.
        by eapply lookup_lt_Some. }
    destruct (process_buckets_other reconstructor _ _ _ aid col i _ Hrun' Hpost Hfind2)
      as (row3 & Hfind3 & Hcol3).
    exists v, s, row3. split_and!; try done. congruence. }
  exists st. split; [done|]. split_and!; try done.
  - intros p i row Hp Hfind.
    assert (∃ items, ((original_AID p, column_to_change p), items) ∈ build_bucket proposals)
      as (items & Hb).
    { assert ((original_AID p, column_to_change p) ∈ keys (build_bucket proposals))
        as (b & Hk & Hb)%list_elem_of_fmap.
      { apply build_bucket_keys. intros Hnil.
        assert (p ∈ partition (original_AID p) (column_to_change p) proposals) as Hin
          by by apply list_elem_of_filter.
        rewrite Hnil in Hin. by apply elem_of_nil in Hin. }
      destruct b as [k items]. cbn [fst] in Hk. subst k. by exists items. }
    destruct (Hcell _ _ _ i row Hb Hfind) as (v & s & row' & _ & Hv & Hfind' & Hcol).
    exists row'. split; [done|]. rewrite Hcol. symmetry. by apply Hv.
  - assert ({| df_fa := df_fa st; df_r := r; current_max_aid := m; splits := [] |} = st)
      as ->.
    { destruct st. cbn in *. congruence. }
    apply process_buckets_fixed. intros [[aid col] items] Hb.
    destruct (list_find (λ a, AID a = aid) (fa_rows fa)) as [[i row]|] eqn:Hfind.
    + destruct (Hcell _ _ _ i row Hb Hfind) as (v & s & row' & Hd & _ & Hfind' & Hcol).
      rewrite (process_bucket_single reconstructor st aid col items i row' v s Hfind' Hd).
      by rewrite decide_True.
    + apply process_bucket_absent. by eapply list_find_AID_None.
Qed.

End resolver_uncontested.

Section resolver_uncontested_witness.
Import helpers main resolver_spec.

(** Two entities propose the same ZIP and a rule without context proposes a
    city, all for AID 100. *)
Lemma uncontested_proposals_are_applied_once_witness :
  let proposals :=
    [examples.propose 100 (Some "E1") zip_c (Str "_54321");
     examples.propose 100 (Some "E2") zip_c (Str "_54321");
     examples.propose 100 None city_c (Str "Princeton")] in
  ∃ st,
    resolve_and_apply_changes reconstruct_full_address examples.table_100
      examples.links_E1_E2 proposals 100 = Some st ∧
    df_r st = examples.links_E1_E2 ∧ current_max_aid st = 100%Z ∧ splits st = [] ∧
    map AID (fa_rows (df_fa st)) = map AID (fa_rows examples.table_100) ∧
    (∀ p i row, p ∈ proposals →
       list_find (λ a, AID a = original_AID p) (fa_rows examples.table_100)
         = Some (i, row) →
       ∃ row', list_find (λ a, AID a = original_AID p) (fa_rows (df_fa st))
                 = Some (i, row') ∧
               get_col row' (column_to_change p) = proposed_value p) ∧
    resolve_and_apply_changes reconstruct_full_address (df_fa st) examples.links_E1_E2
      proposals 100 = Some st.
Proof.
  cbv zeta.
  apply (uncontested_proposals_are_applied_once reconstruct_full_address
           examples.table_100 examples.links_E1_E2).
  intros p q Hp Hq Ht.
  repeat (apply elem_of_cons in Hp as [->|Hp]); [| | |by apply elem_of_nil in Hp];
    (repeat (apply elem_of_cons in Hq as [->|Hq]); [| | |by apply elem_of_nil in Hq]);
    done.
Defined.

End resolver_uncontested_witness.

(** ** The derived full address *)

Section strip_facts.

Lemma lstrip_chars_no_leading l : no_leading_space (lstrip_chars l).
Proof.
  induction l as [|c l IH]; [done|]. cbn [lstrip_chars].
  destruct (is_space c) eqn:Hc; [done|]. exact Hc.
Qed.

Lemma lstrip_chars_id l : no_leading_space l → lstrip_chars l = l.
Proof. destruct l as [|c l]; [done|]. cbn. by intros ->. Qed.

Lemma lstrip_chars_split l :
  ∃ sp, l = sp ++ lstrip_chars l ∧ Forall (λ c, is_space c = true) sp.
Proof.
  induction l as [|c l (sp & Hl & Hsp)]; [by exists []|]. cbn [lstrip_chars].
  destruct (is_space c) eqn:Hc.
  - exists (c :: sp). split; [cbn; by f_equal|by constructor].
  - by exists [].
Qed.

(** Dropping the spaces at the end keeps the first character. *)
Lemma rstrip_no_leading l :
  no_leading_space l → no_leading_space (rev (lstrip_chars (rev l))).
Proof.
  intros Hl. destruct (lstrip_chars_split (rev l)) as (sp & Hsplit & Hsp).
  apply (f_equal (@rev ascii)) in Hsplit. rewrite rev_involutive, rev_app_distr in Hsplit.
  destruct (rev (lstrip_chars (rev l))) as [|c t]; [done|].
  rewrite Hsplit in Hl. exact Hl.
Qed.

Lemma strip_idempotent s : strip (strip s) = strip s.
Proof.
  unfold strip. rewrite list_ascii_of_string_of_list_ascii.
  set (l1 := lstrip_chars (list_ascii_of_string s)).
  assert (no_leading_space l1) as H1 by apply lstrip_chars_no_leading.
  rewrite (lstrip_chars_id (rev (lstrip_chars (rev l1)))) by by apply rstrip_no_leading.
  rewrite rev_involutive.
  by rewrite (lstrip_chars_id (lstrip_chars (rev l1))) by apply lstrip_chars_no_leading.
Qed.

End strip_facts.

(** X10.  [reconstruct_full_address] reads the house number, the street
    name, the city, the state and the ZIP only: the street suffix, the
    unit, the AID and the stored full address do not enter it.  An empty
    text counts as a missing cell, and the result carries no space at
    either end. *)
Theorem reconstruct_full_address_reads_five_columns (row : main.AddressRecord) :
  (∀ v, main.reconstruct_full_address (main.set_col row helpers.streetSuffix_c v)
        = main.reconstruct_full_address row) ∧
  (∀ v, main.reconstruct_full_address (main.set_col row helpers.unit_c v)
        = main.reconstruct_full_address row) ∧
  (∀ n, main.reconstruct_full_address (main.set_AID row n)
        = main.reconstruct_full_address row) ∧
  (∀ v, main.reconstruct_full_address (main.set_fullAddress_c row v)
        = main.reconstruct_full_address row) ∧
  (∀ c, main.reconstruct_full_address (main.set_col row c (Str ""))
        = main.reconstruct_full_address (main.set_col row c NaN)) ∧
  strip (main.reconstruct_full_address row) = main.reconstruct_full_address row.
Proof.
  split_and!; try done.
  - intros c. by destruct c.
  - unfold main.reconstruct_full_address. apply strip_idempotent.
Qed.

(** A record with an empty house number and no ZIP. *)
Lemma reconstruct_full_address_example :
  main.reconstruct_full_address
    {| main.AID := 7; main.fa_num1_c := Str ""; main.fa_streetName_c := Str "Main";
       main.fa_streetSuffix_c := Str "St"; main.fa_unit_c := Str "2B";
       main.fa_zip_c := NaN; main.fa_city_c := Str "Trenton";
       main.fa_state_c := Str "NJ"; main.fa_fullAddress_c := NaN |}
  = "Main Trenton NJ".
Proof. reflexivity. Qed.

(** ** More on the signature splitter of [main.py] *)

Section splitter_more.
Import helpers main splitter_spec.
Variable signature_cols : list column.

Lemma unique_two_inv {A : Type} `{EqDecision A} (l : list A) :
  1 < length (unique l) → ∃ x y, x ∈ l ∧ y ∈ l ∧ x ≠ y.
Proof.
  intros Hlen. pose proof (NoDup_unique l) as Hnd.
  destruct (unique l) as [|a [|b t]] eqn:Hu; [cbn in Hlen; lia..|].
  exists a, b. split_and!.
  - apply elem_of_unique. rewrite Hu. by left.
  - apply elem_of_unique. rewrite Hu. right. by left.
  - intros ->. apply NoDup_cons in Hnd as [Hab _]. apply Hab. by left.
Qed.

(** X11.  On an address table whose AIDs are distinct the address columns
    play no part in the detection: an AID is split exactly when two of
    its relationship rows name different entities.  When the relationship
    table has a row and no AID is shared by two entities the splitter
    returns both tables as they came; on a relationship table without
    rows it raises. *)
Theorem splitter_splits_the_shared_AIDs df_fa df_r :
  NoDup (map AID (fa_rows df_fa)) →
  (∀ aid, aid ∈ bad_aids signature_cols (merge_left df_r (fa_rows df_fa)) ↔
          ∃ x y, x ∈ df_r ∧ y ∈ df_r ∧ AID_2 x = aid ∧ AID_2 y = aid ∧
                 EID_1 x ≠ EID_1 y) ∧
  (df_r ≠ [] →
   (∀ x y, x ∈ df_r → y ∈ df_r → AID_2 x = AID_2 y → EID_1 x = EID_1 y) →
   split_conflicting_addresses signature_cols df_fa df_r = Some (df_fa, df_r)) ∧
  (df_r = [] → split_conflicting_addresses signature_cols df_fa df_r = None).
Proof.
  intros Hnd. split; [|split].
  - intros aid. unfold bad_aids. rewrite list_elem_of_filter, elem_of_groupby_keys.
    rewrite (merge_left_keyed df_r _ Hnd). split.
    + intros [Hlen _]. apply unique_two_inv in Hlen as (s1 & s2 & H1 & H2 & Hne).
      apply list_elem_of_fmap in H1 as (m1 & -> & [Ha1 Hm1]%list_elem_of_filter).
      apply list_elem_of_fmap in H2 as (m2 & -> & [Ha2 Hm2]%list_elem_of_filter).
      apply list_elem_of_fmap in Hm1 as (x & -> & Hx).
      apply list_elem_of_fmap in Hm2 as (y & -> & Hy).
      cbn [fst] in Ha1, Ha2. exists x, y. split_and!; try done.
      intros Heid. apply Hne. apply signature_same_record; [|done].
      cbn [snd]. by rewrite Ha1, Ha2.
    + intros (x & y & Hx & Hy & Hax & Hay & Hne). split.
      * unfold sigs_of.
        apply (unique_two _ (signature signature_cols (x, lookup_row (fa_rows df_fa) (AID_2 x)))
                 (signature signature_cols (y, lookup_row (fa_rows df_fa) (AID_2 y)))).
        -- apply list_elem_of_fmap_2, list_elem_of_filter. split; [done|].
           apply list_elem_of_fmap. by exists x.
        -- apply list_elem_of_fmap_2, list_elem_of_filter. split; [done|].
           apply list_elem_of_fmap. by exists y.
        -- intros Hsig. apply Hne. apply signature_same_record in Hsig; [done|].
           cbn [snd]. by rewrite Hax, Hay.
      * apply list_elem_of_fmap. exists (x, lookup_row (fa_rows df_fa) (AID_2 x)).
        split; [done|]. apply list_elem_of_fmap. by exists x.
  - intros Hne Hone. apply split_no_conflict; [done..|]. by apply bad_aids_nil.
  - by intros ->.
Qed.

(** X12.  The splitter raises (an IndexError of [iloc[0]], or on an empty
    address table already at the maximum) when an AID that two signatures
    share has no record in the address table. *)
Theorem splitter_raises_on_shared_AID_without_record df_fa df_r aid :
  aid ∈ bad_aids signature_cols (merge_left df_r (fa_rows df_fa)) →
  aid ∉ map AID (fa_rows df_fa) →
  split_conflicting_addresses signature_cols df_fa df_r = None.
Proof.
  intros Hbad Hrec.
  set (merged := merge_left df_r (fa_rows df_fa)) in *.
  rewrite split_conflicting_addresses_unfold.
  2:{ fold merged. intros Hnil. rewrite Hnil in Hbad. by apply elem_of_nil in Hbad. }
  fold merged. destruct (AID_max (fa_rows df_fa)) as [top|]; [|done].
  cbn [mbind option_bind].
  rewrite build_remap_eq by apply bad_aids_NoDup.
  set (P := remap_keys signature_cols merged (bad_aids signature_cols merged)).
  destruct (mapM _ _) as [additions|] eqn:Hm; [|done]. exfalso.
  assert (is_Some (mapM (clone_row (fa_rows df_fa)) (zip P (fresh_aids top (length P)))))
    as Hsome by (rewrite Hm; by eexists).
  apply mapM_is_Some in Hsome. rewrite Forall_forall in Hsome.
  pose proof Hbad as [Hlen _]%list_elem_of_filter.
  destruct (sigs_of signature_cols merged aid) as [|s sigs] eqn:Hs; [cbn in Hlen; lia|].
  assert ((aid, s) ∈ P) as [k Hk]%list_elem_of_lookup.
  { unfold P, remap_keys. apply elem_of_flat_map. exists aid. split; [done|].
    rewrite Hs. by left. }
  pose proof (lookup_lt_Some _ _ _ Hk) as Hlt.
  destruct (Hsome ((aid, s), Nat.iter (S k) int64_succ top)) as [c Hc].
  { apply list_elem_of_lookup. exists k. rewrite lookup_zip_with, Hk.
    cbn [mbind option_bind]. by rewrite fresh_aids_lookup. }
  unfold clone_row in Hc. cbn [fst] in Hc.
  rewrite filter_none in Hc; [done|].
  intros a Ha Haid. apply Hrec. rewrite <- Haid. by apply list_elem_of_fmap_2.
Qed.

End splitter_more.

Section splitter_more_witnesses.
Import helpers main splitter_spec.

(** AID 100 is flagged when E1 and E2 share it; with E1 alone there is
    nothing to split, and with no relationship at all the splitter
    raises. *)
Lemma splitter_splits_the_shared_AIDs_witness :
  NoDup (map AID (fa_rows examples.table_100)) ∧
  100%Z ∈ bad_aids signature_cols_default
            (merge_left examples.links_E1_E2 (fa_rows examples.table_100)) ∧
  split_conflicting_addresses signature_cols_default examples.table_100
    [examples.link "E1" 100] = Some (examples.table_100, [examples.link "E1" 100]) ∧
  split_conflicting_addresses signature_cols_default examples.table_100 [] = None.
Proof.
  assert (NoDup (map AID (fa_rows examples.table_100))) as Hnd by apply NoDup_singleton.
  split; [exact Hnd|]. split_and!.
  - apply (proj1 (splitter_splits_the_shared_AIDs signature_cols_default
                    examples.table_100 examples.links_E1_E2 Hnd) 100%Z).
    exists (examples.link "E1" 100), (examples.link "E2" 100).
    split; [by left|]. split; [right; by left|]. by split_and!.
  - apply (proj1 (proj2 (splitter_splits_the_shared_AIDs signature_cols_default
                           examples.table_100 [examples.link "E1" 100] Hnd)));
      [discriminate|].
    by intros x y ->%list_elem_of_singleton ->%list_elem_of_singleton.
  - by apply (proj2 (proj2 (splitter_splits_the_shared_AIDs signature_cols_default
                              examples.table_100 [] Hnd))).
Defined.

(** Two entities point to AID 555, which has no record. *)
Lemma splitter_raises_on_shared_AID_without_record_witness :
  split_conflicting_addresses signature_cols_default examples.table_100
    [examples.link "E1" 555; examples.link "E2" 555] = None.
Proof.
  apply (splitter_raises_on_shared_AID_without_record signature_cols_default
           examples.table_100 [examples.link "E1" 555; examples.link "E2" 555] 555).
  - vm_compute. by left.
  - vm_compute. intros [=]%list_elem_of_singleton.
Defined.

End splitter_more_witnesses.

(** ** More on the ZIP rules of [fill_missing_zip_codes.py] *)

Section zip_rules_more.
Import fill_missing_zip_codes.

Lemma agg_list_keys_notna pairs k : k ∈ keys (agg_list pairs) → key_notna k = true.
Proof.
  induction pairs as [|kz pairs IH] using rev_ind; [by intros ?%elem_of_nil|].
  rewrite agg_list_snoc. destruct (key_notna kz.1) eqn:Hkz; [|done].
  unfold dict_append. rewrite keys_dict_set. case_decide; [done|].
  intros [?|Hk]%elem_of_app; [by apply IH|].
  apply list_elem_of_singleton in Hk as ->. done.
Qed.

(** The frame [canon] holds a group exactly when the key of the group is
    present and one distinct valid ZIP occurs in it. *)
Lemma canon_get_iff rows k zip :
  dict_get (canon rows) k = Some zip ↔
  key_notna k = true ∧
  (∃ r, r ∈ rows ∧ grp r = k ∧ _valid r = true ∧ v_zip_c r = zip) ∧
  (∀ r, r ∈ rows → grp r = k → _valid r = true → v_zip_c r = zip).
Proof.
  split; [|intros (? & ? & ?); by apply canon_unique_valid].
  unfold canon. rewrite dict_get_omap; [|intros k' v k'' w|apply agg_list_NoDup].
  2:{ cbn. destruct v as [|? [|? ?]]; [done| |done]. by intros [= -> _]. }
  set (pairs := unique _).
  destruct (dict_get (agg_list pairs) k) as [l|] eqn:Hget; [|done].
  cbn [mbind option_bind fmap option_fmap option_map snd].
  destruct l as [|z0 [|z1 l]]; [done| |done]. cbn. intros [= ->].
  assert (key_notna k = true) as Hk.
  { apply (agg_list_keys_notna pairs). apply list_elem_of_fmap.
    exists (k, [zip]). split; [done|]. by apply dict_get_Some_elem. }
  rewrite agg_list_get in Hget by done.
  destruct (filter (λ kz : (string * value * string) * value, kz.1 = k) pairs)
    as [|[k0 z0] [|kz1 l]] eqn:Hf; [done| |done].
  injection Hget as ->.
  assert (∀ kz, kz ∈ pairs → kz.1 = k → kz = (k0, zip)) as Honly.
  { intros kz Hin Hkz.
    assert (kz ∈ filter (λ kz : (string * value * string) * value, kz.1 = k) pairs) as H
      by by apply list_elem_of_filter.
    rewrite Hf in H. by apply list_elem_of_singleton in H. }
  assert ((k0, zip) ∈ pairs ∧ k0 = k) as [Hin ->].
  { assert ((k0, zip) ∈ filter (λ kz : (string * value * string) * value, kz.1 = k) pairs)
      as H by (rewrite Hf; by left).
    by apply list_elem_of_filter in H as [? ?]. }
  split; [done|]. split.
  - apply (proj1 (elem_of_unique _ _)) in Hin.
    apply list_elem_of_fmap in Hin as (r & [= Hg Hz] & [Hv Hr]%list_elem_of_filter).
    by exists r.
  - intros r Hr Hg Hv.
    assert ((grp r, v_zip_c r) ∈ pairs) as Hp.
    { apply elem_of_unique, list_elem_of_fmap. exists r. split; [done|].
      by apply list_elem_of_filter. }
    apply Honly in Hp; [|done]. by injection Hp.
Qed.

Lemma key_notna_grp r : key_notna (grp r) = negb (isna (v_num1_c r)).
Proof. done. Qed.

End zip_rules_more.

(** X13.  Rule 1 proposes exactly for the blank rows of the groups that
    hold one distinct valid ZIP.  On a view with the columns of the rule
    whose ZIP column holds text, or has a valid ZIP, the rule returns the
    proposals of the selected rows; on a ZIP column of another dtype with
    no valid ZIP it raises (the AttributeError of the [.str] accessor).
    A row is selected with the ZIP [zip] exactly when its own ZIP is
    blank, its house number is present, some row of its (entity, house
    number, street) group has the valid ZIP [zip] and every valid ZIP of
    the group is [zip].  A group with no valid ZIP, or with two distinct
    ones, gets nothing. *)
Theorem rule1_selects_blank_rows_of_unambiguous_groups (view : merged_view) :
  (∀ c, c ∈ fill_missing_zip_codes.need_rule1 → c ∈ view_columns view) →
  (zip_c_object view = true ∨
   (∃ r, r ∈ view_rows view ∧ fill_missing_zip_codes._valid r = true) →
   fill_missing_zip_codes.propose_fill_missing_zips_keep view
     = Ok (map fill_missing_zip_codes.proposal_of_target
             (fill_missing_zip_codes.targets (view_rows view)))) ∧
  (zip_c_object view = false →
   (∀ r, r ∈ view_rows view → fill_missing_zip_codes._valid r = false) →
   fill_missing_zip_codes.propose_fill_missing_zips_keep view = OtherError) ∧
  ∀ r zip,
    (r, zip) ∈ fill_missing_zip_codes.targets (view_rows view) ↔
    r ∈ view_rows view ∧ fill_missing_zip_codes._blank r = true ∧
    isna (v_num1_c r) = false ∧
    (∃ r0, r0 ∈ view_rows view ∧
           fill_missing_zip_codes.grp r0 = fill_missing_zip_codes.grp r ∧
           fill_missing_zip_codes._valid r0 = true ∧ v_zip_c r0 = zip) ∧
    (∀ r1, r1 ∈ view_rows view →
           fill_missing_zip_codes.grp r1 = fill_missing_zip_codes.grp r →
           fill_missing_zip_codes._valid r1 = true → v_zip_c r1 = zip).
Proof.
  intros Hcols. split; [|split].
  - intros Hsafe. rewrite propose_fill_missing_zips_keep_run by done.
    by rewrite str_accessor_safe.
  - intros Hdtype Hnone. rewrite propose_fill_missing_zips_keep_run by done.
    by rewrite (proj2 (str_accessor_raises_iff view)).
  - intros r zip. unfold fill_missing_zip_codes.targets. rewrite list_elem_of_omap. split.
    + intros (r' & Hr' & Hsel).
      destruct (dict_get _ _) as [z0|] eqn:Hget; [|done].
      destruct (fill_missing_zip_codes._blank r') eqn:Hb; [|done].
      destruct (isna z0) eqn:Hz; [done|]. cbn in Hsel. injection Hsel as -> ->.
      apply canon_get_iff in Hget as (Hk & Hex & Hall).
      rewrite key_notna_grp in Hk. apply negb_true_iff in Hk. done.
    + intros (Hr & Hb & Hn & Hex & Hall). exists r. split; [done|].
      rewrite (proj2 (canon_get_iff (view_rows view) (fill_missing_zip_codes.grp r) zip)).
      * rewrite Hb. destruct Hex as (r0 & _ & _ & Hv & <-).
        by destruct (valid_zip_is_text r0 Hv) as [s ->].
      * rewrite key_notna_grp, Hn. done.
Qed.

(** The group of four rows with the ZIPs "_12345", "_12345", "", "". *)
Lemma rule1_selects_blank_rows_of_unambiguous_groups_witness :
  fill_missing_zip_codes.propose_fill_missing_zips_keep rule1_examples.two_valid_two_blank
    = Ok [fill_missing_zip_codes.proposal_of_target
            (rule1_examples.row_of 3 (Str ""), Str "_12345");
          fill_missing_zip_codes.proposal_of_target
            (rule1_examples.row_of 4 (Str ""), Str "_12345")] ∧
  fill_missing_zip_codes.propose_fill_missing_zips_keep rule1_examples.no_zip_on_file
    = OtherError.
Proof.
  assert (∀ c, c ∈ fill_missing_zip_codes.need_rule1 →
               c ∈ view_columns rule1_examples.two_valid_two_blank) as Hcols.
  { intros c Hc. unfold fill_missing_zip_codes.need_rule1 in Hc.
    cbn [rule1_examples.two_valid_two_blank view_columns].
    repeat (apply elem_of_cons in Hc as [->|Hc]; [set_solver|]).
    by apply elem_of_nil in Hc. }
  split.
  - rewrite (proj1 (rule1_selects_blank_rows_of_unambiguous_groups
                      rule1_examples.two_valid_two_blank Hcols));
      [reflexivity|by left].
  - apply (proj1 (proj2 (rule1_selects_blank_rows_of_unambiguous_groups
                           rule1_examples.no_zip_on_file Hcols))); [reflexivity|].
    intros r Hr. cbn [view_rows rule1_examples.no_zip_on_file] in Hr.
    repeat (apply elem_of_cons in Hr as [->|Hr]; [reflexivity|]).
    by apply elem_of_nil in Hr.
Defined.

(** X14.  Rule 3a replaces exactly the invalid ZIPs of the groups that
    hold one distinct valid ZIP.  On a view with the columns of the rule
    whose ZIP column holds text, or has a valid ZIP, the rule returns the
    proposals of the selected rows; on a ZIP column of another dtype with
    no valid ZIP it raises as Rule 1 does.  A row is selected with the
    ZIP [zip] exactly when its own ZIP is neither blank nor valid, its
    house number is present and the valid ZIPs of its group are all
    [zip], one at least.  No row is selected by both Rule 1 and
    Rule 3a. *)
Theorem rule3a_selects_invalid_rows_of_unambiguous_groups (view : merged_view) :
  (∀ c, c ∈ main.need_rule3a → c ∈ view_columns view) →
  (zip_c_object view = true ∨
   (∃ r, r ∈ view_rows view ∧ fill_missing_zip_codes._valid r = true) →
   fill_missing_zip_codes.propose_replace_invalid_zips view
     = Ok (map fill_missing_zip_codes.proposal_of_target_3a
             (fill_missing_zip_codes.targets_3a (view_rows view)))) ∧
  (zip_c_object view = false →
   (∀ r, r ∈ view_rows view → fill_missing_zip_codes._valid r = false) →
   fill_missing_zip_codes.propose_replace_invalid_zips view = OtherError) ∧
  (∀ r zip,
     (r, zip) ∈ fill_missing_zip_codes.targets_3a (view_rows view) ↔
     r ∈ view_rows view ∧ fill_missing_zip_codes._invalid r = true ∧
     isna (v_num1_c r) = false ∧
     (∃ r0, r0 ∈ view_rows view ∧
            fill_missing_zip_codes.grp r0 = fill_missing_zip_codes.grp r ∧
            fill_missing_zip_codes._valid r0 = true ∧ v_zip_c r0 = zip) ∧
     (∀ r1, r1 ∈ view_rows view →
            fill_missing_zip_codes.grp r1 = fill_missing_zip_codes.grp r →
            fill_missing_zip_codes._valid r1 = true → v_zip_c r1 = zip)) ∧
  (∀ r zip zip',
     (r, zip) ∈ fill_missing_zip_codes.targets (view_rows view) →
     (r, zip') ∈ fill_missing_zip_codes.targets_3a (view_rows view) → False).
Proof.
  intros Hcols. apply missing_columns_nil in Hcols. split; [|split; [|split]].
  - intros Hsafe. rewrite propose_replace_invalid_zips_run by done.
    by rewrite str_accessor_safe.
  - intros Hdtype Hnone. rewrite propose_replace_invalid_zips_run by done.
    by rewrite (proj2 (str_accessor_raises_iff view)).
  - intros r zip. unfold fill_missing_zip_codes.targets_3a. rewrite list_elem_of_omap.
    split.
    + intros (r' & Hr' & Hsel).
      destruct (dict_get _ _) as [z0|] eqn:Hget; [|done].
      destruct (fill_missing_zip_codes._invalid r') eqn:Hb; [|done].
      destruct (isna z0) eqn:Hz; [done|]. cbn in Hsel. injection Hsel as -> ->.
      apply canon_get_iff in Hget as (Hk & Hex & Hall).
      rewrite key_notna_grp in Hk. apply negb_true_iff in Hk. done.
    + intros (Hr & Hb & Hn & Hex & Hall). exists r. split; [done|].
      rewrite (proj2 (canon_get_iff (view_rows view) (fill_missing_zip_codes.grp r) zip)).
      * rewrite Hb. destruct Hex as (r0 & _ & _ & Hv & <-).
        by destruct (valid_zip_is_text r0 Hv) as [s ->].
      * rewrite key_notna_grp, Hn. done.
  - intros r zip zip'. unfold fill_missing_zip_codes.targets,
      fill_missing_zip_codes.targets_3a. rewrite !list_elem_of_omap.
    intros (r1 & _ & H1) (r2 & _ & H2).
    destruct (dict_get _ (fill_missing_zip_codes.grp r1)); [|done].
    destruct (dict_get _ (fill_missing_zip_codes.grp r2)); [|done].
    destruct (fill_missing_zip_codes._blank r1) eqn:Hb; [|done].
    destruct (fill_missing_zip_codes._invalid r2) eqn:Hi; [|done].
    destruct (isna v); [done|]. destruct (isna v0); [done|].
    cbn in H1, H2. injection H1 as -> _. injection H2 as -> _.
    destruct (zip_states_exclusive r) as [(_ & ? & ?)|[(_ & ? & ?)|(_ & ? & ?)]];
      congruence.
Qed.

(** E1's mistyped ZIP "12345" is replaced by "_12345". *)
Lemma rule3a_selects_invalid_rows_of_unambiguous_groups_witness :
  fill_missing_zip_codes.propose_replace_invalid_zips rule3_examples.mixed_zips
    = Ok [fill_missing_zip_codes.proposal_of_target_3a
            (rule3_examples.row_for "E1" 2 (Str "12345"), Str "_12345")] ∧
  fill_missing_zip_codes.propose_replace_invalid_zips rule1_examples.no_zip_on_file
    = OtherError ∧
  (∀ r zip zip',
     (r, zip) ∈ fill_missing_zip_codes.targets (view_rows rule3_examples.mixed_zips) →
     (r, zip') ∈ fill_missing_zip_codes.targets_3a (view_rows rule3_examples.mixed_zips) →
     False).
Proof.
  assert (∀ c, c ∈ main.need_rule3a → c ∈ rule3_examples.all_columns) as Hcols.
  { intros c Hc. unfold main.need_rule3a in Hc. unfold rule3_examples.all_columns.
    repeat (apply elem_of_cons in Hc as [->|Hc]; [set_solver|]).
    by apply elem_of_nil in Hc. }
  destruct (rule3a_selects_invalid_rows_of_unambiguous_groups rule3_examples.mixed_zips
              Hcols) as (Hrun & _ & _ & Hdisj).
  split; [rewrite Hrun; [reflexivity|by left]|]. split; [|exact Hdisj].
  apply (proj1 (proj2 (rule3a_selects_invalid_rows_of_unambiguous_groups
                         rule1_examples.no_zip_on_file Hcols))); [reflexivity|].
  intros r Hr. cbn [view_rows rule1_examples.no_zip_on_file] in Hr.
  repeat (apply elem_of_cons in Hr as [->|Hr]; [reflexivity|]).
  by apply elem_of_nil in Hr.
Defined.

Section rule3b.
Import fill_missing_zip_codes.






End rule3b.



(** ** Rule 4: the canonical city of a cluster *)

Section str_keys.

Lemma string_ltb_total a b :
  String.ltb a b = false → String.eqb a b = false → String.ltb b a = true.
Proof.
  unfold String.ltb. rewrite (String.compare_antisym b a).
  destruct (String.compare a b) eqn:Hc; [|done..].
  apply String.compare_eq_iff in Hc as ->. by rewrite String.eqb_refl.
Qed.

Lemma elem_of_insert_str x y l : x ∈ insert_str y l ↔ x = y ∨ x ∈ l.
Proof.
  induction l as [|z l IH]; cbn [insert_str].
  - rewrite list_elem_of_singleton. split; [by left|]. intros [?|?%elem_of_nil]; done.
  - destruct (String.ltb y z); [by rewrite elem_of_cons|].
    destruct (String.eqb y z) eqn:Heq.
    + apply String.eqb_eq in Heq as ->. rewrite elem_of_cons. tauto.
    + rewrite !elem_of_cons, IH. tauto.
Qed.

Lemma elem_of_groupby_keys_str x l : x ∈ groupby_keys_str l ↔ x ∈ l.
Proof.
  unfold groupby_keys_str. induction l as [|y l IH]; cbn [foldr]; [done|].
  rewrite elem_of_insert_str, IH, elem_of_cons. done.
Qed.

Lemma insert_str_sorted y l :
  StronglySorted (λ a b, String.ltb a b = true) l →
  StronglySorted (λ a b, String.ltb a b = true) (insert_str y l).
Proof.
  induction 1 as [|z l Hs IH Hz]; cbn [insert_str].
  { by repeat constructor. }
  destruct (String.ltb y z) eqn:Hyz.
  - constructor; [by constructor|]. constructor; [done|].
    eapply Forall_impl; [exact Hz|]. intros w Hw. by eapply string_ltb_trans.
  - destruct (String.eqb y z) eqn:Heq; [by constructor|].
    constructor; [done|]. apply Forall_forall. intros w Hw.
    apply elem_of_insert_str in Hw as [->|Hw].
    + by apply string_ltb_total.
    + rewrite Forall_forall in Hz. by apply Hz.
Qed.

Lemma groupby_keys_str_NoDup l : NoDup (groupby_keys_str l).
Proof.
  assert (StronglySorted (λ a b, String.ltb a b = true) (groupby_keys_str l)) as Hs.
  { unfold groupby_keys_str. induction l as [|y l IH]; cbn [foldr]; [constructor|].
    by apply insert_str_sorted. }
  induction Hs as [|z k Hs IH Hz]; [constructor|].
  apply NoDup_cons. split; [|done]. intros Hin.
  rewrite Forall_forall in Hz. specialize (Hz z Hin).
  by rewrite string_ltb_irrefl in Hz.
Qed.

End str_keys.

Section concat_facts.
Context {A : Type}.

Lemma NoDup_concat_unique (ls : list (list A)) l1 l2 n :
  NoDup (concat ls) → l1 ∈ ls → l2 ∈ ls → n ∈ l1 → n ∈ l2 → l1 = l2.
Proof.
  induction ls as [|l ls IH]; intros Hnd H1 H2 Hn1 Hn2.
  { by apply elem_of_nil in H1. }
  cbn [concat] in Hnd. apply NoDup_app in Hnd as (_ & Hdisj & Hnd).
  assert (∀ l', l' ∈ ls → n ∈ l' → n ∈ concat ls) as Hcat.
  { intros l' Hl' Hn. apply elem_of_concat. by exists l'. }
  apply elem_of_cons in H1 as [->|H1]; apply elem_of_cons in H2 as [->|H2].
  - done.
  - exfalso. apply (Hdisj n Hn1). by apply (Hcat l2).
  - exfalso. apply (Hdisj n Hn2). by apply (Hcat l1).
  - by apply IH.
Qed.

End concat_facts.

Section set_all.

(** [for norm in cluster: canon_map[(zip_code, norm)] = best_city] *)
Lemma set_all_get (zip_code best : string) (cluster : list string)
    (d : list ((string * string) * string)) k :
  dict_get (fold_left (λ d norm, dict_set d (zip_code, norm) best) cluster d) k
  = if decide (k.1 = zip_code ∧ k.2 ∈ cluster) then Some best else dict_get d k.
Proof.
  revert d. induction cluster as [|n cluster IH]; intros d; cbn [fold_left].
  { rewrite decide_False; [done|]. by intros [_ ?%elem_of_nil]. }
  rewrite IH. destruct k as [z m]. cbn [fst snd].
  destruct (decide (z = zip_code ∧ m ∈ cluster)) as [[-> Hm]|Hno].
  - rewrite decide_True; [done|]. split; [done|by right].
  - destruct (decide ((zip_code, n) = (z, m))) as [[= -> ->]|Hne].
    + rewrite dict_get_set_eq. rewrite decide_True; [done|]. split; [done|by left].
    + rewrite dict_get_set_ne by done. rewrite decide_False; [done|].
      intros [-> [->|Hm]%elem_of_cons]; [done|]. by apply Hno.
Qed.

End set_all.

Section rule4_clusters.
Import helpers uf_spec fuzzy_spec.
Context {F : Type}.
Variable fdiv : nat → nat → F.
Variables fge flt : F → F → bool.
Variable distance : string → string → nat.
Variable threshold : F.

Lemma city_link_defined s1 s2 :
  s1 ≠ s2 → is_Some (city_link fdiv fge flt distance threshold s1 s2).
Proof.
  intros Hne%longer_nonzero. unfold city_link, fuzzy_search_cities.fast_prune,
    fuzzy_search_cities.close_enough, fuzzy_search_cities.true_div.
  apply Nat.eqb_neq in Hne. rewrite Hne.
  destruct (2 <? _); cbn [mbind option_bind]; [|by eexists].
  destruct (fge _ _); by eexists.
Qed.

Lemma city_clusters_defined (vs : list string) :
  NoDup vs →
  ∃ out,
    fuzzy_search_cities.propose_correct_city_names_by_zip_clusters fdiv fge flt distance
      threshold vs = Some out ∧
    NoDup (concat (map snd out)) ∧
    ∀ cl, cl ∈ out → cl.2 ≠ [] ∧ ∀ n, n ∈ cl.2 → n ∈ vs.
Proof.
  intros Hnd. rewrite city_clusters_as_visit.
  destruct (length vs <? 2).
  { exists []. split; [done|]. split; [constructor|]. by intros cl ?%elem_of_nil. }
  assert (NoDup (sort_by_len vs)) as Hs by by rewrite sort_by_len_perm.
  destruct (clusters_in_order_defined
              (city_link fdiv fge flt distance threshold) _
              (nested_pairs (sort_by_len vs)) Hs) as (out & Hrun & Hk & Hne & Hperm).
  { intros a b Hab. destruct (nested_pairs_covers _ Hs) as [Hin _].
    destruct (Hin a b Hab) as (? & ? & ?). split_and!; [done..|].
    by apply city_link_defined. }
  exists out. split; [done|]. split; [by rewrite Hperm|].
  intros [root members] Hcl. split; [by eapply Hne|].
  intros n Hn. cbn [snd] in Hn.
  assert (n ∈ concat (map snd out)) as Hin.
  { apply elem_of_concat. exists members. split; [|done].
    apply list_elem_of_fmap. by exists (root, members). }
  rewrite Hperm, sort_by_len_perm in Hin. done.
Qed.

End rule4_clusters.

Section rule4_canon.
Import helpers uf_spec fuzzy_spec.
Context {F : Type}.
Variable fdiv : nat → nat → F.
Variables fge flt : F → F → bool.
Variable distance : string → string → nat.
Variable threshold : F.

Lemma cluster_entries_run df z d (members : list string) :
  (∃ r, r ∈ group_of df z ∧ rule4.city_norm r ∈ members) →
  ∃ d', rule4.cluster_entries df (group_of df z) z d members = Some d' ∧
    ∀ k, dict_get d' k
         = if decide (length members ≠ 1 ∧ k.1 = z ∧ k.2 ∈ members)
           then py_max (rule4.city_lt df z) (originals_of df z members)
           else dict_get d k.
Proof.
  intros (r & Hr & Hn). unfold rule4.cluster_entries.
  destruct (length members =? 1) eqn:Hlen.
  { apply Nat.eqb_eq in Hlen. exists d. split; [done|]. intros k.
    rewrite decide_False; [done|]. intros [? _]. done. }
  apply Nat.eqb_neq in Hlen. fold (originals_of df z members).
  assert (rule4.city_text r ∈ originals_of df z members) as Hin.
  { unfold originals_of. apply elem_of_unique, list_elem_of_fmap_2.
    by apply list_elem_of_filter. }
  destruct (originals_of df z members) as [|c cs] eqn:Ho;
    [by apply elem_of_nil in Hin|].
  cbn [py_max mbind option_bind]. eexists. split; [done|]. intros k.
  rewrite set_all_get. destruct (decide (k.1 = z ∧ k.2 ∈ members)) as [[? ?]|Hno].
  - by rewrite decide_True.
  - rewrite decide_False; [done|]. intros (_ & ? & ?). by apply Hno.
Qed.

Lemma group_fold_holds df z done out cls_done todo d :
  z ∉ done → out = cls_done ++ todo →
  NoDup (concat (map snd out)) →
  (∀ cl, cl ∈ out → cl.2 ≠ [] ∧ ∀ n, n ∈ cl.2 → n ∈ variants_of df z) →
  canon_map_holds fdiv fge flt distance threshold df done z cls_done d →
  ∃ d',
    fold_left (λ acc cl, d ← acc; rule4.cluster_entries df (group_of df z) z d cl.2)
      todo (Some d) = Some d' ∧
    canon_map_holds fdiv fge flt distance threshold df done z out d'.
Proof.
  intros Hz Hout Hnd Hcl. revert cls_done d Hout.
  induction todo as [|cl todo IH]; intros cls_done d Hout Hinv.
  { rewrite app_nil_r in Hout. subst. by exists d. }
  assert (cl ∈ out) as Hclin.
  { rewrite Hout. apply elem_of_app. right. by left. }
  destruct (Hcl cl Hclin) as [Hne Hsub].
  destruct (cluster_entries_run df z d cl.2) as (d1 & Hrun & Hget).
  { destruct cl.2 as [|n ms] eqn:Hms; [done|].
    assert (n ∈ variants_of df z) as Hn by (apply Hsub; by left).
    apply (proj1 (elem_of_unique _ _)) in Hn.
    apply list_elem_of_fmap in Hn as (r & -> & Hr). exists r. split; [done|by left]. }
  cbn [fold_left mbind option_bind]. rewrite Hrun.
  apply (IH (cls_done ++ [cl]) d1); [by rewrite <- app_assoc|].
  intros k v. rewrite Hget.
  destruct (decide (length cl.2 ≠ 1 ∧ k.1 = z ∧ k.2 ∈ cl.2)) as [(Hlen & Hk & Hin)|Hno].
  - split.
    + intros Hbest. right. split; [done|]. exists cl. split; [|done].
      apply elem_of_app. right. by left.
    + intros [[Hd _]|(_ & cl' & Hcl' & Hin' & _ & Hbest)]; [congruence|].
      assert (cl'.2 = cl.2) as <-; [|done].
      apply (NoDup_concat_unique (map snd out) _ _ k.2 Hnd); [| |done..].
      * apply list_elem_of_fmap_2. rewrite Hout.
        apply elem_of_app in Hcl' as [?|?%list_elem_of_singleton].
        -- apply elem_of_app. by left.
        -- subst cl'. apply elem_of_app. right. by left.
      * by apply list_elem_of_fmap_2.
  - rewrite (Hinv k v). split.
    + intros [?|(Hk & cl' & Hcl' & ?)]; [by left|]. right. split; [done|].
      exists cl'. split; [|done]. apply elem_of_app. by left.
    + intros [?|(Hk & cl' & Hcl' & Hin' & Hlen' & Hbest)]; [by left|].
      apply elem_of_app in Hcl' as [?|Heq%list_elem_of_singleton].
      * right. split; [done|]. by exists cl'.
      * subst cl'. exfalso. by apply Hno.
Qed.

Lemma canon_fold_holds df done todo d :
  NoDup (done ++ todo) →
  (∀ k v, dict_get d k = Some v ↔
          k.1 ∈ done ∧ canonical fdiv fge flt distance threshold df k v) →
  ∃ d',
    fold_left (λ acc zip_code,
                 d ← acc; rule4.group_entries fdiv fge flt distance threshold df d zip_code)
      todo (Some d) = Some d' ∧
    ∀ k v, dict_get d' k = Some v ↔
           k.1 ∈ done ++ todo ∧ canonical fdiv fge flt distance threshold df k v.
Proof.
  revert done d. induction todo as [|z todo IH]; intros done d Hnd Hinv.
  { rewrite app_nil_r. by exists d. }
  assert (z ∉ done) as Hz.
  { apply NoDup_app in Hnd as (_ & Hdisj & _). intros Hin. apply (Hdisj z Hin). by left. }
  destruct (city_clusters_defined fdiv fge flt distance threshold (variants_of df z))
    as (out & Hrun & Hndc & Hcl); [apply NoDup_unique|].
  destruct (group_fold_holds df z done out [] out d Hz eq_refl Hndc Hcl)
    as (d1 & Hfold & Hinv1).
  { intros k v. rewrite (Hinv k v). split; [by left|].
    intros [?|(_ & cl & ?%elem_of_nil & _)]; done. }
  assert (rule4.group_entries fdiv fge flt distance threshold df d z = Some d1) as Hgroup.
  { unfold rule4.group_entries. fold (group_of df z). fold (variants_of df z).
    rewrite Hrun. cbn [mbind option_bind]. exact Hfold. }
  cbn [fold_left mbind option_bind]. rewrite Hgroup.
  destruct (IH (done ++ [z]) d1) as (d' & Hrun' & Hinv').
  { by rewrite <- app_assoc. }
  { intros k v. rewrite (Hinv1 k v), elem_of_app, list_elem_of_singleton. split.
    - intros [[? ?]|(Hk & [root cluster] & Hin & Hm & Hlen & Hbest)]; [by split; [left|]|].
      split; [by right|]. exists out, root, cluster. rewrite Hk. done.
    - intros [[?|Hk] Hcan]; [by left|]. right. split; [done|].
      destruct Hcan as (out' & root & cluster & Hrun'' & Hin & Hm & Hlen & Hbest).
      rewrite Hk in Hrun'', Hbest. assert (out' = out) as -> by congruence.
      by exists (root, cluster). }
  exists d'. split; [done|]. intros k v. rewrite (Hinv' k v).
  by rewrite <- app_assoc.
Qed.

(** The dictionary of canonical cities is always built, and it holds the
    canonical city of every spelling that has one. *)
Lemma build_canon_map_spec df :
  ∃ cm, rule4.build_canon_map fdiv fge flt distance threshold df = Some cm ∧
        ∀ r best, r ∈ df →
          (dict_get cm (rule4.zip_text r, rule4.city_norm r) = Some best ↔
           canonical fdiv fge flt distance threshold df
             (rule4.zip_text r, rule4.city_norm r) best).
Proof.
  destruct (canon_fold_holds df [] (groupby_keys_str (map rule4.zip_text df)) [])
    as (cm & Hrun & Hinv).
  { apply groupby_keys_str_NoDup. }
  { intros k v. split; [done|]. by intros [?%elem_of_nil _]. }
  exists cm. split; [exact Hrun|]. intros r best Hr. rewrite (Hinv _ best).
  cbn [app fst]. rewrite elem_of_groupby_keys_str. split; [by intros [_ ?]|].
  intros Hcan. split; [|done]. by apply list_elem_of_fmap_2.
Qed.

End rule4_canon.

Section rule4_order.

Lemma city_lt_irrefl df z c : rule4.city_lt df z c c = false.
Proof.
  unfold rule4.city_lt. cbv zeta.
  by rewrite Nat.ltb_irrefl, Nat.eqb_refl, string_ltb_irrefl.
Qed.

Lemma city_lt_trans df z a b c :
  rule4.city_lt df z a b = true → rule4.city_lt df z b c = true →
  rule4.city_lt df z a c = true.
Proof.
  unfold rule4.city_lt. cbv zeta.
  rewrite !orb_true_iff, !andb_true_iff, !Nat.ltb_lt, !Nat.eqb_eq.
  intros [?|[? ?]] [?|[? ?]]; try (left; lia).
  right. split; [lia|]. by eapply string_ltb_trans.
Qed.

Lemma city_lt_false df z best c :
  rule4.city_lt df z best c = false →
  rule4.freq_get df z c < rule4.freq_get df z best ∨
  (rule4.freq_get df z c = rule4.freq_get df z best ∧ String.leb c best = true).
Proof.
  unfold rule4.city_lt. cbv zeta.
  rewrite orb_false_iff, andb_false_iff, Nat.ltb_ge, Nat.eqb_neq.
  intros [Hle [Hne|Hs]].
  - left. lia.
  - destruct (decide (rule4.freq_get df z c = rule4.freq_get df z best)); [|left; lia].
    right. split; [done|]. by apply string_ltb_false_leb.
Qed.

End rule4_order.

(** X18.  Rule 4 never raises on a view with its columns, whatever the
    distance, the threshold and the spellings.  It keeps the rows with a
    city and a valid ZIP and proposes, in row order and without a context,
    the canonical city of the cluster of the row's spelling within its
    ZIP to exactly the kept rows that have one and are spelled
    otherwise.  A row whose city is alone in its cluster, or already the
    canonical spelling, gets nothing. *)
Theorem rule4_proposes_the_canonical_city_of_the_cluster {F : Type}
    (fdiv : nat → nat → F) (fge flt : F → F → bool) (distance : string → string → nat)
    (threshold : F) (view : merged_view) :
  (∀ c, c ∈ main.need_rule4 → c ∈ view_columns view) →
  let df := filter (λ r, rule4.kept r = true) (view_rows view) in
  ∃ cm,
    rule4.build_canon_map fdiv fge flt distance threshold df = Some cm ∧
    rule4.propose_correct_city_names_by_zip fdiv fge flt distance threshold view
      = Ok (map rule4.proposal_of_fix (rule4.rows_to_fix df cm)) ∧
    (∀ r best,
       (r, best) ∈ rule4.rows_to_fix df cm ↔
       r ∈ view_rows view ∧ rule4.kept r = true ∧ best ≠ rule4.city_text r ∧
       fuzzy_spec.canonical fdiv fge flt distance threshold df
         (rule4.zip_text r, rule4.city_norm r) best) ∧
    (∀ t, helpers.EID_context (rule4.proposal_of_fix t) = None ∧
          helpers.column_to_change (rule4.proposal_of_fix t) = helpers.city_c ∧
          helpers.original_AID (rule4.proposal_of_fix t) = v_AID t.1 ∧
          helpers.proposed_value (rule4.proposal_of_fix t) = Str t.2).
Proof.
  intros Hcols df.
  destruct (build_canon_map_spec fdiv fge flt distance threshold df) as (cm & Hrun & Hcm).
  exists cm. split; [done|]. split_and!; [| |done].
  - unfold rule4.propose_correct_city_names_by_zip.
    rewrite require_columns_ok by by apply missing_columns_nil.
    unfold rule4.rule4_body. fold df. destruct df as [|r0 df0] eqn:Hdf; [done|].
    by rewrite Hrun.
  - intros r best. unfold rule4.rows_to_fix. rewrite list_elem_of_omap. split.
    + intros (r' & Hr' & Hsel).
      destruct (dict_get cm _) as [c|] eqn:Hget; [|done].
      destruct (decide (c = rule4.city_text r')) as [|Hne]; [done|].
      injection Hsel as -> ->.
      pose proof Hr' as [Hk Hin]%list_elem_of_filter.
      split; [done|]. split; [done|]. split; [done|]. by apply Hcm.
    + intros (Hr & Hk & Hne & Hcan). exists r.
      assert (r ∈ df) as Hin by by apply list_elem_of_filter.
      split; [done|]. rewrite (proj2 (Hcm r best Hin) Hcan). by rewrite decide_False.
Qed.

(** The rows of ZIP "_12345" spelled "Oak " and "oat" are given "oak",
    the spelling on file twice. *)
Lemma rule4_proposes_the_canonical_city_of_the_cluster_witness :
  rule4.propose_correct_city_names_by_zip fuzzy_spec.qdiv fuzzy_spec.qge fuzzy_spec.qlt
    fuzzy_spec.levenshtein fuzzy_spec.one_half fuzzy_spec.city_view
  = Ok [rule4.proposal_of_fix
          (fuzzy_spec.city_row 3 (Str "_12345") (Str "Oak "), "oak");
        rule4.proposal_of_fix
          (fuzzy_spec.city_row 4 (Str "_12345") (Str "oat"), "oak")].
Proof.
  destruct (rule4_proposes_the_canonical_city_of_the_cluster fuzzy_spec.qdiv
              fuzzy_spec.qge fuzzy_spec.qlt fuzzy_spec.levenshtein fuzzy_spec.one_half
              fuzzy_spec.city_view) as (cm & Hcm & Hrun & _).
  - intros c Hc. unfold main.need_rule4 in Hc.
    cbn [fuzzy_spec.city_view view_columns]. exact Hc.
  - rewrite Hrun. vm_compute in Hcm. injection Hcm as <-. reflexivity.
Defined.

(** X19.  The canonical city of a cluster is one of the spellings on file
    in that cluster and ZIP, the one on the most rows, and among those
    the greatest literal; the cluster has two spellings or more, and all
    of them have this same canonical city. *)
Theorem canonical_city_is_the_most_frequent_spelling {F : Type}
    (fdiv : nat → nat → F) (fge flt : F → F → bool) (distance : string → string → nat)
    (threshold : F) (df : list merged_row) (zip_code norm best : string) :
  fuzzy_spec.canonical fdiv fge flt distance threshold df (zip_code, norm) best →
  ∃ out root cluster,
    fuzzy_search_cities.propose_correct_city_names_by_zip_clusters fdiv fge flt distance
      threshold (fuzzy_spec.variants_of df zip_code) = Some out ∧
    (root, cluster) ∈ out ∧ norm ∈ cluster ∧ 2 ≤ length cluster ∧
    (∃ r, r ∈ df ∧ rule4.zip_text r = zip_code ∧ rule4.city_norm r ∈ cluster ∧
          rule4.city_text r = best) ∧
    (∀ r, r ∈ df → rule4.zip_text r = zip_code → rule4.city_norm r ∈ cluster →
          rule4.freq_get df zip_code (rule4.city_text r)
            < rule4.freq_get df zip_code best ∨
          (rule4.freq_get df zip_code (rule4.city_text r)
             = rule4.freq_get df zip_code best ∧
           String.leb (rule4.city_text r) best = true)) ∧
    (∀ norm', norm' ∈ cluster →
              fuzzy_spec.canonical fdiv fge flt distance threshold df
                (zip_code, norm') best).
Proof.
  intros (out & root & cluster & Hrun & Hin & Hn & Hlen & Hbest). cbn [fst snd] in *.
  exists out, root, cluster. split; [done|]. split; [done|]. split; [done|].
  destruct (city_clusters_defined fdiv fge flt distance threshold
              (fuzzy_spec.variants_of df zip_code)) as (out' & Hrun' & _ & Hcl);
    [apply NoDup_unique|].
  assert (out' = out) as -> by congruence.
  destruct (Hcl _ Hin) as [Hne _]. cbn [snd] in Hne.
  split; [destruct cluster as [|? [|? ?]]; cbn in *; [done|done|lia]|].
  assert (fuzzy_spec.originals_of df zip_code cluster ≠ []) as Hone.
  { intros Hnil. by rewrite Hnil in Hbest. }
  destruct (py_max_spec (rule4.city_lt df zip_code) (city_lt_irrefl df zip_code)
              (city_lt_trans df zip_code) _ Hone) as (best' & Hbest' & Hmem & Hmax).
  assert (best' = best) as -> by congruence.
  split_and!.
  - apply (proj1 (elem_of_unique _ _)) in Hmem.
    apply list_elem_of_fmap in Hmem as (r & -> & [Hc [Hz Hr]%list_elem_of_filter]%list_elem_of_filter).
    by exists r.
  - intros r Hr Hz Hc. apply city_lt_false, Hmax.
    apply elem_of_unique, list_elem_of_fmap_2, list_elem_of_filter. split; [done|].
    by apply list_elem_of_filter.
  - intros norm' Hn'. by exists out, root, cluster.
Qed.

Lemma canonical_city_is_the_most_frequent_spelling_witness :
  let df := filter (λ r, rule4.kept r = true) (view_rows fuzzy_spec.city_view) in
  ∃ out root cluster,
    fuzzy_search_cities.propose_correct_city_names_by_zip_clusters fuzzy_spec.qdiv
      fuzzy_spec.qge fuzzy_spec.qlt fuzzy_spec.levenshtein fuzzy_spec.one_half
      (fuzzy_spec.variants_of df "_12345") = Some out ∧
    (root, cluster) ∈ out ∧ "oat" ∈ cluster ∧ 2 ≤ length cluster ∧
    (∃ r, r ∈ df ∧ rule4.zip_text r = "_12345" ∧ rule4.city_norm r ∈ cluster ∧
          rule4.city_text r = "oak") ∧
    (∀ r, r ∈ df → rule4.zip_text r = "_12345" → rule4.city_norm r ∈ cluster →
          rule4.freq_get df "_12345" (rule4.city_text r)
            < rule4.freq_get df "_12345" "oak" ∨
          (rule4.freq_get df "_12345" (rule4.city_text r)
             = rule4.freq_get df "_12345" "oak" ∧
           String.leb (rule4.city_text r) "oak" = true)) ∧
    (∀ norm', norm' ∈ cluster →
              fuzzy_spec.canonical fuzzy_spec.qdiv fuzzy_spec.qge fuzzy_spec.qlt
                fuzzy_spec.levenshtein fuzzy_spec.one_half df ("_12345", norm') "oak").
Proof.
  cbv zeta.
  apply (canonical_city_is_the_most_frequent_spelling fuzzy_spec.qdiv fuzzy_spec.qge
           fuzzy_spec.qlt fuzzy_spec.levenshtein fuzzy_spec.one_half).
  exists [(0, ["oak"; "oat"]); (2, ["elm street"])], 0, ["oak"; "oat"].
  split; [vm_compute; reflexivity|]. split; [by left|]. split; [set_solver|].
  split; [cbn; lia|]. vm_compute. reflexivity.
Defined.

Section city_order.
Import helpers uf_spec fuzzy_spec.
Context {F : Type}.
Variable fdiv : nat → nat → F.
Variables fge flt : F → F → bool.
Variable distance : string → string → nat.
Variable threshold : F.

Lemma city_link_sym s1 s2 :
  (∀ a b, distance a b = distance b a) →
  city_link fdiv fge flt distance threshold s1 s2
  = city_link fdiv fge flt distance threshold s2 s1.
Proof.
  intros Hsym. unfold city_link, fuzzy_search_cities.close_enough.
  by rewrite (abs_diff_comm (String.length s1)), (Nat.max_comm (String.length s1)),
    (Hsym s1).
Qed.

End city_order.

(** X20.  The clusters of the city rule do not depend on the order of the
    spellings either.  For distinct spellings, a rearrangement of them and
    a symmetric edit distance the rule's clustering returns on both and
    puts the same spellings together; with two spellings or more the
    result is a partition and two spellings are together exactly when a
    chain of pairs that pass the test (not pruned on their lengths,
    distance ratio under the threshold) joins them. *)
Theorem city_clusters_do_not_depend_on_order {F : Type} (fdiv : nat → nat → F)
    (fge flt : F → F → bool) (distance : string → string → nat) (threshold : F)
    (vs vs' : list string) :
  (∀ a b, distance a b = distance b a) →
  NoDup vs → vs ≡ₚ vs' →
  ∃ out out',
    fuzzy_search_cities.propose_correct_city_names_by_zip_clusters fdiv fge flt distance
      threshold vs = Some out ∧
    fuzzy_search_cities.propose_correct_city_names_by_zip_clusters fdiv fge flt distance
      threshold vs' = Some out' ∧
    (∀ a b, uf_spec.same_cluster out a b ↔ uf_spec.same_cluster out' a b) ∧
    (2 ≤ length vs →
       uf_spec.partition_of vs out ∧ uf_spec.partition_of vs out' ∧
       ∀ a b, uf_spec.same_cluster out a b ↔
              a ∈ vs ∧ b ∈ vs ∧
              uf_spec.connected (fuzzy_spec.city_link fdiv fge flt distance threshold)
                vs a b).
Proof.
  intros Hsym Hnd Hp.
  set (link := fuzzy_spec.city_link fdiv fge flt distance threshold).
  assert (∀ l : list string, ∀ a b, a ∈ l → b ∈ l → a ≠ b → is_Some (link a b)) as Hdef.
  { intros l a b _ _. apply city_link_defined. }
  assert (∀ l : list string, ∀ a b, a ∈ l → b ∈ l → a ≠ b → link a b = link b a) as Hlsym.
  { intros l a b _ _ _. by apply city_link_sym. }
  assert (NoDup vs') as Hnd' by by rewrite <- Hp.
  rewrite !city_clusters_as_visit. rewrite <- (Permutation_length Hp).
  destruct (length vs <? 2) eqn:Hlen.
  { exists [], []. split; [done|]. split; [done|]. split; [done|].
    apply Nat.ltb_lt in Hlen. lia. }
  assert (NoDup (sort_by_len vs)) as Hs by by rewrite sort_by_len_perm.
  assert (NoDup (sort_by_len vs')) as Hs' by by rewrite sort_by_len_perm.
  destruct (clusters_in_order_spec link _ _ Hs (nested_pairs_covers _ Hs)
              (Hdef _) (Hlsym _)) as (out & Hrun & Hpart & Hchar).
  destruct (clusters_in_order_spec link _ _ Hs' (nested_pairs_covers _ Hs')
              (Hdef _) (Hlsym _)) as (out' & Hrun' & Hpart' & Hchar').
  assert (∀ a b, uf_spec.same_cluster out a b ↔
                 a ∈ vs ∧ b ∈ vs ∧ uf_spec.connected link vs a b) as Hc.
  { intros a b. rewrite Hchar, (connected_perm link _ vs a b (sort_by_len_perm vs)).
    by rewrite !sort_by_len_perm. }
  assert (∀ a b, uf_spec.same_cluster out' a b ↔
                 a ∈ vs ∧ b ∈ vs ∧ uf_spec.connected link vs a b) as Hc'.
  { intros a b. rewrite Hchar'.
    rewrite (connected_perm link _ vs a b); [|by rewrite sort_by_len_perm].
    by rewrite !sort_by_len_perm, <- !Hp. }
  exists out, out'. split; [done|]. split; [done|].
  split; [intros a b; by rewrite Hc, Hc'|].
  intros _. split_and!.
  - apply (partition_of_perm (sort_by_len vs)); [apply sort_by_len_perm|done].
  - apply (partition_of_perm (sort_by_len vs')); [|done]. by rewrite sort_by_len_perm.
  - exact Hc.
Qed.

Lemma city_clusters_do_not_depend_on_order_witness :
  ∃ out out',
    fuzzy_search_cities.propose_correct_city_names_by_zip_clusters fuzzy_spec.qdiv
      fuzzy_spec.qge fuzzy_spec.qlt fuzzy_spec.levenshtein fuzzy_spec.one_half
      fuzzy_spec.three_spellings = Some out ∧
    fuzzy_search_cities.propose_correct_city_names_by_zip_clusters fuzzy_spec.qdiv
      fuzzy_spec.qge fuzzy_spec.qlt fuzzy_spec.levenshtein fuzzy_spec.one_half
      (reverse fuzzy_spec.three_spellings) = Some out' ∧
    (∀ a b, uf_spec.same_cluster out a b ↔ uf_spec.same_cluster out' a b) ∧
    (2 ≤ length fuzzy_spec.three_spellings →
       uf_spec.partition_of fuzzy_spec.three_spellings out ∧
       uf_spec.partition_of fuzzy_spec.three_spellings out' ∧
       ∀ a b, uf_spec.same_cluster out a b ↔
              a ∈ fuzzy_spec.three_spellings ∧ b ∈ fuzzy_spec.three_spellings ∧
              uf_spec.connected
                (fuzzy_spec.city_link fuzzy_spec.qdiv fuzzy_spec.qge fuzzy_spec.qlt
                   fuzzy_spec.levenshtein fuzzy_spec.one_half)
                fuzzy_spec.three_spellings a b).
Proof.
  apply (city_clusters_do_not_depend_on_order fuzzy_spec.qdiv fuzzy_spec.qge
           fuzzy_spec.qlt fuzzy_spec.levenshtein fuzzy_spec.one_half
           fuzzy_spec.three_spellings (reverse fuzzy_spec.three_spellings)).
  - apply levenshtein_sym.
  - unfold fuzzy_spec.three_spellings. repeat (apply NoDup_cons; split; [set_solver|]).
    apply NoDup_nil_2.
  - symmetry. apply reverse_Permutation.
Defined.



Section rule2_order.

Lemma street_lt_irrefl df eid num c : rule2.street_lt df eid num c c = false.
Proof.
  unfold rule2.street_lt. cbv zeta.
  by rewrite Nat.ltb_irrefl, Nat.eqb_refl, string_ltb_irrefl.
Qed.

Lemma street_lt_trans df eid num a b c :
  rule2.street_lt df eid num a b = true → rule2.street_lt df eid num b c = true →
  rule2.street_lt df eid num a c = true.
Proof.
  unfold rule2.street_lt. cbv zeta.
  rewrite !orb_true_iff, !andb_true_iff, !Nat.ltb_lt, !Nat.eqb_eq.
  intros [?|[? ?]] [?|[? ?]]; try (left; lia).
  right. split; [lia|]. by eapply string_ltb_trans.
Qed.

Lemma street_lt_false df eid num best c :
  rule2.street_lt df eid num best c = false →
  rule2.freq_get df eid num c < rule2.freq_get df eid num best ∨
  (rule2.freq_get df eid num c = rule2.freq_get df eid num best ∧
   String.leb c best = true).
Proof.
  unfold rule2.street_lt. cbv zeta.
  rewrite orb_false_iff, andb_false_iff, Nat.ltb_ge, Nat.eqb_neq.
  intros [Hle [Hne|Hs]].
  - left. lia.
  - destruct (decide (rule2.freq_get df eid num c = rule2.freq_get df eid num best));
      [|left; lia].
    right. split; [done|]. by apply string_ltb_false_leb.
Qed.

Lemma string_leb_antisym a b :
  String.leb a b = true → String.leb b a = true → a = b.
Proof.
  unfold String.leb. rewrite (String.compare_antisym b a).
  destruct (String.compare a b) eqn:Hc; cbn; try done.
  intros _ _. by apply String.compare_eq_iff in Hc.
Qed.

(** The maximum of the original spellings of a cluster is the one
    spelling that [most_frequent_street] describes. *)
Lemma most_frequent_street_unique df g eid num cluster best best' :
  fuzzy_spec.most_frequent_street df g eid num cluster best →
  fuzzy_spec.most_frequent_street df g eid num cluster best' →
  best = best'.
Proof.
  intros [(r & Hr & Hn & <-) Hmax] [(r' & Hr' & Hn' & <-) Hmax'].
  destruct (Hmax r' Hr' Hn') as [?|[? ?]], (Hmax' r Hr Hn) as [?|[? ?]]; try lia.
  by apply string_leb_antisym.
Qed.

Lemma cluster_proposals_spec df g eid num cluster p :
  p ∈ rule2.cluster_proposals df g eid num cluster ↔
  ∃ r best, r ∈ g ∧ rule2.street_norm r ∈ cluster ∧
            fuzzy_spec.most_frequent_street df g eid num cluster best ∧
            rule2.street_text r ≠ best ∧ p = rule2.proposal_of_fix eid best r.
Proof.
  unfold rule2.cluster_proposals. cbv zeta.
  set (rows := filter (λ r, rule2.street_norm r ∈ cluster) g).
  assert (∀ r, r ∈ rows ↔ r ∈ g ∧ rule2.street_norm r ∈ cluster) as Hrows.
  { intros r. unfold rows. rewrite list_elem_of_filter. naive_solver. }
  assert (∀ x, x ∈ unique (map rule2.street_text rows) ↔
               ∃ r, r ∈ g ∧ rule2.street_norm r ∈ cluster ∧ rule2.street_text r = x)
    as Horig.
  { intros x. rewrite elem_of_unique, list_elem_of_fmap. split.
    - intros (r & -> & [? ?]%Hrows). by exists r.
    - intros (r & ? & ? & <-). exists r. split; [done|]. by apply Hrows. }
  destruct (unique (map rule2.street_text rows)) as [|first [|second rest]] eqn:Ho.
  - split; [by intros ?%elem_of_nil|].
    intros (r & best & Hr & Hn & _). exfalso.
    eapply (elem_of_nil (rule2.street_text r)), Horig. by exists r.
  - split; [by intros ?%elem_of_nil|].
    intros (r & best & Hr & Hn & [(r' & Hr' & Hn' & Hb) _] & Hne & _). exfalso.
    assert (rule2.street_text r = first) as E1.
    { apply list_elem_of_singleton, Horig. by exists r. }
    assert (best = first) as E2.
    { apply list_elem_of_singleton, Horig. by exists r'. }
    congruence.
  - destruct (py_max_from_spec (rule2.street_lt df eid num)
                (street_lt_irrefl df eid num) (street_lt_trans df eid num)
                first (second :: rest)) as [Hin Hmax].
    set (best0 := py_max_from (rule2.street_lt df eid num) first (second :: rest)) in *.
    assert (fuzzy_spec.most_frequent_street df g eid num cluster best0) as Hbest0.
    { split; [by apply Horig|].
      intros r Hr Hn. apply street_lt_false, Hmax, Horig. by exists r. }
    rewrite list_elem_of_fmap. split.
    + intros (r & -> & [Hne [Hr Hn]%Hrows]%list_elem_of_filter).
      by exists r, best0.
    + intros (r & best & Hr & Hn & Hbest & Hne & ->).
      assert (best = best0) as -> by by eapply most_frequent_street_unique.
      exists r. split; [done|]. apply list_elem_of_filter. split; [done|].
      by apply Hrows.
Qed.

End rule2_order.

(** X21.  Rule 2 on one (entity, house number) group never raises,
    whatever the distance, the threshold and the spellings.  It proposes
    exactly for the rows of the group whose street differs from the
    spelling their cluster is corrected to: the spelling on file on the
    most rows of the group among the rows of the cluster, ties going to
    the greatest literal.  A group whose rows all normalise to one
    spelling gets nothing, even when their literals differ, and no row
    is given two different spellings. *)
Theorem rule2_corrects_a_cluster_to_its_most_frequent_spelling {F : Type}
    (fdiv : nat → nat → F) (fge flt : F → F → bool) (distance : string → string → nat)
    (threshold : F) (df : list merged_row) (eid : string) (num : value) :
  let g := filter (λ r, v_EID_1 r = eid ∧ v_num1_c r = num) df in
  let norms := unique (map rule2.street_norm g) in
  ∃ out props,
    fuzzy_search.propose_street_name_corrections_clusters fdiv fge flt distance
      threshold norms = Some out ∧
    rule2.group_proposals fdiv fge flt distance threshold df eid num = Some props ∧
    (length norms < 2 → props = []) ∧
    (∀ p, p ∈ props ↔
          ∃ r root cluster best,
            (root, cluster) ∈ out ∧ r ∈ g ∧ rule2.street_norm r ∈ cluster ∧
            fuzzy_spec.most_frequent_street df g eid num cluster best ∧
            rule2.street_text r ≠ best ∧ p = rule2.proposal_of_fix eid best r) ∧
    (∀ r best best',
       rule2.proposal_of_fix eid best r ∈ props →
       rule2.proposal_of_fix eid best' r ∈ props → best = best') ∧
    (∀ best r,
       helpers.EID_context (rule2.proposal_of_fix eid best r) = Some eid ∧
       helpers.column_to_change (rule2.proposal_of_fix eid best r) = helpers.streetName_c ∧
       helpers.original_AID (rule2.proposal_of_fix eid best r) = v_AID r ∧
       helpers.original_value (rule2.proposal_of_fix eid best r) = v_streetName_c r ∧
       helpers.proposed_value (rule2.proposal_of_fix eid best r) = Str best).
Proof.
  intros g norms.
  destruct (street_clusters_defined fdiv fge flt distance threshold norms)
    as (out & Hrun & Hnd & Hshort & Hcl); [apply NoDup_unique|].
  exists out, (flat_map (λ cl, rule2.cluster_proposals df g eid num cl.2) out).
  assert (∀ p, p ∈ flat_map (λ cl, rule2.cluster_proposals df g eid num cl.2) out ↔
               ∃ r root cluster best,
                 (root, cluster) ∈ out ∧ r ∈ g ∧ rule2.street_norm r ∈ cluster ∧
                 fuzzy_spec.most_frequent_street df g eid num cluster best ∧
                 rule2.street_text r ≠ best ∧ p = rule2.proposal_of_fix eid best r)
    as Hiff.
  { intros p. rewrite elem_of_flat_map. split.
    - intros ([root cluster] & Hin & (r & best & ? & ? & ? & ? & ?)%cluster_proposals_spec).
      by exists r, root, cluster, best.
    - intros (r & root & cluster & best & Hin & ? & ? & ? & ? & ?).
      exists (root, cluster). split; [done|]. apply cluster_proposals_spec.
      by exists r, best. }
  split; [done|]. split.
  { unfold rule2.group_proposals. cbv zeta. fold g. fold norms. by rewrite Hrun. }
  split; [by intros ->%Hshort|]. split; [done|]. split; [|done].
  intros r best best' Hp Hp'.
  apply Hiff in Hp as (r1 & root1 & cl1 & b1 & Hin1 & Hr1 & Hn1 & Hb1 & _ & E1).
  apply Hiff in Hp' as (r2 & root2 & cl2 & b2 & Hin2 & Hr2 & Hn2 & Hb2 & _ & E2).
  injection E1 as _ Hs1 ->. injection E2 as _ Hs2 ->.
  assert (rule2.street_norm r1 = rule2.street_norm r2) as Hn.
  { unfold rule2.street_norm, rule2.street_text. congruence. }
  assert (cl1 = cl2) as ->.
  { apply (NoDup_concat_unique (map snd out) cl1 cl2 (rule2.street_norm r1) Hnd).
    - apply list_elem_of_fmap. by exists (root1, cl1).
    - apply list_elem_of_fmap. by exists (root2, cl2).
    - done.
    - by rewrite Hn. }
  by eapply most_frequent_street_unique.
Qed.

(** In the group of "E1" at number 12 the rows spelled "Oak " and "oat"
    are given "oak", on file twice; with the rows "oak" and "Oak " alone
    the group has one normalised spelling and nothing is proposed. *)
Lemma rule2_group_example :
  rule2.group_proposals fuzzy_spec.qdiv fuzzy_spec.qge fuzzy_spec.qlt
    fuzzy_spec.levenshtein fuzzy_spec.one_half fuzzy_spec.street_rows "E1" (Str "12")
  = Some [rule2.proposal_of_fix "E1" "oak" (fuzzy_spec.street_row 3 (Str "Oak "));
          rule2.proposal_of_fix "E1" "oak" (fuzzy_spec.street_row 4 (Str "oat"))] ∧
  rule2.group_proposals fuzzy_spec.qdiv fuzzy_spec.qge fuzzy_spec.qlt
    fuzzy_spec.levenshtein fuzzy_spec.one_half
    [fuzzy_spec.street_row 1 (Str "oak"); fuzzy_spec.street_row 3 (Str "Oak ")]
    "E1" (Str "12")
  = Some [].
Proof. split; vm_compute; reflexivity. Qed.

(** ** More on [main] *)

Section entry_point_more.
Import helpers main main_spec splitter_spec.
Context {F : Type}.
Variable fdiv : nat → nat → F.
Variables fge flt : F → F → bool.
Variable distance : string → string → nat.
Variable num1_lt : value → value → bool.
Variables STREET_THRESHOLD CITY_THRESHOLD : F.



End entry_point_more.

Section entry_point_more_witness.
Import helpers main main_spec splitter_spec.


End entry_point_more_witness.
